(** * Random crystal generation under space-group symmetry

    A shallow embedding of [crystallography/crystal.py] and of the helpers
    of [crystallography/operations.py] it calls, with the properties of the
    lattice sampler, the Wyckoff engine, the distance checker and the
    generator's nested retry loop.

    Conventions of the embedding.
    - A Python or numpy float is a real number of [R]; rounding is not
      modelled.  An operation without a real result (division by zero,
      [math.sqrt] or [math.acos] outside their domain, a fractional power
      of a negative float) stops the call with the exception Python raises
      for floats.
    - The two random generators ([random] and [numpy.random]) are tapes of
      draws held in the [world]; a loop that redraws until a test passes
      recurses on its tape, and an exhausted tape is the outcome [Starved].
    - [print] appends a [message] to the [stdout] of the world.
    - Data that lives outside the two source files (the symmetry tables,
      the element database, pymatgen's symbol table, the recognition of a
      Wyckoff position from the tabulated site symmetries) is a [Variable]
      of the section. *)

From Stdlib Require Import Ascii String.
From Stdlib Require Import Reals Lra Lia RNsatz ZArith List Bool.
Import ListNotations.

#[local] Open Scope R_scope.

(** ** Exceptions and the two monads *)

Inductive exn : Type :=
| ValueError
| ZeroDivisionError
| TypeError
| NameError
| IndexError
| OutOfFuel.   (* not a Python exception: the bound that the model puts on a
                  loop or on the depth of a recursion was reached *)

(** A pure computation that may raise. *)
Inductive exc (A : Type) : Type :=
| Val (a : A)
| Exn (e : exn).

Arguments Val {A} a.
Arguments Exn {A} e.

Definition exc_bind {A B : Type} (m : exc A) (k : A -> exc B) : exc B :=
  match m with
  | Val a => k a
  | Exn e => Exn e
  end.

Notation "'do' x <- m ; k" := (exc_bind m (fun x => k))
  (at level 10, x pattern, m at level 100, k at level 200).

(** [[f(x) for x in l]] for an [f] that may raise. *)
Fixpoint exc_map {A B : Type} (f : A -> exc B) (l : list A) : exc (list B) :=
  match l with
  | [] => Val []
  | x :: l' => do y <- f x; do ys <- exc_map f l'; Val (y :: ys)
  end.

(** What the program prints. *)
Inductive message : Type :=
| Msg1   (* 'Error: the number is incompatible with the wyckoff sites choice' *)
| MsgNoFreedom   (* "Wyckoff positions have no degrees of freedom." *)
| MsgLattice (attempts : nat) (volume : R)
    (* "Error: Could not generate lattice after n attempts for volume v" *)
| MsgVolume (volume det : R)
    (* 'Error, volume is not equal to the estimated value: ' *)
| MsgCellPara (a b c alpha beta gamma : R).   (* 'cell_para:  ' *)

Record world : Type := mkWorld {
  normals : list R;    (* standard normal draws behind np.random.normal *)
  uniforms : list R;   (* draws of random.uniform(0,1) and np.random.random *)
  picks : list nat;    (* the index drawn by random.choice *)
  stdout : list message
}.

Inductive outcome (A : Type) : Type :=
| Ok (a : A) (w : world)
| Raised (e : exn)
| Exited (w : world)   (* sys.exit(0) *)
| Starved.             (* a tape ran out *)

Arguments Ok {A} a w.
Arguments Raised {A} e.
Arguments Exited {A} w.
Arguments Starved {A}.

Definition M (A : Type) : Type := world -> outcome A.

Definition ret {A : Type} (a : A) : M A := fun w => Ok a w.

Definition bind {A B : Type} (m : M A) (k : A -> M B) : M B :=
  fun w =>
    match m w with
    | Ok a w' => k a w'
    | Raised e => Raised e
    | Exited w' => Exited w'
    | Starved => Starved
    end.

Notation "'run' x <- m ; k" := (bind m (fun x => k))
  (at level 10, x pattern, m at level 100, k at level 200).

Definition lift {A : Type} (m : exc A) : M A :=
  fun w => match m with Val a => Ok a w | Exn e => Raised e end.

Definition raise {A : Type} (e : exn) : M A := fun _ => Raised e.

Definition print (msg : message) : M unit :=
  fun w => Ok tt (mkWorld (normals w) (uniforms w) (picks w) (stdout w ++ [msg])).

(** [np.random.normal(scale=scale, loc=loc)]: numpy refuses a negative scale. *)
Definition np_random_normal (loc scale : R) : M R :=
  fun w =>
    if Rlt_dec scale 0 then Raised ValueError
    else match normals w with
         | [] => Starved
         | z :: zs => Ok (loc + scale * z) (mkWorld zs (uniforms w) (picks w) (stdout w))
         end.

(** One draw in [0, 1): [random.random()], or a component of
    [np.random.random]. *)
Definition draw_uniform : M R :=
  fun w =>
    match uniforms w with
    | [] => Starved
    | u :: us => Ok u (mkWorld (normals w) us (picks w) (stdout w))
    end.

(** [random.uniform(a, b)], computed as [a + (b-a) * random()]. *)
Definition rand (a b : R) : M R :=
  run u <- draw_uniform;
  ret (a + (b - a) * u).

(** [np.random.random(3)]. *)
Definition np_random_random3 : M (R * R * R) :=
  run x <- draw_uniform;
  run y <- draw_uniform;
  run z <- draw_uniform;
  ret (x, y, z).

(** [random.choice(seq)]: raises IndexError on an empty sequence. *)
Definition choose {A : Type} (seq : list A) : M A :=
  fun w =>
    match seq with
    | [] => Raised IndexError
    | x :: _ =>
        match picks w with
        | [] => Starved
        | k :: ks =>
            Ok (nth (k mod length seq) seq x)
               (mkWorld (normals w) (uniforms w) ks (stdout w))
        end
    end.

(** ** Floats as reals *)

Definition Rltb (x y : R) : bool := if Rlt_dec x y then true else false.
Definition Rleb (x y : R) : bool := if Rle_dec x y then true else false.
Definition Reqb (x y : R) : bool := if Req_dec_T x y then true else false.

(** [x / y] on floats. *)
Definition fdiv (x y : R) : exc R :=
  if Reqb y 0 then Exn ZeroDivisionError else Val (x / y).

(** [math.sqrt]. *)
Definition py_sqrt (x : R) : exc R :=
  if Rltb x 0 then Exn ValueError else Val (sqrt x).

(** [math.acos]. *)
Definition py_acos (x : R) : exc R :=
  if Rltb x (-1) then Exn ValueError
  else if Rltb 1 x then Exn ValueError
  else Val (acos x).

(** [np.cbrt]: the real cube root, odd in its argument. *)
Definition cbrt (x : R) : R :=
  if Rltb 0 x then Rpower x (1 / 3)
  else if Rltb x 0 then - Rpower (- x) (1 / 3)
  else 0.

(** [volume ** (1./3.)]: a negative float gives a complex number, which the
    comparisons that follow refuse with a TypeError. *)
Definition pow_third (x : R) : exc R :=
  if Rltb x 0 then Exn TypeError else Val (cbrt x).

(** [np.isclose(a, b)] with numpy's default tolerances. *)
Definition isclose (a b : R) : bool :=
  Rleb (Rabs (a - b)) (1 / 100000000 + 1 / 100000 * Rabs b).

(** [np.floor] and [np.round] (round half to even). *)
Definition np_floor (x : R) : R := IZR (Zfloor x).

Definition np_round (x : R) : R :=
  let f := Zfloor x in
  let r := x - IZR f in
  if Rltb r (1 / 2) then IZR f
  else if Rltb (1 / 2) r then IZR (f + 1)
  else if Z.even f then IZR f else IZR (f + 1).

(** ** Vectors and matrices *)

Definition vec3 : Type := (R * R * R)%type.
Definition mat3 : Type := (vec3 * vec3 * vec3)%type.

Definition vadd (u v : vec3) : vec3 :=
  let '(u0, u1, u2) := u in let '(v0, v1, v2) := v in (u0 + v0, u1 + v1, u2 + v2).

Definition vsub (u v : vec3) : vec3 :=
  let '(u0, u1, u2) := u in let '(v0, v1, v2) := v in (u0 - v0, u1 - v1, u2 - v2).

Definition vmap (f : R -> R) (u : vec3) : vec3 :=
  let '(u0, u1, u2) := u in (f u0, f u1, f u2).

Definition vscale (k : R) (u : vec3) : vec3 := vmap (Rmult k) u.

Definition dot (u v : vec3) : R :=
  let '(u0, u1, u2) := u in let '(v0, v1, v2) := v in u0 * v0 + u1 * v1 + u2 * v2.

(** [np.linalg.norm]. *)
Definition norm (u : vec3) : R := sqrt (dot u u).

(** [np.dot(v, m)] for a row vector [v]. *)
Definition vecmat (v : vec3) (m : mat3) : vec3 :=
  let '(v0, v1, v2) := v in
  let '(r0, r1, r2) := m in
  vadd (vadd (vscale v0 r0) (vscale v1 r1)) (vscale v2 r2).

(** [np.dot(m, v)] for a column vector [v]. *)
Definition matvec (m : mat3) (v : vec3) : vec3 :=
  let '(r0, r1, r2) := m in (dot r0 v, dot r1 v, dot r2 v).

(** [np.linalg.det]. *)
Definition det3 (m : mat3) : R :=
  let '((m00, m01, m02), (m10, m11, m12), (m20, m21, m22)) := m in
  m00 * (m11 * m22 - m12 * m21)
  - m01 * (m10 * m22 - m12 * m20)
  + m02 * (m10 * m21 - m11 * m20).

(** Component [i] of a vector; Python's negative indices are not used by the
    callers modelled here except [PBC - 1], handled where it occurs. *)
Definition vget (u : vec3) (i : nat) : R :=
  let '(u0, u1, u2) := u in
  match i with 0%nat => u0 | 1%nat => u1 | _ => u2 end.

Definition vset (u : vec3) (i : nat) (x : R) : vec3 :=
  let '(u0, u1, u2) := u in
  match i with 0%nat => (x, u1, u2) | 1%nat => (u0, x, u2) | _ => (u0, u1, x) end.

(** The minimum of a non-empty list, [np.min]; and the index of its first
    occurrence, [np.argmin]. *)
Definition list_min (x : R) (l : list R) : R := fold_left Rmin l x.

Fixpoint index_of_first (m : R) (l : list R) : nat :=
  match l with
  | [] => 0
  | x :: l' => if Reqb x m then 0 else S (index_of_first m l')
  end.

(** ** Lattice parameters and matrices (operations.angle, para2matrix,
       matrix2para) *)

Record CellPara : Type := mkCellPara {
  cp_a : R; cp_b : R; cp_c : R;
  cp_alpha : R; cp_beta : R; cp_gamma : R
}.

(** [operations.angle(v1, v2)]. *)
Definition angle (v1 v2 : vec3) : exc R :=
  let d := dot v1 v2 in
  if isclose d 1 then Val 0
  else if isclose d (-1) then Val PI
  else do q <- fdiv d (norm v1 * norm v2); py_acos q.

(** [para2matrix(cell_para)] with its defaults [radians=True] and
    [format='lower']. *)
Definition para2matrix (cell_para : CellPara) : exc mat3 :=
  let a := cp_a cell_para in
  let b := cp_b cell_para in
  let c := cp_c cell_para in
  let alpha := cp_alpha cell_para in
  let beta := cp_beta cell_para in
  let gamma := cp_gamma cell_para in
  let cos_alpha := cos alpha in
  let cos_beta := cos beta in
  let cos_gamma := cos gamma in
  let sin_gamma := sin gamma in
  let c1 := c * cos_beta in
  do c2 <- fdiv (c * (cos_alpha - cos_beta * cos_gamma)) sin_gamma;
  do m22 <- py_sqrt (c ^ 2 - c1 ^ 2 - c2 ^ 2);
  Val ((a, 0, 0), (b * cos_gamma, b * sin_gamma, 0), (c1, c2, m22)).

(** [matrix2para(matrix)] with its default [radians=True]. *)
Definition matrix2para (matrix : mat3) : exc CellPara :=
  let '(m0, m1, m2) := matrix in
  do alpha <- angle m1 m2;
  do beta <- angle m0 m2;
  do gamma <- angle m0 m1;
  Val (mkCellPara (norm m0) (norm m1) (norm m2) alpha beta gamma).

(** ** Random draws of the lattice sampler *)

Definition set_normals (w : world) (zs : list R) : world :=
  mkWorld zs (uniforms w) (picks w) (stdout w).

(** The loop of [gaussian]: redraw [x = np.random.normal(scale=ratio,
    loc=center)] until [x > min and x < max]. *)
Fixpoint gaussian_loop (center ratio min max : R) (zs : list R) : option (R * list R) :=
  match zs with
  | [] => None
  | z :: zs' =>
      let x := center + ratio * z in
      if Rltb min x && Rltb x max then Some (x, zs')
      else gaussian_loop center ratio min max zs'
  end.

(** [gaussian(min, max)] with its default [sigma=3.0]. *)
Definition gaussian (min max : R) : M R :=
  let center := (max + min) * (1 / 2) in
  let delta := Rabs (max - min) * (1 / 2) in
  let ratio := delta / 3 in
  fun w =>
    match gaussian_loop center ratio min max (normals w) with
    | Some (x, zs) => Ok x (set_normals w zs)
    | None => Starved
    end.

(** The loop of [operations.random_shear_matrix]: three normal draws per
    round, until the determinant is not 0. *)
Fixpoint shear_loop (width : R) (zs : list R) : option (mat3 * list R) :=
  match zs with
  | z1 :: z2 :: z3 :: zs' =>
      let a := 0 + width * z1 in
      let b := 0 + width * z2 in
      let c := 0 + width * z3 in
      let mat := ((1, a, b), (a, 1, c), (b, c, 1)) in
      if Reqb (det3 mat) 0 then shear_loop width zs' else Some (mat, zs')
  | _ => None
  end.

(** [operations.random_shear_matrix(width)] with [unitary=False]. *)
Definition random_shear_matrix (width : R) : M mat3 :=
  fun w =>
    if Rltb width 0 then Raised ValueError
    else match shear_loop width (normals w) with
         | Some (mat, zs) => Ok mat (set_normals w zs)
         | None => Starved
         end.

(** [operations.random_vector()] with its defaults [width=0.35],
    [unit=False]. *)
Definition random_vector : M vec3 :=
  run n0 <- np_random_normal 0 (35 / 100);
  run n1 <- np_random_normal 0 (35 / 100);
  run n2 <- np_random_normal 0 (35 / 100);
  ret (exp n0, exp n1, exp n2).

(** ** The lattice sampler (generate_lattice) *)

(** The three scaled lengths [vec[i]*np.cbrt(abc)/np.cbrt(xyz)]. *)
Definition scaled_lengths (vec : vec3) (abc : R) : vec3 :=
  let '(v0, v1, v2) := vec in
  let xyz := v0 * v1 * v2 in
  (v0 * cbrt abc / cbrt xyz, v1 * cbrt abc / cbrt xyz, v2 * cbrt abc / cbrt xyz).

(** One round of the [for] loop before the acceptance test: the branch of
    the crystal family, chosen by the space-group number. *)
Definition sample_cell (sg : Z) (volume minangle maxangle : R) : M CellPara :=
  if (sg <=? 2)%Z then
    (* Triclinic *)
    run mat <- random_shear_matrix (2 / 10);
    run p <- lift (matrix2para mat);
    let alpha := cp_alpha p in
    let beta := cp_beta p in
    let gamma := cp_gamma p in
    run x <- lift (py_sqrt (1 - cos alpha ^ 2 - cos beta ^ 2 - cos gamma ^ 2
                            + 2 * (cos alpha * cos beta * cos gamma)));
    run vec <- random_vector;
    run abc <- lift (fdiv volume x);
    let '(a, b, c) := scaled_lengths vec abc in
    ret (mkCellPara a b c alpha beta gamma)
  else if (sg <=? 15)%Z then
    (* Monoclinic *)
    let alpha := PI / 2 in
    let gamma := PI / 2 in
    run beta <- gaussian minangle maxangle;
    let x := sin beta in
    run vec <- random_vector;
    run abc <- lift (fdiv volume x);
    let '(a, b, c) := scaled_lengths vec abc in
    ret (mkCellPara a b c alpha beta gamma)
  else if (sg <=? 74)%Z then
    (* Orthorhombic *)
    let x := 1 in
    run vec <- random_vector;
    run abc <- lift (fdiv volume x);
    let '(a, b, c) := scaled_lengths vec abc in
    ret (mkCellPara a b c (PI / 2) (PI / 2) (PI / 2))
  else if (sg <=? 142)%Z then
    (* Tetragonal *)
    let x := 1 in
    run vec <- random_vector;
    let '(v0, v1, v2) := vec in
    run vx <- lift (fdiv volume x);
    let c := v2 / (v0 * v1) * cbrt vx in
    run q <- lift (fdiv vx c);
    run a <- lift (py_sqrt q);
    ret (mkCellPara a a c (PI / 2) (PI / 2) (PI / 2))
  else if (sg <=? 194)%Z then
    (* Trigonal/Rhombohedral/Hexagonal *)
    let x := sqrt 3 / 2 in
    run vec <- random_vector;
    let '(v0, v1, v2) := vec in
    run vx <- lift (fdiv volume x);
    let c := v2 / (v0 * v1) * cbrt vx in
    run q <- lift (fdiv vx c);
    run a <- lift (py_sqrt q);
    ret (mkCellPara a a c (PI / 2) (PI / 2) (PI / 3 * 2))
  else
    (* Cubic *)
    run s <- lift (pow_third volume);
    ret (mkCellPara s s s (PI / 2) (PI / 2) (PI / 2)).

(** [min(a*cos(max(beta, gamma)), b*cos(max(alpha, gamma)),
    c*cos(max(alpha, beta)))]. *)
Definition smallvec (p : CellPara) : R :=
  Rmin (Rmin (cp_a p * cos (Rmax (cp_beta p) (cp_gamma p)))
             (cp_b p * cos (Rmax (cp_alpha p) (cp_gamma p))))
       (cp_c p * cos (Rmax (cp_alpha p) (cp_beta p))).

(** The condition of the inner [if]: the lattice meets the requirements.
    The ratios are reached only when the comparisons before them hold, and
    then no length is 0. *)
Definition meets_requirements (minvec minangle maxangle max_ratio maxvec : R)
    (p : CellPara) : bool :=
  let a := cp_a p in
  let b := cp_b p in
  let c := cp_c p in
  let alpha := cp_alpha p in
  let beta := cp_beta p in
  let gamma := cp_gamma p in
  Rltb minvec a && Rltb minvec b && Rltb minvec c
  && Rltb a maxvec && Rltb b maxvec && Rltb c maxvec
  && Rltb (smallvec p) minvec
  && Rltb minangle alpha && Rltb minangle beta && Rltb minangle gamma
  && Rltb alpha maxangle && Rltb beta maxangle && Rltb gamma maxangle
  && Rltb (a / b) max_ratio && Rltb (a / c) max_ratio && Rltb (b / c) max_ratio
  && Rltb (b / a) max_ratio && Rltb (c / a) max_ratio && Rltb (c / b) max_ratio.

(** The rounds of [for n in range(maxattempts)] that are left, and what
    follows the loop. *)
Fixpoint lattice_rounds (sg : Z) (volume minvec minangle max_ratio : R)
    (maxattempts rounds : nat) : M (option CellPara) :=
  match rounds with
  | O =>
      run _ <- print (MsgLattice maxattempts volume);
      ret None
  | S rounds' =>
      let maxangle := PI - minangle in
      run p <- sample_cell sg volume minangle maxangle;
      run maxvec <- lift (fdiv (cp_a p * cp_b p * cp_c p) (minvec ^ 2));
      if Rltb minvec maxvec
         && meets_requirements minvec minangle maxangle max_ratio maxvec p
      then ret (Some p)
      else lattice_rounds sg volume minvec minangle max_ratio maxattempts rounds'
  end.

(** [generate_lattice(sg, volume, minvec, minangle, max_ratio, maxattempts)].
    With no round at all the message after the loop reads the unbound [n]. *)
Definition generate_lattice (sg : Z) (volume minvec minangle max_ratio : R)
    (maxattempts : nat) : M (option CellPara) :=
  match maxattempts with
  | O => raise NameError
  | S _ => lattice_rounds sg volume minvec minangle max_ratio maxattempts maxattempts
  end.

(** ** Symmetry operations and Wyckoff positions *)

(** pymatgen's [SymmOp]: a rotation matrix and a translation vector. *)
Record SymmOp : Type := mkSymmOp {
  rotation_matrix : mat3;
  translation_vector : vec3
}.

(** [op.operate(point)]. *)
Definition operate (op : SymmOp) (point : vec3) : vec3 :=
  vadd (matvec (rotation_matrix op) point) (translation_vector op).

(** A Wyckoff position is the list of its operations; its multiplicity is
    the length of the list. *)
Abbreviation wyckoff_position := (list SymmOp) (only parsing).

Definition multiplicity (wp : wyckoff_position) : Z := Z.of_nat (length wp).

(** The nine entries of a matrix, row by row. *)
Definition entries (m : mat3) : list R :=
  let '((m00, m01, m02), (m10, m11, m12), (m20, m21, m22)) := m in
  [m00; m01; m02; m10; m11; m12; m20; m21; m22].

Definition ventries (v : vec3) : list R := let '(x, y, z) := v in [x; y; z].

(** [np.allclose(a, b, rtol, atol)] on arrays of one shape. *)
Fixpoint allclose (rtol atol : R) (a b : list R) : bool :=
  match a, b with
  | x :: a', y :: b' => Rleb (Rabs (x - y)) (atol + rtol * Rabs y) && allclose rtol atol a' b'
  | _, _ => true
  end.

(** [SymmOp.__eq__]: [np.allclose] of the affine matrices with
    [atol = 0.01]. *)
Definition symmop_eqb (op1 op2 : SymmOp) : bool :=
  allclose (1 / 100000) (1 / 100)
    (entries (rotation_matrix op1) ++ ventries (translation_vector op1))
    (entries (rotation_matrix op2) ++ ventries (translation_vector op2)).

(** [==] on two lists of operations, and [wp in removed_wyckoffs]. *)
Fixpoint wp_eqb (wp1 wp2 : wyckoff_position) : bool :=
  match wp1, wp2 with
  | [], [] => true
  | op1 :: wp1', op2 :: wp2' => symmop_eqb op1 op2 && wp_eqb wp1' wp2'
  | _, _ => false
  end.

Definition wp_in (wp : wyckoff_position) (l : list wyckoff_position) : bool :=
  existsb (wp_eqb wp) l.

(** [acc[-1].append(x)] on a list of lists. *)
Definition append_to_last {A : Type} (acc : list (list A)) (x : A) : list (list A) :=
  removelast acc ++ [last acc [] ++ [x]].

(** The grouping loop of [get_wyckoffs(sg, organized=True)]. *)
Fixpoint organize (wyckoffs : list wyckoff_position) (old : nat)
    (wyckoffs_organized : list (list wyckoff_position)) : list (list wyckoff_position) :=
  match wyckoffs with
  | [] => wyckoffs_organized
  | wp :: rest =>
      let mult := length wp in
      if negb (mult =? old)%nat
      then organize rest mult (append_to_last (wyckoffs_organized ++ [[]]) wp)
      else organize rest old (append_to_last wyckoffs_organized wp)
  end.

(** What the claims call an organized list: every group holds at least one
    position, and the positions of a group share the multiplicity of its
    first one. *)
Definition uniform_group (g : list wyckoff_position) : Prop :=
  match g with
  | [] => False
  | w0 :: _ => forall w, In w g -> length w = length w0
  end.

Definition organized (wyckoffs : list (list wyckoff_position)) : Prop :=
  Forall uniform_group wyckoffs.

(** ** choose_wyckoff *)

(** The first branch: the first group whose first position fits. *)
Fixpoint first_fitting_group (wyckoffs : list (list wyckoff_position)) (number : Z)
    : exc (option (list wyckoff_position)) :=
  match wyckoffs with
  | [] => Val None
  | wyckoff :: rest =>
      match wyckoff with
      | [] => Exn IndexError
      | w0 :: _ =>
          if (multiplicity w0 <=? number)%Z then Val (Some wyckoff)
          else first_fitting_group rest number
      end
  end.

(** The second branch: [good_wyckoff], the positions of every group whose
    first position fits. *)
Fixpoint good_wyckoff (wyckoffs : list (list wyckoff_position)) (number : Z)
    : exc (list wyckoff_position) :=
  match wyckoffs with
  | [] => Val []
  | wyckoff :: rest =>
      match wyckoff with
      | [] => Exn IndexError
      | w0 :: _ =>
          do good <- good_wyckoff rest number;
          if (multiplicity w0 <=? number)%Z then Val (wyckoff ++ good) else Val good
      end
  end.

(** [choose_wyckoff(wyckoffs, number)]; [None] is the [False] it returns
    when nothing fits. *)
Definition choose_wyckoff (wyckoffs : list (list wyckoff_position)) (number : Z)
    : M (option wyckoff_position) :=
  run u <- rand 0 1;
  if Rltb (1 / 2) u then
    run g <- lift (first_fitting_group wyckoffs number);
    match g with
    | Some wyckoff => run wp <- choose wyckoff; ret (Some wp)
    | None => ret None
    end
  else
    run good <- lift (good_wyckoff wyckoffs number);
    if (0 <? length good)%nat then run wp <- choose good; ret (Some wp)
    else ret None.

(** ** Periodic images and distances *)

(** [create_matrix(PBC)]: the offsets to the neighbouring cells. *)
Definition create_matrix (PBC : option nat) : list vec3 :=
  let full := [-1; 0; 1] in
  let i_list := match PBC with Some 1%nat => [0] | _ => full end in
  let j_list := match PBC with Some 2%nat => [0] | _ => full end in
  let k_list := match PBC with Some 3%nat => [0] | _ => full end in
  flat_map (fun i => flat_map (fun j => map (fun k => (i, j, k)) k_list) j_list) i_list.

(** [np.dot(rows, lattice)] for an array built from a list of points: the
    array of an empty list has shape (0,), which [np.dot] refuses. *)
Definition np_dot_rows (rows : list vec3) (lattice : mat3) : exc (list vec3) :=
  match rows with
  | [] => Exn ValueError
  | _ => Val (map (fun r => vecmat r lattice) rows)
  end.

(** [np.min(cdist(xs, ys))] for non-empty [xs] and [ys]. *)
Definition min_cdist (xs ys : list vec3) : exc R :=
  match flat_map (fun x => map (fun y => norm (vsub x y)) ys) xs with
  | [] => Exn ValueError
  | d :: ds => Val (list_min d ds)
  end.

(** [distance(xyz, lattice)] with its default [PBC=None]. *)
Definition distance (xyz : vec3) (lattice : mat3) (PBC : option nat) : R :=
  let xyz := vsub xyz (vmap np_round xyz) in
  let matrix := map (fun m => vecmat (vadd m xyz) lattice) (create_matrix PBC) in
  list_min (norm (hd (0, 0, 0) matrix)) (map norm (tl matrix)).

Section Generator.

#[local] Set Default Proof Using "Type".

(** ** What is decided outside the two source files *)

(** [eval(wyckoff_df["0"][sg])] with every string read by
    [SymmOp.from_xyz_string]: the Wyckoff positions of a space group, the
    general position first. *)
Variable wyckoff_table : Z -> list wyckoff_position.

(** [check_wyckoff_position(points, sg, exact_translation=False)]: the index
    of the Wyckoff position that the points occupy, or [None] for its
    [False].  The function is part of crystal.py, but what it returns is
    decided by the tabulated site symmetries ([wyckoff_symmetry.csv]) and
    by pymatgen's product of symmetry operations; the embedding takes its
    result as given, exceptions included. *)
Variable check_wyckoff_position : list vec3 -> Z -> exc (option nat).

(** [Element(specie).covalent_radius] and [Element(specie).z]. *)
Variable covalent_radius : string -> R.
Variable atomic_number : string -> Z.

(** pymatgen's [sg_symbol_from_int_number]. *)
Variable sg_symbol_from_int_number : Z -> string.

(** ** The distance checker (check_distance) *)

(** The loop over the orbits already placed and their species. *)
Fixpoint check_distance_loop (placed : list (list vec3 * string)) (coord2 : list vec3)
    (specie2 : string) (lattice : mat3) (d_factor : R) : exc bool :=
  match placed with
  | [] => Val true
  | (coord, element) :: rest =>
      do coord' <- np_dot_rows coord lattice;
      do d_min <- min_cdist coord' coord2;
      let tol := d_factor * (1 / 2) * (covalent_radius element + covalent_radius specie2) in
      if Rltb d_min tol then Val false
      else check_distance_loop rest coord2 specie2 lattice d_factor
  end.

(** [check_distance(coord1, coord2, specie1, specie2, lattice, PBC,
    d_factor)]. *)
Definition check_distance (coord1 : list (list vec3)) (coord2 : list vec3)
    (specie1 : list string) (specie2 : string) (lattice : mat3)
    (PBC : option nat) (d_factor : R) : exc bool :=
  let matrix := create_matrix PBC in
  let coord2s := flat_map (fun coord => map (fun m => vadd coord m) matrix) coord2 in
  do coord2' <- np_dot_rows coord2s lattice;
  if (0 <? length coord1)%nat
  then check_distance_loop (combine coord1 specie1) coord2' specie2 lattice d_factor
  else Val true.

(** ** Short distances inside an orbit (find_short_dist) *)

(** The index pairs [i1 < i2] in the order of the two nested loops. *)
Definition index_pairs (n : nat) : list (nat * nat) :=
  flat_map (fun i1 => map (fun i2 => (i1, i2)) (seq (S i1) (n - S i1))) (seq 0 (n - 1)).

(** [graph[i].append(x)]. *)
Fixpoint graph_append (graph : list (list nat)) (i x : nat) : list (list nat) :=
  match graph, i with
  | [], _ => []
  | g :: rest, O => (g ++ [x]) :: rest
  | g :: rest, S i' => g :: graph_append rest i' x
  end.

(** The edges of the kept pairs, both ways. *)
Fixpoint add_edges (pairs : list (nat * nat * R)) (graph : list (list nat)) : list (list nat) :=
  match pairs with
  | [] => graph
  | (pair0, pair1, _) :: rest =>
      add_edges rest (graph_append (graph_append graph pair0 pair1) pair1 pair0)
  end.

(** [find_short_dist(coor, lattice, tol)]: the pairs at the shortest
    distance (within 0.001 of it) among those not farther than [tol], and
    the graph they span. *)
Definition find_short_dist (coor : list vec3) (lattice : mat3) (tol : R)
    : list (nat * nat * R) * list (list nat) :=
  let graph := repeat [] (length coor) in
  let pairs :=
    flat_map (fun '(i1, i2) =>
                let dist := distance (vsub (nth i1 coor (0, 0, 0)) (nth i2 coor (0, 0, 0)))
                                     lattice None in
                if Rleb dist tol then [(i1, i2, dist)] else [])
             (index_pairs (length coor)) in
  match pairs with
  | [] => ([], graph)
  | (_, _, d0) :: rest =>
      let d_min := list_min d0 (map snd rest) + 1 / 1000 in
      let pairs := filter (fun p => Rleb (snd p) d_min) pairs in
      (pairs, add_edges pairs graph)
  end.

(** ** Connected components *)

Definition mem (x : nat) (l : list nat) : bool := existsb (Nat.eqb x) l.

(** The loop [for x in graph[el]] of the inner function [add_neighbors]:
    [recurse] is the recursive call, and the list [seen] is shared by all
    the calls, so each returns it as it leaves it. *)
Fixpoint visit (recurse : nat -> list nat -> exc (list nat)) (xs : list nat)
    (seen : list nat) : exc (list nat) :=
  match xs with
  | [] => Val seen
  | x :: xs' =>
      if mem x seen then visit recurse xs' seen
      else
        do seen' <- recurse x (seen ++ [x]);
        visit recurse xs' seen'
  end.

(** The inner function [add_neighbors(el, seen)]; [depth] bounds the depth
    of the recursion. *)
Fixpoint add_neighbors (depth : nat) (graph : list (list nat)) (el : nat) (seen : list nat)
    : exc (list nat) :=
  match depth with
  | O => Exn OutOfFuel
  | S depth' =>
      let seen := match seen with [] => [el] | _ => seen end in
      match nth_error graph el with
      | None => Exn IndexError
      | Some neighbors => visit (add_neighbors depth' graph) neighbors seen
      end
  end.

(** [unseen.remove(y)]: the first occurrence goes. *)
Fixpoint remove_first (y : nat) (l : list nat) : list nat :=
  match l with
  | [] => []
  | x :: l' => if (x =? y)%nat then l' else x :: remove_first y l'
  end.

(** [for y in component: ... if y in unseen: unseen.remove(y)]. *)
Definition remove_seen (component unseen : list nat) : list nat :=
  fold_left (fun u y => if mem y u then remove_first y u else u) component unseen.

(** The [while unseen != []] loop; every round takes at least the popped
    index out of [unseen], so [length unseen] rounds are enough. *)
Fixpoint components_loop (rounds : nat) (graph : list (list nat)) (unseen : list nat)
    (sets : list (list nat)) : exc (list (list nat)) :=
  match unseen with
  | [] => Val sets
  | _ =>
      match rounds with
      | O => Exn OutOfFuel
      | S rounds' =>
          let x := last unseen 0%nat in
          let unseen := removelast unseen in
          do component <- add_neighbors (S (length graph)) graph x [];
          components_loop rounds' graph (remove_seen component unseen) (sets ++ [component])
      end
  end.

(** [connected_components(graph)]. *)
Definition connected_components (graph : list (list nat)) : exc (list (list nat)) :=
  let unseen := seq 0 (length graph) in
  components_loop (length unseen) graph unseen [].

(** ** Periodic centroid (get_center) *)

Definition vsum (l : list vec3) : vec3 := fold_left vadd l (0, 0, 0).

(** The inner loop over [atom2]: it keeps the running [dist_min] and
    [matrix_min]; [matrix_min] is [None] while the name is unbound. *)
Fixpoint closest_image (matrix0 : list vec3) (lattice : mat3) (atom1 : vec3)
    (earlier : list vec3) (dist_min : R) (matrix_min : option vec3) : R * option vec3 :=
  match earlier with
  | [] => (dist_min, matrix_min)
  | atom2 :: rest =>
      let dists := map (fun m => norm (vecmat (vadd m (vsub atom1 atom2)) lattice)) matrix0 in
      let d := list_min (hd 0 dists) (tl dists) in
      if Rltb d dist_min
      then closest_image matrix0 lattice atom1 rest d
             (Some (nth (index_of_first d dists) matrix0 (0, 0, 0)))
      else closest_image matrix0 lattice atom1 rest dist_min matrix_min
  end.

(** The outer loop over [atom1]: [done] are the atoms already shifted (in
    order), [todo] the ones still to shift. *)
Fixpoint shift_atoms (matrix0 : list vec3) (lattice : mat3) (done todo : list vec3)
    (matrix_min : option vec3) : exc (list vec3) :=
  match todo with
  | [] => Val done
  | atom1 :: rest =>
      let '(_, matrix_min) := closest_image matrix0 lattice atom1 done 10 matrix_min in
      match matrix_min with
      | None => Exn NameError
      | Some m => shift_atoms matrix0 lattice (done ++ [vadd atom1 m]) rest matrix_min
      end
  end.

(** [center[PBC-1]]: the index, with Python's reading of -1. *)
Definition pbc_index (PBC : option nat) : exc nat :=
  match PBC with
  | None => Exn TypeError
  | Some 0%nat => Val 2%nat
  | Some 1%nat => Val 0%nat
  | Some 2%nat => Val 1%nat
  | Some 3%nat => Val 2%nat
  | Some _ => Exn IndexError
  end.

(** [get_center(xyzs, lattice, PBC)]. *)
Definition get_center (xyzs : list vec3) (lattice : mat3) (PBC : option nat) : exc vec3 :=
  let matrix0 := create_matrix PBC in
  let xyzs := map (fun p => vsub p (vmap np_round p)) xyzs in
  do xyzs <- match xyzs with
             | [] => Val []
             | atom0 :: rest => shift_atoms matrix0 lattice [atom0] rest None
             end;
  do n <- fdiv 1 (INR (length xyzs));
  let center := vscale n (vsum xyzs) in
  do i <- pbc_index PBC;
  if Rltb (Rabs (vget center i)) (1 / 10000) then Val (vset center i (1 / 2))
  else Val center.

(** ** Merging an orbit onto a special position (merge_coordinate) *)

(** [len(wyckoff[-1][0])]. *)
Definition smallest_multiplicity (wyckoff : list (list wyckoff_position)) : exc nat :=
  match rev wyckoff with
  | [] => Exn IndexError
  | [] :: _ => Exn IndexError
  | (wp :: _) :: _ => Val (length wp)
  end.

(** What one round of the [while True] loop does. *)
Inductive merge_round : Type :=
| Return (coor : list vec3) (index : option nat)
| Again (merged : list vec3).

(** [coor[group]]. *)
Definition take_rows (coor : list vec3) (group : list nat) : list vec3 :=
  map (fun i => nth i coor (0, 0, 0)) group.

(** The candidate [merged]: the periodic centroid of every connected
    component of the graph. *)
Definition merge_candidate (coor : list vec3) (graph : list (list nat)) (lattice : mat3)
    (PBC : option nat) : exc (list vec3) :=
  do groups <- connected_components graph;
  exc_map (fun group => get_center (take_rows coor group) lattice PBC) groups.

Definition merge_step (coor : list vec3) (lattice : mat3)
    (wyckoff : list (list wyckoff_position)) (sg : Z) (tol : R) (PBC : option nat)
    : exc merge_round :=
  let '(pairs, graph) := find_short_dist coor lattice tol in
  if (0 <? length pairs)%nat then
    do smallest <- smallest_multiplicity wyckoff;
    if (smallest <? length coor)%nat then
      do merged <- merge_candidate coor graph lattice PBC;
      do index <- check_wyckoff_position merged sg;
      match index with
      | None => Val (Return coor None)
      | Some _ => Val (Again merged)
      end
    else Val (Return coor None)
  else
    do index <- check_wyckoff_position coor sg;
    Val (Return coor index).

Fixpoint merge_loop (rounds : nat) (coor : list vec3) (lattice : mat3)
    (wyckoff : list (list wyckoff_position)) (sg : Z) (tol : R) (PBC : option nat)
    : exc (list vec3 * option nat) :=
  match rounds with
  | O => Exn OutOfFuel
  | S rounds' =>
      do r <- merge_step coor lattice wyckoff sg tol PBC;
      match r with
      | Return coor index => Val (coor, index)
      | Again merged => merge_loop rounds' merged lattice wyckoff sg tol PBC
      end
  end.

(** [merge_coordinate(coor, lattice, wyckoff, sg, tol, PBC)]: every round
    that goes on shortens the list, so [length coor + 1] rounds are enough. *)
Definition merge_coordinate (coor : list vec3) (lattice : mat3)
    (wyckoff : list (list wyckoff_position)) (sg : Z) (tol : R) (PBC : option nat)
    : exc (list vec3 * option nat) :=
  merge_loop (S (length coor)) coor lattice wyckoff sg tol PBC.

(** ** Cell size and volume *)

(** What [cellsize] returns: a number of duplications, or its error
    string. *)
Inductive cellsize_result : Type :=
| Size (n : Z)
| SizeError.   (* "Error: Could not determine lattice type" *)

Definition letter_in (letter : ascii) (letters : list ascii) : bool :=
  existsb (Ascii.eqb letter) letters.

(** [cellsize(sg)]. *)
Definition cellsize (sg : Z) : exc cellsize_result :=
  match sg_symbol_from_int_number sg with
  | EmptyString => Exn IndexError
  | String letter _ =>
      if Ascii.eqb letter "P" then Val (Size 1)
      else if letter_in letter ["A"; "C"; "I"]%char then Val (Size 2)
      else if letter_in letter ["R"]%char then Val (Size 3)
      else if letter_in letter ["F"]%char then Val (Size 4)
      else Val SizeError
  end.

(** [estimate_volume(numIons, species, factor)]. *)
Definition estimate_volume (numIons : list Z) (species : list string) (factor : R) : R :=
  let volume :=
    fold_left (fun volume '(numIon, specie) =>
                 volume + IZR numIon * 4 / 3 * PI * covalent_radius specie ^ 3)
              (combine numIons species) 0 in
  factor * volume.

(** [get_wyckoffs(sg, organized=True)] with [PB=None]. *)
Definition get_wyckoffs_organized (sg : Z) : exc (list (list wyckoff_position)) :=
  match wyckoff_table sg with
  | [] => Exn IndexError
  | wp0 :: _ => Val (organize (wyckoff_table sg) (length wp0) [[]])
  end.

(** ** Compatibility of the counts with the Wyckoff positions *)

(** The three values [check_compatible] returns: [False], [True] and 0. *)
Inductive compatibility : Type :=
| Incompatible
| Compatible
| NoFreedom.

(** [numIon % n] on numpy integers: the remainder by 0 is 0. *)
Definition np_mod (a n : Z) : Z := if (n =? 0)%Z then 0%Z else (a mod n)%Z.

(** [op.rotation_matrix.all() != 0.0]: true when no entry is 0. *)
Definition all_nonzero (m : mat3) : bool :=
  forallb (fun x => negb (Reqb x 0)) (entries m).

(** [np.allclose(op.rotation_matrix, np.zeros([3,3]))]. *)
Definition is_zero_matrix (m : mat3) : bool :=
  allclose (1 / 100000) (1 / 100000000) (entries m) (repeat 0 9).

(** The [while remaining >= len(wp) and wp not in removed_wyckoffs] loop.
    [remaining] loses [len(wp)] in every round, so [rounds] is bounded by
    [remaining]. *)
Fixpoint fill_position (rounds : nat) (wp : wyckoff_position) (remaining : Z)
    (removed_wyckoffs : list wyckoff_position) (has_freedom : bool)
    : exc (Z * list wyckoff_position * bool) :=
  if (multiplicity wp <=? remaining)%Z && negb (wp_in wp removed_wyckoffs) then
    match rounds with
    | O => Exn OutOfFuel
    | S rounds' =>
        match wp with
        | [] => Exn IndexError
        | op :: _ =>
            let remaining := (remaining - multiplicity wp)%Z in
            if is_zero_matrix (rotation_matrix op)
            then fill_position rounds' wp remaining (removed_wyckoffs ++ [wp]) has_freedom
            else fill_position rounds' wp remaining removed_wyckoffs true
        end
    end
  else Val (remaining, removed_wyckoffs, has_freedom).

(** [for x in self.wyckoffs: for wp in x: ...]. *)
Fixpoint fill_positions (wps : list wyckoff_position) (remaining : Z)
    (removed_wyckoffs : list wyckoff_position) (has_freedom : bool)
    : exc (Z * list wyckoff_position * bool) :=
  match wps with
  | [] => Val (remaining, removed_wyckoffs, has_freedom)
  | wp :: rest =>
      do (remaining, removed_wyckoffs, has_freedom) <-
        fill_position (S (Z.to_nat remaining)) wp remaining removed_wyckoffs has_freedom;
      fill_positions rest remaining removed_wyckoffs has_freedom
  end.

(** [self.wyckoffs[-1][-1][0]]. *)
Definition last_operation (wyckoffs : list (list wyckoff_position)) : exc SymmOp :=
  match rev wyckoffs with
  | [] => Exn IndexError
  | group :: _ =>
      match rev group with
      | [] => Exn IndexError
      | [] :: _ => Exn IndexError
      | (op :: _) :: _ => Val op
      end
  end.

(** The loop over [self.numIons]. *)
Fixpoint check_counts (wyckoffs : list (list wyckoff_position)) (numIons : list Z)
    (has_freedom : bool) (removed_wyckoffs : list wyckoff_position) : exc compatibility :=
  match numIons with
  | [] => Val (if has_freedom then Compatible else NoFreedom)
  | numIon :: rest =>
      do n_last <- smallest_multiplicity wyckoffs;
      if (0 <? np_mod numIon (Z.of_nat n_last))%Z then Val Incompatible
      else
        do op <- last_operation wyckoffs;
        if all_nonzero (rotation_matrix op)
        then check_counts wyckoffs rest true removed_wyckoffs
        else
          do (remaining, removed_wyckoffs, has_freedom) <-
            fill_positions (concat wyckoffs) numIon removed_wyckoffs has_freedom;
          if negb (remaining =? 0)%Z then Val Incompatible
          else check_counts wyckoffs rest has_freedom removed_wyckoffs
  end.

(** [random_crystal.check_compatible(self)].  The list [N_site] reads the
    first position of every group before the loop starts. *)
Definition check_compatible (wyckoffs : list (list wyckoff_position)) (numIons : list Z)
    : exc compatibility :=
  do _ <- exc_map (fun x => match x with [] => Exn IndexError | wp :: _ => Val (length wp) end)
                  wyckoffs;
  check_counts wyckoffs numIons false [].

(** ** The generator (random_crystal) *)

(** The orbits placed so far and the species of each:
    [coordinates_tmp]/[sites_tmp] or [coordinates_total]/[sites_total]. *)
Record placed : Type := mkPlaced {
  placed_coordinates : list (list vec3);
  placed_sites : list string
}.

Definition nothing_placed : placed := mkPlaced [] [].

(** What [self.struct] holds. *)
Inductive structure : Type :=
| NoStructure                     (* None *)
| FailureMessage                  (* self.Msg2 *)
| Structure (lattice : mat3) (sites : list string) (coords : list vec3).

(** The attributes [generate_crystal] sets. *)
Record generated : Type := mkGenerated {
  lattice : option mat3;
  coordinates : list vec3;
  sites : list string;
  struct : structure;
  spg_struct : option (mat3 * list vec3 * list Z);
  valid : bool
}.

(** [coords_toadd -= np.floor(coords_toadd)]. *)
Definition wrap (p : vec3) : vec3 := vsub p (vmap np_floor p).

Section Crystal.

(** The attributes of [self] that [generate_crystal] reads. *)
Variable sg : Z.
Variable species : list string.
Variable numIons : list Z.
Variable volume : R.
Variable wyckoffs : list (list wyckoff_position).

Definition tol_m : R := 1.

(** The [for cycle3 in range(max3)] loop for one species. It returns the
    accumulators and [numIon_added] as the loop leaves them. *)
Fixpoint add_specie (cycle3 : nat) (numIon : Z) (specie : string) (tol : R)
    (cell_matrix : mat3) (tmp total : placed) (numIon_added : Z)
    : M (placed * placed * Z) :=
  match cycle3 with
  | O => ret (tmp, total, numIon_added)
  | S cycle3' =>
      run ops <- choose_wyckoff wyckoffs (numIon - numIon_added);
      match ops with
      | None => add_specie cycle3' numIon specie tol cell_matrix tmp total numIon_added
      | Some ops =>
          run point <- np_random_random3;
          let coords := map (fun op => operate op point) ops in
          run merged <- lift (merge_coordinate coords cell_matrix wyckoffs sg tol None);
          let '(coords_toadd, good_merge) := merged in
          match good_merge with
          | None => add_specie cycle3' numIon specie tol cell_matrix tmp total numIon_added
          | Some _ =>
              let coords_toadd := map wrap coords_toadd in
              run far <- lift (check_distance (placed_coordinates tmp) coords_toadd
                                 (placed_sites tmp) specie cell_matrix None 1);
              let tmp :=
                if far then mkPlaced (placed_coordinates tmp ++ [coords_toadd])
                                     (placed_sites tmp ++ [specie])
                else tmp in
              let numIon_added :=
                if far then (numIon_added + Z.of_nat (length coords_toadd))%Z
                else numIon_added in
              if (numIon_added =? numIon)%Z then ret (tmp, tmp, numIon_added)
              else add_specie cycle3' numIon specie tol cell_matrix tmp total numIon_added
          end
      end
  end.

(** The loop [for numIon, specie in zip(self.numIons, self.species)].
    [last] holds [numIon_added] and [numIon] as the last round left them,
    [None] while the two names are unbound. *)
Fixpoint add_species (max3 : nat) (todo : list (Z * string)) (cell_matrix : mat3)
    (tmp total : placed) (last : option (Z * Z)) : M (placed * option (Z * Z)) :=
  match todo with
  | [] => ret (total, last)
  | (numIon, specie) :: rest =>
      let tol := Rmax (1 / 2 * covalent_radius specie) tol_m in
      run r <- add_specie max3 numIon specie tol cell_matrix tmp total 0;
      let '(tmp, total, numIon_added) := r in
      if negb (numIon_added =? numIon)%Z then ret (total, Some (numIon_added, numIon))
      else add_species max3 rest cell_matrix tmp total (Some (numIon_added, numIon))
  end.

(** The loop [for cycle2 in range(max2)]; it returns [coordinates_total],
    [sites_total] and [good_structure]. *)
Fixpoint fill_lattice (cycle2 max3 : nat) (cell_matrix : mat3) (total : placed)
    (last : option (Z * Z)) : M (placed * bool * option (Z * Z)) :=
  match cycle2 with
  | O => ret (total, false, last)
  | S cycle2' =>
      let tmp := total in
      run r <- add_species max3 (combine numIons species) cell_matrix tmp total last;
      let '(total, last) := r in
      match last with
      | None => raise NameError
      | Some (numIon_added, numIon) =>
          if (numIon_added =? numIon)%Z then ret (total, true, last)
          else fill_lattice cycle2' max3 cell_matrix nothing_placed last
      end
  end.

(** The two nested loops [for coor, ele in zip(coordinates_total,
    sites_total): for x in coor:], one entry per atom. *)
Definition atoms_of (total : placed) : list (vec3 * string) :=
  flat_map (fun '(coor, ele) => map (fun x => (x, ele)) coor)
           (combine (placed_coordinates total) (placed_sites total)).

(** The statements after [if good_structure:]. *)
Definition finish (cell_matrix : mat3) (total : placed) : generated :=
  let final_coor := map fst (atoms_of total) in
  let final_site := map snd (atoms_of total) in
  let final_number := map (fun a => atomic_number (snd a)) (atoms_of total) in
  mkGenerated (Some cell_matrix) final_coor final_site
              (Structure cell_matrix final_site final_coor)
              (Some (cell_matrix, final_coor, final_number))
              true.

(** The loop [for cycle1 in range(max1)]: [Some] is the return inside the
    loop, [None] the fall through to the statements after it. *)
Fixpoint try_lattices (cycle1 max2 max3 : nat) (minvector : R) (last : option (Z * Z))
    : M (option generated) :=
  match cycle1 with
  | O => ret None
  | S cycle1' =>
      run cell_para <- generate_lattice sg volume minvector (PI / 6) 10 100;
      match cell_para with
      | None => ret None
      | Some cell_para =>
          run cell_matrix <- lift (para2matrix cell_para);
          if Rltb 1 (Rabs (volume - det3 cell_matrix)) then
            run _ <- print (MsgVolume volume (det3 cell_matrix));
            run _ <- print (MsgCellPara (cp_a cell_para) (cp_b cell_para) (cp_c cell_para)
                              (cp_alpha cell_para) (cp_beta cell_para) (cp_gamma cell_para));
            fun w => Exited w
          else
            run r <- fill_lattice max2 max3 cell_matrix nothing_placed last;
            let '(total, good_structure, last) := r in
            if good_structure then ret (Some (finish cell_matrix total))
            else try_lattices cycle1' max2 max3 minvector last
      end
  end.

(** [max(2.0*Element(specie).covalent_radius for specie in self.species)]. *)
Definition largest_diameter : exc R :=
  match species with
  | [] => Exn ValueError
  | specie :: rest =>
      Val (fold_left (fun m s => Rmax m (2 * covalent_radius s)) rest
                     (2 * covalent_radius specie))
  end.

(** [random_crystal.generate_crystal(self, max1, max2, max3)]. *)
Definition generate_crystal (max1 max2 max3 : nat) : M generated :=
  run degrees <- lift (check_compatible wyckoffs numIons);
  match degrees with
  | Incompatible =>
      run _ <- print Msg1;
      ret (mkGenerated None [] [] NoStructure None false)
  | _ =>
      let '(max1, max2, max3) :=
        match degrees with NoFreedom => (5, 5, 5)%nat | _ => (max1, max2, max3) end in
      run d <- lift largest_diameter;
      let minvector := Rmax d tol_m in
      run r <- try_lattices max1 max2 max3 minvector None;
      match r with
      | Some g => ret g
      | None =>
          run _ <- match degrees with NoFreedom => print MsgNoFreedom | _ => ret tt end;
          ret (mkGenerated None [] [] FailureMessage None false)
      end
  end.

End Crystal.

(** [random_crystal(sg, species, numIons, factor)]: the constructor, which
    ends by calling [generate_crystal] with its default budgets of 30. *)
Definition random_crystal (sg : Z) (species : list string) (numIons0 : list Z) (factor : R)
    : M generated :=
  run size <- lift (cellsize sg);
  match size with
  | SizeError => raise TypeError
  | Size n =>
      let numIons := map (fun numIon => (numIon * n)%Z) numIons0 in
      let volume := estimate_volume numIons species factor in
      run wyckoffs <- lift (get_wyckoffs_organized sg);
      generate_crystal sg species numIons volume wyckoffs 30 30 30
  end.

(** ** Predicates used by the statements *)

(** Every index of the list is below [n]. *)
Definition below (n : nat) (l : list nat) : Prop := Forall (fun x => (x < n)%nat) l.

(** A graph on [n] vertices: one neighbour list per vertex, naming vertices
    only. *)
Definition graph_on (n : nat) (graph : list (list nat)) : Prop :=
  length graph = n /\ Forall (below n) graph.

(** [x] and [y] are joined by an edge, recorded at both ends. *)
Definition edge (graph : list (list nat)) (x y : nat) : Prop :=
  In y (nth x graph []) /\ In x (nth y graph []).

(** What [seen] is after the first statement of [add_neighbors]. *)
Definition started (el : nat) (seen : list nat) : list nat :=
  match seen with [] => [el] | _ => seen end.

(** Two points of the list are not farther apart than [tol], images
    included. *)
Definition short_pair (coor : list vec3) (lattice : mat3) (tol : R) : Prop :=
  exists i1 i2, (i1 < i2)%nat /\ (i2 < length coor)%nat /\
    distance (vsub (nth i1 coor (0, 0, 0)) (nth i2 coor (0, 0, 0))) lattice None <= tol.

(** When the recognition of a candidate fails, or no smaller position is
    left: the two conditions under which a round gives up. *)
Definition gives_up (coor : list vec3) (lattice : mat3)
    (wyckoff : list (list wyckoff_position)) (sg : Z) (tol : R) (PBC : option nat) : Prop :=
  exists smallest,
    smallest_multiplicity wyckoff = Val smallest /\
    ((length coor <= smallest)%nat \/
     ((smallest < length coor)%nat /\
      exists merged,
        merge_candidate coor (snd (find_short_dist coor lattice tol)) lattice PBC = Val merged
        /\ check_wyckoff_position merged sg = Val None)).

(** A table of Wyckoff positions as the symmetry tables hold it: at least
    one group, no empty group, and no position without an operation. *)
Definition well_formed (wyckoffs : list (list wyckoff_position)) : Prop :=
  wyckoffs <> [] /\ Forall (fun g => g <> [] /\ Forall (fun wp => wp <> []) g) wyckoffs.

(** The world after [print(msg)]. *)
Definition printed (w : world) (msg : message) : world :=
  mkWorld (normals w) (uniforms w) (picks w) (stdout w ++ [msg]).

(** What [generate_crystal] leaves on an incompatible request. *)
Definition refused : generated := mkGenerated None [] [] NoStructure None false.

(** The species labels a request asks for, atom by atom: [numIon] times
    the label of each species, in the order of the species. *)
Definition expected_sites (counts : list (Z * string)) : list string :=
  flat_map (fun '(numIon, specie) => repeat specie (Z.to_nat numIon)) counts.

(** Every fractional component lies in [0, 1). *)
Definition in_unit_cell (p : vec3) : Prop :=
  let '(x, y, z) := p in 0 <= x < 1 /\ 0 <= y < 1 /\ 0 <= z < 1.

(** An accumulator pairs every orbit with a species and holds wrapped
    points only. *)
Definition tidy (p : placed) : Prop :=
  length (placed_coordinates p) = length (placed_sites p) /\
  Forall (Forall in_unit_cell) (placed_coordinates p).

(** [numIon_added] and [numIon], when bound, differ. *)
Definition unmet (last : option (Z * Z)) : Prop :=
  forall a n, last = Some (a, n) -> a <> n.

(** The centering letters and their multipliers. *)
Definition centering_multiplier (letter : ascii) (k : Z) : Prop :=
  (letter = "P"%char /\ k = 1%Z) \/
  ((letter = "A"%char \/ letter = "C"%char \/ letter = "I"%char) /\ k = 2%Z) \/
  (letter = "R"%char /\ k = 3%Z) \/
  (letter = "F"%char /\ k = 4%Z).

(** The computation never ends in [sys.exit]. *)
Definition never_exits {A : Type} (m : M A) : Prop :=
  forall w w', m w <> Exited w'.

(** ** Rotation matrices and operations (operations.py) *)

(** [np.transpose(m)], [np.dot(a, b)] on two 3x3 matrices and
    [np.identity(3)]. *)
Definition transpose (m : mat3) : mat3 :=
  let '((m00, m01, m02), (m10, m11, m12), (m20, m21, m22)) := m in
  ((m00, m10, m20), (m01, m11, m21), (m02, m12, m22)).

Definition matmul (a b : mat3) : mat3 :=
  let '(a0, a1, a2) := a in
  let '(c0, c1, c2) := transpose b in
  ((dot a0 c0, dot a0 c1, dot a0 c2),
   (dot a1 c0, dot a1 c1, dot a1 c2),
   (dot a2 c0, dot a2 c1, dot a2 c2)).

Definition np_identity3 : mat3 := ((1, 0, 0), (0, 1, 0), (0, 0, 1)).

(** [operations.is_orthogonal(m, tol)]: both products with the transpose
    are compared with the identity, [rtol=tol] and numpy's default
    [atol=1e-8]. *)
Definition is_orthogonal (m : mat3) (tol : R) : bool :=
  let m1 := matmul m (transpose m) in
  let m2 := matmul (transpose m) m in
  if negb (allclose tol (1 / 100000000) (entries m1) (entries np_identity3))
     || negb (allclose tol (1 / 100000000) (entries m2) (entries np_identity3))
  then false
  else true.

(** [operations.aa2matrix(axis, angle)] with its defaults [radians=True],
    [random=False]: the axis is divided by its norm, then the matrix of the
    rotation about it is filled in entry by entry. *)
Definition aa2matrix (axis : vec3) (angle : R) : exc mat3 :=
  let '(a0, a1, a2) := axis in
  do x <- fdiv a0 (norm axis);
  do y <- fdiv a1 (norm axis);
  do z <- fdiv a2 (norm axis);
  let c := cos angle in
  let s := sin angle in
  let C := 1 - c in
  Val ((x * x * C + c, x * y * C - z * s, x * z * C + y * s),
       (y * x * C + z * s, y * y * C + c, y * z * C - x * s),
       (z * x * C - y * s, z * y * C + x * s, z * z * C + c)).

(** [aa2matrix(axis, angle, random=True)]: five draws of
    [numpy.random.random]; the first one is not used, the next three
    replace the axis and the last one the angle. *)
Definition aa2matrix_random : M mat3 :=
  run a <- draw_uniform;
  run r0 <- draw_uniform;
  run r1 <- draw_uniform;
  run r2 <- draw_uniform;
  run t <- draw_uniform;
  lift (aa2matrix (r0, r1, r2) (t * PI * 2)).

(** [operations.are_equal(op1, op2, allow_pbc, rtol, atol)]. *)
Definition are_equal (op1 op2 : SymmOp) (allow_pbc : bool) (rtol atol : R) : bool :=
  let m1 := rotation_matrix op1 in
  let m2 := rotation_matrix op2 in
  if negb (allclose rtol atol (entries m1) (entries m2)) then false
  else
    let v1 := translation_vector op1 in
    let v2 := translation_vector op2 in
    if negb allow_pbc then
      if allclose rtol atol (ventries v1) (ventries v2) then true else false
    else
      let difference := vsub v1 v2 in
      if allclose rtol atol (ventries difference) (ventries (vmap np_round difference))
      then true else false.

(** What [OperationAnalyzer.get_order] returns: an integer, or the string
    "irrational". *)
Inductive order_result : Type :=
| Order (n : nat)
| Irrational.

(** The loop [for n in range(1, 61)] of [get_order], left at the first [n]
    for which [n*angle/(2*pi)] is within [tol] of its rounding. *)
Fixpoint find_order (angle tol : R) (ns : list nat) : option nat :=
  match ns with
  | [] => None
  | n :: rest =>
      let x := INR n * angle / (2 * PI) in
      let y := x - np_round x in
      if Rleb (Rabs y) tol then Some n else find_order angle tol rest
  end.

(** [OperationAnalyzer.get_order(angle, rotoinversion, tol)]. *)
Definition get_order (angle : R) (rotoinversion : bool) (tol : R) : order_result :=
  match find_order angle tol (seq 1 60) with
  | Some n =>
      if rotoinversion then
        if (n mod 2 =? 1)%nat then Order (n * 2) else Order n
      else Order n
  | None => Irrational
  end.

(** ** Indices and letters of Wyckoff positions *)

(** [seq[i]] for a Python int [i]: a negative index counts from the end,
    and an index outside the sequence raises IndexError. *)
Definition py_index {A : Type} (l : list A) (i : Z) : exc A :=
  let n := Z.of_nat (length l) in
  let i' := if (i <? 0)%Z then (i + n)%Z else i in
  if (0 <=? i')%Z && (i' <? n)%Z then
    match nth_error l (Z.to_nat i') with
    | Some x => Val x
    | None => Exn IndexError
    end
  else Exn IndexError.

(** The string [letters] of [letter_from_index] and [index_from_letter]. *)
Definition letters : list ascii :=
  list_ascii_of_string "abcdefghijklmnopqrstuvwxyzA".

(** [letters.index(letter)] for a letter of one character: the first
    position that holds it. *)
Fixpoint str_index (letter : ascii) (s : list ascii) : option nat :=
  match s with
  | [] => None
  | c :: rest =>
      if Ascii.eqb c letter then Some 0%nat
      else match str_index letter rest with
           | Some p => Some (S p)
           | None => None
           end
  end.

(** [letter_from_index(index, sg)]; [get_wyckoffs(sg)] is the table of the
    group. *)
Definition letter_from_index (index : Z) (sg : Z) : exc ascii :=
  let wyckoffs := wyckoff_table sg in
  let length := Z.of_nat (length wyckoffs) in
  py_index letters (length - 1 - index).

(** [index_from_letter(letter, sg)]: [str.index] raises ValueError for a
    letter that [letters] does not hold. *)
Definition index_from_letter (letter : ascii) (sg : Z) : exc Z :=
  let wyckoffs := wyckoff_table sg in
  let length := Z.of_nat (length wyckoffs) in
  match str_index letter letters with
  | Some p => Val (length - 1 - Z.of_nat p)%Z
  | None => Exn ValueError
  end.

(** What the helpers of this part print. *)
Inductive notice : Type :=
| JkError.
    (* "Error: Incorrect Wyckoff position list or index passed to jk_from_i" *)

(** The inner loop of [jk_from_i] over one group [a]: the pair found, or
    the counter [num] as the loop leaves it. *)
Fixpoint jk_row {A : Type} (i num : Z) (j k : nat) (a : list A) : (nat * nat) + Z :=
  match a with
  | [] => inr num
  | _ :: rest =>
      let num := (num + 1)%Z in
      if (num =? i)%Z then inl (j, k) else jk_row i num j (S k) rest
  end.

Fixpoint jk_rows {A : Type} (i num : Z) (j : nat) (olist : list (list A)) : option (nat * nat) :=
  match olist with
  | [] => None
  | a :: rest =>
      match jk_row i num j 0 a with
      | inl found => Some found
      | inr num => jk_rows i num (S j) rest
      end
  end.

(** [jk_from_i(i, olist)]: what it prints and what it returns, [None] for
    Python's [None]. *)
Definition jk_from_i {A : Type} (i : Z) (olist : list (list A))
    : list notice * option (nat * nat) :=
  match jk_rows i (-1) 0 olist with
  | Some found => ([], Some found)
  | None => ([JkError], None)
  end.

(** The two loops of [i_from_jk]. *)
Fixpoint ijk_row {A : Type} (j k : Z) (num : Z) (x y : nat) (a : list A) : Z + Z :=
  match a with
  | [] => inr num
  | _ :: rest =>
      let num := (num + 1)%Z in
      if (Z.of_nat x =? j)%Z && (Z.of_nat y =? k)%Z then inl num
      else ijk_row j k num x (S y) rest
  end.

Fixpoint ijk_rows {A : Type} (j k : Z) (num : Z) (x : nat) (olist : list (list A)) : option Z :=
  match olist with
  | [] => None
  | a :: rest =>
      match ijk_row j k num x 0 a with
      | inl found => Some found
      | inr num => ijk_rows j k num (S x) rest
      end
  end.

(** [i_from_jk(j, k, olist)]; it falls off its end, returning [None], when
    the list has no such place. *)
Definition i_from_jk {A : Type} (j k : Z) (olist : list (list A)) : option Z :=
  ijk_rows j k (-1) 0 olist.

(** ** Distances inside a finished structure (verify_distances) *)

(** [species[i]] for an index [i] that is not negative. *)
Definition species_at (species : list string) (i : nat) : exc string :=
  match nth_error species i with
  | Some s => Val s
  | None => Exn IndexError
  end.

(** The inner loop, for the coordinates after [c1]: [true] when none of
    them is too close. *)
Fixpoint verify_inner (c1 : vec3) (specie1 : string) (species : list string)
    (lattice : mat3) (factor : R) (j : nat) (later : list vec3) : exc bool :=
  match later with
  | [] => Val true
  | c2 :: rest =>
      do specie2 <- species_at species j;
      let diff := vsub c2 c1 in
      let d_min := distance diff lattice None in
      let tol := factor * (1 / 2) * (covalent_radius specie1 + covalent_radius specie2) in
      if Rltb d_min tol then Val false
      else verify_inner c1 specie1 species lattice factor (S j) rest
  end.

Fixpoint verify_outer (species : list string) (lattice : mat3) (factor : R) (i : nat)
    (coordinates : list vec3) : exc bool :=
  match coordinates with
  | [] => Val true
  | c1 :: rest =>
      do specie1 <- species_at species i;
      do far <- verify_inner c1 specie1 species lattice factor (S i) rest;
      if far then verify_outer species lattice factor (S i) rest else Val false
  end.

(** [verify_distances(coordinates, species, lattice, factor)]. *)
Definition verify_distances (coordinates : list vec3) (species : list string)
    (lattice : mat3) (factor : R) : exc bool :=
  verify_outer species lattice factor 0 coordinates.

(** ** Predicates used by the statements on the helpers *)

(** The place [j], [k] exists in the organized list, and its rank in the
    flattened list. *)
Definition valid_place {A : Type} (olist : list (list A)) (j k : nat) : Prop :=
  (j < length olist)%nat /\ (k < length (nth j olist []))%nat.

Definition flat_index {A : Type} (olist : list (list A)) (j k : nat) : nat :=
  (length (concat (firstn j olist)) + k)%nat.

(** Two atoms are closer than [verify_distances] allows: their distance,
    images included, is below [factor] times the mean of the two covalent
    radii. *)
Definition too_close (lattice : mat3) (factor : R) (c1 : vec3) (s1 : string)
    (c2 : vec3) (s2 : string) : Prop :=
  distance (vsub c2 c1) lattice None
  < factor * (1 / 2) * (covalent_radius s1 + covalent_radius s2).


(** ** Specification vocabulary for the further properties *)

(** No two consecutive numbers of the list are equal. *)
Fixpoint no_repeat (l : list nat) : Prop :=
  match l with
  | a :: (b :: _) as rest => a <> b /\ no_repeat rest
  | _ => True
  end.

(** The multiplicity a group of positions stands for: that of its first
    position. *)
Definition group_multiplicity (g : list wyckoff_position) : nat := length (hd [] g).

(** [y] is reached from [x] along the neighbour lists of the graph. *)
Inductive reach (graph : list (list nat)) (x : nat) : nat -> Prop :=
| reach_refl : reach graph x x
| reach_step (y z : nat) : reach graph x y -> In z (nth y graph []) -> reach graph x z.

(** Every edge is recorded at both ends. *)
Definition undirected (graph : list (list nat)) : Prop :=
  forall x y, In y (nth x graph []) -> In x (nth y graph []).

(** A dot product for which neither early return of [operations.angle]
    fires. *)
Definition clear_of_unit (d : R) : Prop := isclose d 1 = false /\ isclose d (-1) = false.

(** Two orbits keep their distance: every point of the first is, in
    Cartesian coordinates, at least the mean of the two covalent radii away
    from every image of every point of the second. *)
Definition apart (cell_matrix : mat3) (o1 : list vec3) (s1 : string) (o2 : list vec3)
    (s2 : string) : Prop :=
  forall p q m, In p o1 -> In q o2 -> In m (create_matrix None) ->
    1 / 2 * (covalent_radius s1 + covalent_radius s2)
    <= norm (vsub (vecmat p cell_matrix) (vecmat (vadd q m) cell_matrix)).

(** Every orbit of the accumulator keeps its distance from the orbits
    placed before it. *)
Definition separated (cell_matrix : mat3) (p : placed) : Prop :=
  forall i j o1 s1 o2 s2, (i < j)%nat ->
    nth_error (placed_coordinates p) i = Some o1 -> nth_error (placed_sites p) i = Some s1 ->
    nth_error (placed_coordinates p) j = Some o2 -> nth_error (placed_sites p) j = Some s2 ->
    apart cell_matrix o1 s1 o2 s2.

(** How the generator fills an accumulator: it starts empty, and an orbit
    joins it when it is the wrapped image of a point under a position of
    the list, [merge_coordinate] returned it with an index, and
    [check_distance] found it far enough from the orbits placed before. *)
Inductive built (sg : Z) (wyckoffs : list (list wyckoff_position)) (cell_matrix : mat3)
    : placed -> Prop :=
| built_nothing : built sg wyckoffs cell_matrix nothing_placed
| built_orbit (tmp : placed) (ops : wyckoff_position) (point : vec3) (specie : string)
    (coords_toadd : list vec3) (index : nat) :
    built sg wyckoffs cell_matrix tmp ->
    In ops (concat wyckoffs) ->
    merge_coordinate (map (fun op => operate op point) ops) cell_matrix wyckoffs sg
      (Rmax (1 / 2 * covalent_radius specie) tol_m) None = Val (coords_toadd, Some index) ->
    check_distance (placed_coordinates tmp) (map wrap coords_toadd) (placed_sites tmp) specie
      cell_matrix None 1 = Val true ->
    built sg wyckoffs cell_matrix
      (mkPlaced (placed_coordinates tmp ++ [map wrap coords_toadd])
                (placed_sites tmp ++ [specie])).

(** ** Layer groups: the cell of a slab (generate_lattice_2d, Add_vacuum) *)

(** The loop [for axis in [0,1,2]] that fills [para1] in
    [generate_lattice_2d]: entry [axis] is [para[P[axis]-1]] and entry
    [axis+3] is [para[P[axis]+2]], with Python's indexing. *)
Definition permute_para (para : list R) (P : list Z) : exc CellPara :=
  do P0 <- py_index P 0;
  do a <- py_index para (P0 - 1);
  do alpha <- py_index para (P0 + 2);
  do P1 <- py_index P 1;
  do b <- py_index para (P1 - 1);
  do beta <- py_index para (P1 + 2);
  do P2 <- py_index P 2;
  do c <- py_index para (P2 - 1);
  do gamma <- py_index para (P2 + 2);
  Val (mkCellPara a b c alpha beta gamma).

(** [generate_lattice_2d(sg, volume, thickness, P, minvec, minangle,
    max_ratio, maxattempts)].  The first round of the loop returns, so the
    rounds are not counted; with no round at all the message after the loop
    reads the unbound [n].  [minvec] and [max_ratio] are not read.  The
    first component of the result of the branch is [abc[0]], the second
    [abc[1]], the third [gamma]; [abc[2]] is the thickness and alpha and
    beta stay pi/2. *)
Definition generate_lattice_2d (sg : Z) (volume thickness : R) (P : list Z) (minangle : R)
    (maxattempts : nat) : M CellPara :=
  match maxattempts with
  | O => raise NameError
  | S _ =>
      let maxangle := PI - minangle in
      let alpha := PI / 2 in
      let beta := PI / 2 in
      run abg <-
        (if (sg <=? 2)%Z then
           (* Triclinic *)
           run vec <- random_vector;
           ret (1, 1, PI / 2)
         else if (sg <=? 15)%Z then
           (* Monoclinic *)
           run P_last <- lift (py_index P (-1));
           run gamma <-
             (if (P_last =? 3)%Z && String.eqb (sg_symbol_from_int_number sg) "P"
              then gaussian minangle maxangle
              else ret (PI / 2));
           let x := sin beta in
           run vec <- random_vector;
           let '(v0, v1, v2) := vec in
           run q <- lift (fdiv volume x);
           run q' <- lift (fdiv (q * v2) thickness);
           run ratio <- lift (py_sqrt q');
           ret (v0 * ratio, v1 * ratio, gamma)
         else if (sg <=? 74)%Z then
           (* Orthorhombic *)
           run vec <- random_vector;
           let '(v0, v1, v2) := vec in
           run q <- lift (fdiv (volume * v2) thickness);
           run ratio <- lift (py_sqrt q);
           ret (v0 * ratio, v1 * ratio, PI / 2)
         else if (sg <=? 142)%Z then
           (* Tetragonal *)
           run q <- lift (fdiv volume thickness);
           run a <- lift (py_sqrt q);
           ret (a, a, PI / 2)
         else if (sg <=? 194)%Z then
           (* Trigonal/Rhombohedral/Hexagonal *)
           let x := sqrt 3 / 2 in
           run q <- lift (fdiv volume x);
           run q' <- lift (fdiv q thickness);
           run a <- lift (py_sqrt q');
           ret (a, a, PI / 3 * 2)
         else ret (1, 1, PI / 2));
      let '(a, b, gamma) := abg in
      lift (permute_para [a; b; thickness; alpha; beta; gamma] P)
  end.

(** [np.mean] of a column. *)
Definition np_mean (xs : list R) : exc R := fdiv (fold_left Rplus xs 0) (INR (length xs)).

(** [Add_vacuum(lattice, coor, vacuum)] with its default [dim = 2]: the
    third components are rescaled to the longer cell and centred on 1/2.
    The array of an empty list has shape (0,), which [coor[:,dim]]
    refuses. *)
Definition Add_vacuum (lattice : mat3) (coor : list vec3) (vacuum : R)
    : exc (mat3 * list vec3) :=
  let '(r0, r1, (l20, l21, old)) := lattice in
  let new := old + vacuum in
  match coor with
  | [] => Exn IndexError
  | _ =>
      do scaled <- exc_map (fun p => fdiv (vget p 2 * old) new) coor;
      do mean <- np_mean scaled;
      let column := map (fun z => z - mean + 1 / 2) scaled in
      Val ((r0, r1, (l20, l21, new)),
           map (fun '(p, z) => vset p 2 z) (combine coor column))
  end.

(** ** Site symmetry of a point (site_symm) *)

(** [op1 * op2] on pymatgen's [SymmOp]: the product of the affine
    matrices. *)
Definition symmop_mul (op1 op2 : SymmOp) : SymmOp :=
  mkSymmOp (matmul (rotation_matrix op1) (rotation_matrix op2))
           (vadd (matvec (rotation_matrix op1) (translation_vector op2))
                 (translation_vector op1)).

Definition mat_sub (a b : mat3) : mat3 :=
  let '(a0, a1, a2) := a in
  let '(b0, b1, b2) := b in
  (vsub a0 b0, vsub a1 b1, vsub a2 b2).

Definition zero_matrix : mat3 := ((0, 0, 0), (0, 0, 0), (0, 0, 0)).

(** [site_symm(point, gen_pos, tol, lattice)] for a point given by its
    coordinates: it is first made the constant operation of that point. *)
Definition site_symm (point : vec3) (gen_pos : list SymmOp) (tol : R) (lattice : mat3)
    : list SymmOp :=
  let point := mkSymmOp zero_matrix point in
  flat_map
    (fun op =>
       let product := symmop_mul op point in
       let difference_rotation := mat_sub (rotation_matrix product) (rotation_matrix point) in
       let displacement := vsub (translation_vector product) (translation_vector point) in
       let is_symmetry :=
         if negb (allclose (1 / 1000) (1 / 1000) (entries difference_rotation) (repeat 0 9))
         then false else true in
       let is_symmetry :=
         if Rltb tol (distance displacement lattice None) then false else is_symmetry in
       if is_symmetry
       then [mkSymmOp (rotation_matrix op)
                      (vsub (translation_vector op) (vmap np_round displacement))]
       else [])
    gen_pos.
(** ** Concrete inputs used by the examples *)

(** The tuple a = 1, b = 2, c = 1, alpha = 60 degrees, beta = gamma = 90
    degrees: positive lengths, angles inside (0, pi), and the square root
    of [para2matrix] taken of 3/4. *)
Definition skewed_cell : CellPara := mkCellPara 1 2 1 (PI / 3) (PI / 2) (PI / 2).

(** The operations x,y,z; -x,-y,-z; -x,y+1/2,-z; and the constant operation
    of a fixed point. *)
Definition identity_op : SymmOp :=
  mkSymmOp ((1, 0, 0), (0, 1, 0), (0, 0, 1)) (0, 0, 0).

Definition inversion_op : SymmOp :=
  mkSymmOp ((-1, 0, 0), (0, -1, 0), (0, 0, -1)) (0, 0, 0).

Definition screw_op : SymmOp :=
  mkSymmOp ((-1, 0, 0), (0, 1, 0), (0, 0, -1)) (0, 1 / 2, 0).

Definition fixed_point_op (t : vec3) : SymmOp :=
  mkSymmOp ((0, 0, 0), (0, 0, 0), (0, 0, 0)) t.

(** The operations -x,y+1/2,-z+1/2 and x,-y+1/2,z+1/2 of P2_1/c. *)
Definition screw_c_op : SymmOp :=
  mkSymmOp ((-1, 0, 0), (0, 1, 0), (0, 0, -1)) (0, 1 / 2, 1 / 2).

Definition glide_op : SymmOp :=
  mkSymmOp ((1, 0, 0), (0, -1, 0), (0, 0, 1)) (0, 1 / 2, 1 / 2).

(** The Wyckoff positions of four small groups: P1 (number 1) has its
    general position only; P-1 (number 2) has the general position 2i and
    the eight inversion centres 1h to 1a; P2_1/c (number 14) has the
    general position 4e and the four pairs of inversion centres 2d to 2a;
    P2_1 (number 4) has the general position 2a only. *)
Definition example_table (sg : Z) : list wyckoff_position :=
  if (sg =? 1)%Z then [[identity_op]]
  else if (sg =? 2)%Z then
    [[identity_op; inversion_op];
     [fixed_point_op (1 / 2, 1 / 2, 1 / 2)]; [fixed_point_op (0, 1 / 2, 1 / 2)];
     [fixed_point_op (1 / 2, 0, 1 / 2)]; [fixed_point_op (1 / 2, 1 / 2, 0)];
     [fixed_point_op (1 / 2, 0, 0)]; [fixed_point_op (0, 1 / 2, 0)];
     [fixed_point_op (0, 0, 1 / 2)]; [fixed_point_op (0, 0, 0)]]
  else if (sg =? 14)%Z then
    [[identity_op; screw_c_op; inversion_op; glide_op];
     [fixed_point_op (1 / 2, 0, 1 / 2); fixed_point_op (1 / 2, 1 / 2, 0)];
     [fixed_point_op (0, 0, 1 / 2); fixed_point_op (0, 1 / 2, 0)];
     [fixed_point_op (1 / 2, 0, 0); fixed_point_op (1 / 2, 1 / 2, 1 / 2)];
     [fixed_point_op (0, 0, 0); fixed_point_op (0, 1 / 2, 1 / 2)]]
  else [[identity_op; screw_op]].

Definition example_symbol (sg : Z) : string :=
  if (sg =? 1)%Z then "P1"%string
  else if (sg =? 2)%Z then "P-1"%string
  else if (sg =? 14)%Z then "P2_1/c"%string
  else "P2_1"%string.

(** A recognition that takes one point for a position of multiplicity 1
    (the centre 1b in P-1) and two points for a general position. *)
Definition example_check (points : list vec3) (sg : Z) : exc (option nat) :=
  match points with
  | [_] => Val (Some (if (sg =? 2)%Z then 7%nat else 0%nat))
  | [_; _] => Val (Some 0%nat)
  | _ => Val None
  end.

Definition example_radius (specie : string) : R := 3 / 4.

Definition example_number (specie : string) : Z := 6%Z.

(** Six normal draws equal to 0, the uniform draws 0.7, 0.25, 0.5, 0.75 and
    the index 0. *)
Definition example_world : world :=
  mkWorld [0; 0; 0; 0; 0; 0] [7 / 10; 1 / 4; 1 / 2; 3 / 4] [0%nat] [].

(** The request of one carbon atom in P1 with the volume factor 2, and its
    target volume. *)
Definition example_volume : R := 2 * (0 + 1 * 4 / 3 * PI * (3 / 4) ^ 3).

(** A cubic cell of edge 2, and the orbit of the origin under the general
    position of P-1: two coincident points. *)
Definition example_lattice : mat3 := ((2, 0, 0), (0, 2, 0), (0, 0, 2)).

Definition coincident_orbit : list vec3 := [(0, 0, 0); (0, 0, 0)].

(** The orbit of the origin under the general position of P2_1. *)
Definition screw_orbit : list vec3 := [(0, 0, 0); (0, 1 / 2, 0)].

(** The shear matrix drawn from three normal draws equal to 0, and the cell
    sampled for the example request. *)
Definition identity_matrix : mat3 := ((1, 0, 0), (0, 1, 0), (0, 0, 1)).

Definition example_cell : CellPara :=
  mkCellPara (cbrt example_volume) (cbrt example_volume) (cbrt example_volume)
             (PI / 2) (PI / 2) (PI / 2).

(** The lattice matrix of [example_cell], the point drawn for the atom and
    the crystal that the example request produces. *)
Definition example_matrix : mat3 :=
  ((cbrt example_volume, 0, 0), (0, cbrt example_volume, 0), (0, 0, cbrt example_volume)).

Definition example_point : vec3 := (1 / 4, 1 / 2, 3 / 4).

Definition example_atom : vec3 := wrap (operate identity_op example_point).

Definition example_crystal : generated :=
  mkGenerated (Some example_matrix) [example_atom] ["C"%string]
              (Structure example_matrix ["C"%string] [example_atom])
              (Some (example_matrix, [example_atom], [6%Z]))
              true.

(** The organized lists of P-1 (the general position, then the eight
    inversion centres) and of P2_1. *)
Definition inversion_wyckoffs : list (list wyckoff_position) :=
  [[[identity_op; inversion_op]];
   [[fixed_point_op (1 / 2, 1 / 2, 1 / 2)]; [fixed_point_op (0, 1 / 2, 1 / 2)];
    [fixed_point_op (1 / 2, 0, 1 / 2)]; [fixed_point_op (1 / 2, 1 / 2, 0)];
    [fixed_point_op (1 / 2, 0, 0)]; [fixed_point_op (0, 1 / 2, 0)];
    [fixed_point_op (0, 0, 1 / 2)]; [fixed_point_op (0, 0, 0)]]].

Definition screw_wyckoffs : list (list wyckoff_position) := [[[identity_op; screw_op]]].

(** The organized list of P2_1/c, the orbit of its position 2a, and a
    recognition that takes every list of points for the general position. *)
Definition glide_wyckoffs : list (list wyckoff_position) :=
  [[[identity_op; screw_c_op; inversion_op; glide_op]];
   [[fixed_point_op (1 / 2, 0, 1 / 2); fixed_point_op (1 / 2, 1 / 2, 0)];
    [fixed_point_op (0, 0, 1 / 2); fixed_point_op (0, 1 / 2, 0)];
    [fixed_point_op (1 / 2, 0, 0); fixed_point_op (1 / 2, 1 / 2, 1 / 2)];
    [fixed_point_op (0, 0, 0); fixed_point_op (0, 1 / 2, 1 / 2)]]].

Definition glide_orbit : list vec3 := [(0, 0, 0); (0, 1 / 2, 1 / 2)].

Definition accept_all (points : list vec3) (sg : Z) : exc (option nat) := Val (Some 0%nat).

(** * Properties *)

(** ** Decisions on reals *)

Lemma exc_bind_Val {A B : Type} (m : exc A) (k : A -> exc B) (b : B) :
  exc_bind m k = Val b -> exists a, m = Val a /\ k a = Val b.
Proof. destruct m as [a | e]; simpl; intros H; [eauto | discriminate]. Qed.


Lemma Rltb_true (x y : R) : x < y -> Rltb x y = true.
Proof. intros H. unfold Rltb. destruct (Rlt_dec x y); [reflexivity | contradiction]. Qed.

Lemma Rltb_false (x y : R) : ~ x < y -> Rltb x y = false.
Proof. intros H. unfold Rltb. destruct (Rlt_dec x y); [contradiction | reflexivity]. Qed.

Lemma Rltb_iff (x y : R) : Rltb x y = true <-> x < y.
Proof. unfold Rltb. destruct (Rlt_dec x y); split; intros;
  first [assumption | reflexivity | discriminate | contradiction]. Qed.

Lemma Rleb_true (x y : R) : x <= y -> Rleb x y = true.
Proof. intros H. unfold Rleb. destruct (Rle_dec x y); [reflexivity | contradiction]. Qed.

Lemma Rleb_false (x y : R) : ~ x <= y -> Rleb x y = false.
Proof. intros H. unfold Rleb. destruct (Rle_dec x y); [contradiction | reflexivity]. Qed.

Lemma Rleb_iff (x y : R) : Rleb x y = true <-> x <= y.
Proof. unfold Rleb. destruct (Rle_dec x y); split; intros;
  first [assumption | reflexivity | discriminate | contradiction]. Qed.

Lemma Reqb_true (x y : R) : x = y -> Reqb x y = true.
Proof. intros H. unfold Reqb. destruct (Req_dec_T x y); [reflexivity | contradiction]. Qed.

Lemma Reqb_false (x y : R) : x <> y -> Reqb x y = false.
Proof. intros H. unfold Reqb. destruct (Req_dec_T x y); [contradiction | reflexivity]. Qed.

Lemma Reqb_iff (x y : R) : Reqb x y = true <-> x = y.
Proof. unfold Reqb. destruct (Req_dec_T x y); split; intros;
  first [assumption | reflexivity | discriminate | contradiction]. Qed.

Lemma fdiv_ok (x y : R) : y <> 0 -> fdiv x y = Val (x / y).
Proof. intros H. unfold fdiv. now rewrite Reqb_false. Qed.

Lemma py_sqrt_ok (x : R) : 0 <= x -> py_sqrt x = Val (sqrt x).
Proof. intros H. unfold py_sqrt. rewrite Rltb_false; [reflexivity | lra]. Qed.

Lemma py_acos_ok (x : R) : -1 <= x <= 1 -> py_acos x = Val (acos x).
Proof. intros H. unfold py_acos. rewrite !Rltb_false; [reflexivity | lra | lra]. Qed.

Lemma isclose_true (a b : R) :
  Rabs (a - b) <= 1 / 100000000 + 1 / 100000 * Rabs b -> isclose a b = true.
Proof. intros H. unfold isclose. now apply Rleb_true. Qed.

Lemma isclose_false (a b : R) :
  1 / 100000000 + 1 / 100000 * Rabs b < Rabs (a - b) -> isclose a b = false.
Proof. intros H. unfold isclose. apply Rleb_false. lra. Qed.

Lemma sqrt_unique (x v : R) : 0 <= v -> x = v * v -> sqrt x = v.
Proof. intros Hv ->. now apply sqrt_square. Qed.

Lemma norm_unique (u : vec3) (v : R) : 0 <= v -> dot u u = v * v -> norm u = v.
Proof. intros Hv H. unfold norm. now apply sqrt_unique. Qed.

Lemma Rabs_m1 : Rabs (-1) = 1.
Proof. unfold Rabs; destruct Rcase_abs; lra. Qed.

(** ** operations.angle *)

Lemma angle_close_one (v1 v2 : vec3) :
  Rabs (dot v1 v2 - 1) <= 1 / 100000000 + 1 / 100000 -> angle v1 v2 = Val 0.
Proof.
  intros H. unfold angle. rewrite isclose_true; [reflexivity |].
  rewrite Rabs_R1. lra.
Qed.

Lemma angle_acos (v1 v2 : vec3) (q : R) :
  1 / 100000000 + 1 / 100000 < Rabs (dot v1 v2 - 1) ->
  1 / 100000000 + 1 / 100000 < Rabs (dot v1 v2 + 1) ->
  norm v1 * norm v2 <> 0 ->
  dot v1 v2 / (norm v1 * norm v2) = q ->
  -1 <= q <= 1 ->
  angle v1 v2 = Val (acos q).
Proof.
  intros H1 H2 Hn Hq Hr. unfold angle.
  rewrite isclose_false by (rewrite Rabs_R1; lra).
  rewrite isclose_false.
  2:{ rewrite Rabs_m1. replace (dot v1 v2 - -1) with (dot v1 v2 + 1) by lra. lra. }
  rewrite fdiv_ok by assumption. simpl. rewrite Hq. now apply py_acos_ok.
Qed.

(** Whatever [angle] returns lies in [0, pi]. *)
Lemma angle_range (v1 v2 : vec3) (t : R) : angle v1 v2 = Val t -> 0 <= t <= PI.
Proof.
  unfold angle. pose proof PI_RGT_0 as HPI.
  destruct (isclose _ 1); [intros H; inversion H; lra |].
  destruct (isclose _ (-1)); [intros H; inversion H; lra |].
  intros H. apply exc_bind_Val in H. destruct H as (q & _ & H).
  unfold py_acos in H.
  destruct (Rltb q (-1)) eqn:E1; [discriminate |].
  destruct (Rltb 1 q) eqn:E2; [discriminate |].
  inversion H; subst.
  apply acos_bound.
Qed.

(** ** Inversion of the monads *)

Lemma bind_Ok {A B : Type} (m : M A) (k : A -> M B) (w w' : world) (b : B) :
  bind m k w = Ok b w' -> exists a w1, m w = Ok a w1 /\ k a w1 = Ok b w'.
Proof. unfold bind. destruct (m w) as [a w1 | e | w1 |]; intros H; try discriminate; eauto. Qed.

Lemma lift_Ok {A : Type} (m : exc A) (w w' : world) (a : A) :
  lift m w = Ok a w' -> m = Val a /\ w' = w.
Proof. unfold lift. destruct m; intros H; inversion H; subst; auto. Qed.

Lemma ret_Ok {A : Type} (a b : A) (w w' : world) : ret a w = Ok b w' -> b = a /\ w' = w.
Proof. unfold ret. intros H; inversion H; auto. Qed.

Lemma fdiv_Val (x y q : R) : fdiv x y = Val q -> y <> 0 /\ q = x / y.
Proof.
  unfold fdiv, Reqb. destruct (Req_dec_T y 0); intros H; inversion H; auto.
Qed.

Lemma py_sqrt_Val (x r : R) : py_sqrt x = Val r -> 0 <= x /\ r = sqrt x.
Proof.
  unfold py_sqrt, Rltb. destruct (Rlt_dec x 0); intros H; inversion H; split; [lra | reflexivity].
Qed.

Ltac inv_run :=
  repeat match goal with
    | H : bind _ _ _ = Ok _ _ |- _ =>
        let a := fresh "a" in let w := fresh "w" in
        let H1 := fresh "H" in let H2 := fresh "H" in
        apply bind_Ok in H; destruct H as (a & w & H1 & H2)
    | H : lift _ _ = Ok _ _ |- _ =>
        let E := fresh "E" in apply lift_Ok in H; destruct H as [H E]; subst
    | H : ret _ _ = Ok _ _ |- _ =>
        let E := fresh "E" in apply ret_Ok in H; destruct H as [H E]; subst
    | H : fdiv _ _ = Val _ |- _ =>
        let E := fresh "E" in apply fdiv_Val in H; destruct H as [H E]; subst
    | H : py_sqrt _ = Val _ |- _ =>
        let E := fresh "E" in apply py_sqrt_Val in H; destruct H as [H E]; subst
    end.

(** ** The acceptance test of the lattice sampler *)

Lemma meets_requirements_true (minvec minangle maxangle max_ratio maxvec : R) (p : CellPara) :
  meets_requirements minvec minangle maxangle max_ratio maxvec p = true ->
  (minvec < cp_a p /\ minvec < cp_b p /\ minvec < cp_c p) /\
  (cp_a p < maxvec /\ cp_b p < maxvec /\ cp_c p < maxvec) /\
  smallvec p < minvec /\
  (minangle < cp_alpha p < maxangle /\ minangle < cp_beta p < maxangle
   /\ minangle < cp_gamma p < maxangle) /\
  (cp_a p / cp_b p < max_ratio /\ cp_a p / cp_c p < max_ratio /\ cp_b p / cp_c p < max_ratio
   /\ cp_b p / cp_a p < max_ratio /\ cp_c p / cp_a p < max_ratio /\ cp_c p / cp_b p < max_ratio).
Proof.
  unfold meets_requirements. intros H.
  repeat (apply andb_prop in H; let H' := fresh "H" in destruct H as [H H']).
  repeat match goal with X : Rltb _ _ = true |- _ => apply Rltb_iff in X end.
  repeat split; assumption.
Qed.

Lemma lattice_rounds_accepted (sg : Z) (volume minvec minangle max_ratio : R)
    (maxattempts rounds : nat) (w w' : world) (p : CellPara) :
  lattice_rounds sg volume minvec minangle max_ratio maxattempts rounds w = Ok (Some p) w' ->
  exists w0 w1,
    sample_cell sg volume minangle (PI - minangle) w0 = Ok p w1 /\
    minvec ^ 2 <> 0 /\
    minvec < cp_a p * cp_b p * cp_c p / minvec ^ 2 /\
    meets_requirements minvec minangle (PI - minangle) max_ratio
      (cp_a p * cp_b p * cp_c p / minvec ^ 2) p = true.
Proof.
  revert w. induction rounds as [| rounds IH]; intros w H; cbn [lattice_rounds] in H.
  - inv_run. discriminate.
  - apply bind_Ok in H. destruct H as (q & w1 & Hs & H).
    apply bind_Ok in H. destruct H as (maxvec & w2 & Hm & H).
    inv_run.
    destruct (Rltb minvec _ && _) eqn:Hc.
    + inv_run. inversion H; subst.
      apply andb_prop in Hc. destruct Hc as [Hc1 Hc2]. apply Rltb_iff in Hc1.
      exists w, w1. auto.
    + eapply IH; eauto.
Qed.

(** ** Cube roots *)

Lemma Rpower_third_cube (x : R) : 0 < x ->
  Rpower x (1 / 3) * Rpower x (1 / 3) * Rpower x (1 / 3) = x.
Proof.
  intros H. rewrite <- !Rpower_plus.
  replace (1 / 3 + 1 / 3 + 1 / 3) with 1 by field.
  now apply Rpower_1.
Qed.

Lemma Rpower_pos (x y : R) : 0 < Rpower x y.
Proof. unfold Rpower. apply exp_pos. Qed.

Lemma cbrt_cube (x : R) : cbrt x * cbrt x * cbrt x = x.
Proof.
  unfold cbrt, Rltb.
  destruct (Rlt_dec 0 x) as [Hp | Hp].
  - now apply Rpower_third_cube.
  - destruct (Rlt_dec x 0) as [Hn | Hn].
    + pose proof (Rpower_third_cube (- x) ltac:(lra)) as H.
      set (r := Rpower (- x) (1 / 3)) in *. nra.
    + lra.
Qed.

Lemma cbrt_pos (x : R) : 0 < x -> 0 < cbrt x.
Proof. intros H. unfold cbrt. rewrite Rltb_true by assumption. apply Rpower_pos. Qed.

Lemma cbrt_neg (x : R) : x < 0 -> cbrt x < 0.
Proof.
  intros H. unfold cbrt. rewrite Rltb_false by lra. rewrite Rltb_true by assumption.
  pose proof (Rpower_pos (- x) (1 / 3)). lra.
Qed.

Lemma cbrt_nonzero (x : R) : x <> 0 -> cbrt x <> 0.
Proof.
  intros H. destruct (Rlt_dec 0 x).
  - pose proof (cbrt_pos x). lra.
  - pose proof (cbrt_neg x). lra.
Qed.

Lemma cube_lt (a b : R) : 0 < a -> a < b -> a * a * a < b * b * b.
Proof.
  intros Ha Hab.
  assert (H1 : a * a < b * b) by nra.
  assert (H2 : a * a * a < b * b * a) by (apply Rmult_lt_compat_r; assumption).
  assert (H3 : b * b * a < b * b * b) by (apply Rmult_lt_compat_l; nra).
  lra.
Qed.

Lemma cbrt_unique (x y : R) : 0 < x -> x * x * x = y -> cbrt y = x.
Proof.
  intros Hx Hy.
  assert (Hypos : 0 < y) by (rewrite <- Hy; repeat apply Rmult_lt_0_compat; assumption).
  pose proof (cbrt_pos y Hypos) as Hc. pose proof (cbrt_cube y) as Hq.
  set (r := cbrt y) in *.
  destruct (Rtotal_order r x) as [Hlt | [Heq | Hgt]]; [| assumption |]; exfalso.
  - pose proof (cube_lt r x Hc Hlt). lra.
  - pose proof (cube_lt x r Hx Hgt). lra.
Qed.

Lemma cbrt_lower (x y : R) : 0 < x -> x * x * x < y -> x < cbrt y.
Proof.
  intros Hx Hy.
  assert (Hypos : 0 < y) by (eapply Rlt_trans; [| exact Hy]; repeat apply Rmult_lt_0_compat; assumption).
  pose proof (cbrt_pos y Hypos) as Hc. pose proof (cbrt_cube y) as Hq.
  set (r := cbrt y) in *.
  destruct (Rtotal_order x r) as [Hlt | [Heq | Hgt]]; [assumption | |]; exfalso.
  - subst x. lra.
  - pose proof (cube_lt r x Hc Hgt). lra.
Qed.

(** The product of the three scaled lengths is the target [abc]. *)
Lemma scaled_lengths_product (v0 v1 v2 abc a b c : R) :
  0 < v0 -> 0 < v1 -> 0 < v2 ->
  scaled_lengths (v0, v1, v2) abc = (a, b, c) ->
  a * b * c = abc.
Proof.
  intros H0 H1 H2 H. unfold scaled_lengths in H. inversion H; subst; clear H.
  assert (Hx : 0 < v0 * v1 * v2) by (apply Rmult_lt_0_compat; [apply Rmult_lt_0_compat |]; lra).
  pose proof (cbrt_pos _ Hx) as Hc.
  pose proof (cbrt_cube (v0 * v1 * v2)) as Hq.
  pose proof (cbrt_cube abc) as Ha.
  set (k := cbrt (v0 * v1 * v2)) in *. set (r := cbrt abc) in *.
  replace (v0 * r / k * (v1 * r / k) * (v2 * r / k))
    with ((v0 * v1 * v2) * (r * r * r) / (k * k * k)) by (field; lra).
  rewrite Hq, Ha. field. lra.
Qed.

Lemma np_random_normal_Ok (loc scale x : R) (w w' : world) :
  np_random_normal loc scale w = Ok x w' -> exists z, x = loc + scale * z.
Proof.
  unfold np_random_normal. destruct (Rlt_dec scale 0); [discriminate |].
  destruct (normals w); [discriminate |]. intros H; inversion H; eauto.
Qed.

Lemma random_vector_Ok (v : vec3) (w w' : world) :
  random_vector w = Ok v w' ->
  exists v0 v1 v2, v = (v0, v1, v2) /\ 0 < v0 /\ 0 < v1 /\ 0 < v2.
Proof.
  unfold random_vector. intros H. inv_run. inversion H; subst.
  do 3 eexists. split; [reflexivity |]. repeat split; apply exp_pos.
Qed.

(** ** The volume of a sampled cell *)

Lemma det3_lower (a b0 b1 c0 c1 c2 : R) :
  det3 ((a, 0, 0), (b0, b1, 0), (c0, c1, c2)) = a * b1 * c2.
Proof. simpl. ring. Qed.

(** [para2matrix] on a cell whose angles alpha and beta are right angles. *)
Lemma para2matrix_right (a b c gamma : R) :
  sin gamma <> 0 -> 0 <= c ->
  exists m, para2matrix (mkCellPara a b c (PI / 2) (PI / 2) gamma) = Val m
            /\ det3 m = a * b * c * sin gamma.
Proof.
  intros Hs Hc. unfold para2matrix; simpl. rewrite cos_PI2.
  rewrite fdiv_ok by assumption. simpl.
  rewrite py_sqrt_ok.
  2:{ replace (c * (0 - 0 * cos gamma) / sin gamma) with 0 by (field; assumption). nra. }
  simpl. eexists. split; [reflexivity |]. rewrite det3_lower.
  rewrite (sqrt_unique _ c); [ring | assumption |].
  replace (c * (0 - 0 * cos gamma) / sin gamma) with 0 by (field; assumption). ring.
Qed.
Lemma pow_third_Val (x s : R) : pow_third x = Val s -> 0 <= x /\ s = cbrt x.
Proof.
  unfold pow_third, Rltb. destruct (Rlt_dec x 0); intros H; inversion H; split; [lra | reflexivity].
Qed.

Lemma matrix2para_angles (m : mat3) (p : CellPara) :
  matrix2para m = Val p ->
  0 <= cp_alpha p <= PI /\ 0 <= cp_beta p <= PI /\ 0 <= cp_gamma p <= PI.
Proof.
  destruct m as [[m0 m1] m2]. unfold matrix2para. intros H.
  apply exc_bind_Val in H. destruct H as (al & Ha & H).
  apply exc_bind_Val in H. destruct H as (be & Hb & H).
  apply exc_bind_Val in H. destruct H as (ga & Hg & H).
  inversion H; subst; simpl.
  repeat split; eapply angle_range; eauto.
Qed.

(** Triclinic cells: the Gram determinant under the square root is the
    factor between a*b*c and the volume. *)
Lemma para2matrix_triclinic (a b c alpha beta gamma : R) :
  let G := 1 - cos alpha ^ 2 - cos beta ^ 2 - cos gamma ^ 2
           + 2 * (cos alpha * cos beta * cos gamma) in
  0 < G -> 0 <= gamma <= PI -> 0 <= c ->
  exists m, para2matrix (mkCellPara a b c alpha beta gamma) = Val m
            /\ det3 m = a * b * c * sqrt G.
Proof.
  intros G HG Hg Hc.
  pose proof (sin2_cos2 gamma) as Hsc. unfold Rsqr in Hsc.
  assert (Hs : 0 < sin gamma).
  { pose proof (sin_ge_0 gamma (proj1 Hg) (proj2 Hg)) as H0.
    destruct (Req_dec (sin gamma) 0) as [E | E]; [| lra].
    exfalso. rewrite E in Hsc.
    assert (HG' : G = - ((cos alpha - cos beta * cos gamma) * (cos alpha - cos beta * cos gamma)))
      by (unfold G; nra).
    pose proof (Rle_0_sqr (cos alpha - cos beta * cos gamma)) as Hq. unfold Rsqr in Hq.
    lra. }
  set (S := sin gamma) in *. set (A := cos alpha) in *. set (B := cos beta) in *.
  set (C := cos gamma) in *.
  assert (Hx : sqrt G * sqrt G = G) by (apply sqrt_sqrt; lra).
  assert (Hx0 : 0 <= sqrt G) by apply sqrt_pos.
  assert (Hrad : c ^ 2 - (c * B) ^ 2 - (c * (A - B * C) / S) ^ 2
                 = (c * sqrt G / S) * (c * sqrt G / S)).
  { assert (HSS : S * S = 1 - C * C) by lra.
    assert (Hnum : (1 - B * B) * (S * S) - (A - B * C) * (A - B * C) = G)
      by (rewrite HSS; unfold G; ring).
    replace ((c * sqrt G / S) * (c * sqrt G / S)) with (c * c * (sqrt G * sqrt G) / (S * S))
      by (field; lra).
    rewrite Hx, <- Hnum. field. lra. }
  assert (Hv : 0 <= c * sqrt G / S).
  { apply Rmult_le_pos; [apply Rmult_le_pos; assumption |]. left. now apply Rinv_0_lt_compat. }
  unfold para2matrix; cbn [cp_a cp_b cp_c cp_alpha cp_beta cp_gamma].
  fold A B C S.
  rewrite fdiv_ok by lra. cbn [exc_bind].
  rewrite py_sqrt_ok by (rewrite Hrad; nra). cbn [exc_bind].
  eexists. split; [reflexivity |]. rewrite det3_lower.
  rewrite (sqrt_unique _ _ Hv Hrad). field. lra.
Qed.

(** Monoclinic cells. *)
Lemma para2matrix_monoclinic (a b c beta : R) :
  0 <= c * sin beta ->
  exists m, para2matrix (mkCellPara a b c (PI / 2) beta (PI / 2)) = Val m
            /\ det3 m = a * b * (c * sin beta).
Proof.
  intros Hc.
  pose proof (sin2_cos2 beta) as Hsc. unfold Rsqr in Hsc.
  unfold para2matrix; cbn [cp_a cp_b cp_c cp_alpha cp_beta cp_gamma].
  rewrite cos_PI2, sin_PI2.
  rewrite fdiv_ok by lra. cbn [exc_bind].
  assert (Hrad : c ^ 2 - (c * cos beta) ^ 2 - (c * (0 - cos beta * 0) / 1) ^ 2
                 = (c * sin beta) * (c * sin beta)).
  { replace (c * (0 - cos beta * 0) / 1) with 0 by field. nra. }
  rewrite py_sqrt_ok by (rewrite Hrad; nra). cbn [exc_bind].
  eexists. split; [reflexivity |]. rewrite det3_lower.
  rewrite (sqrt_unique _ _ Hc Hrad). ring.
Qed.

Lemma scaled_lengths_sign (v0 v1 v2 abc a b c : R) :
  0 < v0 -> 0 < v1 -> 0 < v2 ->
  scaled_lengths (v0, v1, v2) abc = (a, b, c) ->
  (0 < abc -> 0 < c) /\ (abc < 0 -> c < 0).
Proof.
  intros H0 H1 H2 H. unfold scaled_lengths in H. inversion H; subst; clear H.
  assert (Hx : 0 < v0 * v1 * v2) by (apply Rmult_lt_0_compat; [apply Rmult_lt_0_compat |]; lra).
  pose proof (cbrt_pos _ Hx) as Hk.
  assert (Hi : 0 < / cbrt (v0 * v1 * v2)) by now apply Rinv_0_lt_compat.
  split; intros Ha.
  - pose proof (cbrt_pos _ Ha). unfold Rdiv.
    apply Rmult_lt_0_compat; [apply Rmult_lt_0_compat |]; assumption.
  - pose proof (cbrt_neg _ Ha). unfold Rdiv.
    assert (0 < v2 * (- cbrt abc) * / cbrt (v0 * v1 * v2)).
    { apply Rmult_lt_0_compat; [apply Rmult_lt_0_compat |]; lra. }
    lra.
Qed.
(** Every cell the sampler draws has a lattice matrix whose determinant is
    the target volume, when the target volume is positive, or when the
    length c and the sine of beta are not negative (as for every accepted
    cell under bounds that are not negative). *)
Lemma sample_cell_volume (sg : Z) (volume minangle maxangle : R) (w w' : world) (p : CellPara) :
  0 < volume \/ (0 <= cp_c p /\ 0 <= sin (cp_beta p)) ->
  sample_cell sg volume minangle maxangle w = Ok p w' ->
  exists m, para2matrix p = Val m /\ det3 m = volume.
Proof.
  intros Hdom H. unfold sample_cell in H.
  destruct (sg <=? 2)%Z.
  { (* Triclinic *)
    apply bind_Ok in H. destruct H as (mat & w1 & _ & H).
    apply bind_Ok in H. destruct H as (p0 & w2 & Hp0 & H).
    apply lift_Ok in Hp0. destruct Hp0 as [Hp0 _].
    apply bind_Ok in H. destruct H as (x & w3 & Hx & H).
    apply lift_Ok in Hx. destruct Hx as [Hx _]. apply py_sqrt_Val in Hx. destruct Hx as [HG Hx].
    apply bind_Ok in H. destruct H as (vec & w4 & Hvec & H).
    apply random_vector_Ok in Hvec. destruct Hvec as (v0 & v1 & v2 & -> & Hv0 & Hv1 & Hv2).
    apply bind_Ok in H. destruct H as (abc & w5 & Habc & H).
    apply lift_Ok in Habc. destruct Habc as [Habc _]. apply fdiv_Val in Habc.
    destruct Habc as [Hx0 Habc].
    destruct (scaled_lengths (v0, v1, v2) abc) as [[a b] c] eqn:Hsl.
    apply ret_Ok in H. destruct H as [-> _]. cbn [cp_c cp_beta] in Hdom.
    pose proof (matrix2para_angles _ _ Hp0) as (_ & _ & Hg).
    assert (HG0 : 0 < 1 - cos (cp_alpha p0) ^ 2 - cos (cp_beta p0) ^ 2 - cos (cp_gamma p0) ^ 2
                      + 2 * (cos (cp_alpha p0) * cos (cp_beta p0) * cos (cp_gamma p0))).
    { destruct HG as [HG | HG]; [assumption |]. exfalso. apply Hx0. rewrite Hx, <- HG.
      apply sqrt_0. }
    assert (Hxpos : 0 < x) by (rewrite Hx; now apply sqrt_lt_R0).
    pose proof (scaled_lengths_sign _ _ _ _ _ _ _ Hv0 Hv1 Hv2 Hsl) as [Hc _].
    pose proof (scaled_lengths_product _ _ _ _ _ _ _ Hv0 Hv1 Hv2 Hsl) as Hprod.
    assert (Hc0 : 0 <= c).
    { destruct Hdom as [Hvol | [Hc0 _]]; [| assumption].
      assert (Habcpos : 0 < abc) by (rewrite Habc; now apply Rdiv_lt_0_compat).
      specialize (Hc Habcpos). lra. }
    destruct (para2matrix_triclinic a b c (cp_alpha p0) (cp_beta p0) (cp_gamma p0) HG0 Hg Hc0)
      as (m & Hm & Hd).
    exists m. split; [assumption |]. rewrite Hd, Hprod, <- Hx, Habc. field. lra. }
  destruct (sg <=? 15)%Z.
  { (* Monoclinic *)
    apply bind_Ok in H. destruct H as (beta & w1 & _ & H).
    apply bind_Ok in H. destruct H as (vec & w4 & Hvec & H).
    apply random_vector_Ok in Hvec. destruct Hvec as (v0 & v1 & v2 & -> & Hv0 & Hv1 & Hv2).
    apply bind_Ok in H. destruct H as (abc & w5 & Habc & H).
    apply lift_Ok in Habc. destruct Habc as [Habc _]. apply fdiv_Val in Habc.
    destruct Habc as [Hx0 Habc].
    destruct (scaled_lengths (v0, v1, v2) abc) as [[a b] c] eqn:Hsl.
    apply ret_Ok in H. destruct H as [-> _]. cbn [cp_c cp_beta] in Hdom.
    pose proof (scaled_lengths_sign _ _ _ _ _ _ _ Hv0 Hv1 Hv2 Hsl) as [Hc1 Hc2].
    pose proof (scaled_lengths_product _ _ _ _ _ _ _ Hv0 Hv1 Hv2 Hsl) as Hprod.
    assert (Hcs : 0 <= c * sin beta).
    { destruct Hdom as [Hvol | [Hc0 Hb0]]; [| now apply Rmult_le_pos].
      destruct (Rlt_dec 0 (sin beta)) as [Hs | Hs].
      - assert (0 < abc) by (rewrite Habc; now apply Rdiv_lt_0_compat).
        specialize (Hc1 H). nra.
      - assert (Hs' : sin beta < 0) by lra.
        assert (abc < 0).
        { rewrite Habc. unfold Rdiv.
          assert (/ sin beta < 0) by now apply Rinv_lt_0_compat. nra. }
        specialize (Hc2 H). nra. }
    destruct (para2matrix_monoclinic a b c beta Hcs) as (m & Hm & Hd).
    exists m. split; [assumption |].
    rewrite Hd. replace (a * b * (c * sin beta)) with (a * b * c * sin beta) by ring.
    rewrite Hprod, Habc. field. assumption. }
  destruct (sg <=? 74)%Z.
  { (* Orthorhombic *)
    apply bind_Ok in H. destruct H as (vec & w4 & Hvec & H).
    apply random_vector_Ok in Hvec. destruct Hvec as (v0 & v1 & v2 & -> & Hv0 & Hv1 & Hv2).
    apply bind_Ok in H. destruct H as (abc & w5 & Habc & H).
    apply lift_Ok in Habc. destruct Habc as [Habc _]. apply fdiv_Val in Habc.
    destruct Habc as [Hx0 Habc].
    destruct (scaled_lengths (v0, v1, v2) abc) as [[a b] c] eqn:Hsl.
    apply ret_Ok in H. destruct H as [-> _]. cbn [cp_c cp_beta] in Hdom.
    pose proof (scaled_lengths_sign _ _ _ _ _ _ _ Hv0 Hv1 Hv2 Hsl) as [Hc1 _].
    pose proof (scaled_lengths_product _ _ _ _ _ _ _ Hv0 Hv1 Hv2 Hsl) as Hprod.
    assert (Hc0 : 0 <= c).
    { destruct Hdom as [Hvol | [Hc0 _]]; [| assumption].
      assert (Habcpos : 0 < abc) by (rewrite Habc; lra).
      specialize (Hc1 Habcpos). lra. }
    destruct (para2matrix_right a b c (PI / 2)) as (m & Hm & Hd);
      [rewrite sin_PI2; lra | assumption |].
    exists m. split; [assumption |]. rewrite Hd, sin_PI2, Hprod, Habc. field. }
  assert (Htet : forall x gamma v,
             0 < x -> sin gamma = x ->
             0 < volume \/ 0 <= cp_c v ->
             (run vec <- random_vector;
              let '(v0, v1, v2) := vec in
              run vx <- lift (fdiv volume x);
              let c := v2 / (v0 * v1) * cbrt vx in
              run q <- lift (fdiv vx c);
              run a <- lift (py_sqrt q);
              ret (mkCellPara a a c (PI / 2) (PI / 2) gamma)) w = Ok v w' ->
             exists m, para2matrix v = Val m /\ det3 m = volume).
  { clear H Hdom. intros x gamma v Hxpos Hsin Hdom H.
    apply bind_Ok in H. destruct H as (vec & w4 & Hvec & H).
    apply random_vector_Ok in Hvec. destruct Hvec as (v0 & v1 & v2 & -> & Hv0 & Hv1 & Hv2).
    apply bind_Ok in H. destruct H as (vx & w5 & Hvx & H).
    apply lift_Ok in Hvx. destruct Hvx as [Hvx _]. apply fdiv_Val in Hvx.
    destruct Hvx as [_ Hvx].
    apply bind_Ok in H. destruct H as (q & w6 & Hq & H).
    apply lift_Ok in Hq. destruct Hq as [Hq _]. apply fdiv_Val in Hq. destruct Hq as [Hc0 Hq].
    apply bind_Ok in H. destruct H as (a & w7 & Ha & H).
    apply lift_Ok in Ha. destruct Ha as [Ha _]. apply py_sqrt_Val in Ha. destruct Ha as [Hq0 Ha].
    apply ret_Ok in H. destruct H as [-> _]. cbn [cp_c] in Hdom.
    set (c := v2 / (v0 * v1) * cbrt vx) in *.
    assert (Hcpos : 0 <= c).
    { destruct Hdom as [Hvol | Hc]; [| assumption].
      assert (Hvxpos : 0 < vx) by (rewrite Hvx; now apply Rdiv_lt_0_compat).
      left. unfold c. apply Rmult_lt_0_compat; [| now apply cbrt_pos].
      apply Rdiv_lt_0_compat; [assumption | now apply Rmult_lt_0_compat]. }
    destruct (para2matrix_right a a c gamma) as (m & Hm & Hd); [lra | assumption |].
    exists m. split; [assumption |]. rewrite Hd, Hsin, Ha.
    replace (sqrt q * sqrt q * c * x) with ((sqrt q * sqrt q) * c * x) by ring.
    rewrite sqrt_sqrt by assumption. rewrite Hq, Hvx. field. lra. }
  assert (Hdom' : 0 < volume \/ 0 <= cp_c p) by (destruct Hdom as [Hvol | [Hc _]]; auto).
  destruct (sg <=? 142)%Z.
  { (* Tetragonal *)
    apply (Htet 1 (PI / 2)); [lra | apply sin_PI2 | exact Hdom' | exact H]. }
  destruct (sg <=? 194)%Z.
  { (* Trigonal/Rhombohedral/Hexagonal *)
    assert (H3 : 0 < sqrt 3) by (apply sqrt_lt_R0; lra).
    apply (Htet (sqrt 3 / 2) (PI / 3 * 2)); [lra | | exact Hdom' | exact H].
    rewrite (Rmult_comm (PI / 3) 2). apply sin_2PI3. }
  (* Cubic *)
  clear Htet.
  apply bind_Ok in H. destruct H as (s & w1 & Hs & H).
  apply lift_Ok in Hs. destruct Hs as [Hs _]. apply pow_third_Val in Hs. destruct Hs as [_ Hs].
  apply ret_Ok in H. destruct H as [-> _]. cbn [cp_c] in Hdom'.
  assert (Hspos : 0 <= s).
  { destruct Hdom' as [Hvol | Hc]; [| assumption].
    pose proof (cbrt_pos _ Hvol) as Hspos. rewrite <- Hs in Hspos. lra. }
  destruct (para2matrix_right s s s (PI / 2)) as (m & Hm & Hd);
    [rewrite sin_PI2; lra | assumption |].
  exists m. split; [assumption |]. rewrite Hd, sin_PI2, Hs.
  rewrite Rmult_1_r. apply cbrt_cube.
Qed.

(** Every cell that the acceptance test lets through has a lattice matrix
    whose determinant is the target volume, for a positive target volume
    or for bounds [minvec] and [minangle] that are not negative: then the
    accepted length c is positive and the accepted beta lies in (0, pi). *)
Lemma lattice_rounds_volume (sg : Z) (volume minvec minangle max_ratio : R)
    (maxattempts rounds : nat) (w w' : world) (p : CellPara) :
  0 < volume \/ (0 <= minvec /\ 0 <= minangle) ->
  lattice_rounds sg volume minvec minangle max_ratio maxattempts rounds w = Ok (Some p) w' ->
  exists m, para2matrix p = Val m /\ det3 m = volume.
Proof.
  intros Hdom H.
  apply lattice_rounds_accepted in H. destruct H as (w0 & w1 & Hs & _ & _ & Hr).
  apply meets_requirements_true in Hr.
  destruct Hr as ((_ & _ & Hc) & _ & _ & (_ & (Hb1 & Hb2) & _) & _).
  apply (sample_cell_volume _ _ _ _ _ _ _) with (2 := Hs).
  destruct Hdom as [Hvol | [Hv Ha]]; [now left | right].
  split; [lra |]. left. apply sin_gt_0; lra.
Qed.
(** ** choose_wyckoff *)

Lemma uniform_group_fits (g : list wyckoff_position) (w0 wp : wyckoff_position)
    (rest : list wyckoff_position) :
  uniform_group g -> g = w0 :: rest -> In wp g -> multiplicity wp = multiplicity w0.
Proof.
  intros Hu -> Hin. unfold multiplicity. simpl in Hu. now rewrite (Hu wp Hin).
Qed.

Lemma first_fitting_group_spec (wyckoffs : list (list wyckoff_position)) (number : Z) :
  organized wyckoffs ->
  (first_fitting_group wyckoffs number = Val None /\
   forall g wp, In g wyckoffs -> In wp g -> (number < multiplicity wp)%Z)
  \/
  (exists g, first_fitting_group wyckoffs number = Val (Some g) /\ In g wyckoffs /\ g <> [] /\
             forall wp, In wp g -> (multiplicity wp <= number)%Z).
Proof.
  intros Ho. induction Ho as [| g rest Hg Hrest IH]; simpl.
  - left. split; [reflexivity |]. intros g wp [].
  - destruct g as [| w0 g']; [destruct Hg |].
    destruct (multiplicity w0 <=? number)%Z eqn:E.
    + right. exists (w0 :: g'). split; [reflexivity |]. split; [now left |].
      split; [discriminate |].
      intros wp Hin. rewrite (uniform_group_fits _ w0 wp g' Hg eq_refl Hin). lia.
    + destruct IH as [[IH1 IH2] | (g & IH1 & IH2 & IH3)].
      * left. split; [assumption |]. intros g wp [<- | Hin] Hwp.
        -- rewrite (uniform_group_fits _ w0 wp g' Hg eq_refl Hwp). lia.
        -- eauto.
      * right. exists g. split; [assumption |]. split; [now right | assumption].
Qed.

Lemma good_wyckoff_spec (wyckoffs : list (list wyckoff_position)) (number : Z) :
  organized wyckoffs ->
  exists good, good_wyckoff wyckoffs number = Val good /\
    (forall wp, In wp good ->
       (multiplicity wp <= number)%Z /\ exists g, In g wyckoffs /\ In wp g) /\
    (forall g wp, In g wyckoffs -> In wp g -> (multiplicity wp <= number)%Z -> In wp good).
Proof.
  intros Ho. induction Ho as [| g rest Hg Hrest IH]; simpl.
  - exists []. split; [reflexivity |]. split; [intros wp [] | intros g wp []].
  - destruct g as [| w0 g']; [destruct Hg |].
    destruct IH as (good & -> & IH1 & IH2). simpl.
    destruct (multiplicity w0 <=? number)%Z eqn:E.
    + eexists. split; [reflexivity |]. split.
      * intros wp Hin. change (In wp ((w0 :: g') ++ good)) in Hin.
        apply in_app_or in Hin. destruct Hin as [Hin | Hin].
        -- split; [| exists (w0 :: g'); split; [now left | assumption]].
           rewrite (uniform_group_fits _ w0 wp g' Hg eq_refl Hin). lia.
        -- destruct (IH1 wp Hin) as [H1 (g & H2 & H3)]. split; [assumption |].
           exists g. split; [now right | assumption].
      * intros g wp [<- | Hin] Hwp Hm; change (In wp ((w0 :: g') ++ good));
          apply in_or_app; [now left | right; eauto].
    + eexists. split; [reflexivity |]. split.
      * intros wp Hin. destruct (IH1 wp Hin) as [H1 (g & H2 & H3)]. split; [assumption |].
        exists g. split; [now right | assumption].
      * intros g wp [<- | Hin] Hwp Hm; [| eauto].
        rewrite (uniform_group_fits _ w0 wp g' Hg eq_refl Hwp) in Hm. lia.
Qed.

Lemma choose_Ok {A : Type} (seq : list A) (w : world) (k : nat) (ks : list nat) :
  seq <> [] -> picks w = k :: ks ->
  exists x, choose seq w = Ok x (mkWorld (normals w) (uniforms w) ks (stdout w)) /\ In x seq.
Proof.
  intros Hne Hp. unfold choose. destruct seq as [| x0 seq']; [contradiction |].
  rewrite Hp. eexists. split; [reflexivity |].
  apply nth_In. apply Nat.mod_upper_bound. discriminate.
Qed.

Lemma rand_Ok (a b u : R) (us : list R) (w : world) :
  uniforms w = u :: us ->
  rand a b w = Ok (a + (b - a) * u) (mkWorld (normals w) us (picks w) (stdout w)).
Proof. intros H. unfold rand, bind, draw_uniform. now rewrite H. Qed.

Lemma choose_wyckoff_spec (wyckoffs : list (list wyckoff_position)) (number : Z)
    (w : world) (u : R) (us : list R) (k : nat) (ks : list nat) :
  organized wyckoffs ->
  uniforms w = u :: us ->
  picks w = k :: ks ->
  exists res w',
    choose_wyckoff wyckoffs number w = Ok res w' /\
    (res = None <-> forall g wp, In g wyckoffs -> In wp g -> (number < multiplicity wp)%Z) /\
    (forall wp, res = Some wp ->
       (multiplicity wp <= number)%Z /\ exists g, In g wyckoffs /\ In wp g).
Proof.
  clear atomic_number covalent_radius sg_symbol_from_int_number wyckoff_table.
  intros Ho Hu Hp. unfold choose_wyckoff.
  unfold bind at 1. rewrite (rand_Ok 0 1 u us w Hu).
  set (w1 := mkWorld (normals w) us (picks w) (stdout w)).
  assert (Hp1 : picks w1 = k :: ks) by exact Hp.
  destruct (Rltb (1 / 2) (0 + (1 - 0) * u)).
  - (* fill-large-first *)
    destruct (first_fitting_group_spec wyckoffs number Ho) as [[E Hnone] | (g & E & Hg & Hne & Hfit)];
      unfold bind, lift; rewrite E.
    + exists None, w1. split; [reflexivity |]. split; [tauto | discriminate].
    + destruct (choose_Ok g w1 k ks Hne Hp1) as (wp & Ec & Hin). rewrite Ec.
      eexists (Some wp), _. split; [reflexivity |]. split.
      * split; [discriminate |]. intros Hall. specialize (Hall g wp Hg Hin).
        specialize (Hfit wp Hin). lia.
      * intros wp' Hwp'. inversion Hwp'; subst. split; [auto | eauto].
  - (* any position that fits *)
    destruct (good_wyckoff_spec wyckoffs number Ho) as (good & E & Hsound & Hcomplete).
    unfold bind, lift; rewrite E.
    destruct good as [| g0 good']; cbn [length Nat.ltb Nat.leb].
    + exists None, w1. split; [reflexivity |]. split; [| discriminate].
      split; [| reflexivity]. intros _ g wp Hg Hin.
      destruct (Z_lt_le_dec number (multiplicity wp)) as [Hlt | Hle]; [assumption |].
      destruct (Hcomplete g wp Hg Hin Hle).
    + destruct (choose_Ok (g0 :: good') w1 k ks ltac:(discriminate) Hp1) as (wp & Ec & Hin).
      rewrite Ec.
      eexists (Some wp), _. split; [reflexivity |]. split.
      * split; [discriminate |]. intros Hall.
        destruct (Hsound wp Hin) as [Hm (g & Hg & Hwp)]. specialize (Hall g wp Hg Hwp). lia.
      * intros wp' Hwp'. inversion Hwp'; subst. auto.
Qed.
(** ** Depth-first traversal (add_neighbors) *)

Lemma mem_In (x : nat) (l : list nat) : mem x l = true <-> In x l.
Proof.
  unfold mem. rewrite existsb_exists. split.
  - intros (y & Hy & E). apply Nat.eqb_eq in E. now subst.
  - intros H. exists x. split; [assumption | apply Nat.eqb_refl].
Qed.

Lemma mem_not_In (x : nat) (l : list nat) : mem x l = false <-> ~ In x l.
Proof.
  rewrite <- mem_In. destruct (mem x l); split; intros; try discriminate; try reflexivity;
    try (exfalso; auto).
Qed.

Lemma below_length (n : nat) (l : list nat) : NoDup l -> below n l -> (length l <= n)%nat.
Proof.
  intros Hnd Hb. rewrite <- (length_seq n 0).
  apply NoDup_incl_length; [assumption |].
  intros x Hx. apply in_seq. unfold below in Hb. rewrite Forall_forall in Hb.
  specialize (Hb x Hx). lia.
Qed.

Lemma NoDup_snoc (x : nat) (l : list nat) : NoDup l -> ~ In x l -> NoDup (l ++ [x]).
Proof.
  intros Hnd Hx. apply NoDup_app; [assumption | repeat constructor; intros [] | ].
  intros y Hy [<- | []]. contradiction.
Qed.

Lemma visit_ok (n d : nat) (recurse : nat -> list nat -> exc (list nat)) :
  (forall x seen, (x < n)%nat -> NoDup seen -> below n seen -> seen <> [] ->
     (n < d + length seen)%nat ->
     exists seen', recurse x seen = Val seen' /\ incl seen seen' /\ NoDup seen' /\ below n seen') ->
  forall xs seen, below n xs -> NoDup seen -> below n seen -> seen <> [] ->
    (n < S d + length seen)%nat ->
    exists seen', visit recurse xs seen = Val seen' /\ incl seen seen' /\ NoDup seen'
                  /\ below n seen' /\ incl xs seen'.
Proof.
  intros Hrec xs. induction xs as [| x xs IH]; intros seen Hxs Hnd Hb Hne Hfuel; simpl.
  - exists seen. repeat split; auto using incl_refl. intros y [].
  - inversion Hxs as [| ? ? Hx Hxs']; subst.
    destruct (mem x seen) eqn:E.
    + apply mem_In in E.
      destruct (IH seen Hxs' Hnd Hb Hne Hfuel) as (s & E1 & Hi & Hn & Hbs & Hxs_in).
      exists s. repeat split; auto. intros y [<- | Hy]; auto.
    + apply mem_not_In in E.
      destruct (Hrec x (seen ++ [x])) as (s1 & E1 & Hi1 & Hn1 & Hb1); auto.
      * now apply NoDup_snoc.
      * apply Forall_app. split; [assumption | repeat constructor; assumption].
      * destruct seen; discriminate.
      * rewrite length_app. simpl. lia.
      * rewrite E1. cbn [exc_bind].
        assert (Hlen : (length seen <= length s1)%nat).
        { apply NoDup_incl_length; [assumption |]. intros y Hy. apply Hi1, in_or_app. now left. }
        destruct (IH s1 Hxs' Hn1 Hb1) as (s & E2 & Hi & Hn & Hbs & Hxs_in).
        { intros ->. apply (Hi1 x). apply in_or_app. right. now left. }
        { lia. }
        exists s. repeat split; auto.
        -- intros y Hy. apply Hi, Hi1, in_or_app. now left.
        -- intros y [<- | Hy]; auto. apply Hi, Hi1, in_or_app. right. now left.
Qed.

Lemma graph_on_nth (n : nat) (graph : list (list nat)) (el : nat) :
  graph_on n graph -> (el < n)%nat ->
  exists neighbors, nth_error graph el = Some neighbors /\ nth el graph [] = neighbors
                    /\ below n neighbors.
Proof.
  intros [Hlen Hall] Hel.
  destruct (nth_error graph el) as [nb |] eqn:E.
  - exists nb. split; [reflexivity |]. split; [now apply nth_error_nth |].
    rewrite Forall_forall in Hall. apply Hall. eapply nth_error_In; eauto.
  - apply nth_error_None in E. lia.
Qed.

Lemma add_neighbors_ok (n : nat) (graph : list (list nat)) :
  graph_on n graph ->
  forall depth el seen,
    (el < n)%nat -> NoDup seen -> below n seen ->
    (n < depth + length (started el seen))%nat ->
    exists seen', add_neighbors depth graph el seen = Val seen'
                  /\ incl (started el seen) seen' /\ NoDup seen' /\ below n seen'
                  /\ incl (nth el graph []) seen'.
Proof.
  intros Hg depth. induction depth as [| d IH]; intros el seen Hel Hnd Hb Hfuel.
  - exfalso.
    assert (NoDup (started el seen) /\ below n (started el seen)) as [H1 H2].
    { destruct seen; simpl; [| auto]. split; repeat constructor; auto. }
    pose proof (below_length _ _ H1 H2). lia.
  - cbn [add_neighbors]. fold (started el seen).
    destruct (graph_on_nth n graph el Hg Hel) as (nb & -> & Hnth & Hnb). rewrite Hnth.
    assert (NoDup (started el seen) /\ below n (started el seen) /\ started el seen <> [])
      as (H1 & H2 & H3).
    { destruct seen; simpl; [| repeat split; auto; discriminate].
      repeat split; repeat constructor; auto. discriminate. }
    apply (visit_ok n d); auto.
    intros x s Hx Hs1 Hs2 Hs3 Hs4.
    destruct (IH x s Hx Hs1 Hs2) as (s' & E & Hi & Hn & Hb' & _).
    + destruct s; [contradiction | exact Hs4].
    + exists s'. destruct s; [contradiction |]. auto.
Qed.
(** ** Connected components *)

Lemma remove_first_length (y : nat) (l : list nat) :
  In y l -> S (length (remove_first y l)) = length l.
Proof.
  induction l as [| x l IH]; intros H; [destruct H |]. simpl.
  destruct (x =? y)%nat eqn:E; [reflexivity |].
  apply Nat.eqb_neq in E. destruct H as [-> | H]; [contradiction |].
  simpl. now rewrite IH.
Qed.

Lemma remove_first_incl (y : nat) (l : list nat) : incl (remove_first y l) l.
Proof.
  induction l as [| x l IH]; simpl; [apply incl_refl |].
  destruct (x =? y)%nat; [apply incl_tl, incl_refl |].
  intros z [<- | Hz]; [now left | right; now apply IH].
Qed.

Lemma remove_seen_length (component unseen : list nat) :
  (length (remove_seen component unseen) <= length unseen)%nat.
Proof.
  unfold remove_seen. revert unseen.
  induction component as [| y c IH]; intros u; simpl; [lia |].
  destruct (mem y u) eqn:E; [| apply IH].
  apply mem_In in E. pose proof (remove_first_length y u E).
  specialize (IH (remove_first y u)). lia.
Qed.

Lemma remove_seen_incl (component unseen : list nat) :
  incl (remove_seen component unseen) unseen.
Proof.
  unfold remove_seen. revert unseen.
  induction component as [| y c IH]; intros u; simpl; [apply incl_refl |].
  destruct (mem y u); [| apply IH].
  eapply incl_tran; [apply IH | apply remove_first_incl].
Qed.

Lemma remove_seen_unchanged (component unseen : list nat) :
  length (remove_seen component unseen) = length unseen ->
  remove_seen component unseen = unseen.
Proof.
  unfold remove_seen. revert unseen.
  induction component as [| y c IH]; intros u H; simpl in *; [reflexivity |].
  destruct (mem y u) eqn:E; [| now apply IH].
  apply mem_In in E. pose proof (remove_first_length y u E).
  pose proof (remove_seen_length c (remove_first y u)) as Hl. unfold remove_seen in Hl. lia.
Qed.

Lemma remove_seen_shrinks (component unseen : list nat) (y : nat) :
  In y component -> In y unseen ->
  (length (remove_seen component unseen) < length unseen)%nat.
Proof.
  unfold remove_seen. revert unseen.
  induction component as [| c cs IH]; intros u Hc Hu; [destruct Hc |]. simpl.
  destruct (mem c u) eqn:E.
  - apply mem_In in E. pose proof (remove_first_length c u E).
    pose proof (remove_seen_length cs (remove_first c u)) as Hl. unfold remove_seen in Hl. lia.
  - destruct Hc as [-> | Hc]; [| now apply IH].
    apply mem_not_In in E. contradiction.
Qed.

Lemma components_loop_step (r : nat) (graph : list (list nat)) (unseen : list nat)
    (sets : list (list nat)) :
  unseen <> [] ->
  components_loop (S r) graph unseen sets =
  (do component <- add_neighbors (S (length graph)) graph (last unseen 0%nat) [];
   components_loop r graph (remove_seen component (removelast unseen)) (sets ++ [component])).
Proof. destruct unseen; [contradiction | reflexivity]. Qed.

Lemma components_loop_ok (n : nat) (graph : list (list nat)) :
  graph_on n graph ->
  forall rounds unseen sets,
    below n unseen -> (length unseen <= rounds)%nat ->
    exists sets',
      components_loop rounds graph unseen sets = Val sets' /\
      (length sets' <= length sets + length unseen)%nat /\
      (forall i j, i <> j -> In i unseen -> In j unseen -> edge graph i j ->
         (length sets' < length sets + length unseen)%nat).
Proof.
  intros Hg rounds. induction rounds as [| r IH]; intros unseen sets Hb Hr.
  - destruct unseen; [| simpl in Hr; lia].
    exists sets. simpl. repeat split; [lia |]. intros i j _ [].
  - destruct unseen as [| u0 us] eqn:Eu.
    { exists sets. simpl. repeat split; [lia |]. intros i j _ []. }
    rewrite <- Eu in *. assert (Hne : unseen <> []) by (rewrite Eu; discriminate).
    rewrite (components_loop_step r graph unseen sets Hne).
    set (x := last unseen 0%nat). set (rest := removelast unseen).
    assert (Hsplit : unseen = rest ++ [x]) by now apply app_removelast_last.
    assert (Hlen : length unseen = S (length rest)).
    { rewrite Hsplit at 1. rewrite length_app. simpl. lia. }
    assert (Hx : (x < n)%nat).
    { unfold below in Hb. rewrite Forall_forall in Hb. apply Hb. rewrite Hsplit.
      apply in_or_app. right. now left. }
    assert (Hrest : below n rest).
    { unfold below in *. rewrite Hsplit in Hb. apply Forall_app in Hb. tauto. }
    destruct (add_neighbors_ok n graph Hg (S (length graph)) x [] Hx (NoDup_nil _) (Forall_nil _))
      as (comp & Ecomp & Hinc & _ & _ & Hnb).
    { destruct Hg as [-> _]. simpl. lia. }
    rewrite Ecomp. cbn [exc_bind].
    set (unseen1 := remove_seen comp rest).
    pose proof (remove_seen_length comp rest) as Hl1. fold unseen1 in Hl1.
    assert (Hb1 : below n unseen1).
    { unfold below in *. rewrite Forall_forall in *. intros y Hy.
      apply Hrest. now apply (remove_seen_incl comp rest). }
    destruct (IH unseen1 (sets ++ [comp]) Hb1 ltac:(lia)) as (sets' & E & Hle & Hlt).
    rewrite length_app in Hle, Hlt. simpl in Hle, Hlt.
    exists sets'. split; [assumption |]. split; [lia |].
    intros i j Hij Hi Hj Hedge.
    assert (Hshrink : forall y, In y comp -> In y rest -> (length sets' < length sets + length unseen)%nat).
    { intros y Hy1 Hy2. pose proof (remove_seen_shrinks comp rest y Hy1 Hy2). fold unseen1 in H. lia. }
    assert (Hgone : forall z, In z rest -> ~ In z unseen1 ->
                              (length sets' < length sets + length unseen)%nat).
    { intros z Hz1 Hz2.
      assert (length unseen1 <> length rest).
      { intros Heq. apply remove_seen_unchanged in Heq. fold unseen1 in Heq.
        rewrite Heq in Hz2. contradiction. }
      lia. }
    destruct Hedge as [Hji Hij'].
    rewrite Hsplit in Hi, Hj. apply in_app_or in Hi, Hj.
    destruct Hi as [Hi | [<- | []]]; destruct Hj as [Hj | [<- | []]].
    + destruct (in_dec Nat.eq_dec i unseen1) as [Hi1 | Hi1]; [| now apply (Hgone i)].
      destruct (in_dec Nat.eq_dec j unseen1) as [Hj1 | Hj1]; [| now apply (Hgone j)].
      specialize (Hlt i j Hij Hi1 Hj1 (conj Hji Hij')). lia.
    + apply (Hshrink i); [apply Hnb; assumption | assumption].
    + apply (Hshrink j); [apply Hnb; assumption | assumption].
    + contradiction.
Qed.

Lemma connected_components_ok (n : nat) (graph : list (list nat)) :
  graph_on n graph ->
  exists sets,
    connected_components graph = Val sets /\
    (length sets <= n)%nat /\
    (forall i j, i <> j -> (i < n)%nat -> (j < n)%nat -> edge graph i j ->
       (length sets < n)%nat).
Proof.
  intros Hg. unfold connected_components.
  assert (Hn : length graph = n) by apply Hg. rewrite Hn.
  destruct (components_loop_ok n graph Hg (length (seq 0 n)) (seq 0 n) []) as (sets & E & H1 & H2).
  - unfold below. rewrite Forall_forall. intros x Hx. apply in_seq in Hx. lia.
  - lia.
  - rewrite length_seq in *. simpl in *. exists sets. split; [assumption |]. split; [lia |].
    intros i j Hij Hi Hj He. apply (H2 i j Hij); [apply in_seq; lia | apply in_seq; lia | assumption].
Qed.

Lemma remove_first_keeps (c y : nat) (l : list nat) :
  In y l -> y <> c -> In y (remove_first c l).
Proof.
  induction l as [| x l IH]; intros H Hne; [destruct H |]. simpl.
  destruct (x =? c)%nat eqn:E.
  - apply Nat.eqb_eq in E. destruct H as [-> | H]; [contradiction | assumption].
  - destruct H as [-> | H]; [now left | right; auto].
Qed.

Lemma remove_seen_keeps (component unseen : list nat) (y : nat) :
  In y unseen -> ~ In y component -> In y (remove_seen component unseen).
Proof.
  unfold remove_seen. revert unseen.
  induction component as [| c cs IH]; intros u Hu Hc; simpl; [assumption |].
  assert (Hne : y <> c) by (intros ->; apply Hc; now left).
  assert (Hcs : ~ In y cs) by (intros H; apply Hc; now right).
  destruct (mem c u); [| now apply IH].
  apply IH; [now apply remove_first_keeps | assumption].
Qed.

Lemma two_distinct_length (l : list nat) (a b : nat) :
  In a l -> In b l -> a <> b -> (2 <= length l)%nat.
Proof.
  intros Ha Hb Hne. destruct l as [| x [| y l]]; simpl in *.
  - destruct Ha.
  - destruct Ha as [<- | []]. destruct Hb as [<- | []]. contradiction.
  - lia.
Qed.

(** When two distinct vertices still to visit are joined by an edge, one of
    the components found holds two vertices or more. *)
Lemma components_loop_pair (n : nat) (graph : list (list nat)) :
  graph_on n graph ->
  forall rounds unseen sets sets',
    below n unseen -> (length unseen <= rounds)%nat ->
    components_loop rounds graph unseen sets = Val sets' ->
    incl sets sets' /\
    (forall i j, i <> j -> In i unseen -> In j unseen -> edge graph i j ->
       exists s, In s sets' /\ (2 <= length s)%nat).
Proof.
  intros Hg rounds. induction rounds as [| r IH]; intros unseen sets sets' Hb Hr E.
  - destruct unseen; [| simpl in Hr; lia]. simpl in E. inversion E; subst.
    split; [apply incl_refl |]. intros i j _ [].
  - destruct unseen as [| u0 us] eqn:Eu.
    { simpl in E. inversion E; subst. split; [apply incl_refl |]. intros i j _ []. }
    rewrite <- Eu in *. assert (Hne : unseen <> []) by (rewrite Eu; discriminate).
    rewrite (components_loop_step r graph unseen sets Hne) in E.
    set (x := last unseen 0%nat) in *. set (rest := removelast unseen) in *.
    assert (Hsplit : unseen = rest ++ [x]) by now apply app_removelast_last.
    assert (Hlen : length unseen = S (length rest)).
    { rewrite Hsplit at 1. rewrite length_app. simpl. lia. }
    assert (Hx : (x < n)%nat).
    { unfold below in Hb. rewrite Forall_forall in Hb. apply Hb. rewrite Hsplit.
      apply in_or_app. right. now left. }
    assert (Hrest : below n rest).
    { unfold below in *. rewrite Hsplit in Hb. apply Forall_app in Hb. tauto. }
    destruct (add_neighbors_ok n graph Hg (S (length graph)) x [] Hx (NoDup_nil _) (Forall_nil _))
      as (comp & Ecomp & Hinc & _ & _ & Hnb).
    { destruct Hg as [-> _]. simpl. lia. }
    rewrite Ecomp in E. cbn [exc_bind] in E.
    set (unseen1 := remove_seen comp rest) in *.
    pose proof (remove_seen_length comp rest) as Hl1. fold unseen1 in Hl1.
    assert (Hb1 : below n unseen1).
    { unfold below in *. rewrite Forall_forall in *. intros y Hy.
      apply Hrest. now apply (remove_seen_incl comp rest). }
    destruct (IH unseen1 (sets ++ [comp]) sets' Hb1 ltac:(lia) E) as [Hsub Hpair].
    assert (Hxc : In x comp) by (apply Hinc; now left).
    assert (Hcomp : In comp sets') by (apply Hsub, in_or_app; right; now left).
    split; [intros s Hs; apply Hsub, in_or_app; now left |].
    intros i j Hij Hi Hj [Hji Hij'].
    assert (Hin : forall a b, a <> b -> In b (nth a graph []) -> In a comp ->
                              exists s, In s sets' /\ (2 <= length s)%nat).
    { intros a b Hab Hba Ha. exists comp. split; [assumption |].
      destruct (Nat.eq_dec x a) as [-> | Hxa].
      - apply (two_distinct_length comp a b); auto.
      - apply (two_distinct_length comp x a); auto. }
    assert (Hstay : forall a, In a unseen -> ~ In a comp -> In a unseen1).
    { intros a Ha Hac. apply remove_seen_keeps; [| assumption].
      rewrite Hsplit in Ha. apply in_app_or in Ha.
      destruct Ha as [Ha | [<- | []]]; [assumption | contradiction]. }
    destruct (in_dec Nat.eq_dec i comp) as [Hic | Hic]; [now apply (Hin i j) |].
    destruct (in_dec Nat.eq_dec j comp) as [Hjc | Hjc]; [apply (Hin j i); auto |].
    apply (Hpair i j); auto. split; assumption.
Qed.

Lemma connected_components_pair (n : nat) (graph sets : list (list nat)) (i j : nat) :
  graph_on n graph ->
  connected_components graph = Val sets ->
  i <> j -> (i < n)%nat -> (j < n)%nat -> edge graph i j ->
  exists s, In s sets /\ (2 <= length s)%nat.
Proof.
  intros Hg E Hij Hi Hj He. unfold connected_components in E.
  assert (Hn : length graph = n) by apply Hg. rewrite Hn in E.
  assert (Hb : below n (seq 0 n)).
  { unfold below. rewrite Forall_forall. intros x Hx. apply in_seq in Hx. lia. }
  destruct (components_loop_pair n graph Hg _ _ _ _ Hb (Nat.le_refl _) E) as [_ H].
  apply (H i j); auto; apply in_seq; lia.
Qed.
(** ** The graph of short distances *)

Lemma graph_append_length (graph : list (list nat)) (i x : nat) :
  length (graph_append graph i x) = length graph.
Proof.
  revert i. induction graph as [| g rest IH]; intros i; [reflexivity |].
  destruct i; simpl; [reflexivity | now rewrite IH].
Qed.

Lemma graph_append_below (n : nat) (graph : list (list nat)) (i x : nat) :
  (x < n)%nat -> Forall (below n) graph -> Forall (below n) (graph_append graph i x).
Proof.
  intros Hx. revert i. induction graph as [| g rest IH]; intros i H; [constructor |].
  inversion H as [| ? ? Hg Hrest]; subst.
  destruct i; simpl; constructor; auto.
  apply Forall_app. split; [assumption | repeat constructor; assumption].
Qed.

Lemma graph_append_keeps (graph : list (list nat)) (i x k y : nat) :
  In y (nth k graph []) -> In y (nth k (graph_append graph i x) []).
Proof.
  revert i k. induction graph as [| g rest IH]; intros i k H; [assumption |].
  destruct i, k; simpl in *; auto. apply in_or_app. now left.
Qed.

Lemma graph_append_adds (graph : list (list nat)) (i x : nat) :
  (i < length graph)%nat -> In x (nth i (graph_append graph i x) []).
Proof.
  revert i. induction graph as [| g rest IH]; intros i H; [simpl in H; lia |].
  destruct i; simpl in *.
  - apply in_or_app. right. now left.
  - apply IH. lia.
Qed.

Lemma add_edges_graph_on (n : nat) (pairs : list (nat * nat * R)) (graph : list (list nat)) :
  (forall i j d, In (i, j, d) pairs -> (i < n)%nat /\ (j < n)%nat) ->
  graph_on n graph -> graph_on n (add_edges pairs graph).
Proof.
  revert graph. induction pairs as [| [[i j] d] rest IH]; intros graph Hp Hg; [assumption |].
  simpl. apply IH.
  - intros i' j' d' H. apply (Hp i' j' d'). now right.
  - destruct (Hp i j d (or_introl eq_refl)) as [Hi Hj]. destruct Hg as [Hlen Hall].
    split; [now rewrite !graph_append_length |].
    now repeat apply graph_append_below.
Qed.

Lemma add_edges_keeps (pairs : list (nat * nat * R)) (graph : list (list nat)) (k y : nat) :
  In y (nth k graph []) -> In y (nth k (add_edges pairs graph) []).
Proof.
  revert graph. induction pairs as [| [[i j] d] rest IH]; intros graph H; [assumption |].
  simpl. apply IH. now repeat apply graph_append_keeps.
Qed.

Lemma add_edges_adds (n : nat) (pairs : list (nat * nat * R)) (graph : list (list nat))
    (i j : nat) (d : R) :
  (forall i j d, In (i, j, d) pairs -> (i < n)%nat /\ (j < n)%nat) ->
  length graph = n ->
  In (i, j, d) pairs -> edge (add_edges pairs graph) i j.
Proof.
  revert graph. induction pairs as [| [[i' j'] d'] rest IH]; intros graph Hp Hlen Hin;
    [destruct Hin |].
  simpl. destruct Hin as [E | Hin].
  - inversion E; subst. destruct (Hp i j d (or_introl eq_refl)) as [Hi Hj].
    split; apply add_edges_keeps.
    + apply graph_append_keeps, graph_append_adds. lia.
    + apply graph_append_adds. rewrite graph_append_length. lia.
  - apply IH; [| now rewrite !graph_append_length | assumption].
    intros a b c H. apply (Hp a b c). now right.
Qed.

Lemma index_pairs_spec (n i1 i2 : nat) :
  In (i1, i2) (index_pairs n) -> (i1 < i2)%nat /\ (i2 < n)%nat.
Proof.
  unfold index_pairs. intros H. apply in_flat_map in H. destruct H as (a & Ha & H).
  apply in_map_iff in H. destruct H as (b & E & Hb). inversion E; subst.
  apply in_seq in Ha, Hb. lia.
Qed.

(** The graph that [find_short_dist] returns has one vertex per point, and
    when it returns a pair at all, two different points are joined. *)
Lemma find_short_dist_spec (coor : list vec3) (lattice : mat3) (tol : R) :
  let '(pairs, graph) := find_short_dist coor lattice tol in
  graph_on (length coor) graph /\
  ((0 < length pairs)%nat ->
   exists i j, i <> j /\ (i < length coor)%nat /\ (j < length coor)%nat /\ edge graph i j).
Proof.
  clear check_wyckoff_position.
  unfold find_short_dist.
  set (raw := flat_map _ (index_pairs (length coor))).
  assert (Hraw : forall i j d, In (i, j, d) raw -> (i < j)%nat /\ (j < length coor)%nat).
  { intros i j d H. unfold raw in H. apply in_flat_map in H.
    destruct H as ([a b] & Hab & H). apply index_pairs_spec in Hab.
    destruct (Rleb _ tol); [| destruct H].
    destruct H as [E | []]. inversion E; subst. assumption. }
  assert (Hempty : graph_on (length coor) (repeat [] (length coor))).
  { split; [apply repeat_length |]. apply Forall_forall. intros g Hg.
    apply repeat_spec in Hg. subst. constructor. }
  destruct raw as [| [[i0 j0] d0] rest] eqn:Eraw.
  - split; [assumption |]. simpl. lia.
  - set (kept := filter _ _).
    assert (Hkept : forall i j d, In (i, j, d) kept -> (i < j)%nat /\ (j < length coor)%nat).
    { intros i j d H. unfold kept in H. apply filter_In in H. apply (Hraw i j d). tauto. }
    split.
    + apply add_edges_graph_on; [| assumption].
      intros i j d H. specialize (Hkept i j d H). lia.
    + intros Hpos. destruct kept as [| [[i j] d] kept'] eqn:Ek; [simpl in Hpos; lia |].
      destruct (Hkept i j d (or_introl eq_refl)) as [Hij Hj].
      exists i, j. repeat split; try lia;
        (eapply (add_edges_adds (length coor) _ _ i j d);
         [intros a b c H; specialize (Hkept a b c H); lia | apply repeat_length | now left]).
Qed.

(** ** merge_coordinate *)

Lemma exc_map_length {A B : Type} (f : A -> exc B) (l : list A) (l' : list B) :
  exc_map f l = Val l' -> length l' = length l.
Proof.
  revert l'. induction l as [| x l IH]; intros l' H; simpl in H.
  - inversion H. reflexivity.
  - apply exc_bind_Val in H. destruct H as (y & _ & H).
    apply exc_bind_Val in H. destruct H as (ys & Hys & H).
    inversion H; subst. simpl. now rewrite (IH ys).
Qed.

(** A round of the loop that goes on leaves a strictly shorter list. *)
Lemma merge_step_shorter (coor : list vec3) (lattice : mat3)
    (wyckoff : list (list wyckoff_position)) (sg : Z) (tol : R) (PBC : option nat)
    (merged : list vec3) :
  merge_step coor lattice wyckoff sg tol PBC = Val (Again merged) ->
  (length merged < length coor)%nat.
Proof.
  unfold merge_step. pose proof (find_short_dist_spec coor lattice tol) as Hspec.
  destruct (find_short_dist coor lattice tol) as [pairs graph].
  destruct Hspec as [Hg Hedge].
  destruct (0 <? length pairs)%nat eqn:Ep.
  - apply Nat.ltb_lt in Ep. destruct (Hedge Ep) as (i & j & Hij & Hi & Hj & He).
    intros H. apply exc_bind_Val in H. destruct H as (smallest & _ & H).
    destruct (smallest <? length coor)%nat; [| discriminate].
    destruct (connected_components_ok _ _ Hg) as (sets & Ec & _ & Hlt).
    unfold merge_candidate in H. rewrite Ec in H. cbn [exc_bind] in H.
    apply exc_bind_Val in H. destruct H as (m & Hm & H).
    apply exc_bind_Val in H. destruct H as (index & _ & H).
    destruct index; inversion H; subst.
    apply exc_map_length in Hm. rewrite Hm. eapply Hlt; eauto.
  - intros H. apply exc_bind_Val in H. destruct H as (index & _ & H). discriminate.
Qed.

Lemma exc_bind_Exn {A B : Type} (m : exc A) (k : A -> exc B) (e : exn) :
  exc_bind m k = Exn e -> m = Exn e \/ exists a, m = Val a /\ k a = Exn e.
Proof. destruct m as [a | e']; simpl; intros H; [right; eauto | left; now inversion H]. Qed.

Lemma exc_map_Exn {A B : Type} (f : A -> exc B) (l : list A) (e : exn) :
  exc_map f l = Exn e -> exists x, In x l /\ f x = Exn e.
Proof.
  induction l as [| x l IH]; simpl; intros H; [discriminate |].
  apply exc_bind_Exn in H. destruct H as [H | (y & _ & H)]; [exists x; auto |].
  apply exc_bind_Exn in H. destruct H as [H | (ys & _ & H)]; [| discriminate].
  destruct (IH H) as (z & Hz & Ez). exists z. auto.
Qed.

Lemma shift_atoms_Exn (matrix0 : list vec3) (lattice : mat3) (done todo : list vec3)
    (matrix_min : option vec3) (e : exn) :
  shift_atoms matrix0 lattice done todo matrix_min = Exn e -> e = NameError.
Proof.
  revert done matrix_min. induction todo as [| atom1 rest IH]; intros done mm H; simpl in H;
    [discriminate |].
  destruct (closest_image matrix0 lattice atom1 done 10 mm) as [d [m |]].
  - eapply IH; eauto.
  - now inversion H.
Qed.

Lemma get_center_fuel (xyzs : list vec3) (lattice : mat3) (PBC : option nat) :
  get_center xyzs lattice PBC <> Exn OutOfFuel.
Proof.
  unfold get_center. intros H.
  apply exc_bind_Exn in H. destruct H as [H | (shifted & _ & H)].
  { destruct (map _ xyzs); [discriminate |]. apply shift_atoms_Exn in H. discriminate. }
  apply exc_bind_Exn in H. destruct H as [H | (n & _ & H)].
  { unfold fdiv in H. destruct (Reqb _ 0); discriminate. }
  apply exc_bind_Exn in H. destruct H as [H | (i & _ & H)].
  { destruct PBC as [[| [| [| [| k]]]] |]; discriminate. }
  destruct (Rltb _ _); discriminate.
Qed.

Lemma smallest_multiplicity_fuel (wyckoff : list (list wyckoff_position)) :
  smallest_multiplicity wyckoff <> Exn OutOfFuel.
Proof. unfold smallest_multiplicity. destruct (rev wyckoff) as [| [| wp g] r]; discriminate. Qed.

Lemma merge_step_fuel (coor : list vec3) (lattice : mat3)
    (wyckoff : list (list wyckoff_position)) (sg : Z) (tol : R) (PBC : option nat) :
  (forall points, check_wyckoff_position points sg <> Exn OutOfFuel) ->
  merge_step coor lattice wyckoff sg tol PBC <> Exn OutOfFuel.
Proof.
  intros Hcheck. unfold merge_step.
  pose proof (find_short_dist_spec coor lattice tol) as Hspec.
  destruct (find_short_dist coor lattice tol) as [pairs graph]. destruct Hspec as [Hg _].
  destruct (0 <? length pairs)%nat; intros H.
  - apply exc_bind_Exn in H. destruct H as [H | (smallest & _ & H)];
      [now apply smallest_multiplicity_fuel in H |].
    destruct (smallest <? length coor)%nat; [| discriminate].
    destruct (connected_components_ok _ _ Hg) as (sets & Ec & _).
    unfold merge_candidate in H. rewrite Ec in H. cbn [exc_bind] in H.
    apply exc_bind_Exn in H. destruct H as [H | (merged & _ & H)].
    { apply exc_map_Exn in H. destruct H as (g & _ & H). now apply get_center_fuel in H. }
    apply exc_bind_Exn in H. destruct H as [H | (index & _ & H)]; [now apply Hcheck in H |].
    destruct index; discriminate.
  - apply exc_bind_Exn in H. destruct H as [H | (index & _ & H)]; [now apply Hcheck in H |].
    discriminate.
Qed.

Lemma merge_loop_terminates (rounds : nat) (coor : list vec3) (lattice : mat3)
    (wyckoff : list (list wyckoff_position)) (sg : Z) (tol : R) (PBC : option nat) :
  (forall points, check_wyckoff_position points sg <> Exn OutOfFuel) ->
  (length coor < rounds)%nat ->
  merge_loop rounds coor lattice wyckoff sg tol PBC <> Exn OutOfFuel.
Proof.
  intros Hcheck. revert coor. induction rounds as [| r IH]; intros coor Hlen; [lia |].
  cbn [merge_loop]. intros H.
  apply exc_bind_Exn in H. destruct H as [H | (step & Hstep & H)].
  - now apply (merge_step_fuel coor lattice wyckoff sg tol PBC Hcheck).
  - destruct step as [c index | merged]; [discriminate |].
    apply merge_step_shorter in Hstep. apply (IH merged); [lia | assumption].
Qed.
(** ** Minimum of a list *)

Lemma list_min_le_start (x : R) (l : list R) : list_min x l <= x.
Proof.
  unfold list_min. revert x. induction l as [| y l IH]; intros x; simpl; [lra |].
  eapply Rle_trans; [apply IH | apply Rmin_l].
Qed.

Lemma list_min_In (x : R) (l : list R) : In (list_min x l) (x :: l).
Proof.
  unfold list_min. revert x. induction l as [| y l IH]; intros x; simpl; [now left |].
  destruct (IH (Rmin x y)) as [E | H].
  - rewrite <- E. unfold Rmin. destruct (Rle_dec x y); [now left | right; now left].
  - right. now right.
Qed.

Lemma list_min_lower (x : R) (l : list R) (b : R) :
  b <= x -> Forall (fun y => b <= y) l -> b <= list_min x l.
Proof.
  intros Hx Hl. pose proof (list_min_In x l) as [E | H].
  - now rewrite <- E.
  - rewrite Forall_forall in Hl. now apply Hl.
Qed.

Lemma list_min_le_In (x : R) (l : list R) (y : R) : In y (x :: l) -> list_min x l <= y.
Proof.
  unfold list_min. revert x. induction l as [| z l IH]; intros x H; simpl.
  - destruct H as [-> | []]. lra.
  - destruct H as [-> | [-> | H]].
    + eapply Rle_trans; [apply (list_min_le_start (Rmin y z) l) | apply Rmin_l].
    + eapply Rle_trans; [apply (list_min_le_start (Rmin x y) l) | apply Rmin_r].
    + apply IH. now right.
Qed.

(** ** Short pairs *)

Lemma index_pairs_complete (n i1 i2 : nat) :
  (i1 < i2)%nat -> (i2 < n)%nat -> In (i1, i2) (index_pairs n).
Proof.
  intros H1 H2. unfold index_pairs. apply in_flat_map. exists i1. split.
  - apply in_seq. lia.
  - apply in_map_iff. exists i2. split; [reflexivity |]. apply in_seq. lia.
Qed.

Lemma find_short_dist_pairs (coor : list vec3) (lattice : mat3) (tol : R) :
  (0 < length (fst (find_short_dist coor lattice tol)))%nat <-> short_pair coor lattice tol.
Proof.
  clear check_wyckoff_position.
  unfold find_short_dist, short_pair.
  set (raw := flat_map _ (index_pairs (length coor))).
  assert (Hraw : forall p, In p raw <->
            exists i1 i2, (i1 < i2)%nat /\ (i2 < length coor)%nat /\
              p = (i1, i2, distance (vsub (nth i1 coor (0, 0, 0)) (nth i2 coor (0, 0, 0)))
                                    lattice None) /\
              snd p <= tol).
  { intros p. unfold raw. rewrite in_flat_map. split.
    - intros ([a b] & Hab & H). apply index_pairs_spec in Hab.
      destruct (Rleb _ tol) eqn:E; [| destruct H]. destruct H as [<- | []].
      apply Rleb_iff in E. exists a, b. simpl. tauto.
    - intros (a & b & H1 & H2 & -> & H3). exists (a, b). split;
        [now apply index_pairs_complete |].
      simpl in H3. rewrite (Rleb_true _ _ H3). now left. }
  destruct raw as [| [[i0 j0] d0] rest] eqn:Eraw.
  - simpl. split; [lia |]. intros (i1 & i2 & H1 & H2 & H3).
    exfalso.
    apply (proj2 (Hraw (i1, i2, distance (vsub (nth i1 coor (0, 0, 0)) (nth i2 coor (0, 0, 0)))
                                         lattice None))).
    exists i1, i2. simpl. auto.
  - split.
    + intros _. destruct (proj1 (Hraw (i0, j0, d0)) (or_introl eq_refl))
        as (i1 & i2 & H1 & H2 & E & H3).
      inversion E; subst. exists i1, i2. simpl in H3. auto.
    + intros _. cbn [fst].
      set (m := list_min d0 (map snd rest)).
      assert (Hm : exists p, In p ((i0, j0, d0) :: rest) /\ snd p = m).
      { destruct (list_min_In d0 (map snd rest)) as [E | H].
        - exists (i0, j0, d0). split; [now left | exact E].
        - apply in_map_iff in H. destruct H as (p & E & Hp). exists p. split; [now right | exact E]. }
      destruct Hm as (p & Hp & E).
      assert (Hin : In p (filter (fun p => Rleb (snd p) (m + 1 / 1000)) ((i0, j0, d0) :: rest))).
      { apply filter_In. split; [assumption |]. apply Rleb_true. lra. }
      destruct (filter _ _); [destruct Hin | simpl; lia].
Qed.

Lemma merge_loop_failure (lattice : mat3) (wyckoff : list (list wyckoff_position)) (sg : Z)
    (tol : R) (PBC : option nat) (rounds : nat) :
  forall coor c index,
    short_pair coor lattice tol \/ (exists i, check_wyckoff_position coor sg = Val (Some i)) ->
    merge_loop rounds coor lattice wyckoff sg tol PBC = Val (c, index) ->
    (index = None <-> short_pair c lattice tol /\ gives_up c lattice wyckoff sg tol PBC).
Proof.
  clear atomic_number covalent_radius sg_symbol_from_int_number wyckoff_table.
  induction rounds as [| r IH]; intros coor c index Hinv H; [discriminate |].
  cbn [merge_loop] in H. apply exc_bind_Val in H. destruct H as (step & Hstep & H).
  unfold merge_step in Hstep.
  pose proof (find_short_dist_pairs coor lattice tol) as Hpairs.
  unfold gives_up.
  destruct (find_short_dist coor lattice tol) as [pairs graph] eqn:Efs. cbn [fst] in Hpairs.
  destruct (0 <? length pairs)%nat eqn:Ep.
  - apply Nat.ltb_lt in Ep. apply Hpairs in Ep.
    apply exc_bind_Val in Hstep. destruct Hstep as (smallest & Hsm & Hstep).
    destruct (smallest <? length coor)%nat eqn:El.
    + apply Nat.ltb_lt in El.
      apply exc_bind_Val in Hstep. destruct Hstep as (merged & Hmerged & Hstep).
      apply exc_bind_Val in Hstep. destruct Hstep as ([i |] & Hck & Hstep);
        inversion Hstep; subst.
      * apply (IH merged c index); [right; eauto | assumption].
      * inversion H; subst. split; [| reflexivity]. intros _. split; [assumption |].
        exists smallest. split; [assumption |]. right. split; [assumption |].
        exists merged. rewrite Efs. auto.
    + apply Nat.ltb_ge in El. inversion Hstep; subst. inversion H; subst.
      split; [| reflexivity]. intros _. split; [assumption |].
      exists smallest. auto.
  - apply Nat.ltb_ge in Ep.
    assert (Hno : ~ short_pair coor lattice tol) by (intros Hs; apply Hpairs in Hs; lia).
    destruct Hinv as [Hs | (i & Hi)]; [contradiction |].
    rewrite Hi in Hstep. cbn [exc_bind] in Hstep. inversion Hstep; subst.
    inversion H; subst. split; [discriminate | tauto].
Qed.
(** ** check_compatible *)

Lemma fill_position_ok (rounds : nat) (wp : wyckoff_position) :
  wp <> [] ->
  forall remaining removed has_freedom,
    (Z.to_nat remaining < rounds)%nat ->
    exists r, fill_position rounds wp remaining removed has_freedom = Val r.
Proof.
  intros Hwp. induction rounds as [| k IH]; intros remaining removed hf Hr; [lia |].
  cbn [fill_position].
  destruct ((multiplicity wp <=? remaining)%Z && negb (wp_in wp removed)) eqn:E; [| eauto].
  apply andb_prop in E. destruct E as [E _]. apply Z.leb_le in E.
  destruct wp as [| op wp']; [contradiction |].
  assert (Hm : (1 <= multiplicity (op :: wp'))%Z) by (unfold multiplicity; simpl length; lia).
  destruct (is_zero_matrix (rotation_matrix op)); apply IH; lia.
Qed.

Lemma fill_positions_ok (wps : list wyckoff_position) :
  Forall (fun wp => wp <> []) wps ->
  forall remaining removed has_freedom,
    exists r, fill_positions wps remaining removed has_freedom = Val r.
Proof.
  induction 1 as [| wp rest Hwp Hrest IH]; intros remaining removed hf; cbn [fill_positions];
    [eauto |].
  destruct (fill_position_ok (S (Z.to_nat remaining)) wp Hwp remaining removed hf ltac:(lia))
    as ([[r1 r2] r3] & ->).
  cbn [exc_bind]. apply IH.
Qed.

Lemma well_formed_last (wyckoffs : list (list wyckoff_position)) :
  well_formed wyckoffs ->
  exists n op, smallest_multiplicity wyckoffs = Val n /\ (0 < n)%nat /\
               last_operation wyckoffs = Val op.
Proof.
  intros [Hne Hall]. unfold smallest_multiplicity, last_operation.
  destruct (rev wyckoffs) as [| g r] eqn:E.
  { apply (f_equal (@rev _)) in E. rewrite rev_involutive in E. contradiction. }
  assert (Hg : In g wyckoffs) by (apply in_rev; rewrite E; now left).
  rewrite Forall_forall in Hall. destruct (Hall g Hg) as [Hgne Hwps].
  destruct g as [| wp g']; [contradiction |].
  assert (Hwp : wp <> []) by (rewrite Forall_forall in Hwps; apply Hwps; now left).
  destruct wp as [| op wp']; [contradiction |].
  destruct (rev ((op :: wp') :: g')) as [| wl r'] eqn:E'.
  { apply (f_equal (@rev _)) in E'. rewrite rev_involutive in E'. discriminate. }
  assert (Hwl : In wl ((op :: wp') :: g')) by (apply in_rev; rewrite E'; now left).
  assert (Hwlne : wl <> []) by (rewrite Forall_forall in Hwps; now apply Hwps).
  destruct wl as [| op' wl']; [contradiction |].
  exists (length (op :: wp')), op'. split; [reflexivity |]. split; [simpl; lia | reflexivity].
Qed.

Lemma well_formed_concat (wyckoffs : list (list wyckoff_position)) :
  well_formed wyckoffs -> Forall (fun wp => wp <> []) (concat wyckoffs).
Proof.
  intros [_ Hall]. apply Forall_concat. eapply Forall_impl; [| exact Hall].
  intros g [_ H]. exact H.
Qed.

Lemma well_formed_first_positions (wyckoffs : list (list wyckoff_position)) :
  well_formed wyckoffs ->
  exists l,
    exc_map (fun x : list wyckoff_position =>
               match x with [] => Exn IndexError | wp :: _ => Val (length wp) end) wyckoffs
    = Val l.
Proof.
  intros [_ Hall]. induction Hall as [| g rest [Hg _] Hrest IH]; simpl; [eauto |].
  destruct g as [| wp g']; [contradiction |]. destruct IH as (ls & ->). simpl. eauto.
Qed.

Lemma check_counts_indivisible (wyckoffs : list (list wyckoff_position)) (n : nat) (numIon : Z) :
  well_formed wyckoffs ->
  smallest_multiplicity wyckoffs = Val n ->
  (numIon mod Z.of_nat n <> 0)%Z ->
  forall numIons has_freedom removed,
    In numIon numIons ->
    check_counts wyckoffs numIons has_freedom removed = Val Incompatible.
Proof.
  intros Hwf Hn Hmod.
  destruct (well_formed_last wyckoffs Hwf) as (n' & op & Hn' & Hpos & Hop).
  rewrite Hn in Hn'. inversion Hn'; subst n'.
  induction numIons as [| x rest IH]; intros hf removed Hin; [destruct Hin |].
  cbn [check_counts]. rewrite Hn. cbn [exc_bind].
  destruct (0 <? np_mod x (Z.of_nat n))%Z eqn:E; [reflexivity |].
  assert (Hx : x <> numIon).
  { intros ->. apply Z.ltb_ge in E. unfold np_mod in E.
    destruct (Z.of_nat n =? 0)%Z eqn:E0; [apply Z.eqb_eq in E0; lia |].
    pose proof (Z.mod_pos_bound numIon (Z.of_nat n) ltac:(lia)). lia. }
  destruct Hin as [Hin | Hin]; [contradiction |].
  rewrite Hop. cbn [exc_bind].
  destruct (all_nonzero (rotation_matrix op)); [now apply IH |].
  destruct (fill_positions_ok (concat wyckoffs) (well_formed_concat _ Hwf) x removed hf)
    as ([[r1 r2] r3] & ->).
  cbn [exc_bind]. destruct (negb (r1 =? 0)%Z); [reflexivity | now apply IH].
Qed.

Lemma check_compatible_indivisible (wyckoffs : list (list wyckoff_position)) (n : nat)
    (numIons : list Z) (numIon : Z) :
  well_formed wyckoffs ->
  smallest_multiplicity wyckoffs = Val n ->
  In numIon numIons ->
  (numIon mod Z.of_nat n <> 0)%Z ->
  check_compatible wyckoffs numIons = Val Incompatible.
Proof.
  intros Hwf Hn Hin Hmod. unfold check_compatible.
  destruct (well_formed_first_positions wyckoffs Hwf) as (l & ->). cbn [exc_bind].
  eapply check_counts_indivisible; eauto.
Qed.

Lemma generate_crystal_refuses (sg : Z) (species : list string) (numIons : list Z) (volume : R)
    (wyckoffs : list (list wyckoff_position)) (max1 max2 max3 : nat) (w : world) :
  check_compatible wyckoffs numIons = Val Incompatible ->
  generate_crystal sg species numIons volume wyckoffs max1 max2 max3 w
  = Ok refused (printed w Msg1).
Proof. intros H. unfold generate_crystal, bind, lift. rewrite H. reflexivity. Qed.
(** ** The accumulators of the generator *)

Lemma wrap_in_unit_cell (p : vec3) : in_unit_cell (wrap p).
Proof.
  destruct p as [[x y] z]. unfold wrap, np_floor. simpl.
  pose proof (Zfloor_bound x). pose proof (Zfloor_bound y). pose proof (Zfloor_bound z).
  repeat split; lra.
Qed.

Lemma combine_snoc {A B : Type} (l : list A) (l' : list B) (a : A) (b : B) :
  length l = length l' -> combine (l ++ [a]) (l' ++ [b]) = combine l l' ++ [(a, b)].
Proof.
  revert l'. induction l as [| x l IH]; intros [| y l'] H; simpl in *; try discriminate;
    [reflexivity |].
  now rewrite IH by lia.
Qed.

Lemma atoms_of_snoc (p : placed) (coor : list vec3) (ele : string) :
  length (placed_coordinates p) = length (placed_sites p) ->
  atoms_of (mkPlaced (placed_coordinates p ++ [coor]) (placed_sites p ++ [ele]))
  = atoms_of p ++ map (fun x => (x, ele)) coor.
Proof.
  intros H. unfold atoms_of. cbn [placed_coordinates placed_sites].
  rewrite combine_snoc by assumption. rewrite flat_map_app. simpl. now rewrite app_nil_r.
Qed.

Lemma map_snd_label (coor : list vec3) (ele : string) :
  map snd (map (fun x : vec3 => (x, ele)) coor) = repeat ele (length coor).
Proof. induction coor as [| x coor IH]; simpl; [reflexivity | now rewrite IH]. Qed.

Lemma repeat_add {A : Type} (x : A) (n m : nat) : repeat x n ++ repeat x m = repeat x (n + m).
Proof. now rewrite repeat_app. Qed.

(** One species: whatever the loop adds are atoms of this species, and when
    it leaves with the count met, the total is the accumulator (or nothing
    was added at all). *)
Lemma add_specie_spec (sg : Z) (wyckoffs : list (list wyckoff_position)) (numIon : Z)
    (specie : string) (tol : R) (cell_matrix : mat3) (cycle3 : nat) :
  forall tmp total added w tmp' total' added' w',
    add_specie sg wyckoffs cycle3 numIon specie tol cell_matrix tmp total added w
      = Ok (tmp', total', added') w' ->
    tidy tmp ->
    tidy tmp' /\
    (exists k, map snd (atoms_of tmp') = map snd (atoms_of tmp) ++ repeat specie k
               /\ added' = (added + Z.of_nat k)%Z) /\
    (added' = numIon -> total' = tmp' \/ (tmp' = tmp /\ total' = total /\ added' = added)).
Proof.
  induction cycle3 as [| c IH]; intros tmp total added w tmp' total' added' w' H Htidy.
  - cbn [add_specie] in H. apply ret_Ok in H. destruct H as [H _]. inversion H; subst.
    split; [assumption |]. split; [exists 0%nat; simpl; rewrite app_nil_r; split; [reflexivity | lia] |].
    intros _. right. auto.
  - cbn [add_specie] in H.
    apply bind_Ok in H. destruct H as (ops & w1 & _ & H).
    destruct ops as [ops |]; [| now apply (IH _ _ _ _ _ _ _ _ H)].
    apply bind_Ok in H. destruct H as (point & w2 & _ & H).
    apply bind_Ok in H. destruct H as ([coords_toadd good_merge] & w3 & _ & H).
    destruct good_merge as [index |]; [| now apply (IH _ _ _ _ _ _ _ _ H)].
    apply bind_Ok in H. destruct H as (far & w4 & _ & H).
    set (orbit := map wrap coords_toadd) in *.
    destruct far.
    + (* the orbit is appended *)
      set (tmp1 := mkPlaced (placed_coordinates tmp ++ [orbit]) (placed_sites tmp ++ [specie])) in *.
      assert (Htidy1 : tidy tmp1).
      { destruct Htidy as [Hlen Hall]. split.
        - unfold tmp1. cbn [placed_coordinates placed_sites]. rewrite !length_app. simpl. lia.
        - unfold tmp1. cbn [placed_coordinates]. apply Forall_app. split; [assumption |].
          constructor; [| constructor]. unfold orbit. apply Forall_forall.
          intros p Hp. apply in_map_iff in Hp. destruct Hp as (q & <- & _).
          apply wrap_in_unit_cell. }
      assert (Hatoms : map snd (atoms_of tmp1)
                       = map snd (atoms_of tmp) ++ repeat specie (length orbit)).
      { unfold tmp1. rewrite atoms_of_snoc by apply Htidy.
        now rewrite map_app, map_snd_label. }
      destruct ((added + Z.of_nat (length orbit) =? numIon)%Z) eqn:E.
      * apply ret_Ok in H. destruct H as [H _]. inversion H; subst.
        split; [assumption |]. split; [exists (length orbit); auto |]. intros _. now left.
      * apply Z.eqb_neq in E.
        destruct (IH _ _ _ _ _ _ _ _ H Htidy1) as (H1 & (k & H2 & H3) & H4).
        split; [assumption |]. split.
        -- exists (length orbit + k)%nat. rewrite H2, Hatoms, <- app_assoc, repeat_add.
           split; [reflexivity | lia].
        -- intros Hmet. destruct (H4 Hmet) as [Ht | (_ & _ & Ha)]; [now left | lia].
    + (* the orbit is too close: nothing changes *)
      destruct ((added =? numIon)%Z) eqn:E.
      * apply ret_Ok in H. destruct H as [H _]. inversion H; subst.
        split; [assumption |].
        split; [exists 0%nat; simpl; rewrite app_nil_r; split; [reflexivity | lia] |].
        intros _. now left.
      * now apply (IH _ _ _ _ _ _ _ _ H).
Qed.
(** All the species of a request: when the last count is met, every count
    was met, and the total holds exactly the requested labels. *)
Lemma add_species_spec (sg : Z) (wyckoffs : list (list wyckoff_position)) (max3 : nat)
    (cell_matrix : mat3) (todo : list (Z * string)) :
  forall tmp total last w total' last' w',
    add_species sg wyckoffs max3 todo cell_matrix tmp total last w = Ok (total', last') w' ->
    tmp = total -> tidy tmp ->
    match todo with
    | [] => total' = total /\ last' = last
    | _ =>
        exists a n, last' = Some (a, n) /\
          (a = n ->
           tidy total' /\
           map snd (atoms_of total') = map snd (atoms_of tmp) ++ expected_sites todo /\
           Forall (fun c => (0 <= fst c)%Z) todo)
    end.
Proof.
  induction todo as [| [numIon specie] rest IH]; intros tmp total last w total' last' w' H Heq Htidy.
  - cbn [add_species] in H. apply ret_Ok in H. destruct H as [H _]. now inversion H.
  - cbn [add_species] in H.
    apply bind_Ok in H. destruct H as ([[tmp1 total1] added1] & w1 & Hs & H).
    destruct (add_specie_spec _ _ _ _ _ _ _ _ _ _ _ _ _ _ _ Hs Htidy)
      as (Htidy1 & (k & Hatoms & Hadded) & Htotal).
    destruct (negb (added1 =? numIon)%Z) eqn:E.
    + apply ret_Ok in H. destruct H as [H _]. inversion H; subst.
      do 2 eexists. split; [reflexivity |]. intros Hmet.
      apply negb_true_iff, Z.eqb_neq in E. contradiction.
    + apply negb_false_iff, Z.eqb_eq in E.
      assert (Heq1 : tmp1 = total1).
      { destruct (Htotal E) as [Ht | (H1 & H2 & _)]; [now symmetry |]. now subst. }
      assert (Hk : k = Z.to_nat numIon) by lia.
      assert (Hnn : (0 <= numIon)%Z) by lia.
      specialize (IH _ _ _ _ _ _ _ H Heq1 Htidy1).
      destruct rest as [| c rest'].
      * destruct IH as [-> ->]. do 2 eexists. split; [reflexivity |]. intros _.
        subst total1. split; [assumption |]. split.
        -- rewrite Hatoms. simpl. rewrite app_nil_r. now subst k.
        -- repeat constructor. assumption.
      * destruct IH as (a & n & Hlast & IH). exists a, n. split; [assumption |].
        intros Hmet. destruct (IH Hmet) as (H1 & H2 & H3).
        split; [assumption |]. split.
        -- rewrite H2, Hatoms. subst k.
           change (expected_sites ((numIon, specie) :: c :: rest'))
             with (repeat specie (Z.to_nat numIon) ++ expected_sites (c :: rest')).
           now rewrite app_assoc.
        -- constructor; assumption.
Qed.

Lemma tidy_nothing : tidy nothing_placed.
Proof. split; [reflexivity | constructor]. Qed.

Lemma fill_lattice_spec (sg : Z) (species : list string) (numIons : list Z)
    (wyckoffs : list (list wyckoff_position)) (max3 : nat) (cell_matrix : mat3) (cycle2 : nat) :
  forall last w total' good last' w',
    fill_lattice sg species numIons wyckoffs cycle2 max3 cell_matrix nothing_placed last w
      = Ok (total', good, last') w' ->
    unmet last ->
    (good = true ->
     tidy total' /\
     map snd (atoms_of total') = expected_sites (combine numIons species) /\
     Forall (fun c => (0 <= fst c)%Z) (combine numIons species)) /\
    (good = false -> unmet last').
Proof.
  induction cycle2 as [| c IH]; intros last w total' good last' w' H Hlast.
  - cbn [fill_lattice] in H. apply ret_Ok in H. destruct H as [H _]. inversion H; subst.
    split; [discriminate | auto].
  - cbn [fill_lattice] in H.
    apply bind_Ok in H. destruct H as ([total1 last1] & w1 & Hs & H).
    pose proof (add_species_spec _ _ _ _ _ _ _ _ _ _ _ _ Hs eq_refl tidy_nothing) as Hspec.
    destruct last1 as [[a n] |]; [| discriminate].
    destruct (a =? n)%Z eqn:E.
    + apply Z.eqb_eq in E. apply ret_Ok in H. destruct H as [H _]. inversion H; subst.
      split; [| discriminate]. intros _.
      destruct (combine numIons species) as [| c0 todo].
      * destruct Hspec as [_ Hl]. exfalso. now apply (Hlast n n).
      * destruct Hspec as (a' & n' & Hl & Hspec). inversion Hl; subst.
        destruct (Hspec eq_refl) as (H1 & H2 & H3). auto.
    + apply Z.eqb_neq in E. apply (IH _ _ _ _ _ _ H).
      intros a' n' Hl. inversion Hl; subst. assumption.
Qed.

Lemma try_lattices_spec (sg : Z) (species : list string) (numIons : list Z) (volume : R)
    (wyckoffs : list (list wyckoff_position)) (max2 max3 : nat) (minvector : R) (cycle1 : nat) :
  forall last w g w',
    try_lattices sg species numIons volume wyckoffs cycle1 max2 max3 minvector last w
      = Ok (Some g) w' ->
    unmet last ->
    exists cell_matrix total,
      g = finish cell_matrix total /\ tidy total /\
      map snd (atoms_of total) = expected_sites (combine numIons species) /\
      Forall (fun c => (0 <= fst c)%Z) (combine numIons species).
Proof.
  induction cycle1 as [| c IH]; intros last w g w' H Hlast.
  - cbn [try_lattices] in H. apply ret_Ok in H. destruct H as [H _]. discriminate.
  - cbn [try_lattices] in H.
    apply bind_Ok in H. destruct H as (cell_para & w1 & _ & H).
    destruct cell_para as [cell_para |];
      [| apply ret_Ok in H; destruct H as [H _]; discriminate].
    apply bind_Ok in H. destruct H as (cell_matrix & w2 & _ & H).
    destruct (Rltb 1 _).
    { apply bind_Ok in H. destruct H as (? & w3 & _ & H).
      apply bind_Ok in H. destruct H as (? & w4 & _ & H). discriminate. }
    apply bind_Ok in H. destruct H as ([[total good] last1] & w3 & Hf & H).
    destruct (fill_lattice_spec _ _ _ _ _ _ _ _ _ _ _ _ _ Hf Hlast) as [Hgood Hbad].
    destruct good.
    + apply ret_Ok in H. destruct H as [H _]. inversion H; subst.
      destruct (Hgood eq_refl) as (H1 & H2 & H3). eauto 10.
    + apply (IH _ _ _ _ H). auto.
Qed.

Lemma unmet_None : unmet None.
Proof. intros a n H. discriminate. Qed.

Lemma generate_crystal_valid (sg : Z) (species : list string) (numIons : list Z) (volume : R)
    (wyckoffs : list (list wyckoff_position)) (max1 max2 max3 : nat) (w w' : world)
    (g : generated) :
  generate_crystal sg species numIons volume wyckoffs max1 max2 max3 w = Ok g w' ->
  valid g = true ->
  exists cell_matrix total,
    g = finish cell_matrix total /\ tidy total /\
    map snd (atoms_of total) = expected_sites (combine numIons species) /\
    Forall (fun c => (0 <= fst c)%Z) (combine numIons species).
Proof.
  intros H Hvalid. unfold generate_crystal in H.
  apply bind_Ok in H. destruct H as (degrees & w1 & _ & H).
  assert (Hgo : forall m1 m2 m3,
    (run d <- lift (largest_diameter species);
     let minvector := Rmax d tol_m in
     run r <- try_lattices sg species numIons volume wyckoffs m1 m2 m3 minvector None;
     match r with
     | Some g => ret g
     | None =>
         run _ <- match degrees with NoFreedom => print MsgNoFreedom | _ => ret tt end;
         ret (mkGenerated None [] [] FailureMessage None false)
     end) w1 = Ok g w' ->
    exists cell_matrix total,
      g = finish cell_matrix total /\ tidy total /\
      map snd (atoms_of total) = expected_sites (combine numIons species) /\
      Forall (fun c => (0 <= fst c)%Z) (combine numIons species)).
  { clear H. intros m1 m2 m3 H.
    apply bind_Ok in H. destruct H as (d & w2 & _ & H).
    apply bind_Ok in H. destruct H as (r & w3 & Ht & H).
    destruct r as [g' |].
    - apply ret_Ok in H. destruct H as [-> _].
      apply (try_lattices_spec _ _ _ _ _ _ _ _ _ _ _ _ _ Ht unmet_None).
    - apply bind_Ok in H. destruct H as (? & w4 & _ & H).
      apply ret_Ok in H. destruct H as [-> _]. discriminate. }
  destruct degrees.
  - apply bind_Ok in H. destruct H as (? & w2 & _ & H).
    apply ret_Ok in H. destruct H as [-> _]. discriminate.
  - now apply (Hgo max1 max2 max3).
  - now apply (Hgo 5 5 5)%nat.
Qed.
(** ** Counting the atoms of a request *)

Lemma cellsize_Size (sg : Z) (k : Z) :
  cellsize sg = Val (Size k) ->
  exists letter rest,
    sg_symbol_from_int_number sg = String letter rest /\ centering_multiplier letter k.
Proof.
  unfold cellsize, centering_multiplier, letter_in.
  destruct (sg_symbol_from_int_number sg) as [| letter rest]; [discriminate |].
  intros H. exists letter, rest. split; [reflexivity |].
  destruct (Ascii.eqb letter "P") eqn:EP.
  { apply Ascii.eqb_eq in EP. inversion H. auto. }
  cbn [existsb] in H.
  destruct (Ascii.eqb letter "A") eqn:EA.
  { apply Ascii.eqb_eq in EA. inversion H. auto 6. }
  destruct (Ascii.eqb letter "C") eqn:EC.
  { apply Ascii.eqb_eq in EC. inversion H. auto 6. }
  destruct (Ascii.eqb letter "I") eqn:EI.
  { apply Ascii.eqb_eq in EI. inversion H. auto 6. }
  cbn [orb] in H.
  destruct (Ascii.eqb letter "R") eqn:ER.
  { apply Ascii.eqb_eq in ER. inversion H. auto 6. }
  cbn [orb] in H.
  destruct (Ascii.eqb letter "F") eqn:EF.
  { apply Ascii.eqb_eq in EF. inversion H. auto 6. }
  discriminate.
Qed.

Lemma expected_sites_length (counts : list (Z * string)) :
  Forall (fun c => (0 <= fst c)%Z) counts ->
  Z.of_nat (length (expected_sites counts)) = fold_right Z.add 0%Z (map fst counts).
Proof.
  induction 1 as [| [n s] rest Hn Hrest IH]; [reflexivity |].
  change (expected_sites ((n, s) :: rest)) with (repeat s (Z.to_nat n) ++ expected_sites rest).
  rewrite length_app, repeat_length. simpl in *. lia.
Qed.

Lemma expected_sites_labels (counts : list (Z * string)) (s : string) :
  In s (expected_sites counts) -> In s (map snd counts).
Proof.
  induction counts as [| [n s0] rest IH]; [intros [] |].
  change (expected_sites ((n, s0) :: rest)) with (repeat s0 (Z.to_nat n) ++ expected_sites rest).
  intros H. apply in_app_or in H. destruct H as [H | H].
  - apply repeat_spec in H. subst. now left.
  - right. now apply IH.
Qed.

Lemma count_occ_repeat_same (s : string) (k : nat) :
  count_occ string_dec (repeat s k) s = k.
Proof. induction k as [| k IH]; simpl; [reflexivity |]. destruct (string_dec s s); [lia | contradiction]. Qed.

Lemma count_occ_repeat_other (s s0 : string) (k : nat) :
  s0 <> s -> count_occ string_dec (repeat s0 k) s = 0%nat.
Proof.
  intros H. induction k as [| k IH]; simpl; [reflexivity |].
  destruct (string_dec s0 s); [contradiction | assumption].
Qed.

Lemma expected_sites_count (counts : list (Z * string)) (n : Z) (s : string) :
  NoDup (map snd counts) -> In (n, s) counts ->
  count_occ string_dec (expected_sites counts) s = Z.to_nat n.
Proof.
  induction counts as [| [n0 s0] rest IH]; intros Hnd Hin; [destruct Hin |].
  change (expected_sites ((n0, s0) :: rest)) with (repeat s0 (Z.to_nat n0) ++ expected_sites rest).
  rewrite count_occ_app. simpl in Hnd. inversion Hnd as [| ? ? Hnotin Hnd']; subst.
  destruct (string_dec s0 s) as [-> | Hne].
  - assert (n = n0) as ->.
    { destruct Hin as [E | Hin]; [now inversion E |].
      exfalso. apply Hnotin. apply in_map_iff. now exists (n, s). }
    rewrite count_occ_repeat_same.
    assert (count_occ string_dec (expected_sites rest) s = 0%nat) as ->; [| lia].
    apply count_occ_not_In. intros H. apply Hnotin. now apply expected_sites_labels.
  - rewrite count_occ_repeat_other by assumption.
    destruct Hin as [E | Hin]; [inversion E; subst; contradiction |]. now apply IH.
Qed.

Lemma combine_fst {A B : Type} (l : list A) (l' : list B) :
  length l = length l' -> map fst (combine l l') = l.
Proof.
  revert l'. induction l as [| x l IH]; intros [| y l'] H; simpl in *; try discriminate;
    [reflexivity |]. now rewrite IH by lia.
Qed.

Lemma combine_snd {A B : Type} (l : list A) (l' : list B) :
  length l = length l' -> map snd (combine l l') = l'.
Proof.
  revert l'. induction l as [| x l IH]; intros [| y l'] H; simpl in *; try discriminate;
    [reflexivity |]. now rewrite IH by lia.
Qed.

Lemma combine_nth_error {A B : Type} (l : list A) (l' : list B) (i : nat) (a : A) (b : B) :
  nth_error l i = Some a -> nth_error l' i = Some b -> In (a, b) (combine l l').
Proof.
  revert l l'. induction i as [| i IH]; intros [| x l] [| y l'] H1 H2; simpl in *;
    try discriminate.
  - inversion H1; inversion H2; subst. now left.
  - right. now apply IH.
Qed.

Lemma finish_atoms (cell_matrix : mat3) (total : placed) :
  tidy total ->
  sites (finish cell_matrix total) = map snd (atoms_of total) /\
  length (coordinates (finish cell_matrix total)) = length (sites (finish cell_matrix total)) /\
  Forall in_unit_cell (coordinates (finish cell_matrix total)).
Proof.
  intros [_ Hall]. unfold finish. cbn [sites coordinates].
  split; [reflexivity |]. split; [now rewrite !length_map |].
  apply Forall_forall. intros p Hp. apply in_map_iff in Hp. destruct Hp as ([q ele] & <- & Hq).
  unfold atoms_of in Hq. apply in_flat_map in Hq. destruct Hq as ([coor e] & Hc & Hq).
  apply in_map_iff in Hq. destruct Hq as (x & E & Hx). inversion E; subst.
  apply in_combine_l in Hc. rewrite Forall_forall in Hall. specialize (Hall coor Hc).
  rewrite Forall_forall in Hall. now apply Hall.
Qed.

Lemma random_crystal_valid (sg : Z) (species : list string) (numIons0 : list Z) (factor : R)
    (w w' : world) (g : generated) :
  random_crystal sg species numIons0 factor w = Ok g w' ->
  valid g = true ->
  exists k cell_matrix total,
    cellsize sg = Val (Size k) /\
    g = finish cell_matrix total /\ tidy total /\
    map snd (atoms_of total)
      = expected_sites (combine (map (fun numIon => (numIon * k)%Z) numIons0) species) /\
    Forall (fun c => (0 <= fst c)%Z)
           (combine (map (fun numIon => (numIon * k)%Z) numIons0) species).
Proof.
  intros H Hvalid. unfold random_crystal in H.
  apply bind_Ok in H. destruct H as (size & w1 & Hsize & H).
  apply lift_Ok in Hsize. destruct Hsize as [Hsize _].
  destruct size as [k |]; [| discriminate].
  apply bind_Ok in H. destruct H as (wyckoffs & w2 & _ & H).
  destruct (generate_crystal_valid _ _ _ _ _ _ _ _ _ _ _ H Hvalid) as (cm & total & Hg).
  exists k, cm, total. tauto.
Qed.
(** ** Where sys.exit can be reached *)

Create HintDb exits.

Lemma never_exits_ret {A : Type} (a : A) : never_exits (ret a).
Proof. intros w w'. discriminate. Qed.

Lemma never_exits_lift {A : Type} (m : exc A) : never_exits (lift m).
Proof. intros w w'. unfold lift. destruct m; discriminate. Qed.

Lemma never_exits_raise {A : Type} (e : exn) : never_exits (@raise A e).
Proof. intros w w'. discriminate. Qed.

Lemma never_exits_print (msg : message) : never_exits (print msg).
Proof. intros w w'. discriminate. Qed.

Lemma never_exits_bind {A B : Type} (m : M A) (k : A -> M B) :
  never_exits m -> (forall a, never_exits (k a)) -> never_exits (bind m k).
Proof.
  intros Hm Hk w w'. unfold bind. destruct (m w) as [a w1 | e | w1 |] eqn:E;
    try discriminate.
  - apply Hk.
  - exfalso. now apply (Hm w w1).
Qed.

Lemma never_exits_normal (loc scale : R) : never_exits (np_random_normal loc scale).
Proof.
  intros w w'. unfold np_random_normal.
  destruct (Rlt_dec scale 0); [discriminate |]. destruct (normals w); discriminate.
Qed.

Lemma never_exits_uniform : never_exits draw_uniform.
Proof. intros w w'. unfold draw_uniform. destruct (uniforms w); discriminate. Qed.

Lemma never_exits_choose {A : Type} (seq : list A) : never_exits (choose seq).
Proof.
  intros w w'. unfold choose. destruct seq; [discriminate |]. destruct (picks w); discriminate.
Qed.

Lemma never_exits_gaussian (min max : R) : never_exits (gaussian min max).
Proof.
  intros w w'. unfold gaussian. destruct (gaussian_loop _ _ _ _ _) as [[x zs] |]; discriminate.
Qed.

Lemma never_exits_shear (width : R) : never_exits (random_shear_matrix width).
Proof.
  intros w w'. unfold random_shear_matrix. destruct (Rltb width 0); [discriminate |].
  destruct (shear_loop _ _) as [[m zs] |]; discriminate.
Qed.

#[local] Hint Resolve never_exits_ret never_exits_lift never_exits_raise never_exits_print
  never_exits_normal never_exits_uniform never_exits_choose never_exits_gaussian
  never_exits_shear : exits.

Ltac exits := repeat (apply never_exits_bind; [| intros ?]); auto with exits.

Lemma never_exits_rand (a b : R) : never_exits (rand a b).
Proof. unfold rand. exits. Qed.

Lemma never_exits_random3 : never_exits np_random_random3.
Proof. unfold np_random_random3. exits. Qed.

Lemma never_exits_random_vector : never_exits random_vector.
Proof. unfold random_vector. exits. Qed.

#[local] Hint Resolve never_exits_rand never_exits_random3 never_exits_random_vector : exits.

Lemma never_exits_sample_cell (sg : Z) (volume minangle maxangle : R) :
  never_exits (sample_cell sg volume minangle maxangle).
Proof.
  unfold sample_cell.
  repeat match goal with |- never_exits (if ?c then _ else _) => destruct c end; exits;
    repeat match goal with
      | |- never_exits (let '(_, _) := ?x in _) => destruct x as [[? ?] ?]
      end; exits.
Qed.

Lemma never_exits_lattice_rounds (sg : Z) (volume minvec minangle max_ratio : R)
    (maxattempts rounds : nat) :
  never_exits (lattice_rounds sg volume minvec minangle max_ratio maxattempts rounds).
Proof.
  induction rounds as [| r IH]; cbn [lattice_rounds]; [exits |].
  apply never_exits_bind; [apply never_exits_sample_cell | intros p].
  apply never_exits_bind; [auto with exits | intros maxvec].
  destruct (_ && _); auto with exits.
Qed.

Lemma never_exits_generate_lattice (sg : Z) (volume minvec minangle max_ratio : R)
    (maxattempts : nat) :
  never_exits (generate_lattice sg volume minvec minangle max_ratio maxattempts).
Proof.
  unfold generate_lattice. destruct maxattempts; auto with exits.
  apply never_exits_lattice_rounds.
Qed.

Lemma never_exits_choose_wyckoff (wyckoffs : list (list wyckoff_position)) (number : Z) :
  never_exits (choose_wyckoff wyckoffs number).
Proof.
  unfold choose_wyckoff. apply never_exits_bind; [auto with exits | intros u].
  destruct (Rltb _ _).
  - apply never_exits_bind; [auto with exits | intros [g |]]; exits.
  - apply never_exits_bind; [auto with exits | intros good].
    destruct (_ <? _)%nat; exits.
Qed.

#[local] Hint Resolve never_exits_generate_lattice never_exits_choose_wyckoff : exits.

Lemma never_exits_add_specie (sg : Z) (wyckoffs : list (list wyckoff_position)) (cycle3 : nat)
    (numIon : Z) (specie : string) (tol : R) (cell_matrix : mat3) :
  forall tmp total added,
    never_exits (add_specie sg wyckoffs cycle3 numIon specie tol cell_matrix tmp total added).
Proof.
  induction cycle3 as [| c IH]; intros tmp total added; cbn [add_specie];
    [auto with exits |].
  apply never_exits_bind; [auto with exits | intros [ops |]]; [| apply IH].
  apply never_exits_bind; [auto with exits | intros point].
  apply never_exits_bind; [auto with exits | intros [coords_toadd [index |]]]; [| apply IH].
  apply never_exits_bind; [auto with exits | intros far].
  destruct (_ =? _)%Z; [auto with exits | apply IH].
Qed.

Lemma never_exits_add_species (sg : Z) (wyckoffs : list (list wyckoff_position)) (max3 : nat)
    (cell_matrix : mat3) (todo : list (Z * string)) :
  forall tmp total last,
    never_exits (add_species sg wyckoffs max3 todo cell_matrix tmp total last).
Proof.
  induction todo as [| [numIon specie] rest IH]; intros tmp total last; cbn [add_species];
    [auto with exits |].
  apply never_exits_bind; [apply never_exits_add_specie | intros [[tmp1 total1] added1]].
  destruct (negb _); [auto with exits | apply IH].
Qed.

Lemma never_exits_fill_lattice (sg : Z) (species : list string) (numIons : list Z)
    (wyckoffs : list (list wyckoff_position)) (max3 : nat) (cell_matrix : mat3) (cycle2 : nat) :
  forall total last,
    never_exits (fill_lattice sg species numIons wyckoffs cycle2 max3 cell_matrix total last).
Proof.
  induction cycle2 as [| c IH]; intros total last; cbn [fill_lattice]; [auto with exits |].
  apply never_exits_bind; [apply never_exits_add_species | intros [total1 [[a n] |]]];
    [| auto with exits].
  destruct (a =? n)%Z; [auto with exits | apply IH].
Qed.

(** The cells that [generate_crystal] asks for have lengths above
    [minvector], which is at least [tol_m], and angles above pi/6: the
    volume test never fails on them, so the generator never exits. *)
Lemma never_exits_try_lattices (sg : Z) (species : list string) (numIons : list Z) (volume : R)
    (wyckoffs : list (list wyckoff_position)) (max2 max3 : nat) (minvector : R) (cycle1 : nat) :
  0 <= minvector ->
  forall last,
    never_exits (try_lattices sg species numIons volume wyckoffs cycle1 max2 max3 minvector last).
Proof.
  intros Hmin. induction cycle1 as [| c IH]; intros last; cbn [try_lattices];
    [auto with exits |].
  intros w w'. unfold bind at 1.
  destruct (generate_lattice sg volume minvector (PI / 6) 10 100 w) as [p w1 | e | w1 |] eqn:Eg;
    try discriminate.
  2:{ exfalso. now apply (never_exits_generate_lattice sg volume minvector (PI / 6) 10 100 w w1). }
  destruct p as [cell_para |]; [| discriminate].
  unfold generate_lattice in Eg.
  assert (Hdom : 0 < volume \/ (0 <= minvector /\ 0 <= PI / 6)).
  { right. split; [assumption |]. pose proof PI_RGT_0. lra. }
  destruct (lattice_rounds_volume _ _ _ _ _ _ _ _ _ _ Hdom Eg) as (m & Hm & Hd).
  clear Eg. unfold bind at 1, lift. rewrite Hm. rewrite Hd.
  rewrite Rltb_false.
  2:{ replace (volume - volume) with 0 by ring. rewrite Rabs_R0. lra. }
  revert w1 w'. apply never_exits_bind; [apply never_exits_fill_lattice |].
  intros [[total good] last1]. destruct good; [auto with exits | apply IH].
Qed.

Lemma never_exits_generate_crystal (sg : Z) (species : list string) (numIons : list Z)
    (volume : R) (wyckoffs : list (list wyckoff_position)) (max1 max2 max3 : nat) :
  never_exits (generate_crystal sg species numIons volume wyckoffs max1 max2 max3).
Proof.
  unfold generate_crystal.
  apply never_exits_bind; [auto with exits | intros degrees].
  assert (Hgo : forall m1 m2 m3,
    never_exits
      (run d <- lift (largest_diameter species);
       let minvector := Rmax d tol_m in
       run r <- try_lattices sg species numIons volume wyckoffs m1 m2 m3 minvector None;
       match r with
       | Some g => ret g
       | None =>
           run _ <- match degrees with NoFreedom => print MsgNoFreedom | _ => ret tt end;
           ret (mkGenerated None [] [] FailureMessage None false)
       end)).
  { intros m1 m2 m3. apply never_exits_bind; [auto with exits | intros d].
    assert (Hmin : 0 <= Rmax d tol_m).
    { eapply Rle_trans; [| apply Rmax_r]. unfold tol_m. lra. }
    apply never_exits_bind; [now apply never_exits_try_lattices | intros [g |]];
      [auto with exits |].
    apply never_exits_bind; [destruct degrees; auto with exits | auto with exits]. }
  destruct degrees; [exits | apply Hgo | apply Hgo].
Qed.

(** ** check_distance on an empty structure *)

Lemma create_matrix_nonempty (PBC : option nat) : create_matrix PBC <> [].
Proof. destruct PBC as [[| [| [| [| k]]]] |]; discriminate. Qed.

Lemma check_distance_nothing_placed (coord2 : list vec3) (specie1 : list string)
    (specie2 : string) (lattice : mat3) (PBC : option nat) (d_factor : R) :
  coord2 <> [] ->
  check_distance [] coord2 specie1 specie2 lattice PBC d_factor = Val true.
Proof.
  intros Hne. unfold check_distance.
  destruct coord2 as [| p rest]; [contradiction |].
  pose proof (create_matrix_nonempty PBC) as Hm.
  destruct (create_matrix PBC) as [| m ms]; [contradiction |].
  reflexivity.
Qed.

Lemma check_distance_no_candidate (coord1 : list (list vec3)) (specie1 : list string)
    (specie2 : string) (lattice : mat3) (PBC : option nat) (d_factor : R) :
  check_distance coord1 [] specie1 specie2 lattice PBC d_factor = Exn ValueError.
Proof. reflexivity. Qed.

(** ** merge_coordinate when nothing smaller is left *)

Lemma merge_coordinate_nothing_smaller (coor : list vec3) (lattice : mat3)
    (wyckoff : list (list wyckoff_position)) (sg : Z) (tol : R) (PBC : option nat)
    (smallest : nat) :
  short_pair coor lattice tol ->
  smallest_multiplicity wyckoff = Val smallest ->
  (length coor <= smallest)%nat ->
  merge_coordinate coor lattice wyckoff sg tol PBC = Val (coor, None).
Proof.
  intros Hs Hsm Hlen. unfold merge_coordinate. cbn [merge_loop]. unfold merge_step.
  apply find_short_dist_pairs in Hs.
  destruct (find_short_dist coor lattice tol) as [pairs graph]. cbn [fst] in Hs.
  apply Nat.ltb_lt in Hs. rewrite Hs, Hsm. cbn [exc_bind].
  apply Nat.ltb_ge in Hlen. now rewrite Hlen.
Qed.

(** With the default [PBC=None], [get_center] reaches [center[PBC-1]] and
    stops there with a TypeError, unless an earlier statement raised. *)
Lemma get_center_without_PBC (xyzs : list vec3) (lattice : mat3) (c : vec3) :
  get_center xyzs lattice None <> Val c.
Proof.
  unfold get_center. intros H.
  apply exc_bind_Val in H. destruct H as (shifted & _ & H).
  apply exc_bind_Val in H. destruct H as (n & _ & H).
  discriminate.
Qed.
(** ** Runs that succeed at the first try *)

Lemma bind_ok {A B : Type} (m : M A) (k : A -> M B) (w w1 : world) (a : A) :
  m w = Ok a w1 -> bind m k w = k a w1.
Proof. intros H. unfold bind. now rewrite H. Qed.

Lemma lift_ok {A : Type} (m : exc A) (a : A) (w : world) : m = Val a -> lift m w = Ok a w.
Proof. intros ->. reflexivity. Qed.

Lemma np_random_normal_ok (loc scale z : R) (zs us : list R) (ks : list nat)
    (out : list message) :
  0 <= scale ->
  np_random_normal loc scale (mkWorld (z :: zs) us ks out)
  = Ok (loc + scale * z) (mkWorld zs us ks out).
Proof.
  intros H. unfold np_random_normal. destruct (Rlt_dec scale 0); [lra | reflexivity].
Qed.

Lemma meets_requirements_intro (minvec minangle maxangle max_ratio maxvec : R) (p : CellPara) :
  (minvec < cp_a p /\ minvec < cp_b p /\ minvec < cp_c p) ->
  (cp_a p < maxvec /\ cp_b p < maxvec /\ cp_c p < maxvec) ->
  smallvec p < minvec ->
  (minangle < cp_alpha p < maxangle /\ minangle < cp_beta p < maxangle
   /\ minangle < cp_gamma p < maxangle) ->
  (cp_a p / cp_b p < max_ratio /\ cp_a p / cp_c p < max_ratio /\ cp_b p / cp_c p < max_ratio
   /\ cp_b p / cp_a p < max_ratio /\ cp_c p / cp_a p < max_ratio /\ cp_c p / cp_b p < max_ratio) ->
  meets_requirements minvec minangle maxangle max_ratio maxvec p = true.
Proof.
  intros (A1 & A2 & A3) (B1 & B2 & B3) C ((D1 & D2) & (D3 & D4) & (D5 & D6))
         (E1 & E2 & E3 & E4 & E5 & E6).
  unfold meets_requirements.
  repeat (apply andb_true_intro; split); now apply Rltb_true.
Qed.

Lemma generate_lattice_first_try (sg : Z) (volume minvec minangle max_ratio : R) (n : nat)
    (w w1 : world) (p : CellPara) :
  sample_cell sg volume minangle (PI - minangle) w = Ok p w1 ->
  minvec ^ 2 <> 0 ->
  minvec < cp_a p * cp_b p * cp_c p / minvec ^ 2 ->
  meets_requirements minvec minangle (PI - minangle) max_ratio
    (cp_a p * cp_b p * cp_c p / minvec ^ 2) p = true ->
  generate_lattice sg volume minvec minangle max_ratio (S n) w = Ok (Some p) w1.
Proof.
  intros Hs Hm Hv Hr. unfold generate_lattice. cbn [lattice_rounds].
  rewrite (bind_ok _ _ _ _ _ Hs).
  rewrite (bind_ok _ _ _ _ _ (lift_ok _ _ _ (fdiv_ok _ _ Hm))).
  now rewrite (Rltb_true _ _ Hv), Hr.
Qed.

Lemma add_specie_first_try (sg : Z) (wyckoffs : list (list wyckoff_position)) (c : nat)
    (numIon : Z) (specie : string) (tol : R) (cell_matrix : mat3) (tmp total : placed)
    (added : Z) (w w1 w2 : world) (ops : wyckoff_position) (point : vec3)
    (coords : list vec3) (index : nat) :
  choose_wyckoff wyckoffs (numIon - added) w = Ok (Some ops) w1 ->
  np_random_random3 w1 = Ok point w2 ->
  merge_coordinate (map (fun op => operate op point) ops) cell_matrix wyckoffs sg tol None
    = Val (coords, Some index) ->
  check_distance (placed_coordinates tmp) (map wrap coords) (placed_sites tmp) specie
    cell_matrix None 1 = Val true ->
  (added + Z.of_nat (length (map wrap coords)))%Z = numIon ->
  add_specie sg wyckoffs (S c) numIon specie tol cell_matrix tmp total added w
  = Ok (mkPlaced (placed_coordinates tmp ++ [map wrap coords]) (placed_sites tmp ++ [specie]),
        mkPlaced (placed_coordinates tmp ++ [map wrap coords]) (placed_sites tmp ++ [specie]),
        numIon) w2.
Proof.
  intros Hc Hp Hm Hd Hn. cbn [add_specie].
  rewrite (bind_ok _ _ _ _ _ Hc). rewrite (bind_ok _ _ _ _ _ Hp).
  rewrite (bind_ok _ _ _ _ _ (lift_ok _ _ _ Hm)).
  rewrite (bind_ok _ _ _ _ _ (lift_ok _ _ _ Hd)).
  rewrite Hn, Z.eqb_refl. reflexivity.
Qed.

Lemma add_species_single (sg : Z) (wyckoffs : list (list wyckoff_position)) (max3 : nat)
    (numIon : Z) (specie : string) (cell_matrix : mat3) (tmp total tmp' total' : placed)
    (last : option (Z * Z)) (w w' : world) :
  add_specie sg wyckoffs max3 numIon specie (Rmax (1 / 2 * covalent_radius specie) tol_m)
    cell_matrix tmp total 0 w = Ok (tmp', total', numIon) w' ->
  add_species sg wyckoffs max3 [(numIon, specie)] cell_matrix tmp total last w
  = Ok (total', Some (numIon, numIon)) w'.
Proof.
  intros H. cbn [add_species]. rewrite (bind_ok _ _ _ _ _ H).
  now rewrite Z.eqb_refl.
Qed.

Lemma fill_lattice_first_try (sg : Z) (species : list string) (numIons : list Z)
    (wyckoffs : list (list wyckoff_position)) (c max3 : nat) (cell_matrix : mat3)
    (total total' : placed) (last : option (Z * Z)) (n : Z) (w w' : world) :
  add_species sg wyckoffs max3 (combine numIons species) cell_matrix total total last w
    = Ok (total', Some (n, n)) w' ->
  fill_lattice sg species numIons wyckoffs (S c) max3 cell_matrix total last w
  = Ok (total', true, Some (n, n)) w'.
Proof.
  intros H. cbn [fill_lattice]. rewrite (bind_ok _ _ _ _ _ H). now rewrite Z.eqb_refl.
Qed.

Lemma try_lattices_first_try (sg : Z) (species : list string) (numIons : list Z) (volume : R)
    (wyckoffs : list (list wyckoff_position)) (c max2 max3 : nat) (minvector : R)
    (last last' : option (Z * Z)) (w w1 w2 : world) (cell_para : CellPara)
    (cell_matrix : mat3) (total : placed) :
  generate_lattice sg volume minvector (PI / 6) 10 100 w = Ok (Some cell_para) w1 ->
  para2matrix cell_para = Val cell_matrix ->
  det3 cell_matrix = volume ->
  fill_lattice sg species numIons wyckoffs max2 max3 cell_matrix nothing_placed last w1
    = Ok (total, true, last') w2 ->
  try_lattices sg species numIons volume wyckoffs (S c) max2 max3 minvector last w
  = Ok (Some (finish cell_matrix total)) w2.
Proof.
  intros Hg Hp Hd Hf. cbn [try_lattices].
  rewrite (bind_ok _ _ _ _ _ Hg). rewrite (bind_ok _ _ _ _ _ (lift_ok _ _ _ Hp)).
  rewrite Hd. rewrite Rltb_false.
  2:{ replace (volume - volume) with 0 by ring. rewrite Rabs_R0. lra. }
  now rewrite (bind_ok _ _ _ _ _ Hf).
Qed.

Lemma generate_crystal_success (sg : Z) (species : list string) (numIons : list Z) (volume : R)
    (wyckoffs : list (list wyckoff_position)) (max1 max2 max3 : nat) (d : R) (g : generated)
    (w w' : world) :
  check_compatible wyckoffs numIons = Val Compatible ->
  largest_diameter species = Val d ->
  try_lattices sg species numIons volume wyckoffs max1 max2 max3 (Rmax d tol_m) None w
    = Ok (Some g) w' ->
  generate_crystal sg species numIons volume wyckoffs max1 max2 max3 w = Ok g w'.
Proof.
  intros Hc Hd Ht. unfold generate_crystal.
  rewrite (bind_ok _ _ _ _ _ (lift_ok _ _ _ Hc)). cbv zeta.
  rewrite (bind_ok _ _ _ _ _ (lift_ok _ _ _ Hd)).
  now rewrite (bind_ok _ _ _ _ _ Ht).
Qed.

Lemma random_crystal_run (sg : Z) (species : list string) (numIons0 : list Z) (factor : R)
    (k : Z) (wyckoffs : list (list wyckoff_position)) (w : world) :
  cellsize sg = Val (Size k) ->
  get_wyckoffs_organized sg = Val wyckoffs ->
  random_crystal sg species numIons0 factor w
  = generate_crystal sg species (map (fun numIon => (numIon * k)%Z) numIons0)
      (estimate_volume (map (fun numIon => (numIon * k)%Z) numIons0) species factor)
      wyckoffs 30 30 30 w.
Proof.
  intros Hs Hw. unfold random_crystal.
  rewrite (bind_ok _ _ _ _ _ (lift_ok _ _ _ Hs)).
  now rewrite (bind_ok _ _ _ _ _ (lift_ok _ _ _ Hw)).
Qed.

(** A single point has no pair: [merge_coordinate] hands it back with the
    index that the recognition gives. *)
Lemma merge_coordinate_single (p : vec3) (lattice : mat3)
    (wyckoff : list (list wyckoff_position)) (sg : Z) (tol : R) (PBC : option nat)
    (index : option nat) :
  check_wyckoff_position [p] sg = Val index ->
  merge_coordinate [p] lattice wyckoff sg tol PBC = Val ([p], index).
Proof.
  intros H. unfold merge_coordinate. cbn [length merge_loop]. unfold merge_step.
  change (find_short_dist [p] lattice tol) with (@nil (nat * nat * R), [@nil nat]).
  cbn [length Nat.ltb Nat.leb]. now rewrite H.
Qed.

(** ** Distances to a lattice point *)

Lemma np_round_zero (x : R) : x = 0 -> np_round x = 0.
Proof.
  intros ->. unfold np_round.
  replace (Zfloor 0) with 0%Z by (symmetry; apply Zfloor_eq; simpl; lra).
  rewrite Rltb_true by (simpl; lra). reflexivity.
Qed.

Lemma norm_nonneg (u : vec3) : 0 <= norm u.
Proof. apply sqrt_pos. Qed.

Lemma norm_zero (u : vec3) : u = (0, 0, 0) -> norm u = 0.
Proof. intros ->. apply norm_unique; simpl; lra. Qed.

Lemma vecmat_zero (lattice : mat3) : vecmat (0, 0, 0) lattice = (0, 0, 0).
Proof.
  destruct lattice as [[[[a0 a1] a2] [[b0 b1] b2]] [[c0 c1] c2]]. simpl.
  repeat (apply pair_equal_spec; split); ring.
Qed.

Lemma create_matrix_origin (PBC : option nat) : In (0, 0, 0) (create_matrix PBC).
Proof.
  destruct PBC as [[| [| [| [| k]]]] |]; simpl;
    repeat first [left; reflexivity | right].
Qed.

(** A difference whose components are whole numbers is at distance 0: the
    rounding takes it to the origin, which is one of the images. *)
Lemma distance_lattice_point (xyz : vec3) (lattice : mat3) (PBC : option nat) :
  vsub xyz (vmap np_round xyz) = (0, 0, 0) -> distance xyz lattice PBC = 0.
Proof.
  intros H. unfold distance. rewrite H.
  pose proof (create_matrix_origin PBC) as Hin.
  destruct (create_matrix PBC) as [| m0 ms]; [destruct Hin |].
  cbn [map hd tl]. apply Rle_antisym.
  - apply list_min_le_In.
    change (In 0 (map norm (map (fun m => vecmat (vadd m (0, 0, 0)) lattice) (m0 :: ms)))).
    apply in_map_iff. exists (0, 0, 0). split; [now apply norm_zero |].
    apply in_map_iff. exists (0, 0, 0). split; [| assumption].
    replace (vadd (0, 0, 0) (0, 0, 0)) with ((0, 0, 0) : vec3)
      by (simpl; repeat (apply pair_equal_spec; split); ring).
    apply vecmat_zero.
  - apply list_min_lower; [apply norm_nonneg |].
    apply Forall_forall. intros y Hy. apply in_map_iff in Hy.
    destruct Hy as (v & <- & _). apply norm_nonneg.
Qed.

Lemma origin_rounded :
  vsub (vsub (0, 0, 0) (0, 0, 0)) (vmap np_round (vsub (0, 0, 0) (0, 0, 0))) = (0, 0, 0).
Proof.
  simpl. rewrite (np_round_zero (0 - 0)) by ring.
  repeat (apply pair_equal_spec; split); ring.
Qed.

Lemma norm_positive (u : vec3) : u <> (0, 0, 0) -> norm u <> 0.
Proof.
  destruct u as [[x y] z]. intros Hne Hn. apply Hne.
  unfold norm in Hn. apply sqrt_eq_0 in Hn; simpl in *.
  - assert (x = 0 /\ y = 0 /\ z = 0) as (-> & -> & ->); [| reflexivity].
    repeat split; nra.
  - nra.
Qed.

Lemma list_min_zero (x : R) (l : list R) :
  In 0 (x :: l) -> Forall (fun y => 0 <= y) (x :: l) -> list_min x l = 0.
Proof.
  intros Hin Hall. apply Rle_antisym.
  - now apply list_min_le_In.
  - inversion Hall; subst. now apply list_min_lower.
Qed.


Lemma np_round_minus_half : np_round (0 - 1 / 2) = 0.
Proof.
  unfold np_round.
  replace (Zfloor (0 - 1 / 2)) with (-1)%Z by (symmetry; apply Zfloor_eq; simpl; lra).
  rewrite Rltb_false by (simpl; lra). rewrite Rltb_false by (simpl; lra).
  reflexivity.
Qed.

(** * The claims of the specification *)

(** ** Lattice parameters *)

Lemma skewed_cell_matrix :
  para2matrix skewed_cell = Val ((1, 0, 0), (0, 2, 0), (0, 1 / 2, sqrt 3 / 2)).
Proof.
  unfold para2matrix, skewed_cell; simpl.
  rewrite cos_PI2, sin_PI2, cos_PI3.
  rewrite fdiv_ok by lra. simpl.
  rewrite py_sqrt_ok by lra. simpl.
  assert (H3 : sqrt 3 * sqrt 3 = 3) by (apply sqrt_sqrt; lra).
  assert (H0 : 0 <= sqrt 3) by apply sqrt_pos.
  rewrite (sqrt_unique _ (sqrt 3 / 2)) by lra.
  do 2 f_equal; repeat (apply pair_equal_spec; split); lra.
Qed.

(** C7 (the code at the failing input).  On the valid tuple a = 1, b = 2,
    c = 1, alpha = pi/3, beta = gamma = pi/2, [matrix2para] after
    [para2matrix] returns alpha = 0 instead of pi/3: [angle] compares the
    raw dot product of the two rows, here b * c * cos(alpha) = 1, with 1.0
    before it divides by the norms.  The returned alpha is more than 10^-8
    away from the original one. *)
Theorem matrix2para_para2matrix_not_identity :
  exists m p,
    para2matrix skewed_cell = Val m /\
    matrix2para m = Val p /\
    cp_alpha p = 0 /\
    1 / 100000000 < Rabs (cp_alpha p - cp_alpha skewed_cell).
Proof.
  assert (H3 : sqrt 3 * sqrt 3 = 3) by (apply sqrt_sqrt; lra).
  assert (N0 : norm (1, 0, 0) = 1) by (apply norm_unique; simpl; lra).
  assert (N1 : norm (0, 2, 0) = 2) by (apply norm_unique; simpl; lra).
  assert (N2 : norm (0, 1 / 2, sqrt 3 / 2) = 1) by (apply norm_unique; simpl; lra).
  exists ((1, 0, 0), (0, 2, 0), (0, 1 / 2, sqrt 3 / 2)).
  exists (mkCellPara 1 2 1 0 (PI / 2) (PI / 2)).
  split; [apply skewed_cell_matrix |].
  split.
  - unfold matrix2para.
    rewrite angle_close_one.
    2:{ simpl. replace (0 * 0 + 2 * (1 / 2) + 0 * (sqrt 3 / 2) - 1) with 0 by lra.
        rewrite Rabs_R0. lra. }
    rewrite (angle_acos _ _ 0), (angle_acos _ _ 0); rewrite ?N0, ?N1, ?N2; simpl;
      try lra; try (unfold Rabs; destruct Rcase_abs; lra); try (field; lra).
    rewrite acos_0. reflexivity.
  - simpl. split; [reflexivity |].
    replace (0 - PI / 3) with (- (PI / 3)) by lra.
    rewrite Rabs_Ropp, Rabs_pos_eq; pose proof PI2_3_2; lra.
Qed.



(** ** The Wyckoff engine *)

(** C8.  On an organized list, whatever the two random draws are,
    [choose_wyckoff] returns; it returns [False] exactly when no position
    of the list has a multiplicity of at most [number], and otherwise (on
    the fill-large-first branch as on the other one) a position of the
    list whose multiplicity is at most [number]. *)
Theorem choose_wyckoff_fits (wyckoffs : list (list wyckoff_position)) (number : Z)
    (w : world) (u : R) (us : list R) (k : nat) (ks : list nat) :
  organized wyckoffs ->
  uniforms w = u :: us ->
  picks w = k :: ks ->
  exists res w',
    choose_wyckoff wyckoffs number w = Ok res w' /\
    (res = None <-> forall g wp, In g wyckoffs -> In wp g -> (number < multiplicity wp)%Z) /\
    (forall wp, res = Some wp ->
       (multiplicity wp <= number)%Z /\ exists g, In g wyckoffs /\ In wp g).
Proof. apply choose_wyckoff_spec. Qed.

(** C5 (amended).  Given an orbit with two points not farther apart than
    the tolerance, [merge_coordinate] returns failure exactly when the list
    it holds on return still has such a pair and either its number of
    points does not exceed the multiplicity of the smallest Wyckoff
    position (the first position of the last group), or its merged
    candidate is not recognized as a Wyckoff position. *)
Theorem merge_coordinate_failure (coor : list vec3) (lattice : mat3)
    (wyckoff : list (list wyckoff_position)) (sg : Z) (tol : R) (PBC : option nat)
    (c : list vec3) (index : option nat) :
  short_pair coor lattice tol ->
  merge_coordinate coor lattice wyckoff sg tol PBC = Val (c, index) ->
  (index = None <->
   short_pair c lattice tol /\
   exists smallest,
     smallest_multiplicity wyckoff = Val smallest /\
     ((length c <= smallest)%nat \/
      ((smallest < length c)%nat /\
       exists merged,
         merge_candidate c (snd (find_short_dist c lattice tol)) lattice PBC = Val merged
         /\ check_wyckoff_position merged sg = Val None))).
Proof.
  intros Hs H. unfold merge_coordinate in H.
  apply (merge_loop_failure lattice wyckoff sg tol PBC (S (length coor)) coor c index); auto.
Qed.

(** C6.  [merge_coordinate] terminates on every list of points, provided
    the recognition of a Wyckoff position does: whenever two points are
    within the tolerance, one connected component of the graph holds two
    points or more and the components are fewer than the points, so a round
    that merges replaces the list by a strictly shorter one, and
    [length coor + 1] rounds are never used up. *)
Theorem merge_coordinate_terminates (coor : list vec3) (lattice : mat3)
    (wyckoff : list (list wyckoff_position)) (sg : Z) (tol : R) (PBC : option nat) :
  (forall points, check_wyckoff_position points sg <> Exn OutOfFuel) ->
  merge_coordinate coor lattice wyckoff sg tol PBC <> Exn OutOfFuel /\
  (forall c merged,
     merge_step c lattice wyckoff sg tol PBC = Val (Again merged) ->
     (length merged < length c)%nat) /\
  (forall c,
     short_pair c lattice tol ->
     exists groups,
       connected_components (snd (find_short_dist c lattice tol)) = Val groups /\
       (exists group, In group groups /\ (2 <= length group)%nat) /\
       (length groups < length c)%nat).
Proof.
  intros Hcheck. split; [| split].
  - unfold merge_coordinate. apply merge_loop_terminates; [assumption | lia].
  - intros c merged. apply merge_step_shorter.
  - intros c Hs. apply find_short_dist_pairs in Hs.
    pose proof (find_short_dist_spec c lattice tol) as Hspec.
    destruct (find_short_dist c lattice tol) as [pairs graph]. cbn [fst snd] in *.
    destruct Hspec as [Hg Hedge]. destruct (Hedge Hs) as (i & j & Hij & Hi & Hj & He).
    destruct (connected_components_ok _ _ Hg) as (sets & Ec & _ & Hlt).
    exists sets. split; [assumption |]. split.
    + now apply (connected_components_pair (length c) graph sets i j).
    + eapply Hlt; eauto.
Qed.

(** ** The distance checker *)

(** C10 (amended).  With no orbit placed yet, [check_distance] returns
    [True] for every candidate list that holds at least one point, whatever
    the species, the lattice, the PBC setting and d_factor are. *)
Theorem check_distance_first_orbit (coord2 : list vec3) (specie1 : list string)
    (specie2 : string) (lattice : mat3) (PBC : option nat) (d_factor : R) :
  coord2 <> [] ->
  check_distance [] coord2 specie1 specie2 lattice PBC d_factor = Val true.
Proof. apply check_distance_nothing_placed. Qed.

(** ** The generator *)




(** * Further properties of the code *)

(** ** Rounding and the order of a rotation *)

Lemma np_round_IZR (z : Z) : np_round (IZR z) = IZR z.
Proof.
  unfold np_round.
  replace (Zfloor (IZR z)) with z by (symmetry; apply Zfloor_eq; lra).
  rewrite Rltb_true by lra. reflexivity.
Qed.

Lemma np_round_integer (x : R) : exists z, np_round x = IZR z.
Proof.
  unfold np_round. destruct (Rltb _ _); [eauto |]. destruct (Rltb _ _); [eauto |].
  destruct (Z.even _); eauto.
Qed.

(** A fraction n/k with 0 < n < k is at least 1/k away from every integer. *)
Lemma fraction_far (n k z : Z) :
  (0 < n < k)%Z -> 1 / IZR k <= Rabs (IZR n / IZR k - IZR z).
Proof.
  intros H.
  assert (Hk : 0 < IZR k) by (apply IZR_lt; lia).
  assert (Hne : (n - z * k <> 0)%Z) by (destruct (Z_le_gt_dec z 0); nia).
  assert (Hd : 1 <= Rabs (IZR (n - z * k))).
  { rewrite <- abs_IZR. apply IZR_le. lia. }
  replace (IZR n / IZR k - IZR z) with (IZR (n - z * k) / IZR k)
    by (rewrite minus_IZR, mult_IZR; field; lra).
  unfold Rdiv at 2. rewrite Rabs_mult, (Rabs_pos_eq (/ IZR k)).
  - unfold Rdiv. apply Rmult_le_compat_r; [| assumption].
    left. now apply Rinv_0_lt_compat.
  - left. now apply Rinv_0_lt_compat.
Qed.

Lemma find_order_first (angle tol : R) (k len a : nat) :
  (a <= k < a + len)%nat ->
  (forall n, (a <= n < k)%nat -> tol < Rabs (INR n * angle / (2 * PI) - np_round (INR n * angle / (2 * PI)))) ->
  Rabs (INR k * angle / (2 * PI) - np_round (INR k * angle / (2 * PI))) <= tol ->
  find_order angle tol (seq a len) = Some k.
Proof.
  revert a. induction len as [| len IH]; intros a Hk Hbefore Hat; [lia |].
  cbn [seq find_order].
  destruct (Nat.eq_dec a k) as [-> | Hne].
  - now rewrite Rleb_true.
  - rewrite Rleb_false by (apply Rlt_not_le, Hbefore; lia).
    apply IH; [lia | | assumption]. intros n Hn. apply Hbefore. lia.
Qed.

Lemma find_order_sound (angle tol : R) (len a n : nat) :
  find_order angle tol (seq a len) = Some n ->
  (a <= n < a + len)%nat /\
  Rabs (INR n * angle / (2 * PI) - np_round (INR n * angle / (2 * PI))) <= tol /\
  (forall n', (a <= n' < n)%nat ->
     tol < Rabs (INR n' * angle / (2 * PI) - np_round (INR n' * angle / (2 * PI)))).
Proof.
  revert a. induction len as [| len IH]; intros a H; [discriminate |].
  cbn [seq find_order] in H.
  destruct (Rleb _ tol) eqn:E.
  - inversion H; subst. apply Rleb_iff in E. split; [lia |]. split; [assumption |].
    intros n' Hn'. lia.
  - apply IH in H. destruct H as (H1 & H2 & H3). split; [lia |]. split; [assumption |].
    intros n' Hn'. destruct (Nat.eq_dec n' a) as [-> | Hne].
    + apply Rnot_le_lt. intros Hle. apply Rleb_iff in Hle. congruence.
    + apply H3. lia.
Qed.

Lemma find_order_none (angle tol : R) (len a : nat) :
  find_order angle tol (seq a len) = None ->
  forall n, (a <= n < a + len)%nat ->
    tol < Rabs (INR n * angle / (2 * PI) - np_round (INR n * angle / (2 * PI))).
Proof.
  revert a. induction len as [| len IH]; intros a H n Hn; [lia |].
  cbn [seq find_order] in H.
  destruct (Rleb _ tol) eqn:E; [discriminate |].
  destruct (Nat.eq_dec n a) as [-> | Hne].
  - apply Rnot_le_lt. intros Hle. apply Rleb_iff in Hle. congruence.
  - apply (IH (S a)); [assumption | lia].
Qed.

(** The angle 2*pi/k: no [n] below [k] passes the test, and [k] does. *)
Lemma turn_fraction (n k : nat) :
  (0 < k)%nat -> INR n * (2 * PI / INR k) / (2 * PI) = IZR (Z.of_nat n) / IZR (Z.of_nat k).
Proof.
  intros Hk. rewrite !INR_IZR_INZ.
  assert (IZR (Z.of_nat k) <> 0) by (apply not_0_IZR; lia).
  pose proof PI_RGT_0. field. split; lra.
Qed.

Lemma find_order_turn (k : nat) (tol : R) :
  (1 <= k <= 60)%nat -> 0 <= tol < 1 / 60 ->
  find_order (2 * PI / INR k) tol (seq 1 60) = Some k.
Proof.
  intros Hk Htol. apply find_order_first; [lia | |].
  - intros n Hn. rewrite turn_fraction by lia.
    destruct (np_round_integer (IZR (Z.of_nat n) / IZR (Z.of_nat k))) as [z ->].
    eapply Rlt_le_trans; [| apply fraction_far; lia].
    assert (Hk60 : IZR (Z.of_nat k) <= 60) by (apply (IZR_le _ 60); lia).
    assert (Hk0 : 0 < IZR (Z.of_nat k)) by (apply (IZR_lt 0); lia).
    apply Rlt_le_trans with (1 / 60); [lra |].
    unfold Rdiv. rewrite !Rmult_1_l. apply Rinv_le_contravar; lra.
  - rewrite turn_fraction by lia.
    replace (IZR (Z.of_nat k) / IZR (Z.of_nat k)) with (IZR 1)
      by (field; apply not_0_IZR; lia).
    rewrite np_round_IZR. replace (IZR 1 - IZR 1) with 0 by ring. rewrite Rabs_R0. lra.
Qed.

Lemma allclose_refl (rtol atol : R) (l : list R) :
  0 <= rtol -> 0 <= atol -> allclose rtol atol l l = true.
Proof.
  intros Hr Ha. induction l as [| x l IH]; [reflexivity |]. cbn [allclose].
  rewrite IH, andb_true_r. apply Rleb_true.
  replace (x - x) with 0 by ring. rewrite Rabs_R0.
  pose proof (Rabs_pos x). nra.
Qed.

Lemma transpose_involutive (m : mat3) : transpose (transpose m) = m.
Proof. destruct m as [[[[? ?] ?] [[? ?] ?]] [[? ?] ?]]. reflexivity. Qed.

Lemma is_orthogonal_transpose_eq (m : mat3) (tol : R) :
  is_orthogonal (transpose m) tol = is_orthogonal m tol.
Proof.
  unfold is_orthogonal. rewrite transpose_involutive.
  rewrite orb_comm. reflexivity.
Qed.

Lemma is_orthogonal_exact (m : mat3) (tol : R) :
  0 <= tol ->
  matmul m (transpose m) = np_identity3 -> matmul (transpose m) m = np_identity3 ->
  is_orthogonal m tol = true.
Proof.
  intros Htol H1 H2. unfold is_orthogonal. rewrite H1, H2.
  rewrite allclose_refl by lra. reflexivity.
Qed.

(** ** Rotation about an axis *)

Lemma rodrigues_rotation (x y z c s : R) :
  x * x + y * y + z * z = 1 -> s * s + c * c = 1 ->
  let Q := ((x * x * (1 - c) + c, x * y * (1 - c) - z * s, x * z * (1 - c) + y * s),
            (y * x * (1 - c) + z * s, y * y * (1 - c) + c, y * z * (1 - c) - x * s),
            (z * x * (1 - c) - y * s, z * y * (1 - c) + x * s, z * z * (1 - c) + c)) in
  matmul Q (transpose Q) = np_identity3 /\
  matmul (transpose Q) Q = np_identity3 /\
  det3 Q = 1 /\
  matvec Q (x, y, z) = (x, y, z).
Proof.
  intros Hu Hsc Q. unfold Q, np_identity3. cbn [matmul transpose dot det3 matvec].
  split; [| split; [| split]].
  - repeat (apply pair_equal_spec; split); nsatz.
  - repeat (apply pair_equal_spec; split); nsatz.
  - nsatz.
  - repeat (apply pair_equal_spec; split); nsatz.
Qed.

Lemma unit_axis (axis : vec3) :
  axis <> (0, 0, 0) ->
  let '(a0, a1, a2) := axis in
  norm axis <> 0 /\
  (a0 / norm axis) * (a0 / norm axis) + (a1 / norm axis) * (a1 / norm axis)
  + (a2 / norm axis) * (a2 / norm axis) = 1.
Proof.
  intros Hne. pose proof (norm_positive axis Hne) as Hn.
  assert (Hsq : norm axis * norm axis = dot axis axis).
  { unfold norm. apply sqrt_sqrt. destruct axis as [[a0 a1] a2]. simpl. nra. }
  destruct axis as [[a0 a1] a2]. split; [assumption |].
  set (n := norm (a0, a1, a2)) in *. simpl in Hsq.
  replace ((a0 / n) * (a0 / n) + (a1 / n) * (a1 / n) + (a2 / n) * (a2 / n))
    with ((a0 * a0 + a1 * a1 + a2 * a2) / (n * n)) by (field; lra).
  rewrite <- Hsq. field. lra.
Qed.

Lemma aa2matrix_value (axis : vec3) (angle : R) :
  axis <> (0, 0, 0) ->
  let '(a0, a1, a2) := axis in
  let x := a0 / norm axis in
  let y := a1 / norm axis in
  let z := a2 / norm axis in
  let c := cos angle in
  let s := sin angle in
  aa2matrix axis angle
  = Val ((x * x * (1 - c) + c, x * y * (1 - c) - z * s, x * z * (1 - c) + y * s),
         (y * x * (1 - c) + z * s, y * y * (1 - c) + c, y * z * (1 - c) - x * s),
         (z * x * (1 - c) - y * s, z * y * (1 - c) + x * s, z * z * (1 - c) + c)).
Proof.
  intros Hne. pose proof (unit_axis axis Hne) as H.
  destruct axis as [[a0 a1] a2]. destruct H as [Hn _].
  unfold aa2matrix. rewrite !fdiv_ok by assumption. reflexivity.
Qed.

Lemma dot_comm (u v : vec3) : dot u v = dot v u.
Proof. destruct u as [[u0 u1] u2], v as [[v0 v1] v2]. simpl. ring. Qed.

Lemma norm_sqr (u : vec3) : norm u * norm u = dot u u.
Proof.
  unfold norm. apply sqrt_sqrt. destruct u as [[u0 u1] u2]. simpl. nra.
Qed.

Lemma cauchy_schwarz (u v : vec3) : Rabs (dot u v) <= norm u * norm v.
Proof.
  assert (H : dot u v * dot u v <= dot u u * dot v v).
  { destruct u as [[u0 u1] u2], v as [[v0 v1] v2]. simpl.
    pose proof (pow2_ge_0 (u0 * v1 - u1 * v0)). pose proof (pow2_ge_0 (u0 * v2 - u2 * v0)).
    pose proof (pow2_ge_0 (u1 * v2 - u2 * v1)).
    assert (E : (u0 * u0 + u1 * u1 + u2 * u2) * (v0 * v0 + v1 * v1 + v2 * v2)
                - (u0 * v0 + u1 * v1 + u2 * v2) * (u0 * v0 + u1 * v1 + u2 * v2)
                = (u0 * v1 - u1 * v0) ^ 2 + (u0 * v2 - u2 * v0) ^ 2 + (u1 * v2 - u2 * v1) ^ 2)
      by ring.
    lra. }
  rewrite <- (norm_sqr u), <- (norm_sqr v) in H.
  pose proof (norm_nonneg u). pose proof (norm_nonneg v).
  assert (Hp : 0 <= norm u * norm v) by (apply Rmult_le_pos; assumption).
  replace (norm u * norm u * (norm v * norm v)) with ((norm u * norm v) * (norm u * norm v)) in H
    by ring.
  generalize dependent (norm u * norm v). generalize (dot u v). clear. intros d p H Hp.
  apply Rabs_le. split.
  - destruct (Rle_dec (- p) d); [assumption | nra].
  - destruct (Rle_dec d p); [assumption | nra].
Qed.
(** ** Places in an organized list *)

Section JK.
Context {A : Type}.

Lemma jk_row_spec (i num : Z) (j k : nat) (a : list A) :
  match jk_row i num j k a with
  | inl (j', k') => j' = j /\ (k <= k')%nat /\ (k' - k < length a)%nat
                    /\ i = (num + 1 + Z.of_nat (k' - k))%Z
  | inr num' => num' = (num + Z.of_nat (length a))%Z /\
                (i <= num \/ num + Z.of_nat (length a) < i)%Z
  end.
Proof.
  revert num k. induction a as [| b rest IH]; intros num k; cbn [jk_row length].
  - split; lia.
  - destruct (Z.eqb_spec (num + 1) i) as [E | E].
    + repeat split; try lia. 
    + specialize (IH (num + 1)%Z (S k)).
      destruct (jk_row i (num + 1) j (S k) rest) as [[j' k'] | num'].
      * destruct IH as (-> & H1 & H2 & H3). repeat split; try lia.
      * destruct IH as (-> & H). split; lia.
Qed.

Lemma jk_rows_spec (i num : Z) (j0 : nat) (olist : list (list A)) (j k : nat) :
  jk_rows i num j0 olist = Some (j, k) <->
  (j0 <= j)%nat /\ valid_place olist (j - j0) k /\
  i = (num + 1 + Z.of_nat (flat_index olist (j - j0) k))%Z.
Proof.
  revert num j0. induction olist as [| a rest IH]; intros num j0; cbn [jk_rows].
  - split; [discriminate |]. intros (_ & [H _] & _). simpl in H. lia.
  - pose proof (jk_row_spec i num j0 0 a) as Hrow.
    destruct (jk_row i num j0 0 a) as [[j' k'] | num'].
    + destruct Hrow as (-> & _ & Hk & Hi). rewrite Nat.sub_0_r in Hk, Hi. split.
      * intros H. inversion H; subst. split; [lia |]. rewrite Nat.sub_diag.
        unfold valid_place, flat_index. cbn. split; [split; [lia | assumption] | lia].
      * intros (Hj & [Hv1 Hv2] & Hi'). unfold flat_index in Hi'.
        destruct (j - j0)%nat as [| d] eqn:Ed.
        -- cbn in Hi', Hv2. f_equal. f_equal; lia.
        -- exfalso. cbn [firstn concat nth] in Hi', Hv2. rewrite length_app in Hi'. lia.
    + destruct Hrow as (-> & Hout). rewrite IH. split.
      * intros (Hj & [Hv1 Hv2] & Hi). split; [lia |].
        replace (j - j0)%nat with (S (j - S j0)) by lia.
        unfold valid_place, flat_index in *. cbn [firstn concat nth length].
        rewrite length_app. split; [split; [lia | assumption] | lia].
      * intros (Hj & [Hv1 Hv2] & Hi). unfold flat_index in Hi.
        destruct (j - j0)%nat as [| d] eqn:Ed.
        -- exfalso. cbn in Hi, Hv2. lia.
        -- cbn [firstn concat nth length] in Hi, Hv1, Hv2. rewrite length_app in Hi.
           replace (j - S j0)%nat with d by lia. split; [lia |].
           unfold valid_place, flat_index. split; [split; [lia | assumption] | lia].
Qed.

Lemma ijk_row_spec (j k num : Z) (x y : nat) (a : list A) :
  match ijk_row j k num x y a with
  | inl n => Z.of_nat x = j /\ (Z.of_nat y <= k)%Z /\ (k - Z.of_nat y < Z.of_nat (length a))%Z
             /\ n = (num + 1 + (k - Z.of_nat y))%Z
  | inr num' => num' = (num + Z.of_nat (length a))%Z /\
                (Z.of_nat x <> j \/ k < Z.of_nat y \/ Z.of_nat y + Z.of_nat (length a) <= k)%Z
  end.
Proof.
  revert num y. induction a as [| b rest IH]; intros num y; cbn [ijk_row length].
  - split; lia.
  - destruct (Z.eqb_spec (Z.of_nat x) j) as [Ex | Ex]; cbn [andb].
    + destruct (Z.eqb_spec (Z.of_nat y) k) as [Ey | Ey].
      * repeat split; lia.
      * specialize (IH (num + 1)%Z (S y)).
        destruct (ijk_row j k (num + 1) x (S y) rest) as [n | num'].
        -- destruct IH as (_ & H1 & H2 & H3). repeat split; lia.
        -- destruct IH as (-> & H). split; lia.
    + specialize (IH (num + 1)%Z (S y)).
      destruct (ijk_row j k (num + 1) x (S y) rest) as [n | num'].
      * destruct IH as (H0 & _). contradiction.
      * destruct IH as (-> & H). split; lia.
Qed.

Lemma ijk_rows_spec (j k num : Z) (x0 : nat) (olist : list (list A)) (n : Z) :
  ijk_rows j k num x0 olist = Some n <->
  exists j' k', j = Z.of_nat j' /\ k = Z.of_nat k' /\
    (x0 <= j')%nat /\ valid_place olist (j' - x0) k' /\
    n = (num + 1 + Z.of_nat (flat_index olist (j' - x0) k'))%Z.
Proof.
  revert num x0. induction olist as [| a rest IH]; intros num x0; cbn [ijk_rows].
  - split; [discriminate |]. intros (j' & k' & _ & _ & _ & [H _] & _). simpl in H. lia.
  - pose proof (ijk_row_spec j k num x0 0 a) as Hrow.
    destruct (ijk_row j k num x0 0 a) as [n' | num'].
    + destruct Hrow as (Hx & Hk0 & Hk & Hn). split.
      * intros H. inversion H; subst. exists x0, (Z.to_nat k).
        split; [reflexivity |]. split; [lia |]. split; [lia |]. rewrite Nat.sub_diag.
        unfold valid_place, flat_index. cbn. split; [split; lia | lia].
      * intros (j' & k' & Hj & Hk' & Hle & [Hv1 Hv2] & Hn'). unfold flat_index in Hn'.
        destruct (j' - x0)%nat as [| d] eqn:Ed.
        -- cbn in Hn'. f_equal. lia.
        -- exfalso. lia.
    + destruct Hrow as (-> & Hout). rewrite IH. split.
      * intros (j' & k' & Hj & Hk & Hle & [Hv1 Hv2] & Hn). exists j', k'.
        split; [assumption |]. split; [assumption |]. split; [lia |].
        replace (j' - x0)%nat with (S (j' - S x0)) by lia.
        unfold valid_place, flat_index in *. cbn [firstn concat nth length].
        rewrite length_app. split; [split; [lia | assumption] | lia].
      * intros (j' & k' & Hj & Hk & Hle & [Hv1 Hv2] & Hn). unfold flat_index in Hn.
        destruct (j' - x0)%nat as [| d] eqn:Ed.
        -- exfalso. cbn in Hv2. lia.
        -- cbn [firstn concat nth length] in Hn, Hv1, Hv2. rewrite length_app in Hn.
           exists j', k'. split; [assumption |]. split; [assumption |]. split; [lia |].
           replace (j' - S x0)%nat with d by lia.
           unfold valid_place, flat_index. split; [split; [lia | assumption] | lia].
Qed.

Lemma flat_index_nth (olist : list (list A)) (j k : nat) :
  valid_place olist j k ->
  (flat_index olist j k < length (concat olist))%nat /\
  nth_error (concat olist) (flat_index olist j k) = nth_error (nth j olist []) k.
Proof.
  revert j. induction olist as [| a rest IH]; intros j [H1 H2]; [simpl in H1; lia |].
  destruct j as [| j]; unfold flat_index; cbn [firstn concat nth length] in *.
  - rewrite length_app. split; [lia |]. rewrite nth_error_app1 by assumption. reflexivity.
  - rewrite !length_app. destruct (IH j) as [H3 H4]; [split; [lia | assumption] |].
    unfold flat_index in H3, H4. split; [lia |].
    rewrite nth_error_app2 by lia.
    replace (length a + length (concat (firstn j rest)) + k - length a)%nat
      with (length (concat (firstn j rest)) + k)%nat by lia.
    assumption.
Qed.

Lemma flat_index_exists (olist : list (list A)) (n : nat) :
  (n < length (concat olist))%nat ->
  exists j k, valid_place olist j k /\ flat_index olist j k = n.
Proof.
  revert n. induction olist as [| a rest IH]; intros n H; [simpl in H; lia |].
  cbn [concat] in H. rewrite length_app in H.
  destruct (Nat.lt_ge_cases n (length a)) as [Hlt | Hge].
  - exists 0%nat, n. unfold valid_place, flat_index. cbn. split; [split; [lia | assumption] | lia].
  - destruct (IH (n - length a)%nat ltac:(lia)) as (j & k & [H1 H2] & H3).
    exists (S j), k. unfold valid_place, flat_index in *. cbn [firstn concat nth length].
    rewrite length_app. split; [split; [lia | assumption] | lia].
Qed.
End JK.

(** ** Letters of Wyckoff positions *)

Lemma str_index_sound (letter : ascii) (s : list ascii) (p : nat) :
  str_index letter s = Some p -> nth_error s p = Some letter.
Proof.
  revert p. induction s as [| c rest IH]; intros p H; [discriminate |].
  cbn [str_index] in H. destruct (Ascii.eqb_spec c letter) as [-> | Hne].
  - inversion H. reflexivity.
  - destruct (str_index letter rest) as [q |]; [| discriminate].
    inversion H. simpl. now apply IH.
Qed.

Lemma letters_distinct (p : nat) (letter : ascii) :
  nth_error letters p = Some letter -> str_index letter letters = Some p.
Proof.
  unfold letters. cbn [list_ascii_of_string].
  do 27 (destruct p as [| p]; [intros H; inversion H; reflexivity |]).
  destruct p; discriminate.
Qed.

Lemma py_index_inside {A : Type} (l : list A) (i : Z) :
  (0 <= i < Z.of_nat (length l))%Z ->
  exists x, py_index l i = Val x /\ nth_error l (Z.to_nat i) = Some x.
Proof.
  intros H. unfold py_index.
  destruct (Z.ltb_spec i 0); [lia |].
  destruct (Z.leb_spec 0 i); [| lia]. destruct (Z.ltb_spec i (Z.of_nat (length l))); [| lia].
  cbn [andb]. destruct (nth_error l (Z.to_nat i)) as [x |] eqn:E; [eauto |].
  apply nth_error_None in E. lia.
Qed.

(** ** verify_distances *)

Lemma species_at_Val (species : list string) (i : nat) (s : string) :
  species_at species i = Val s <-> nth_error species i = Some s.
Proof.
  unfold species_at. destruct (nth_error species i); split; intros H; inversion H; reflexivity.
Qed.

Lemma verify_inner_spec (c1 : vec3) (s1 : string) (species : list string) (lattice : mat3)
    (factor : R) (j : nat) (later : list vec3) :
  match verify_inner c1 s1 species lattice factor j later with
  | Val true =>
      forall t c2, nth_error later t = Some c2 ->
        exists s2, nth_error species (j + t) = Some s2 /\ ~ too_close lattice factor c1 s1 c2 s2
  | Val false =>
      exists t c2 s2, nth_error later t = Some c2 /\ nth_error species (j + t) = Some s2
                      /\ too_close lattice factor c1 s1 c2 s2
  | Exn e => e = IndexError /\ (length species < j + length later)%nat
  end.
Proof.
  revert j. induction later as [| c2 rest IH]; intros j; cbn [verify_inner].
  - intros t c2 H. destruct t; discriminate.
  - unfold species_at. destruct (nth_error species j) as [s2 |] eqn:Es; cbn [exc_bind].
    + destruct (Rltb _ _) eqn:Ed.
      * exists 0%nat, c2, s2. rewrite Nat.add_0_r. apply Rltb_iff in Ed. repeat split; assumption.
      * specialize (IH (S j)).
        destruct (verify_inner c1 s1 species lattice factor (S j) rest) as [[|] | e].
        -- intros t c H. destruct t as [| t].
           ++ inversion H; subst. exists s2. rewrite Nat.add_0_r. split; [assumption |].
              unfold too_close. intros Hc. apply Rltb_iff in Hc. congruence.
           ++ destruct (IH t c H) as (s & Hs & Hf). exists s.
              replace (j + S t)%nat with (S j + t)%nat by lia. auto.
        -- destruct IH as (t & c & s & H1 & H2 & H3). exists (S t), c, s.
           replace (j + S t)%nat with (S j + t)%nat by lia. auto.
        -- destruct IH as [-> H]. split; [reflexivity |]. simpl. lia.
    + split; [reflexivity |]. apply nth_error_None in Es. simpl. lia.
Qed.

Lemma verify_outer_spec (species : list string) (lattice : mat3) (factor : R) (i : nat)
    (coordinates : list vec3) :
  match verify_outer species lattice factor i coordinates with
  | Val true =>
      (i + length coordinates <= length species \/ coordinates = [])%nat /\
      forall t u c1 c2 s1 s2, (t < u)%nat ->
        nth_error coordinates t = Some c1 -> nth_error coordinates u = Some c2 ->
        nth_error species (i + t) = Some s1 -> nth_error species (i + u) = Some s2 ->
        ~ too_close lattice factor c1 s1 c2 s2
  | Val false =>
      exists t u c1 c2 s1 s2, (t < u)%nat /\
        nth_error coordinates t = Some c1 /\ nth_error coordinates u = Some c2 /\
        nth_error species (i + t) = Some s1 /\ nth_error species (i + u) = Some s2 /\
        too_close lattice factor c1 s1 c2 s2
  | Exn e => e = IndexError /\ (length species < i + length coordinates)%nat
  end.
Proof.
  revert i. induction coordinates as [| c1 rest IH]; intros i; cbn [verify_outer].
  - split; [now right |]. intros t u c1 c2 s1 s2 _ H. destruct t; discriminate.
  - unfold species_at. destruct (nth_error species i) as [s1 |] eqn:Es; cbn [exc_bind].
    2:{ split; [reflexivity |]. apply nth_error_None in Es. simpl. lia. }
    pose proof (verify_inner_spec c1 s1 species lattice factor (S i) rest) as Hin.
    destruct (verify_inner c1 s1 species lattice factor (S i) rest) as [[|] | e]; cbn [exc_bind].
    + specialize (IH (S i)).
      destruct (verify_outer species lattice factor (S i) rest) as [[|] | e].
      * destruct IH as [Hlen Hfar]. split.
        -- left. destruct Hlen as [Hlen | ->]; simpl; [lia |].
           assert (i < length species)%nat by (apply nth_error_Some; congruence). lia.
        -- intros t u a b sa sb Htu Ha Hb Hsa Hsb.
           destruct t as [| t], u as [| u]; try lia.
           ++ cbn in Ha, Hb. inversion Ha; subst. rewrite Nat.add_0_r in Hsa.
              destruct (Hin u b Hb) as (s2 & Hs2 & Hf).
              replace (i + S u)%nat with (S i + u)%nat in Hsb by lia. congruence.
           ++ cbn in Ha, Hb. apply (Hfar t u a b sa sb); auto; try lia.
              ** replace (S i + t)%nat with (i + S t)%nat by lia. assumption.
              ** replace (S i + u)%nat with (i + S u)%nat by lia. assumption.
      * destruct IH as (t & u & a & b & sa & sb & H1 & H2 & H3 & H4 & H5 & H6).
        exists (S t), (S u), a, b, sa, sb.
        replace (i + S t)%nat with (S i + t)%nat by lia.
        replace (i + S u)%nat with (S i + u)%nat by lia.
        repeat split; auto. lia.
      * destruct IH as [-> H]. split; [reflexivity |]. simpl. lia.
    + destruct Hin as (t & c2 & s2 & H1 & H2 & H3).
      exists 0%nat, (S t), c1, c2, s1, s2. rewrite Nat.add_0_r.
      replace (i + S t)%nat with (S i + t)%nat by lia. repeat split; auto. lia.
    + destruct Hin as [-> H]. split; [reflexivity |]. simpl. lia.
Qed.

(** ** Minimum-image distances *)

Lemma np_round_odd (x : R) : np_round (- x) = - np_round x.
Proof.
  unfold np_round.
  pose proof (Zfloor_bound x) as [Hl Hu].
  set (f := Zfloor x) in *.
  destruct (Req_dec (x - IZR f) 0) as [E | E].
  - assert (Ef : Zfloor (- x) = (- f)%Z).
    { apply Zfloor_eq. rewrite opp_IZR. lra. }
    rewrite Ef, opp_IZR.
    rewrite (Rltb_true (x - IZR f)) by lra. rewrite (Rltb_true (- x - - IZR f)) by lra.
    reflexivity.
  - assert (Ef : Zfloor (- x) = (- f - 1)%Z).
    { apply Zfloor_eq. rewrite minus_IZR, opp_IZR. lra. }
    rewrite Ef. rewrite minus_IZR, opp_IZR.
    replace (- f - 1 + 1)%Z with (- f)%Z by lia. rewrite !plus_IZR, opp_IZR.
    destruct (Rlt_dec (x - IZR f) (1 / 2)) as [H1 | H1].
    + rewrite (Rltb_true _ _ H1). rewrite (Rltb_false (- x - (- IZR f - 1))) by lra.
      rewrite (Rltb_true (1 / 2)) by lra. reflexivity.
    + rewrite (Rltb_false _ _ H1).
      destruct (Rlt_dec (1 / 2) (x - IZR f)) as [H2 | H2].
      * rewrite (Rltb_true _ _ H2). rewrite (Rltb_true (- x - (- IZR f - 1))) by lra. lra.
      * rewrite (Rltb_false _ _ H2).
        rewrite (Rltb_false (- x - (- IZR f - 1))) by lra.
        rewrite (Rltb_false (1 / 2)) by lra.
        replace (- f - 1)%Z with (- (f + 1))%Z by lia. rewrite Z.even_opp.
        rewrite Z.even_add. change (Z.even 1) with false.
        destruct (Z.even f); cbn [Bool.eqb]; lra.
Qed.

Lemma norm_opp (u : vec3) : norm (vmap Ropp u) = norm u.
Proof.
  destruct u as [[x y] z]. unfold norm. f_equal. simpl. ring.
Qed.

Lemma vecmat_opp (u : vec3) (lattice : mat3) :
  vecmat (vmap Ropp u) lattice = vmap Ropp (vecmat u lattice).
Proof.
  destruct u as [[x y] z], lattice as [[[[a0 a1] a2] [[b0 b1] b2]] [[c0 c1] c2]].
  simpl. repeat (apply pair_equal_spec; split); ring.
Qed.

Lemma create_matrix_In (PBC : option nat) (m : vec3) :
  In m (create_matrix PBC) <->
  let '(i, j, k) := m in
  In i (match PBC with Some 1%nat => [0] | _ => [-1; 0; 1] end) /\
  In j (match PBC with Some 2%nat => [0] | _ => [-1; 0; 1] end) /\
  In k (match PBC with Some 3%nat => [0] | _ => [-1; 0; 1] end).
Proof.
  unfold create_matrix. destruct m as [[i j] k]. rewrite in_flat_map. split.
  - intros (i' & Hi & H). apply in_flat_map in H. destruct H as (j' & Hj & H).
    apply in_map_iff in H. destruct H as (k' & E & Hk). inversion E; subst. auto.
  - intros (Hi & Hj & Hk). exists i. split; [exact Hi |]. apply in_flat_map.
    exists j. split; [exact Hj |]. apply in_map_iff. exists k. auto.
Qed.

Lemma offsets_opp (l : list R) (x : R) :
  l = [0] \/ l = [-1; 0; 1] -> In x l -> In (- x) l.
Proof.
  intros [-> | ->]; simpl; intros H.
  - destruct H as [<- | []]. left. lra.
  - destruct H as [<- | [<- | [<- | []]]]; [right; right; left | right; left | left]; lra.
Qed.

Lemma create_matrix_opp (PBC : option nat) (m : vec3) :
  In m (create_matrix PBC) -> In (vmap Ropp m) (create_matrix PBC).
Proof.
  rewrite !create_matrix_In. destruct m as [[i j] k]. cbn [vmap].
  intros (Hi & Hj & Hk). repeat split; (apply offsets_opp; [| assumption]).
  - destruct PBC as [[| [| n]] |]; auto.
  - destruct PBC as [[| [| [| n]]] |]; auto.
  - destruct PBC as [[| [| [| [| n]]]] |]; auto.
Qed.

(** [distance] is the least of the lengths of the images. *)
Lemma distance_least (xyz : vec3) (lattice : mat3) (PBC : option nat) :
  let reduced := vsub xyz (vmap np_round xyz) in
  (exists m, In m (create_matrix PBC) /\
     distance xyz lattice PBC = norm (vecmat (vadd m reduced) lattice)) /\
  (forall m, In m (create_matrix PBC) ->
     distance xyz lattice PBC <= norm (vecmat (vadd m reduced) lattice)).
Proof.
  intros reduced. unfold distance. fold reduced.
  pose proof (create_matrix_nonempty PBC) as Hne.
  destruct (create_matrix PBC) as [| m0 ms]; [congruence |]. cbn [map hd tl]. split.
  - pose proof (list_min_In (norm (vecmat (vadd m0 reduced) lattice))
                  (map norm (map (fun m => vecmat (vadd m reduced) lattice) ms))) as H.
    destruct H as [E | H].
    + exists m0. split; [now left | now rewrite <- E].
    + apply in_map_iff in H. destruct H as (v & E & H).
      apply in_map_iff in H. destruct H as (m & <- & H).
      exists m. split; [now right | now rewrite <- E].
  - intros m Hm. apply list_min_le_In. destruct Hm as [<- | Hm]; [now left | right].
    apply in_map_iff. eexists. split; [reflexivity |]. apply in_map_iff. eauto.
Qed.

Lemma min_cdist_spec (xs ys : list vec3) :
  xs <> [] -> ys <> [] ->
  exists d, min_cdist xs ys = Val d /\
    forall t, t <= d <-> forall x y, In x xs -> In y ys -> t <= norm (vsub x y).
Proof.
  intros Hx Hy. unfold min_cdist.
  set (ds := flat_map (fun x => map (fun y => norm (vsub x y)) ys) xs).
  assert (Hin : forall v, In v ds <-> exists x y, In x xs /\ In y ys /\ v = norm (vsub x y)).
  { intros v. unfold ds. rewrite in_flat_map. split.
    - intros (x & Hx' & H). apply in_map_iff in H. destruct H as (y & <- & Hy'). eauto.
    - intros (x & y & Hx' & Hy' & ->). exists x. split; [assumption |].
      apply in_map_iff. eauto. }
  destruct ds as [| d ds'] eqn:E.
  - exfalso. destruct xs as [| x xs]; [congruence |]. destruct ys as [| y ys]; [congruence |].
    apply (proj2 (Hin (norm (vsub x y)))). exists x, y. simpl. auto.
  - eexists. split; [reflexivity |]. intros t. split.
    + intros Ht x y Hx' Hy'. apply Rle_trans with (list_min d ds'); [exact Ht |].
      apply list_min_le_In. apply Hin. eauto.
    + intros H. pose proof (list_min_In d ds') as Hm. apply Hin in Hm.
      destruct Hm as (x & y & Hx' & Hy' & ->). now apply H.
Qed.
Lemma check_distance_loop_spec (coord2 : list vec3) (specie2 : string) (lattice : mat3)
    (d_factor : R) (placed : list (list vec3 * string)) :
  coord2 <> [] -> Forall (fun c => fst c <> []) placed ->
  exists b, check_distance_loop placed coord2 specie2 lattice d_factor = Val b /\
    (b = true <->
     forall coord element p y, In (coord, element) placed -> In p coord -> In y coord2 ->
       d_factor * (1 / 2) * (covalent_radius element + covalent_radius specie2)
       <= norm (vsub (vecmat p lattice) y)).
Proof.
  intros H2. induction placed as [| [coord element] rest IH]; intros Hall.
  - exists true. split; [reflexivity |]. split; [intros _ ? ? ? ? [] | reflexivity].
  - inversion Hall as [| ? ? Hc Hrest]; subst. cbn [fst] in Hc.
    cbn [check_distance_loop]. unfold np_dot_rows.
    destruct coord as [| p0 ps] eqn:Ec; [congruence |]. rewrite <- Ec in *. cbn [exc_bind].
    destruct (min_cdist_spec (map (fun r => vecmat r lattice) coord) coord2) as (d & -> & Hd);
      [rewrite Ec; discriminate | exact H2 |].
    cbn [exc_bind].
    set (tol := d_factor * (1 / 2) * (covalent_radius element + covalent_radius specie2)).
    destruct (Rltb d tol) eqn:E.
    + exists false. split; [reflexivity |]. split; [discriminate |]. intros H. exfalso.
      apply Rltb_iff in E. apply (Rlt_not_le _ _ E). apply Hd. intros x y Hx Hy.
      apply in_map_iff in Hx. destruct Hx as (p & <- & Hp).
      apply (H coord element p y); [now left | assumption | assumption].
    + destruct (IH Hrest) as (b & -> & Hb). exists b. split; [reflexivity |].
      rewrite Hb. split.
      * intros H c e p y [Hin | Hin] Hp Hy; [| now apply (H c e)].
        inversion Hin; subst c e. fold tol.
        assert (Hle : tol <= d).
        { destruct (Rle_dec tol d); [assumption |]. rewrite Rltb_true in E by lra.
          discriminate. }
        apply (proj1 (Hd tol) Hle); [| assumption]. apply in_map_iff. eauto.
      * intros H c e p y Hin. apply (H c e p y). now right.
Qed.

Lemma check_distance_far (coord1 : list (list vec3)) (coord2 : list vec3)
    (specie1 : list string) (specie2 : string) (lattice : mat3) (PBC : option nat)
    (d_factor : R) :
  coord2 <> [] -> Forall (fun coord => coord <> []) coord1 ->
  exists b, check_distance coord1 coord2 specie1 specie2 lattice PBC d_factor = Val b /\
    (b = true <->
     forall coord element p q m,
       In (coord, element) (combine coord1 specie1) -> In p coord ->
       In q coord2 -> In m (create_matrix PBC) ->
       d_factor * (1 / 2) * (covalent_radius element + covalent_radius specie2)
       <= norm (vsub (vecmat p lattice) (vecmat (vadd q m) lattice))).
Proof.
  intros H2 H1. unfold check_distance.
  set (coord2s := flat_map (fun coord => map (fun m => vadd coord m) (create_matrix PBC)) coord2).
  assert (Hin : forall v, In v coord2s <->
                  exists q m, In q coord2 /\ In m (create_matrix PBC) /\ v = vadd q m).
  { intros v. unfold coord2s. rewrite in_flat_map. split.
    - intros (q & Hq & H). apply in_map_iff in H. destruct H as (m & <- & Hm). eauto.
    - intros (q & m & Hq & Hm & ->). exists q. split; [assumption |].
      apply in_map_iff. eauto. }
  assert (Hne : coord2s <> []).
  { destruct coord2 as [| q qs]; [congruence |].
    pose proof (create_matrix_origin PBC) as Ho. intros E.
    assert (Hv : In (vadd q (0, 0, 0)) coord2s) by (apply Hin; exists q, (0, 0, 0); simpl; auto).
    rewrite E in Hv. destruct Hv. }
  unfold np_dot_rows. destruct coord2s as [| c0 cs] eqn:Ec; [congruence |]. rewrite <- Ec in *.
  cbn [exc_bind].
  destruct coord1 as [| o os] eqn:E1.
  - exists true. split; [reflexivity |]. split; [| reflexivity].
    intros _ coord element p q m [].
  - rewrite <- E1 in *. replace (0 <? length coord1)%nat with true by (rewrite E1; reflexivity).
    destruct (check_distance_loop_spec (map (fun r => vecmat r lattice) coord2s) specie2 lattice
                d_factor (combine coord1 specie1)) as (b & Hb & Hiff).
    + rewrite Ec. discriminate.
    + apply Forall_forall. intros [c e] Hc. apply in_combine_l in Hc. cbn [fst].
      rewrite Forall_forall in H1. now apply H1.
    + exists b. split; [exact Hb |]. rewrite Hiff. split.
      * intros H coord element p q m Hc Hp Hq Hm. apply (H coord element p); try assumption.
        apply in_map_iff. exists (vadd q m). split; [reflexivity |]. apply Hin. eauto.
      * intros H coord element p y Hc Hp Hy. apply in_map_iff in Hy.
        destruct Hy as (v & <- & Hv). apply Hin in Hv. destruct Hv as (q & m & Hq & Hm & ->).
        now apply (H coord element p q m).
Qed.
(** ** Connected components: what the traversal finds *)

Lemma reach_trans (graph : list (list nat)) (x y z : nat) :
  reach graph x y -> reach graph y z -> reach graph x z.
Proof.
  intros Hxy Hyz. induction Hyz as [| u v _ IH Hv]; [assumption |].
  eapply reach_step; [now apply IH | assumption].
Qed.

Lemma reach_sym (graph : list (list nat)) (x y : nat) :
  undirected graph -> reach graph x y -> reach graph y x.
Proof.
  intros Hu H. induction H as [| y z _ IH Hz]; [constructor |].
  apply reach_trans with y; [| assumption].
  eapply reach_step; [constructor | now apply Hu].
Qed.

(** The vertices added to [seen] have all their neighbours in [seen']. *)
Definition closed_new (graph : list (list nat)) (seen seen' : list nat) : Prop :=
  forall v, In v seen' -> ~ In v seen -> incl (nth v graph []) seen'.

Lemma visit_sound (graph : list (list nat)) (recurse : nat -> list nat -> exc (list nat)) :
  (forall x s s', recurse x s = Val s' -> s <> [] ->
     incl s s' /\ (forall y, In y s' -> In y s \/ reach graph x y) /\
     closed_new graph s s' /\ incl (nth x graph []) s') ->
  forall xs seen seen', visit recurse xs seen = Val seen' -> seen <> [] ->
    incl seen seen' /\
    (forall y, In y seen' -> In y seen \/ exists x, In x xs /\ reach graph x y) /\
    closed_new graph seen seen' /\ incl xs seen'.
Proof.
  intros Hrec xs. induction xs as [| x xs IH]; intros seen seen' H Hne; cbn [visit] in H.
  - inversion H; subst. split; [apply incl_refl |]. split; [auto |].
    split; [intros v Hv Hnv; contradiction | intros y []].
  - destruct (mem x seen) eqn:E.
    + apply mem_In in E. destruct (IH seen seen' H Hne) as (H1 & H2 & H3 & H4).
      split; [exact H1 |]. split.
      * intros y Hy. destruct (H2 y Hy) as [Hs | (x' & Hx' & Hr)]; [now left |].
        right. exists x'. split; [now right | exact Hr].
      * split; [exact H3 |]. intros y [<- | Hy]; auto.
    + apply mem_not_In in E. apply exc_bind_Val in H. destruct H as (s1 & Hs1 & H).
      destruct (Hrec x (seen ++ [x]) s1 Hs1) as (R1 & R2 & R3 & R4);
        [destruct seen; discriminate |].
      assert (Hne1 : s1 <> []).
      { intros ->. apply (R1 x). apply in_or_app. right. now left. }
      destruct (IH s1 seen' H Hne1) as (H1 & H2 & H3 & H4).
      assert (Hx1 : In x s1) by (apply R1, in_or_app; right; now left).
      split; [intros y Hy; apply H1, R1, in_or_app; now left |]. split; [| split].
      * intros y Hy. destruct (H2 y Hy) as [Hs | (x' & Hx' & Hr)].
        -- destruct (R2 y Hs) as [Hs' | Hr].
           ++ apply in_app_or in Hs'. destruct Hs' as [Hs' | [<- | []]]; [now left |].
              right. exists x. split; [now left | constructor].
           ++ right. exists x. split; [now left | exact Hr].
        -- right. exists x'. split; [now right | exact Hr].
      * intros v Hv Hnv. destruct (in_dec Nat.eq_dec v s1) as [Hv1 | Hv1].
        -- destruct (Nat.eq_dec v x) as [-> | Hvx].
           ++ eapply incl_tran; [exact R4 | exact H1].
           ++ eapply incl_tran; [| exact H1]. apply R3; [exact Hv1 |].
              intros Hin. apply in_app_or in Hin. destruct Hin as [Hin | [-> | []]]; auto.
        -- now apply H3.
      * intros y [<- | Hy]; [now apply H1 | now apply H4].
Qed.

Lemma add_neighbors_sound (graph : list (list nat)) (depth : nat) :
  forall el seen seen', add_neighbors depth graph el seen = Val seen' ->
    incl (started el seen) seen' /\
    (forall y, In y seen' -> In y (started el seen) \/ reach graph el y) /\
    closed_new graph (started el seen) seen' /\ incl (nth el graph []) seen'.
Proof.
  induction depth as [| d IH]; intros el seen seen' H; [discriminate |].
  cbn [add_neighbors] in H. fold (started el seen) in H.
  destruct (nth_error graph el) as [nb |] eqn:E; [| discriminate].
  assert (Hnb : nth el graph [] = nb) by now apply nth_error_nth.
  assert (Hne : started el seen <> []) by (destruct seen; discriminate).
  destruct (visit_sound graph (add_neighbors d graph)) with (xs := nb)
    (seen := started el seen) (seen' := seen') as (H1 & H2 & H3 & H4); try assumption.
  - intros x s s' Hs Hsne. specialize (IH x s s' Hs).
    replace (started x s) with s in IH by (destruct s; [contradiction | reflexivity]).
    exact IH.
  - split; [exact H1 |]. split; [| split; [exact H3 | now rewrite Hnb]].
    intros y Hy. destruct (H2 y Hy) as [Hs | (x & Hx & Hr)]; [now left |]. right.
    apply reach_trans with x; [| exact Hr].
    eapply reach_step; [constructor | now rewrite Hnb].
Qed.

(** The component of [x]: exactly what is reached from [x]. *)
Lemma add_neighbors_component (graph : list (list nat)) (depth x : nat) (comp : list nat) :
  add_neighbors depth graph x [] = Val comp ->
  forall y, In y comp <-> reach graph x y.
Proof.
  intros H. apply add_neighbors_sound in H. cbn [started] in H.
  destruct H as (H1 & H2 & H3 & H4). intros y. split.
  - intros Hy. destruct (H2 y Hy) as [[<- | []] | Hr]; [constructor | exact Hr].
  - intros Hr. induction Hr as [| y z _ IH Hz]; [apply H1; now left |].
    destruct (Nat.eq_dec y x) as [-> | Hne]; [now apply H4 |].
    apply (H3 y IH); [| exact Hz]. intros [<- | []]. congruence.
Qed.

Lemma remove_first_NoDup (y : nat) (l : list nat) : NoDup l -> NoDup (remove_first y l).
Proof.
  induction 1 as [| x l Hx Hl IH]; simpl; [constructor |].
  destruct (x =? y)%nat; [assumption |]. constructor; [| assumption].
  intros Hin. apply Hx. now apply (remove_first_incl y l).
Qed.

Lemma remove_first_gone (y : nat) (l : list nat) : NoDup l -> ~ In y (remove_first y l).
Proof.
  induction 1 as [| x l Hx Hl IH]; simpl; [auto |].
  destruct (x =? y)%nat eqn:E.
  - apply Nat.eqb_eq in E. now subst.
  - apply Nat.eqb_neq in E. intros [-> | Hin]; [congruence | contradiction].
Qed.

Lemma remove_seen_NoDup (component unseen : list nat) :
  NoDup unseen -> NoDup (remove_seen component unseen).
Proof.
  unfold remove_seen. revert unseen.
  induction component as [| c cs IH]; intros u Hu; simpl; [assumption |].
  destruct (mem c u); [| now apply IH]. apply IH. now apply remove_first_NoDup.
Qed.

Lemma remove_seen_gone (component unseen : list nat) (y : nat) :
  NoDup unseen -> In y component -> ~ In y (remove_seen component unseen).
Proof.
  unfold remove_seen. revert unseen.
  induction component as [| c cs IH]; intros u Hu Hy; [destruct Hy |]. simpl.
  destruct (mem c u) eqn:E.
  - destruct Hy as [-> | Hy].
    + intros Hin. apply (remove_first_gone y u Hu).
      pose proof (remove_seen_incl cs (remove_first y u)) as Hi. now apply Hi.
    + apply IH; [now apply remove_first_NoDup | assumption].
  - destruct Hy as [-> | Hy]; [| now apply IH].
    apply mem_not_In in E. intros Hin. apply E.
    pose proof (remove_seen_incl cs u) as Hi. now apply Hi.
Qed.

Lemma components_loop_classes (n : nat) (graph : list (list nat)) :
  graph_on n graph -> undirected graph ->
  forall rounds unseen sets sets',
    components_loop rounds graph unseen sets = Val sets' ->
    NoDup unseen -> below n unseen ->
    (forall comp, In comp sets ->
       exists x, (x < n)%nat /\ NoDup comp /\ forall y, In y comp <-> reach graph x y) ->
    NoDup (concat sets) ->
    (forall y, In y (concat sets) -> ~ In y unseen) ->
    (forall comp, In comp sets' ->
       exists x, (x < n)%nat /\ NoDup comp /\ forall y, In y comp <-> reach graph x y) /\
    NoDup (concat sets') /\
    (forall y, In y unseen \/ In y (concat sets) -> In y (concat sets')).
Proof.
  intros Hg Hu rounds. induction rounds as [| r IH];
    intros unseen sets sets' E Hnd Hb Hsets Hdis Hsep.
  - destruct unseen; [| discriminate]. simpl in E. inversion E; subst.
    split; [exact Hsets |]. split; [exact Hdis |]. intros y [[] | Hy]. exact Hy.
  - destruct unseen as [| u0 us] eqn:Eu.
    { simpl in E. inversion E; subst.
      split; [exact Hsets |]. split; [exact Hdis |]. intros y [[] | Hy]. exact Hy. }
    rewrite <- Eu in *. assert (Hne : unseen <> []) by (rewrite Eu; discriminate).
    rewrite (components_loop_step r graph unseen sets Hne) in E.
    set (x := last unseen 0%nat) in *. set (rest := removelast unseen) in *.
    assert (Hsplit : unseen = rest ++ [x]) by now apply app_removelast_last.
    assert (Hx : (x < n)%nat).
    { unfold below in Hb. rewrite Forall_forall in Hb. apply Hb. rewrite Hsplit.
      apply in_or_app. right. now left. }
    assert (Hrest : below n rest).
    { unfold below in *. rewrite Hsplit in Hb. apply Forall_app in Hb. tauto. }
    assert (Hndr : NoDup rest /\ ~ In x rest).
    { rewrite Hsplit in Hnd. pose proof (NoDup_remove _ _ _ Hnd) as [Hr1 Hr2].
      rewrite app_nil_r in Hr1, Hr2. split; assumption. }
    destruct Hndr as [Hndr Hxr].
    destruct (add_neighbors_ok n graph Hg (S (length graph)) x [] Hx (NoDup_nil _) (Forall_nil _))
      as (comp & Ecomp & _ & Hcnd & _ & _).
    { destruct Hg as [-> _]. simpl. lia. }
    rewrite Ecomp in E. cbn [exc_bind] in E.
    pose proof (add_neighbors_component graph _ x comp Ecomp) as Hclass.
    set (unseen1 := remove_seen comp rest) in *.
    assert (Hxc : In x comp) by (apply Hclass; constructor).
    assert (Hfresh : forall y, In y comp -> ~ In y (concat sets)).
    { intros y Hy Hin. apply in_concat in Hin. destruct Hin as (c0 & Hc0 & Hy0).
      destruct (Hsets c0 Hc0) as (x0 & _ & _ & Hclass0).
      apply (Hsep x).
      - apply in_concat. exists c0. split; [exact Hc0 |]. apply Hclass0.
        apply reach_trans with y; [now apply Hclass0 |].
        apply reach_sym; [exact Hu | now apply Hclass].
      - rewrite Hsplit. apply in_or_app. right. now left. }
    destruct (IH unseen1 (sets ++ [comp]) sets' E) as (H1 & H2 & H3).
    + now apply remove_seen_NoDup.
    + unfold below in *. rewrite Forall_forall in *. intros y Hy.
      apply Hrest. now apply (remove_seen_incl comp rest).
    + intros c Hc. apply in_app_or in Hc. destruct Hc as [Hc | [<- | []]]; [now apply Hsets |].
      exists x. auto.
    + rewrite concat_app. cbn [concat]. rewrite app_nil_r.
      apply NoDup_app; [exact Hdis | exact Hcnd |]. intros y Hy Hyc. now apply (Hfresh y).
    + intros y Hy. rewrite concat_app in Hy. cbn [concat] in Hy. rewrite app_nil_r in Hy.
      apply in_app_or in Hy. destruct Hy as [Hy | Hy].
      * intros Hin. apply (Hsep y Hy). rewrite Hsplit. apply in_or_app. left.
        now apply (remove_seen_incl comp rest).
      * now apply remove_seen_gone.
    + split; [exact H1 |]. split; [exact H2 |]. intros y Hy. apply H3.
      rewrite concat_app. cbn [concat]. rewrite app_nil_r.
      destruct (in_dec Nat.eq_dec y comp) as [Hyc | Hyc]; [right; apply in_or_app; now right |].
      destruct Hy as [Hy | Hy]; [| right; apply in_or_app; now left].
      left. rewrite Hsplit in Hy. apply in_app_or in Hy.
      destruct Hy as [Hy | [<- | []]]; [| contradiction].
      now apply remove_seen_keeps.
Qed.

Lemma connected_components_classes (n : nat) (graph : list (list nat)) :
  graph_on n graph -> undirected graph ->
  exists sets, connected_components graph = Val sets /\
    NoDup (concat sets) /\
    (forall i, In i (concat sets) <-> (i < n)%nat) /\
    Forall (fun comp => comp <> []) sets /\
    (forall comp i j, In comp sets -> In i comp -> (In j comp <-> reach graph i j)).
Proof.
  intros Hg Hu. destruct (connected_components_ok n graph Hg) as (sets & E & _).
  exists sets. split; [exact E |]. unfold connected_components in E.
  assert (Hn : length graph = n) by apply Hg. rewrite Hn in E.
  assert (Hb : below n (seq 0 n)).
  { unfold below. rewrite Forall_forall. intros x Hx. apply in_seq in Hx. lia. }
  destruct (components_loop_classes n graph Hg Hu _ _ _ _ E (seq_NoDup n 0) Hb)
    as (H1 & H2 & H3).
  - intros comp [].
  - constructor.
  - intros y [].
  - split; [exact H2 |]. split; [| split].
    + intros i. split.
      * intros Hi. apply in_concat in Hi. destruct Hi as (comp & Hc & Hi).
        destruct (H1 comp Hc) as (x & Hx & _ & Hclass). apply Hclass in Hi.
        clear - Hg Hx Hi. induction Hi as [| y z _ IH Hz]; [assumption |].
        destruct Hg as [Hlen Hall]. rewrite Forall_forall in Hall.
        assert (Hy : In (nth y graph []) graph) by (apply nth_In; lia).
        specialize (Hall _ Hy). unfold below in Hall. rewrite Forall_forall in Hall.
        now apply Hall.
      * intros Hi. apply H3. left. apply in_seq. lia.
    + apply Forall_forall. intros comp Hc ->.
      destruct (H1 [] Hc) as (x & _ & _ & Hclass).
      apply (proj2 (Hclass x)). constructor.
    + intros comp i j Hc Hi. destruct (H1 comp Hc) as (x & _ & _ & Hclass).
      rewrite Hclass. apply Hclass in Hi. split.
      * intros Hj. apply reach_trans with x; [now apply reach_sym | exact Hj].
      * intros Hj. now apply reach_trans with i.
Qed.
(** ** The graph of short distances: only the kept pairs are edges *)

Lemma graph_append_only (graph : list (list nat)) (i x k y : nat) :
  In y (nth k (graph_append graph i x) []) ->
  In y (nth k graph []) \/ (k = i /\ y = x).
Proof.
  revert i k. induction graph as [| g rest IH]; intros i k H; [now left |].
  destruct i, k; simpl in *; auto.
  - apply in_app_or in H. destruct H as [H | [<- | []]]; auto.
  - destruct (IH i k H) as [H' | [-> ->]]; auto.
Qed.

Lemma add_edges_only (pairs : list (nat * nat * R)) (graph : list (list nat)) (x y : nat) :
  In y (nth x (add_edges pairs graph) []) ->
  In y (nth x graph []) \/ exists d, In (x, y, d) pairs \/ In (y, x, d) pairs.
Proof.
  revert graph. induction pairs as [| [[i j] d] rest IH]; intros graph H; [now left |].
  simpl in H. destruct (IH _ H) as [H' | (d' & [H' | H'])].
  - apply graph_append_only in H'. destruct H' as [H' | [-> ->]].
    + apply graph_append_only in H'. destruct H' as [H' | [-> ->]]; [now left |].
      right. exists d. left. now left.
    + right. exists d. right. now left.
  - right. exists d'. left. now right.
  - right. exists d'. right. now right.
Qed.

Lemma repeat_nil_nth (n x : nat) : nth x (repeat (@nil nat) n) [] = [].
Proof.
  revert x. induction n as [| n IH]; intros [| x]; simpl; auto.
Qed.

Lemma find_short_dist_kept (coor : list vec3) (lattice : mat3) (tol : R) :
  let dist i1 i2 :=
    distance (vsub (nth i1 coor (0, 0, 0)) (nth i2 coor (0, 0, 0))) lattice None in
  let '(pairs, graph) := find_short_dist coor lattice tol in
  (forall i1 i2 d, In (i1, i2, d) pairs <->
     (i1 < i2 < length coor)%nat /\ d = dist i1 i2 /\ d <= tol /\
     forall j1 j2, (j1 < j2 < length coor)%nat -> dist j1 j2 <= tol ->
       d <= dist j1 j2 + 1 / 1000) /\
  (pairs = [] <-> ~ short_pair coor lattice tol) /\
  graph_on (length coor) graph /\ undirected graph /\
  (forall x y, In y (nth x graph []) <-> exists d, In (x, y, d) pairs \/ In (y, x, d) pairs).
Proof.
  clear check_wyckoff_position.
  intros dist.
  pose proof (find_short_dist_spec coor lattice tol) as Hspec.
  pose proof (find_short_dist_pairs coor lattice tol) as Hshort.
  unfold find_short_dist in *.
  set (raw := flat_map _ (index_pairs (length coor))) in *.
  assert (Hraw : forall i1 i2 d, In (i1, i2, d) raw <->
            (i1 < i2 < length coor)%nat /\ d = dist i1 i2 /\ d <= tol).
  { intros i1 i2 d. unfold raw. rewrite in_flat_map. split.
    - intros ([a b] & Hab & H). apply index_pairs_spec in Hab. fold (dist a b) in H.
      destruct (Rleb (dist a b) tol) eqn:E; [| destruct H]. destruct H as [H | []].
      inversion H; subst. apply Rleb_iff in E. repeat split; try lia. exact E.
    - intros (H1 & -> & H3). exists (i1, i2). split; [apply index_pairs_complete; lia |].
      fold (dist i1 i2). rewrite (Rleb_true _ _ H3). now left. }
  destruct raw as [| [[i0 j0] d0] rest] eqn:Eraw.
  - cbn [fst] in Hshort. split; [| split; [| split; [| split]]].
    + intros i1 i2 d. split; [intros [] |]. intros (H1 & H2 & H3 & _).
      apply (proj2 (Hraw i1 i2 d)). auto.
    + split; [| reflexivity]. intros _ Hs. apply Hshort in Hs. simpl in Hs. lia.
    + apply Hspec.
    + intros x y. rewrite repeat_nil_nth. intros [].
    + intros x y. rewrite repeat_nil_nth. split; [intros [] | intros (d & [[] | []])].
  - set (m := list_min d0 (map snd rest)) in *.
    set (kept := filter (fun p => Rleb (snd p) (m + 1 / 1000)) ((i0, j0, d0) :: rest)) in *.
    cbn [fst] in Hshort.
    assert (Hm1 : forall i1 i2 d, In (i1, i2, d) ((i0, j0, d0) :: rest) -> m <= d).
    { intros i1 i2 d H. unfold m. apply list_min_le_In. destruct H as [H | H].
      - inversion H. now left.
      - right. apply in_map_iff. exists (i1, i2, d). auto. }
    assert (Hm2 : exists i1 i2, In (i1, i2, m) ((i0, j0, d0) :: rest)).
    { destruct (list_min_In d0 (map snd rest)) as [E | H].
      - exists i0, j0. left. unfold m. now rewrite <- E.
      - apply in_map_iff in H. destruct H as ([[a b] c] & E & Hp). exists a, b. right.
        unfold m. rewrite <- E. exact Hp. }
    assert (Hkept : forall i1 i2 d, In (i1, i2, d) kept <->
              (i1 < i2 < length coor)%nat /\ d = dist i1 i2 /\ d <= tol /\
              forall j1 j2, (j1 < j2 < length coor)%nat -> dist j1 j2 <= tol ->
                d <= dist j1 j2 + 1 / 1000).
    { intros i1 i2 d. unfold kept. rewrite filter_In. cbn [snd]. rewrite Rleb_iff, Hraw. split.
      - intros ((H1 & H2 & H3) & H4). repeat split; try lia; try assumption.
        intros j1 j2 Hj Hd.
        assert (m <= dist j1 j2) by (apply (Hm1 j1 j2), Hraw; auto). lra.
      - intros (H1 & H2 & H3 & H4). split; [auto |].
        destruct Hm2 as (a & b & Hab). apply Hraw in Hab. destruct Hab as (Ha & Hb & Hc).
        specialize (H4 a b Ha). rewrite <- Hb in H4. now apply H4. }
    destruct Hspec as [Hgraph _].
    assert (Hedges : forall x y, In y (nth x (add_edges kept (repeat [] (length coor))) []) <->
                       exists d, In (x, y, d) kept \/ In (y, x, d) kept).
    { intros x y. split.
      - intros H. apply add_edges_only in H. rewrite repeat_nil_nth in H.
        destruct H as [[] | H]. exact H.
      - assert (Hb : forall i j d, In (i, j, d) kept ->
                       (i < length coor)%nat /\ (j < length coor)%nat).
        { intros i j d H. apply Hkept in H. lia. }
        intros (d & [H | H]);
          apply (add_edges_adds (length coor) kept (repeat [] (length coor)) _ _ d Hb
                   (repeat_length _ _)) in H;
          apply H. }
    split; [exact Hkept |]. split; [| split; [exact Hgraph | split; [| exact Hedges]]].
    + split.
      * intros E. exfalso. destruct Hm2 as (a & b & Hab).
        assert (Hin : In (a, b, m) kept).
        { unfold kept. apply filter_In. split; [exact Hab |]. apply Rleb_true. cbn [snd]. lra. }
        rewrite E in Hin. destruct Hin.
      * intros Hno. exfalso. apply Hno, Hshort.
        destruct Hm2 as (a & b & Hab).
        assert (Hin : In (a, b, m) kept).
        { unfold kept. apply filter_In. split; [exact Hab |]. apply Rleb_true. cbn [snd]. lra. }
        fold kept. destruct kept; [destruct Hin | simpl; lia].
    + intros x y Hxy. apply Hedges. apply Hedges in Hxy. destruct Hxy as (d & H).
      exists d. tauto.
Qed.
(** ** Merging with the default PBC *)

Lemma shift_atoms_length (matrix0 : list vec3) (lattice : mat3) (todo : list vec3) :
  forall done matrix_min shifted,
    shift_atoms matrix0 lattice done todo matrix_min = Val shifted ->
    length shifted = (length done + length todo)%nat.
Proof.
  induction todo as [| atom1 rest IH]; intros done mm shifted H; simpl in H.
  - inversion H; subst. simpl. lia.
  - destruct (closest_image matrix0 lattice atom1 done 10 mm) as [d [m |]]; [| discriminate].
    rewrite (IH _ _ _ H), length_app. simpl. lia.
Qed.

Lemma get_center_None_raises (xyzs : list vec3) (lattice : mat3) :
  xyzs <> [] ->
  exists e, get_center xyzs lattice None = Exn e /\ (e = TypeError \/ e = NameError).
Proof.
  intros Hne. unfold get_center.
  destruct xyzs as [| p ps]; [congruence |]. cbn [map].
  destruct (shift_atoms _ lattice [_] _ None) as [shifted | e] eqn:E.
  - apply shift_atoms_length in E. cbn [exc_bind].
    rewrite fdiv_ok.
    + cbn [exc_bind pbc_index]. eauto.
    + apply not_0_INR. simpl in E. lia.
  - apply shift_atoms_Exn in E. subst. cbn [exc_bind]. eauto.
Qed.

Lemma merge_candidate_None_raises (coor : list vec3) (lattice : mat3) (tol : R) :
  (0 < length coor)%nat ->
  exists e, merge_candidate coor (snd (find_short_dist coor lattice tol)) lattice None = Exn e /\
            (e = TypeError \/ e = NameError).
Proof.
  intros Hlen. pose proof (find_short_dist_kept coor lattice tol) as H. cbv zeta in H.
  destruct (find_short_dist coor lattice tol) as [pairs graph]. cbn [snd].
  destruct H as (_ & _ & Hg & Hu & _).
  destruct (connected_components_classes (length coor) graph Hg Hu)
    as (sets & E & _ & Hcover & Hne & _).
  unfold merge_candidate. rewrite E. cbn [exc_bind].
  destruct sets as [| g gs].
  { exfalso. apply (proj2 (Hcover 0%nat)) in Hlen. destruct Hlen. }
  set (f := fun group => get_center (take_rows coor group) lattice None).
  destruct (exc_map f (g :: gs)) as [merged | e] eqn:Em.
  - exfalso. cbn [exc_map] in Em. apply exc_bind_Val in Em. destruct Em as (c & Hc & _).
    unfold f in Hc. now apply get_center_without_PBC in Hc.
  - exists e. split; [reflexivity |]. apply exc_map_Exn in Em. destruct Em as (g' & Hg' & Ee).
    rewrite Forall_forall in Hne. specialize (Hne g' Hg').
    destruct (get_center_None_raises (take_rows coor g') lattice) as (e' & Ee' & He').
    + unfold take_rows. destruct g'; [congruence | discriminate].
    + unfold f in Ee. rewrite Ee in Ee'. inversion Ee'; subst. exact He'.
Qed.

Lemma merge_coordinate_None (coor : list vec3) (lattice : mat3)
    (wyckoff : list (list wyckoff_position)) (sg : Z) (tol : R) :
  (forall c index, merge_coordinate coor lattice wyckoff sg tol None = Val (c, index) ->
     c = coor /\
     ((~ short_pair coor lattice tol /\ check_wyckoff_position coor sg = Val index) \/
      (short_pair coor lattice tol /\ index = None /\
       exists smallest, smallest_multiplicity wyckoff = Val smallest /\
                        (length coor <= smallest)%nat))) /\
  (forall smallest, short_pair coor lattice tol ->
     smallest_multiplicity wyckoff = Val smallest -> (smallest < length coor)%nat ->
     exists e, merge_coordinate coor lattice wyckoff sg tol None = Exn e /\
               (e = TypeError \/ e = NameError)).
Proof.
  unfold merge_coordinate. cbn [merge_loop]. unfold merge_step.
  pose proof (find_short_dist_pairs coor lattice tol) as Hpairs.
  pose proof (merge_candidate_None_raises coor lattice tol) as Hraise.
  destruct (find_short_dist coor lattice tol) as [pairs graph]. cbn [fst snd] in *.
  destruct (0 <? length pairs)%nat eqn:Ep.
  - apply Nat.ltb_lt in Ep. apply Hpairs in Ep.
    assert (Hpos : (0 < length coor)%nat) by (destruct Ep as (i1 & i2 & ? & ? & _); lia).
    destruct (Hraise Hpos) as (e & Ee & He). split.
    + intros c index H. apply exc_bind_Val in H. destruct H as (r & Hr & H).
      apply exc_bind_Val in Hr. destruct Hr as (smallest & Hsm & Hr).
      destruct (smallest <? length coor)%nat eqn:El.
      * rewrite Ee in Hr. discriminate.
      * apply Nat.ltb_ge in El. inversion Hr; subst. inversion H; subst.
        split; [reflexivity |]. right. eauto.
    + intros smallest _ Hsm Hlt. rewrite Hsm. cbn [exc_bind].
      apply Nat.ltb_lt in Hlt. rewrite Hlt, Ee. cbn [exc_bind]. eauto.
  - apply Nat.ltb_ge in Ep.
    assert (Hno : ~ short_pair coor lattice tol) by (intros Hs; apply Hpairs in Hs; lia).
    split.
    + intros c index H. destruct (check_wyckoff_position coor sg) as [i | e]; [| discriminate].
      cbn [exc_bind] in H. inversion H; subst. auto.
    + intros smallest Hs. contradiction.
Qed.
(** ** The cell matrix and its parameters *)

Lemma sqrt_sqr_abs (x : R) : sqrt (x * x) = Rabs x.
Proof. rewrite <- (sqrt_Rsqr_abs x). reflexivity. Qed.

Lemma para2matrix_rows (cell_para : CellPara) (m : mat3) :
  para2matrix cell_para = Val m ->
  let a := cp_a cell_para in
  let b := cp_b cell_para in
  let c := cp_c cell_para in
  let '(m0, m1, m2) := m in
  norm m0 = Rabs a /\ norm m1 = Rabs b /\ norm m2 = Rabs c /\
  dot m1 m2 = b * c * cos (cp_alpha cell_para) /\
  dot m0 m2 = a * c * cos (cp_beta cell_para) /\
  dot m0 m1 = a * b * cos (cp_gamma cell_para) /\
  (exists c2 m22, 0 <= m22 /\
     m = ((a, 0, 0), (b * cos (cp_gamma cell_para), b * sin (cp_gamma cell_para), 0),
          (c * cos (cp_beta cell_para), c2, m22)) /\
     det3 m = a * b * sin (cp_gamma cell_para) * m22) /\
  sin (cp_gamma cell_para) <> 0.
Proof.
  destruct cell_para as [a b c alpha beta gamma]. unfold para2matrix. cbn [cp_a cp_b cp_c cp_alpha cp_beta cp_gamma].
  intros H. apply exc_bind_Val in H. destruct H as (c2 & Hc2 & H).
  apply exc_bind_Val in H. destruct H as (m22 & Hm22 & H). inversion H; subst m. clear H.
  apply fdiv_Val in Hc2. destruct Hc2 as [Hs Hc2].
  apply py_sqrt_Val in Hm22. destruct Hm22 as [Hrad Hm22].
  assert (Hsq : m22 * m22 = c ^ 2 - (c * cos beta) ^ 2 - c2 ^ 2).
  { rewrite Hm22. now apply sqrt_sqrt. }
  assert (Hpos : 0 <= m22) by (rewrite Hm22; apply sqrt_pos).
  pose proof (sin2_cos2 gamma) as Hsc. unfold Rsqr in Hsc.
  assert (Hc2s : c2 * sin gamma = c * (cos alpha - cos beta * cos gamma)).
  { rewrite Hc2. field. exact Hs. }
  cbv zeta. split; [| split; [| split; [| split; [| split; [| split; [| split]]]]]].
  - unfold norm. rewrite <- sqrt_sqr_abs. f_equal. simpl. ring.
  - unfold norm. rewrite <- sqrt_sqr_abs. f_equal. simpl.
    replace (b * b) with (b * b * (sin gamma * sin gamma + cos gamma * cos gamma))
      by (rewrite Hsc; ring). ring.
  - unfold norm. rewrite <- sqrt_sqr_abs. f_equal. simpl.
    replace (m22 * m22) with (c ^ 2 - (c * cos beta) ^ 2 - c2 ^ 2) by (symmetry; exact Hsq).
    ring.
  - simpl. replace (b * sin gamma * c2) with (b * (c2 * sin gamma)) by ring.
    rewrite Hc2s. ring.
  - simpl. ring.
  - simpl. ring.
  - exists c2, m22. split; [exact Hpos |]. split; [reflexivity |]. simpl. ring.
  - exact Hs.
Qed.

Lemma angle_of_cos (v1 v2 : vec3) (x y t : R) :
  0 < x -> 0 < y -> norm v1 = x -> norm v2 = y -> dot v1 v2 = x * y * cos t ->
  clear_of_unit (x * y * cos t) -> 0 <= t <= PI ->
  angle v1 v2 = Val t.
Proof.
  intros Hx Hy N1 N2 Hd [C1 C2] Ht. unfold angle. rewrite Hd, C1, C2, N1, N2.
  assert (Hxy : x * y <> 0) by (apply Rmult_integral_contrapositive_currified; lra).
  rewrite fdiv_ok by exact Hxy. cbn [exc_bind].
  replace (x * y * cos t / (x * y)) with (cos t) by (field; lra).
  pose proof (COS_bound t) as Hb. rewrite py_acos_ok by lra.
  f_equal. apply acos_cos. exact Ht.
Qed.
(** ** Counts and volumes *)

Lemma check_counts_accepts (wyckoffs : list (list wyckoff_position)) (n : nat) :
  smallest_multiplicity wyckoffs = Val n ->
  forall numIons has_freedom removed r,
    check_counts wyckoffs numIons has_freedom removed = Val r ->
    r <> Incompatible ->
    Forall (fun numIon => (np_mod numIon (Z.of_nat n) <= 0)%Z) numIons.
Proof.
  intros Hn. induction numIons as [| numIon rest IH]; intros hf removed r H Hr; [constructor |].
  cbn [check_counts] in H. rewrite Hn in H. cbn [exc_bind] in H.
  destruct (0 <? np_mod numIon (Z.of_nat n))%Z eqn:E.
  { inversion H; subst. congruence. }
  apply Z.ltb_ge in E. constructor; [exact E |].
  apply exc_bind_Val in H. destruct H as (op & _ & H).
  destruct (all_nonzero (rotation_matrix op)); [now apply (IH true removed r) |].
  apply exc_bind_Val in H. destruct H as ([[remaining removed'] hf'] & _ & H).
  destruct (negb (remaining =? 0)%Z); [inversion H; subst; congruence |].
  now apply (IH hf' removed' r).
Qed.

Lemma estimate_volume_sum (pairs : list (Z * string)) (start : R) :
  fold_left (fun volume '(numIon, specie) =>
               volume + IZR numIon * 4 / 3 * PI * covalent_radius specie ^ 3) pairs start
  = start + fold_right (fun '(numIon, specie) rest =>
                          IZR numIon * 4 / 3 * PI * covalent_radius specie ^ 3 + rest) 0 pairs.
Proof.
  revert start. induction pairs as [| [numIon specie] pairs IH]; intros start;
    cbn [fold_left fold_right]; [ring |].
  rewrite IH. ring.
Qed.
(** ** The grouping of the positions *)

Lemma no_repeat_snoc (l : list nat) (a b : nat) :
  no_repeat (l ++ [a]) -> a <> b -> no_repeat ((l ++ [a]) ++ [b]).
Proof.
  induction l as [| x l IH]; intros H Hab.
  - simpl. auto.
  - destruct l as [| y l].
    + simpl in *. tauto.
    + change (no_repeat (x :: y :: ((l ++ [a]) ++ [b]))).
      change (no_repeat (x :: y :: (l ++ [a]))) in H. destruct H as [Hxy H].
      split; [exact Hxy |]. apply (IH H Hab).
Qed.

Lemma uniform_group_of (g : list wyckoff_position) (old : nat) :
  g <> [] -> (forall w, In w g -> length w = old) -> uniform_group g.
Proof.
  destruct g as [| w0 g]; [congruence |]. intros _ H w Hw.
  rewrite (H w Hw). symmetry. apply H. now left.
Qed.

Lemma organize_spec (rest : list wyckoff_position) :
  forall (old : nat) (init : list (list wyckoff_position)) (g : list wyckoff_position),
    g <> [] -> (forall w, In w g -> length w = old) ->
    Forall uniform_group init ->
    no_repeat (map group_multiplicity (init ++ [g])) ->
    let ws := organize rest old (init ++ [g]) in
    concat ws = concat (init ++ [g]) ++ rest /\ organized ws /\
    no_repeat (map group_multiplicity ws) /\ ws <> [].
Proof.
  induction rest as [| wp rest IH]; intros old init g Hg Hlen Hinit Hchain; cbn [organize].
  - cbv zeta. rewrite app_nil_r. split; [reflexivity |]. split.
    + apply Forall_app. split; [exact Hinit |]. constructor; [| constructor].
      now apply uniform_group_of with old.
    + split; [exact Hchain |]. destruct init; discriminate.
  - destruct (Nat.eqb_spec (length wp) old) as [E | E]; cbn [negb].
    + unfold append_to_last. rewrite removelast_last, last_last.
      specialize (IH old init (g ++ [wp])). cbv zeta in IH |- *.
      destruct IH as (H1 & H2); try assumption.
      * destruct g; discriminate.
      * intros w Hw. apply in_app_or in Hw. destruct Hw as [Hw | [<- | []]]; auto.
      * rewrite map_app in Hchain |- *. cbn [map] in Hchain |- *.
        unfold group_multiplicity at 2. unfold group_multiplicity at 2 in Hchain.
        destruct g; [congruence | exact Hchain].
      * split; [| exact H2]. rewrite H1. rewrite !concat_app. cbn [concat].
        rewrite !app_nil_r, <- !app_assoc. reflexivity.
    + unfold append_to_last. rewrite removelast_last, last_last. cbn [app].
      specialize (IH (length wp) (init ++ [g]) [wp]). cbv zeta in IH |- *.
      destruct IH as (H1 & H2).
      * discriminate.
      * intros w [<- | []]. reflexivity.
      * apply Forall_app. split; [exact Hinit |]. constructor; [| constructor].
        now apply uniform_group_of with old.
      * rewrite map_app. cbn [map]. rewrite map_app in Hchain |- *. cbn [map] in Hchain |- *.
        apply no_repeat_snoc; [exact Hchain |].
        unfold group_multiplicity. destruct g as [| w0 g]; [congruence |]. cbn [hd].
        rewrite (Hlen w0 (or_introl eq_refl)). auto.
      * split; [| exact H2]. rewrite H1. rewrite !concat_app. cbn [concat].
        rewrite !app_nil_r, <- !app_assoc. reflexivity.
Qed.

Lemma get_wyckoffs_organized_spec (sg : Z) :
  (wyckoff_table sg = [] -> get_wyckoffs_organized sg = Exn IndexError) /\
  (wyckoff_table sg <> [] ->
   exists ws, get_wyckoffs_organized sg = Val ws /\
     concat ws = wyckoff_table sg /\ organized ws /\ ws <> [] /\
     no_repeat (map group_multiplicity ws)).
Proof.
  clear atomic_number covalent_radius sg_symbol_from_int_number.
  unfold get_wyckoffs_organized. split.
  - intros ->. reflexivity.
  - intros Hne. destruct (wyckoff_table sg) as [| wp0 rest]; [congruence |].
    eexists. split; [reflexivity |]. cbn [organize]. rewrite Nat.eqb_refl. cbn [negb].
    change (append_to_last [[]] wp0) with ([] ++ [[wp0]]).
    destruct (organize_spec rest (length wp0) [] [wp0]) as (H1 & H2 & H3 & H4).
    + discriminate.
    + intros w [<- | []]. reflexivity.
    + constructor.
    + exact I.
    + cbn [app concat] in H1 |- *. tauto.
Qed.
(** ** How a structure is built *)

Lemma choose_In {A : Type} (seq : list A) (w w' : world) (x : A) :
  choose seq w = Ok x w' -> In x seq.
Proof.
  unfold choose. destruct seq as [| x0 seq']; [discriminate |].
  destruct (picks w) as [| k ks]; [discriminate |]. intros H.
  assert (Hin : In (nth (k mod length (x0 :: seq')) (x0 :: seq') x0) (x0 :: seq')).
  { apply nth_In. apply Nat.mod_upper_bound. discriminate. }
  injection H as Hx _. rewrite <- Hx. exact Hin.
Qed.

Lemma first_fitting_group_In (wyckoffs : list (list wyckoff_position)) (number : Z)
    (g : list wyckoff_position) :
  first_fitting_group wyckoffs number = Val (Some g) -> In g wyckoffs.
Proof.
  induction wyckoffs as [| wyckoff rest IH]; simpl; [discriminate |].
  destruct wyckoff as [| w0 ws]; [discriminate |].
  destruct (multiplicity w0 <=? number)%Z.
  - intros H. inversion H. now left.
  - intros H. right. now apply IH.
Qed.

Lemma good_wyckoff_incl (wyckoffs : list (list wyckoff_position)) (number : Z) :
  forall good, good_wyckoff wyckoffs number = Val good -> incl good (concat wyckoffs).
Proof.
  induction wyckoffs as [| wyckoff rest IH]; simpl; intros good H.
  - inversion H. intros x [].
  - destruct wyckoff as [| w0 ws]; [discriminate |].
    apply exc_bind_Val in H. destruct H as (good' & Hg & H). specialize (IH good' Hg).
    destruct (multiplicity w0 <=? number)%Z; inversion H; subst.
    + intros x Hx. change (In x ((w0 :: ws) ++ good')) in Hx.
      apply in_app_or in Hx. apply in_or_app.
      destruct Hx as [Hx | Hx]; [now left | right; now apply IH].
    + intros x Hx. apply in_or_app. right. now apply IH.
Qed.

Lemma choose_wyckoff_In (wyckoffs : list (list wyckoff_position)) (number : Z)
    (w w' : world) (ops : wyckoff_position) :
  choose_wyckoff wyckoffs number w = Ok (Some ops) w' -> In ops (concat wyckoffs).
Proof.
  unfold choose_wyckoff. intros H.
  apply bind_Ok in H. destruct H as (u & w1 & _ & H).
  destruct (Rltb (1 / 2) u).
  - apply bind_Ok in H. destruct H as (g & w2 & Hg & H). apply lift_Ok in Hg.
    destruct Hg as [Hg _]. destruct g as [g |].
    + apply bind_Ok in H. destruct H as (wp & w3 & Hc & H). apply ret_Ok in H.
      destruct H as [H _]. inversion H; subst. apply choose_In in Hc.
      apply in_concat. exists g. split; [now apply first_fitting_group_In in Hg | exact Hc].
    + apply ret_Ok in H. destruct H as [H _]. discriminate.
  - apply bind_Ok in H. destruct H as (good & w2 & Hg & H). apply lift_Ok in Hg.
    destruct Hg as [Hg _]. destruct (0 <? length good)%nat.
    + apply bind_Ok in H. destruct H as (wp & w3 & Hc & H). apply ret_Ok in H.
      destruct H as [H _]. inversion H; subst. apply choose_In in Hc.
      now apply (good_wyckoff_incl _ _ _ Hg).
    + apply ret_Ok in H. destruct H as [H _]. discriminate.
Qed.

Lemma add_specie_built (sg : Z) (wyckoffs : list (list wyckoff_position)) (numIon : Z)
    (specie : string) (cell_matrix : mat3) (cycle3 : nat) :
  forall tmp total added w tmp' total' added' w',
    add_specie sg wyckoffs cycle3 numIon specie (Rmax (1 / 2 * covalent_radius specie) tol_m)
      cell_matrix tmp total added w = Ok (tmp', total', added') w' ->
    built sg wyckoffs cell_matrix tmp -> built sg wyckoffs cell_matrix tmp'.
Proof.
  induction cycle3 as [| c IH]; intros tmp total added w tmp' total' added' w' H Hb.
  - cbn [add_specie] in H. apply ret_Ok in H. destruct H as [H _]. now inversion H; subst.
  - cbn [add_specie] in H.
    apply bind_Ok in H. destruct H as (ops & w1 & Hops & H).
    destruct ops as [ops |]; [| now apply (IH _ _ _ _ _ _ _ _ H)].
    apply choose_wyckoff_In in Hops.
    apply bind_Ok in H. destruct H as (point & w2 & _ & H).
    apply bind_Ok in H. destruct H as ([coords_toadd good_merge] & w3 & Hm & H).
    apply lift_Ok in Hm. destruct Hm as [Hm _].
    destruct good_merge as [index |]; [| now apply (IH _ _ _ _ _ _ _ _ H)].
    apply bind_Ok in H. destruct H as (far & w4 & Hfar & H).
    apply lift_Ok in Hfar. destruct Hfar as [Hfar _].
    destruct far.
    + assert (Hb1 : built sg wyckoffs cell_matrix
                      (mkPlaced (placed_coordinates tmp ++ [map wrap coords_toadd])
                                (placed_sites tmp ++ [specie]))).
      { eapply built_orbit; eassumption. }
      destruct ((added + Z.of_nat (length (map wrap coords_toadd)) =? numIon)%Z).
      * apply ret_Ok in H. destruct H as [H _]. now inversion H; subst.
      * now apply (IH _ _ _ _ _ _ _ _ H).
    + destruct ((added =? numIon)%Z).
      * apply ret_Ok in H. destruct H as [H _]. now inversion H; subst.
      * now apply (IH _ _ _ _ _ _ _ _ H).
Qed.

Lemma add_species_built (sg : Z) (wyckoffs : list (list wyckoff_position)) (max3 : nat)
    (cell_matrix : mat3) (todo : list (Z * string)) :
  forall tmp total last w total' last' w',
    add_species sg wyckoffs max3 todo cell_matrix tmp total last w = Ok (total', last') w' ->
    tmp = total -> tidy tmp -> built sg wyckoffs cell_matrix tmp ->
    forall a n, last' = Some (a, n) -> a = n -> todo <> [] ->
      built sg wyckoffs cell_matrix total'.
Proof.
  induction todo as [| [numIon specie] rest IH];
    intros tmp total last w total' last' w' H Heq Htidy Hb a n Hlast Hmet Hne; [congruence |].
  cbn [add_species] in H.
  apply bind_Ok in H. destruct H as ([[tmp1 total1] added1] & w1 & Hs & H).
  pose proof (add_specie_built _ _ _ _ _ _ _ _ _ _ _ _ _ _ Hs Hb) as Hb1.
  destruct (add_specie_spec _ _ _ _ _ _ _ _ _ _ _ _ _ _ _ Hs Htidy)
    as (Htidy1 & _ & Htotal).
  destruct (negb (added1 =? numIon)%Z) eqn:E.
  - apply ret_Ok in H. destruct H as [H _]. apply negb_true_iff, Z.eqb_neq in E.
    inversion H; subst. inversion H2; subst. contradiction.
  - apply negb_false_iff, Z.eqb_eq in E.
    assert (Heq1 : tmp1 = total1).
    { destruct (Htotal E) as [Ht | (H1 & H2 & _)]; [now symmetry |]. now subst. }
    destruct rest as [| c rest'].
    + cbn [add_species] in H. apply ret_Ok in H. destruct H as [H _].
      inversion H; subst. exact Hb1.
    + apply (IH _ _ _ _ _ _ _ H Heq1 Htidy1 Hb1 a n Hlast Hmet). discriminate.
Qed.
Lemma fill_lattice_built (sg : Z) (species : list string) (numIons : list Z)
    (wyckoffs : list (list wyckoff_position)) (max3 : nat) (cell_matrix : mat3) (cycle2 : nat) :
  forall last w total' good last' w',
    fill_lattice sg species numIons wyckoffs cycle2 max3 cell_matrix nothing_placed last w
      = Ok (total', good, last') w' ->
    unmet last -> good = true -> built sg wyckoffs cell_matrix total'.
Proof.
  induction cycle2 as [| c IH]; intros last w total' good last' w' H Hlast Hgood.
  - cbn [fill_lattice] in H. apply ret_Ok in H. destruct H as [H _].
    inversion H; subst. discriminate.
  - cbn [fill_lattice] in H.
    apply bind_Ok in H. destruct H as ([total1 last1] & w1 & Hs & H).
    destruct last1 as [[a n] |]; [| discriminate].
    destruct (a =? n)%Z eqn:E.
    + apply Z.eqb_eq in E. apply ret_Ok in H. destruct H as [H _]. inversion H; subst.
      destruct (combine numIons species) as [| c0 todo] eqn:Etodo.
      * cbn [add_species] in Hs. apply ret_Ok in Hs. destruct Hs as [Hs _].
        inversion Hs; subst. exfalso. now apply (Hlast n n).
      * assert (Hb0 : built sg wyckoffs cell_matrix nothing_placed) by constructor.
        apply (add_species_built _ _ _ _ _ _ _ _ _ _ _ _ Hs eq_refl tidy_nothing Hb0
                 n n eq_refl eq_refl).
        discriminate.
    + apply Z.eqb_neq in E. apply (IH _ _ _ _ _ _ H); [| exact Hgood].
      intros a' n' Hl. inversion Hl; subst. assumption.
Qed.

Lemma try_lattices_built (sg : Z) (species : list string) (numIons : list Z) (volume : R)
    (wyckoffs : list (list wyckoff_position)) (max2 max3 : nat) (minvector : R) (cycle1 : nat) :
  forall last w g w',
    try_lattices sg species numIons volume wyckoffs cycle1 max2 max3 minvector last w
      = Ok (Some g) w' ->
    unmet last ->
    exists cell_matrix total,
      g = finish cell_matrix total /\ tidy total /\ built sg wyckoffs cell_matrix total.
Proof.
  induction cycle1 as [| c IH]; intros last w g w' H Hlast.
  - cbn [try_lattices] in H. apply ret_Ok in H. destruct H as [H _]. discriminate.
  - cbn [try_lattices] in H.
    apply bind_Ok in H. destruct H as (cell_para & w1 & _ & H).
    destruct cell_para as [cell_para |];
      [| apply ret_Ok in H; destruct H as [H _]; discriminate].
    apply bind_Ok in H. destruct H as (cell_matrix & w2 & _ & H).
    destruct (Rltb 1 _).
    { apply bind_Ok in H. destruct H as (? & w3 & _ & H).
      apply bind_Ok in H. destruct H as (? & w4 & _ & H). discriminate. }
    apply bind_Ok in H. destruct H as ([[total good] last1] & w3 & Hf & H).
    destruct (fill_lattice_spec _ _ _ _ _ _ _ _ _ _ _ _ _ Hf Hlast) as [Hgood Hbad].
    pose proof (fill_lattice_built _ _ _ _ _ _ _ _ _ _ _ _ _ Hf Hlast) as Hbuilt.
    destruct good.
    + apply ret_Ok in H. destruct H as [H _]. inversion H; subst.
      destruct (Hgood eq_refl) as (H1 & _). eauto 10.
    + apply (IH _ _ _ _ H). auto.
Qed.

Lemma generate_crystal_built (sg : Z) (species : list string) (numIons : list Z) (volume : R)
    (wyckoffs : list (list wyckoff_position)) (max1 max2 max3 : nat) (w w' : world)
    (g : generated) :
  generate_crystal sg species numIons volume wyckoffs max1 max2 max3 w = Ok g w' ->
  valid g = true ->
  exists cell_matrix total,
    g = finish cell_matrix total /\ tidy total /\ built sg wyckoffs cell_matrix total.
Proof.
  intros H Hvalid. unfold generate_crystal in H.
  apply bind_Ok in H. destruct H as (degrees & w1 & _ & H).
  assert (Hgo : forall m1 m2 m3,
    (run d <- lift (largest_diameter species);
     let minvector := Rmax d tol_m in
     run r <- try_lattices sg species numIons volume wyckoffs m1 m2 m3 minvector None;
     match r with
     | Some g => ret g
     | None =>
         run _ <- match degrees with NoFreedom => print MsgNoFreedom | _ => ret tt end;
         ret (mkGenerated None [] [] FailureMessage None false)
     end) w1 = Ok g w' ->
    exists cell_matrix total,
      g = finish cell_matrix total /\ tidy total /\ built sg wyckoffs cell_matrix total).
  { clear H. intros m1 m2 m3 H.
    apply bind_Ok in H. destruct H as (d & w2 & _ & H).
    apply bind_Ok in H. destruct H as (r & w3 & Ht & H).
    destruct r as [g' |].
    - apply ret_Ok in H. destruct H as [-> _].
      apply (try_lattices_built _ _ _ _ _ _ _ _ _ _ _ _ _ Ht unmet_None).
    - apply bind_Ok in H. destruct H as (? & w4 & _ & H).
      apply ret_Ok in H. destruct H as [-> _]. discriminate. }
  destruct degrees.
  - apply bind_Ok in H. destruct H as (? & w2 & _ & H).
    apply ret_Ok in H. destruct H as [-> _]. discriminate.
  - now apply (Hgo max1 max2 max3).
  - now apply (Hgo 5 5 5)%nat.
Qed.

Lemma random_crystal_built (sg : Z) (species : list string) (numIons0 : list Z) (factor : R)
    (w w' : world) (g : generated) :
  random_crystal sg species numIons0 factor w = Ok g w' ->
  valid g = true ->
  exists wyckoffs cell_matrix total,
    get_wyckoffs_organized sg = Val wyckoffs /\
    g = finish cell_matrix total /\ tidy total /\ built sg wyckoffs cell_matrix total.
Proof.
  intros H Hvalid. unfold random_crystal in H.
  apply bind_Ok in H. destruct H as (size & w1 & _ & H).
  destruct size as [k |]; [| discriminate].
  apply bind_Ok in H. destruct H as (wyckoffs & w2 & Hw & H).
  apply lift_Ok in Hw. destruct Hw as [Hw _].
  destruct (generate_crystal_built _ _ _ _ _ _ _ _ _ _ _ H Hvalid) as (cm & total & Hg).
  exists wyckoffs, cm, total. tauto.
Qed.

(** ** What a built accumulator holds *)

Lemma built_tidy (sg : Z) (wyckoffs : list (list wyckoff_position)) (cell_matrix : mat3)
    (p : placed) :
  built sg wyckoffs cell_matrix p ->
  length (placed_coordinates p) = length (placed_sites p) /\
  Forall (fun coord => coord <> []) (placed_coordinates p).
Proof.
  induction 1 as [| tmp ops point specie coords_toadd index Hb [IH1 IH2] Hops Hm Hfar].
  - split; [reflexivity | constructor].
  - cbn [placed_coordinates placed_sites]. split.
    + rewrite !length_app. simpl. lia.
    + apply Forall_app. split; [exact IH2 |]. constructor; [| constructor].
      intros E. rewrite E in Hfar. rewrite check_distance_no_candidate in Hfar. discriminate.
Qed.

Lemma built_separated (sg : Z) (wyckoffs : list (list wyckoff_position)) (cell_matrix : mat3)
    (p : placed) :
  built sg wyckoffs cell_matrix p -> separated cell_matrix p.
Proof.
  induction 1 as [| tmp ops point specie coords_toadd index Hb IH Hops Hm Hfar].
  - intros i j o1 s1 o2 s2 _ H. destruct i; discriminate.
  - destruct (built_tidy _ _ _ _ Hb) as [Hlen Hne].
    intros i j o1 s1 o2 s2 Hij H1 H2 H3 H4. cbn [placed_coordinates placed_sites] in *.
    assert (Hj : (j < length (placed_coordinates tmp ++ [map wrap coords_toadd]))%nat).
    { apply nth_error_Some. congruence. }
    rewrite length_app in Hj. simpl in Hj.
    rewrite nth_error_app1 in H1 by lia. rewrite nth_error_app1 in H2 by lia.
    destruct (Nat.eq_dec j (length (placed_coordinates tmp))) as [-> | Hjn].
    + rewrite nth_error_app2, Nat.sub_diag in H3 by lia. rewrite Hlen in H4.
      rewrite nth_error_app2, Nat.sub_diag in H4 by lia.
      inversion H3; subst o2. inversion H4; subst s2.
      destruct (check_distance_far (placed_coordinates tmp) (map wrap coords_toadd)
                  (placed_sites tmp) specie cell_matrix None 1) as (b & Hb' & Hiff).
      * intros E. rewrite E in Hfar. rewrite check_distance_no_candidate in Hfar. discriminate.
      * exact Hne.
      * rewrite Hfar in Hb'. inversion Hb'; subst b.
        intros x y m Hx Hy Hmm.
        pose proof (proj1 Hiff eq_refl o1 s1 x y m
                      (combine_nth_error _ _ _ _ _ H1 H2) Hx Hy Hmm) as Hd.
        lra.
    + rewrite nth_error_app1 in H3 by lia. rewrite nth_error_app1 in H4 by lia.
      now apply (IH i j o1 s1 o2 s2).
Qed.

Lemma short_pair_mono (coor : list vec3) (lattice : mat3) (tol tol' : R) :
  tol <= tol' -> short_pair coor lattice tol -> short_pair coor lattice tol'.
Proof.
  intros Hle (i1 & i2 & H1 & H2 & H3). exists i1, i2. repeat split; try assumption. lra.
Qed.

Lemma built_orbits (sg : Z) (wyckoffs : list (list wyckoff_position)) (cell_matrix : mat3)
    (p : placed) :
  built sg wyckoffs cell_matrix p ->
  Forall (fun orbit =>
            exists ops point index,
              In ops (concat wyckoffs) /\
              orbit = map (fun op => wrap (operate op point)) ops /\
              ~ short_pair (map (fun op => operate op point) ops) cell_matrix 1 /\
              check_wyckoff_position (map (fun op => operate op point) ops) sg
              = Val (Some index))
         (placed_coordinates p).
Proof.
  induction 1 as [| tmp ops point specie coords_toadd index Hb IH Hops Hm Hfar].
  - constructor.
  - cbn [placed_coordinates]. apply Forall_app. split; [exact IH |].
    constructor; [| constructor].
    destruct (merge_coordinate_None (map (fun op => operate op point) ops) cell_matrix
                wyckoffs sg (Rmax (1 / 2 * covalent_radius specie) tol_m)) as [Hret _].
    destruct (Hret _ _ Hm) as [-> [[Hno Hck] | (_ & Hnone & _)]]; [| discriminate].
    exists ops, point, index. split; [exact Hops |]. split; [now rewrite map_map |].
    split; [| exact Hck].
    intros Hs. apply Hno. apply (short_pair_mono _ _ 1); [| exact Hs].
    unfold tol_m. apply Rmax_r.
Qed.

Lemma atoms_of_coordinates (p : placed) :
  length (placed_coordinates p) = length (placed_sites p) ->
  map fst (atoms_of p) = concat (placed_coordinates p).
Proof.
  destruct p as [coords labels]. unfold atoms_of. cbn [placed_coordinates placed_sites].
  revert labels. induction coords as [| o coords IH]; intros [| s labels] H; simpl in *;
    try discriminate; [reflexivity |].
  rewrite map_app, map_map. cbn [fst]. rewrite map_id. f_equal. apply IH. lia.
Qed.
(** ** The cell of a slab *)

Lemma permute_para_identity (a b c alpha beta gamma : R) :
  permute_para [a; b; c; alpha; beta; gamma] [1; 2; 3]%Z
  = Val (mkCellPara a b c alpha beta gamma).
Proof. reflexivity. Qed.

Lemma random_vector_draws (v : vec3) (w w' : world) :
  random_vector w = Ok v w' ->
  exists z0 z1 z2 zs,
    normals w = z0 :: z1 :: z2 :: zs /\
    v = (exp (0 + 35 / 100 * z0), exp (0 + 35 / 100 * z1), exp (0 + 35 / 100 * z2)) /\
    w' = mkWorld zs (uniforms w) (picks w) (stdout w).
Proof.
  unfold random_vector, bind, np_random_normal, ret.
  destruct (Rlt_dec (35 / 100) 0); [discriminate |].
  destruct (normals w) as [| z0 [| z1 [| z2 zs]]]; cbn [normals uniforms picks stdout];
    try discriminate.
  intros H. inversion H. exists z0, z1, z2, zs. auto.
Qed.

(** ** Vacuum around a slab *)

Lemma fold_left_Rplus (xs : list R) (a : R) :
  fold_left Rplus xs a = a + fold_right Rplus 0 xs.
Proof.
  revert a. induction xs as [| x xs IH]; intros a; simpl; [ring |]. rewrite IH. ring.
Qed.

Lemma exc_map_total {A B : Type} (f : A -> B) (g : A -> exc B) (l : list A) :
  (forall x, In x l -> g x = Val (f x)) -> exc_map g l = Val (map f l).
Proof.
  induction l as [| x l IH]; intros H; simpl; [reflexivity |].
  rewrite (H x (or_introl eq_refl)). cbn [exc_bind].
  rewrite IH by (intros y Hy; apply H; now right). reflexivity.
Qed.

Lemma combine_map_self {A B C : Type} (f : A * B -> C) (g : A -> B) (l : list A) :
  map f (combine l (map g l)) = map (fun x => f (x, g x)) l.
Proof. induction l as [| x l IH]; simpl; [reflexivity | now rewrite IH]. Qed.

Lemma sum_shift (xs : list R) (d : R) :
  fold_right Rplus 0 (map (fun z => z + d) xs) = fold_right Rplus 0 xs + INR (length xs) * d.
Proof.
  induction xs as [| x xs IH]; [simpl; ring |].
  cbn [map fold_right length]. rewrite IH, S_INR. ring.
Qed.

Lemma Add_vacuum_value (lattice : mat3) (coor : list vec3) (vacuum : R) :
  coor <> [] ->
  let '(r0, r1, (l20, l21, old)) := lattice in
  old + vacuum <> 0 ->
  let scaled p := vget p 2 * old / (old + vacuum) in
  let mean := fold_right Rplus 0 (map scaled coor) / INR (length coor) in
  Add_vacuum lattice coor vacuum
  = Val ((r0, r1, (l20, l21, old + vacuum)),
         map (fun p => vset p 2 (scaled p - mean + 1 / 2)) coor).
Proof.
  intros Hne. destruct lattice as [[r0 r1] [[l20 l21] old]]. intros Hnew scaled mean.
  unfold Add_vacuum. destruct coor as [| p0 ps] eqn:E; [congruence |]. rewrite <- E in *.
  rewrite (exc_map_total scaled) by (intros x _; now apply fdiv_ok).
  cbn [exc_bind]. unfold np_mean. rewrite length_map, fold_left_Rplus, Rplus_0_l.
  rewrite fdiv_ok by (apply not_0_INR; rewrite E; discriminate).
  cbn [exc_bind]. rewrite map_map, combine_map_self. unfold mean. rewrite E. reflexivity.
Qed.
(** ** Site symmetry *)

Lemma np_round_near (x : R) : Rabs (x - np_round x) <= 1 / 2.
Proof.
  unfold np_round. pose proof (Zfloor_bound x) as [Hl Hu]. set (f := Zfloor x) in *.
  destruct (Rltb (x - IZR f) (1 / 2)) eqn:E1.
  - apply Rltb_iff in E1. apply Rabs_le. lra.
  - assert (H1 : 1 / 2 <= x - IZR f).
    { destruct (Rle_dec (1 / 2) (x - IZR f)); [assumption |].
      rewrite Rltb_true in E1 by lra. discriminate. }
    destruct (Rltb (1 / 2) (x - IZR f)) eqn:E2.
    + rewrite plus_IZR. apply Rabs_le. lra.
    + assert (H2 : x - IZR f <= 1 / 2).
      { destruct (Rle_dec (x - IZR f) (1 / 2)); [assumption |].
        rewrite Rltb_true in E2 by lra. discriminate. }
      destruct (Z.even f); [| rewrite plus_IZR]; apply Rabs_le; lra.
Qed.

Lemma vecmat_identity (v : vec3) : vecmat v np_identity3 = v.
Proof.
  destruct v as [[x y] z]. unfold np_identity3. simpl.
  repeat (apply pair_equal_spec; split); ring.
Qed.

(** In the cubic cell of edge 1 the nearest image of a reduced difference
    is the difference itself. *)
Lemma distance_euclidean (xyz : vec3) :
  distance xyz np_identity3 None = norm (vsub xyz (vmap np_round xyz)).
Proof.
  destruct (distance_least xyz np_identity3 None) as [(m & Hm & Hat) Hle].
  set (r := vsub xyz (vmap np_round xyz)) in *.
  apply Rle_antisym.
  - specialize (Hle (0, 0, 0) (create_matrix_origin None)).
    rewrite vecmat_identity in Hle.
    replace (vadd (0, 0, 0) r) with r in Hle; [exact Hle |].
    destruct r as [[x y] z]. simpl. repeat (apply pair_equal_spec; split); ring.
  - rewrite Hat, vecmat_identity. unfold norm. apply sqrt_le_1_alt.
    apply create_matrix_In in Hm.
    assert (Hr : let '(r0, r1, r2) := r in
                 Rabs r0 <= 1 / 2 /\ Rabs r1 <= 1 / 2 /\ Rabs r2 <= 1 / 2).
    { unfold r. destruct xyz as [[x y] z]. cbn [vmap vsub].
      repeat split; apply np_round_near. }
    destruct m as [[i j] k], r as [[r0 r1] r2]. destruct Hr as (Hr0 & Hr1 & Hr2).
    destruct Hm as (Hi & Hj & Hk). simpl in Hi, Hj, Hk.
    assert (Hsq : forall a t, -1 = a \/ 0 = a \/ 1 = a \/ False -> Rabs t <= 1 / 2 ->
                    t * t <= (a + t) * (a + t)).
    { intros a t Ha Ht.
      assert (Ht' : - (1 / 2) <= t <= 1 / 2)
        by (unfold Rabs in Ht; destruct (Rcase_abs t); lra).
      destruct Ha as [<- | [<- | [<- | []]]]; nra. }
    pose proof (Hsq i r0 Hi Hr0). pose proof (Hsq j r1 Hj Hr1). pose proof (Hsq k r2 Hk Hr2).
    simpl. lra.
Qed.

Lemma site_symm_filter (point : vec3) (gen_pos : list SymmOp) (tol : R) (lattice : mat3) :
  site_symm point gen_pos tol lattice
  = map (fun op => mkSymmOp (rotation_matrix op)
                     (vsub (translation_vector op)
                           (vmap np_round (vsub (operate op point) point))))
        (filter (fun op => Rleb (distance (vsub (operate op point) point) lattice None) tol)
                gen_pos).
Proof.
  unfold site_symm.
  assert (Hrot : forall op,
    allclose (1 / 1000) (1 / 1000)
      (entries (mat_sub (rotation_matrix (symmop_mul op (mkSymmOp zero_matrix point)))
                        (rotation_matrix (mkSymmOp zero_matrix point))))
      (repeat 0 9) = true).
  { intros [[[[[a0 a1] a2] [[b0 b1] b2]] [[c0 c1] c2]] t].
    cbn [symmop_mul rotation_matrix zero_matrix matmul transpose dot mat_sub vsub entries
         repeat allclose].
    assert (Hz : forall x y z, Rleb (Rabs (x * 0 + y * 0 + z * 0 - 0 - 0))
                                 (1 / 1000 + 1 / 1000 * Rabs 0) = true).
    { intros x y z. apply Rleb_true.
      replace (x * 0 + y * 0 + z * 0 - 0 - 0) with 0 by ring. rewrite Rabs_R0. lra. }
    rewrite !Hz. reflexivity. }
  induction gen_pos as [| op rest IH]; [reflexivity |].
  cbn [flat_map filter]. rewrite IH, Hrot. cbn [negb].
  change (translation_vector (symmop_mul op (mkSymmOp zero_matrix point)))
    with (operate op point).
  cbn [translation_vector].
  destruct (Rle_dec (distance (vsub (operate op point) point) lattice None) tol) as [Hle | Hgt].
  - rewrite (Rleb_true _ _ Hle), Rltb_false by lra. reflexivity.
  - rewrite (Rleb_false _ _ Hgt), Rltb_true by lra. reflexivity.
Qed.

Lemma site_symm_In (point : vec3) (gen_pos : list SymmOp) (tol : R) (lattice : mat3)
    (el : SymmOp) :
  In el (site_symm point gen_pos tol lattice) <->
  exists op, In op gen_pos /\
    distance (vsub (operate op point) point) lattice None <= tol /\
    el = mkSymmOp (rotation_matrix op)
           (vsub (translation_vector op) (vmap np_round (vsub (operate op point) point))).
Proof.
  rewrite site_symm_filter, in_map_iff. split.
  - intros (op & <- & Hop). apply filter_In in Hop. destruct Hop as [Hop Hd].
    apply Rleb_iff in Hd. eauto.
  - intros (op & Hop & Hd & ->). exists op. split; [reflexivity |].
    apply filter_In. split; [exact Hop | now apply Rleb_true].
Qed.
(** ** operations.py: orders, rotations *)


(** X2.  What [get_order] returns is read off the least n from 1 to 60 for
    which n*angle/(2*pi) is within tol of its rounding: that n (doubled for
    a rotoinversion when n is odd), and "irrational" exactly when no such n
    exists. *)
Theorem get_order_least (angle : R) (rotoinversion : bool) (tol : R) :
  let off n := Rabs (INR n * angle / (2 * PI) - np_round (INR n * angle / (2 * PI))) in
  (get_order angle rotoinversion tol = Irrational <->
   forall n, (1 <= n <= 60)%nat -> tol < off n) /\
  (forall m, get_order angle rotoinversion tol = Order m ->
     exists n, (1 <= n <= 60)%nat /\ off n <= tol /\
       (forall n', (1 <= n' < n)%nat -> tol < off n') /\
       m = (if rotoinversion then if (n mod 2 =? 1)%nat then n * 2 else n else n)%nat).
Proof.
  intros off. unfold get_order.
  destruct (find_order angle tol (seq 1 60)) as [n |] eqn:E.
  - apply find_order_sound in E. destruct E as (Hn & Hat & Hbefore). split.
    + split.
      * destruct rotoinversion; [destruct (n mod 2 =? 1)%nat |]; discriminate.
      * intros Hall. specialize (Hall n ltac:(lia)). unfold off in Hall. lra.
    + intros m Hm. exists n. split; [lia |]. split; [exact Hat |]. split; [exact Hbefore |].
      destruct rotoinversion; [destruct (n mod 2 =? 1)%nat |]; now inversion Hm.
  - split.
    + split; [| reflexivity]. intros _ n Hn.
      apply (find_order_none angle tol 60 1 E). lia.
    + intros m Hm. discriminate.
Qed.

(** X3.  For an axis that is not the zero vector, [aa2matrix] returns a
    rotation matrix: its products with its transpose are the identity, its
    determinant is 1, it leaves the axis fixed, and [is_orthogonal] accepts
    it. *)
Theorem aa2matrix_is_rotation (axis : vec3) (angle : R) :
  axis <> (0, 0, 0) ->
  exists Q, aa2matrix axis angle = Val Q /\
            matmul Q (transpose Q) = np_identity3 /\
            matmul (transpose Q) Q = np_identity3 /\
            det3 Q = 1 /\
            matvec Q axis = axis /\
            is_orthogonal Q (1 / 1000) = true.
Proof.
  intros Hne. pose proof (aa2matrix_value axis angle Hne) as Hval.
  pose proof (unit_axis axis Hne) as Hu.
  destruct axis as [[a0 a1] a2]. destruct Hu as [Hn Hu]. cbv zeta in Hval.
  pose proof (sin2_cos2 angle) as Hsc. unfold Rsqr in Hsc.
  destruct (rodrigues_rotation _ _ _ _ _ Hu Hsc) as (H1 & H2 & H3 & H4).
  eexists. split; [exact Hval |].
  split; [exact H1 |]. split; [exact H2 |]. split; [exact H3 |]. split.
  - set (n := norm (a0, a1, a2)) in *.
    replace (a0, a1, a2) with (n * (a0 / n), n * (a1 / n), n * (a2 / n))
      by (repeat (apply pair_equal_spec; split); field; assumption).
    cbn [matvec dot] in H4 |- *.
    apply pair_equal_spec in H4. destruct H4 as [H4 H4c].
    apply pair_equal_spec in H4. destruct H4 as [H4a H4b].
    set (x := a0 / n) in *. set (y := a1 / n) in *. set (z := a2 / n) in *.
    set (c := cos angle) in *. set (s := sin angle) in *.
    repeat (apply pair_equal_spec; split); nsatz.
  - apply is_orthogonal_exact; [lra | exact H1 | exact H2].
Qed.

(** X4.  Rotations about one axis compose by adding their angles: the
    product of the matrices [aa2matrix] returns for the angles s and t is
    the matrix it returns for s + t; the angle 0 gives the identity, and
    the opposite angle the transpose. *)
Theorem aa2matrix_compose (axis : vec3) (s t : R) :
  axis <> (0, 0, 0) ->
  exists Qs Qt,
    aa2matrix axis s = Val Qs /\ aa2matrix axis t = Val Qt /\
    aa2matrix axis (s + t) = Val (matmul Qs Qt) /\
    aa2matrix axis 0 = Val np_identity3 /\
    aa2matrix axis (- s) = Val (transpose Qs).
Proof.
  intros Hne.
  pose proof (aa2matrix_value axis s Hne) as Hs.
  pose proof (aa2matrix_value axis t Hne) as Ht.
  pose proof (aa2matrix_value axis (s + t) Hne) as Hst.
  pose proof (aa2matrix_value axis 0 Hne) as H0.
  pose proof (aa2matrix_value axis (- s) Hne) as Hm.
  pose proof (unit_axis axis Hne) as Hu.
  destruct axis as [[a0 a1] a2]. destruct Hu as [Hn Hu].
  cbv zeta in Hs, Ht, Hst, H0, Hm.
  pose proof (sin2_cos2 s) as Hsc. unfold Rsqr in Hsc.
  pose proof (sin2_cos2 t) as Htc. unfold Rsqr in Htc.
  rewrite cos_plus, sin_plus in Hst. rewrite cos_0, sin_0 in H0.
  rewrite cos_neg, sin_neg in Hm.
  set (x := a0 / norm (a0, a1, a2)) in *. set (y := a1 / norm (a0, a1, a2)) in *.
  set (z := a2 / norm (a0, a1, a2)) in *.
  set (cs := cos s) in *. set (ss := sin s) in *.
  set (ct := cos t) in *. set (st := sin t) in *.
  do 2 eexists. split; [exact Hs |]. split; [exact Ht |]. split; [| split].
  - rewrite Hst. apply f_equal. cbn [matmul transpose dot].
    repeat (apply pair_equal_spec; split); nsatz.
  - rewrite H0. apply f_equal. unfold np_identity3.
    repeat (apply pair_equal_spec; split); ring.
  - rewrite Hm. apply f_equal. cbn [transpose].
    repeat (apply pair_equal_spec; split); ring.
Qed.

Lemma allclose_identity (tol atol : R) (m : mat3) :
  allclose tol atol (entries m) (entries np_identity3) = true ->
  let '((m00, m01, m02), (m10, m11, m12), (m20, m21, m22)) := m in
  (Rabs (m00 - 1) <= atol + tol /\ Rabs (m11 - 1) <= atol + tol /\ Rabs (m22 - 1) <= atol + tol) /\
  (Rabs m01 <= atol /\ Rabs m02 <= atol /\ Rabs m10 <= atol /\
   Rabs m12 <= atol /\ Rabs m20 <= atol /\ Rabs m21 <= atol).
Proof.
  destruct m as [[[[m00 m01] m02] [[m10 m11] m12]] [[m20 m21] m22]].
  unfold np_identity3. cbn [entries allclose]. intros H.
  repeat (apply andb_prop in H; destruct H as [?H H]).
  repeat match goal with Hx : Rleb _ _ = true |- _ => apply Rleb_iff in Hx end.
  rewrite ?Rabs_R1, ?Rabs_R0, ?Rmult_1_r, ?Rmult_0_r, ?Rplus_0_r, ?Rminus_0_r in *.
  repeat split; assumption.
Qed.

(** X5.  [is_orthogonal] gives the same answer for a matrix and for its
    transpose; it accepts every matrix whose two products with its
    transpose are the identity; and a matrix it accepts has rows whose
    squared lengths are within 1e-8 + tol of 1 and whose dot products with
    each other are within 1e-8 of 0: the relative tolerance only loosens
    the diagonal. *)
Theorem is_orthogonal_rows (m : mat3) (tol : R) :
  0 <= tol ->
  is_orthogonal (transpose m) tol = is_orthogonal m tol /\
  (matmul m (transpose m) = np_identity3 -> matmul (transpose m) m = np_identity3 ->
   is_orthogonal m tol = true) /\
  (is_orthogonal m tol = true ->
   let '(r0, r1, r2) := m in
   (Rabs (dot r0 r0 - 1) <= 1 / 100000000 + tol /\
    Rabs (dot r1 r1 - 1) <= 1 / 100000000 + tol /\
    Rabs (dot r2 r2 - 1) <= 1 / 100000000 + tol) /\
   (Rabs (dot r0 r1) <= 1 / 100000000 /\ Rabs (dot r0 r2) <= 1 / 100000000 /\
    Rabs (dot r1 r2) <= 1 / 100000000)).
Proof.
  intros Htol. split; [apply is_orthogonal_transpose_eq |].
  split; [now apply is_orthogonal_exact |].
  unfold is_orthogonal. intros H.
  destruct (allclose tol _ (entries (matmul m (transpose m))) _) eqn:E1; [| discriminate].
  apply allclose_identity in E1.
  destruct m as [[r0 r1] r2]. 
  destruct r0 as [[a0 a1] a2], r1 as [[b0 b1] b2], r2 as [[c0 c1] c2].
  cbn [matmul transpose] in E1. tauto.
Qed.

(** X6.  With [allow_pbc=True], [are_equal] ignores integer translations:
    an operation equals itself shifted by any vector of whole numbers, in
    both orders; an operation always equals itself; and with
    [allow_pbc=False] a shift larger than the tolerance is told apart. *)
Theorem are_equal_integer_translation (op : SymmOp) (i j k : Z) (rtol atol : R) :
  0 <= rtol -> 0 <= atol ->
  let '(t0, t1, t2) := translation_vector op in
  let shifted := mkSymmOp (rotation_matrix op) (t0 + IZR i, t1 + IZR j, t2 + IZR k) in
  are_equal op shifted true rtol atol = true /\
  are_equal shifted op true rtol atol = true /\
  are_equal op op false rtol atol = true /\
  (atol + rtol * Rabs (t0 + IZR i) < Rabs (IZR i) ->
   are_equal op shifted false rtol atol = false).
Proof.
  intros Hr Ha. destruct op as [m [[t0 t1] t2]]. cbn [translation_vector rotation_matrix].
  unfold are_equal. cbn [translation_vector rotation_matrix negb].
  rewrite (allclose_refl rtol atol (entries m) Hr Ha). cbn [negb vsub vmap].
  assert (Hround : forall t z, np_round (t - (t + IZR z)) = t - (t + IZR z)).
  { intros t z. replace (t - (t + IZR z)) with (IZR (- z)) by (rewrite opp_IZR; ring).
    apply np_round_IZR. }
  assert (Hround' : forall t z, np_round (t + IZR z - t) = t + IZR z - t).
  { intros t z. replace (t + IZR z - t) with (IZR z) by ring. apply np_round_IZR. }
  rewrite !Hround, !Hround'. rewrite !allclose_refl by assumption.
  repeat split. intros Hfar. cbn [ventries allclose].
  rewrite Rleb_false; [reflexivity |].
  replace (t0 - (t0 + IZR i)) with (- IZR i) by ring. rewrite Rabs_Ropp. lra.
Qed.


Lemma shear_loop_spec (width : R) (zs zs' : list R) (mat : mat3) :
  shear_loop width zs = Some (mat, zs') ->
  exists a b c, mat = ((1, a, b), (a, 1, c), (b, c, 1)) /\ det3 mat <> 0 /\
    exists rejected z1 z2 z3, zs = rejected ++ z1 :: z2 :: z3 :: zs' /\
      a = width * z1 /\ b = width * z2 /\ c = width * z3 /\
      (length rejected mod 3 = 0)%nat.
Proof.
  remember (length zs) as n eqn:Hn. revert zs Hn.
  induction n as [n IH] using lt_wf_ind. intros zs Hn.
  destruct zs as [| z1 [| z2 [| z3 zs]]]; cbn [shear_loop]; try discriminate.
  destruct (Reqb (det3 _) 0) eqn:E; intros H.
  - destruct (IH (length zs) ltac:(simpl in Hn; lia) zs eq_refl H)
      as (a & b & c & Hm & Hd & rej & y1 & y2 & y3 & -> & Ha & Hb & Hc & Hl).
    exists a, b, c. split; [assumption |]. split; [assumption |].
    exists (z1 :: z2 :: z3 :: rej), y1, y2, y3. repeat split; try assumption.
    change (length (z1 :: z2 :: z3 :: rej)) with (3 + length rej)%nat.
    rewrite Nat.Div0.add_mod by lia. rewrite Hl. reflexivity.
  - inversion H; subst. do 3 eexists. split; [reflexivity |]. split.
    + intros H0. apply Reqb_true in H0. congruence.
    + exists [], z1, z2, z3. repeat split; ring.
Qed.

(** X14.  Every matrix [random_shear_matrix(width)] returns is symmetric
    with ones on its diagonal and a determinant that is not 0; its three
    off-diagonal entries are width times three consecutive normal draws,
    after a whole number of rejected triples.  A negative width raises
    ValueError (numpy refuses the scale).  [random_vector()] returns three
    strictly positive components. *)
Theorem random_shear_matrix_symmetric (width : R) (w : world) :
  (forall mat w', random_shear_matrix width w = Ok mat w' ->
     transpose mat = mat /\ det3 mat <> 0 /\ 0 <= width /\
     exists z1 z2 z3 rejected,
       mat = ((1, width * z1, width * z2), (width * z1, 1, width * z3),
              (width * z2, width * z3, 1)) /\
       normals w = rejected ++ z1 :: z2 :: z3 :: normals w' /\
       (length rejected mod 3 = 0)%nat) /\
  (width < 0 -> random_shear_matrix width w = Raised ValueError) /\
  (forall v w', random_vector w = Ok v w' ->
     let '(v0, v1, v2) := v in 0 < v0 /\ 0 < v1 /\ 0 < v2).
Proof.
  split; [| split].
  - intros mat w'. unfold random_shear_matrix.
    destruct (Rltb width 0) eqn:Ew; [discriminate |].
    destruct (shear_loop width (normals w)) as [[m zs] |] eqn:E; [| discriminate].
    intros H. inversion H; subst. apply shear_loop_spec in E.
    destruct E as (a & b & c & -> & Hd & rej & z1 & z2 & z3 & Hn & -> & -> & -> & Hl).
    split; [reflexivity |]. split; [exact Hd |]. split.
    + destruct (Rlt_dec width 0) as [Hlt |]; [| lra].
      apply Rltb_true in Hlt. congruence.
    + exists z1, z2, z3, rej. auto.
  - intros Hlt. unfold random_shear_matrix. now rewrite (Rltb_true _ _ Hlt).
  - intros v w' H. apply random_vector_Ok in H.
    destruct H as (v0 & v1 & v2 & -> & H). exact H.
Qed.

(** X7.  When [jk_from_i] finds the place of the index i, it prints
    nothing, the place exists in the organized list and holds the i-th
    element of the flattened list, and [i_from_jk] maps the place back
    to i. *)
Theorem jk_from_i_round_trip {A : Type} (i : Z) (olist : list (list A)) (j k : nat)
    (out : list notice) :
  jk_from_i i olist = (out, Some (j, k)) ->
  out = [] /\ valid_place olist j k /\ (0 <= i)%Z /\
  nth_error (concat olist) (Z.to_nat i) = nth_error (nth j olist []) k /\
  i_from_jk (Z.of_nat j) (Z.of_nat k) olist = Some i.
Proof.
  unfold jk_from_i, i_from_jk. intros H.
  destruct (jk_rows i (-1) 0 olist) as [[j' k'] |] eqn:E; [| discriminate].
  inversion H; subst. apply jk_rows_spec in E.
  destruct E as (_ & Hv & Hi). rewrite Nat.sub_0_r in Hv, Hi.
  split; [reflexivity |]. split; [assumption |]. split; [lia |]. split.
  - replace (Z.to_nat i) with (flat_index olist j k) by lia.
    now apply flat_index_nth.
  - apply ijk_rows_spec. exists j, k. rewrite Nat.sub_0_r. repeat split; try apply Hv; lia.
Qed.

(** X8.  When [i_from_jk] returns a number for the place j, k, the two
    indices are not negative and [jk_from_i] maps the number back to the
    place, printing nothing. *)
Theorem i_from_jk_round_trip {A : Type} (j k : Z) (olist : list (list A)) (n : Z) :
  i_from_jk j k olist = Some n ->
  exists j' k', j = Z.of_nat j' /\ k = Z.of_nat k' /\ valid_place olist j' k' /\
    jk_from_i n olist = ([], Some (j', k')).
Proof.
  unfold i_from_jk, jk_from_i. intros H. apply ijk_rows_spec in H.
  destruct H as (j' & k' & Hj & Hk & _ & Hv & Hn). rewrite Nat.sub_0_r in Hv, Hn.
  exists j', k'. split; [assumption |]. split; [assumption |]. split; [assumption |].
  assert (E : jk_rows n (-1) 0 olist = Some (j', k')).
  { apply jk_rows_spec. rewrite Nat.sub_0_r. repeat split; try apply Hv; lia. }
  now rewrite E.
Qed.

(** X9.  [jk_from_i] finds a place exactly for the indices from 0 to the
    number of elements of the organized list minus one; for a negative
    index and for an index past the end it prints its error line and
    returns [None]. *)
Theorem jk_from_i_range {A : Type} (i : Z) (olist : list (list A)) :
  ((0 <= i < Z.of_nat (length (concat olist)))%Z ->
   exists j k, jk_from_i i olist = ([], Some (j, k))) /\
  ((i < 0 \/ Z.of_nat (length (concat olist)) <= i)%Z ->
   jk_from_i i olist = ([JkError], None)).
Proof.
  unfold jk_from_i. split.
  - intros Hi. destruct (flat_index_exists olist (Z.to_nat i) ltac:(lia)) as (j & k & Hv & Hf).
    exists j, k.
    assert (E : jk_rows i (-1) 0 olist = Some (j, k)).
    { apply jk_rows_spec. rewrite Nat.sub_0_r. repeat split; try apply Hv; lia. }
    now rewrite E.
  - intros Hi. destruct (jk_rows i (-1) 0 olist) as [[j k] |] eqn:E; [| reflexivity].
    exfalso. apply jk_rows_spec in E. destruct E as (_ & Hv & Hn).
    rewrite Nat.sub_0_r in Hv, Hn. destruct (flat_index_nth olist j k Hv) as [Hlt _]. lia.
Qed.

(** X10.  For an index whose letter lies inside the table of letters (the
    indices from length - 27 to length - 1, where length is the number of
    Wyckoff positions of the group), [letter_from_index] returns a letter
    that [index_from_letter] maps back to the index. *)
Theorem letter_from_index_round_trip (index sg : Z) :
  (0 <= Z.of_nat (length (wyckoff_table sg)) - 1 - index <= 26)%Z ->
  exists letter,
    letter_from_index index sg = Val letter /\
    index_from_letter letter sg = Val index.
Proof.
  intros H. unfold letter_from_index, index_from_letter.
  destruct (py_index_inside letters (Z.of_nat (length (wyckoff_table sg)) - 1 - index))
    as (letter & -> & Hnth); [change (length letters) with 27%nat; lia |].
  exists letter. split; [reflexivity |].
  rewrite (letters_distinct _ _ Hnth). f_equal. lia.
Qed.

(** X11.  Whatever index [index_from_letter] returns for a letter,
    [letter_from_index] maps it back to the letter; the index lies between
    length - 27 and length - 1. *)
Theorem index_from_letter_round_trip (letter : ascii) (sg index : Z) :
  index_from_letter letter sg = Val index ->
  letter_from_index index sg = Val letter /\
  (Z.of_nat (length (wyckoff_table sg)) - 27 <= index
   <= Z.of_nat (length (wyckoff_table sg)) - 1)%Z.
Proof.
  unfold index_from_letter, letter_from_index. intros H.
  destruct (str_index letter letters) as [p |] eqn:E; [| discriminate].
  inversion H; subst. clear H. apply str_index_sound in E.
  assert (Hp : (p < 27)%nat).
  { change 27%nat with (length letters). apply nth_error_Some. congruence. }
  split; [| lia].
  destruct (py_index_inside letters (Z.of_nat p)) as (x & Hx & Hnth);
    [change (length letters) with 27%nat; lia |].
  replace (Z.of_nat (length (wyckoff_table sg)) - 1
           - (Z.of_nat (length (wyckoff_table sg)) - 1 - Z.of_nat p))%Z
    with (Z.of_nat p) by lia.
  rewrite Hx. rewrite Nat2Z.id in Hnth. congruence.
Qed.

(** ** crystal.py: distances, lattices, Wyckoff lists *)

(** X12.  [verify_distances] returns [True] exactly when every atom has a
    species and no two atoms are too close (closer, images included, than
    [factor] times the mean of their covalent radii); when it returns
    [False] two such atoms exist; and the only exception of its own is the
    IndexError of a species list shorter than the coordinates. *)
Theorem verify_distances_spec (coordinates : list vec3) (species : list string)
    (lattice : mat3) (factor : R) :
  let far_apart :=
    forall i j c1 c2 s1 s2, (i < j)%nat ->
      nth_error coordinates i = Some c1 -> nth_error coordinates j = Some c2 ->
      nth_error species i = Some s1 -> nth_error species j = Some s2 ->
      ~ too_close lattice factor c1 s1 c2 s2 in
  (verify_distances coordinates species lattice factor = Val true <->
   (length coordinates <= length species)%nat /\ far_apart) /\
  (verify_distances coordinates species lattice factor = Val false -> ~ far_apart) /\
  (forall e, verify_distances coordinates species lattice factor = Exn e ->
     e = IndexError /\ (length species < length coordinates)%nat).
Proof.
  intros far_apart. unfold verify_distances.
  pose proof (verify_outer_spec species lattice factor 0 coordinates) as H.
  destruct (verify_outer species lattice factor 0 coordinates) as [[|] | e].
  - destruct H as [Hlen Hfar]. split; [| split].
    + split; [| reflexivity]. intros _. split.
      * destruct Hlen as [Hlen | ->]; simpl in *; lia.
      * exact Hfar.
    + discriminate.
    + discriminate.
  - destruct H as (t & u & c1 & c2 & s1 & s2 & H1 & H2 & H3 & H4 & H5 & H6).
    assert (Hnot : ~ far_apart).
    { intros Hfar. exact (Hfar t u c1 c2 s1 s2 H1 H2 H3 H4 H5 H6). }
    split; [| split].
    + split; [discriminate |]. intros [_ Hfar]. contradiction.
    + intros _. exact Hnot.
    + discriminate.
  - destruct H as [-> Hlen]. split; [| split].
    + split; [discriminate |]. intros [Hle _]. simpl in Hlen. lia.
    + discriminate.
    + intros e' He'. inversion He'. split; [reflexivity | exact Hlen].
Qed.


Lemma gaussian_loop_spec (center ratio min max : R) (zs zs' : list R) (x : R) :
  gaussian_loop center ratio min max zs = Some (x, zs') ->
  min < x < max /\
  exists rejected z, zs = rejected ++ z :: zs' /\ x = center + ratio * z /\
    Forall (fun z' => ~ min < center + ratio * z' < max) rejected.
Proof.
  induction zs as [| z zs IH]; cbn [gaussian_loop]; [discriminate |].
  destruct (Rltb min (center + ratio * z)) eqn:E1;
    [destruct (Rltb (center + ratio * z) max) eqn:E2 |]; cbn [andb]; intros H.
  - inversion H; subst. apply Rltb_iff in E1, E2. split; [lra |].
    exists [], z. repeat split; constructor.
  - destruct (IH H) as (Hx & rej & z0 & -> & Hz0 & Hrej). split; [exact Hx |].
    exists (z :: rej), z0. repeat split; [assumption |]. constructor; [| assumption].
    intros [_ Hlt]. apply Rltb_true in Hlt. congruence.
  - destruct (IH H) as (Hx & rej & z0 & -> & Hz0 & Hrej). split; [exact Hx |].
    exists (z :: rej), z0. repeat split; [assumption |]. constructor; [| assumption].
    intros [Hlt _]. apply Rltb_true in Hlt. congruence.
Qed.

Lemma gaussian_loop_some (center ratio min max : R) (zs : list R) :
  Exists (fun z => min < center + ratio * z < max) zs ->
  exists x zs', gaussian_loop center ratio min max zs = Some (x, zs').
Proof.
  induction 1 as [z zs [H1 H2] | z zs _ IH]; cbn [gaussian_loop].
  - rewrite (Rltb_true _ _ H1), (Rltb_true _ _ H2). cbn [andb]. eauto.
  - destruct (Rltb min _ && Rltb _ max); eauto.
Qed.

(** X13.  [gaussian(min, max)] returns exactly when some draw of the
    normal generator, scaled to the centre (max+min)/2 and the deviation
    |max-min|/6, lands strictly between min and max; the value returned
    is the first such draw, so it lies strictly between min and max, and
    only the normal generator is consumed.  With max <= min no draw is
    ever accepted. *)
Theorem gaussian_between (min max : R) (w : world) :
  let place z := (max + min) * (1 / 2) + Rabs (max - min) * (1 / 2) / 3 * z in
  (forall x w', gaussian min max w = Ok x w' ->
     min < x < max /\
     uniforms w' = uniforms w /\ picks w' = picks w /\ stdout w' = stdout w /\
     exists rejected z, normals w = rejected ++ z :: normals w' /\ x = place z /\
       Forall (fun z' => ~ min < place z' < max) rejected) /\
  (Exists (fun z => min < place z < max) (normals w) ->
   exists x w', gaussian min max w = Ok x w') /\
  (max <= min -> gaussian min max w = Starved).
Proof.
  intros place. unfold gaussian. split; [| split].
  - intros x w' H.
    destruct (gaussian_loop _ _ min max (normals w)) as [[x0 zs] |] eqn:E; [| discriminate].
    inversion H; subst. apply gaussian_loop_spec in E.
    destruct E as (Hx & rej & z & Hn & Hz & Hrej).
    split; [exact Hx |]. repeat split. exists rej, z. cbn [set_normals normals]. auto.
  - intros Hex. destruct (gaussian_loop_some _ _ min max (normals w) Hex) as (x & zs & ->).
    eauto.
  - intros Hle.
    destruct (gaussian_loop _ _ min max (normals w)) as [[x0 zs] |] eqn:E; [| reflexivity].
    apply gaussian_loop_spec in E. lra.
Qed.

(** X15.  [get_wyckoffs(sg, organized=True)] raises IndexError for a group
    with an empty table; otherwise it returns the positions of the table in
    their order, cut into groups: flattening the result gives the table
    back, no group is empty, the positions of a group share one
    multiplicity, and two consecutive groups never have the same
    multiplicity. *)
Theorem get_wyckoffs_organized_groups (sg : Z) :
  (wyckoff_table sg = [] -> get_wyckoffs_organized sg = Exn IndexError) /\
  (wyckoff_table sg <> [] ->
   exists ws, get_wyckoffs_organized sg = Val ws /\
     concat ws = wyckoff_table sg /\ organized ws /\ ws <> [] /\
     no_repeat (map group_multiplicity ws)).
Proof. exact (get_wyckoffs_organized_spec sg). Qed.

(** X17.  [distance] returns the least length among the images of the
    difference reduced by rounding: it is attained at one of the offsets of
    [create_matrix(PBC)] and below the length at every one of them, so it is
    never negative and never exceeds the length of the reduced difference
    itself; and the difference and its opposite are at the same distance,
    whatever the lattice and the PBC setting. *)
Theorem distance_minimum (xyz : vec3) (lattice : mat3) (PBC : option nat) :
  let reduced := vsub xyz (vmap np_round xyz) in
  (exists m, In m (create_matrix PBC) /\
     distance xyz lattice PBC = norm (vecmat (vadd m reduced) lattice)) /\
  (forall m, In m (create_matrix PBC) ->
     distance xyz lattice PBC <= norm (vecmat (vadd m reduced) lattice)) /\
  0 <= distance xyz lattice PBC <= norm (vecmat reduced lattice) /\
  distance (vmap Ropp xyz) lattice PBC = distance xyz lattice PBC.
Proof.
  intros reduced. destruct (distance_least xyz lattice PBC) as [Hat Hle].
  fold reduced in Hat, Hle. split; [exact Hat |]. split; [exact Hle |]. split.
  - split.
    + destruct Hat as (m & _ & ->). apply norm_nonneg.
    + specialize (Hle (0, 0, 0) (create_matrix_origin PBC)).
      replace (vadd (0, 0, 0) reduced) with reduced in Hle; [exact Hle |].
      destruct reduced as [[x y] z]. simpl. repeat (apply pair_equal_spec; split); ring.
  - destruct (distance_least (vmap Ropp xyz) lattice PBC) as [Hat' Hle'].
    assert (Hred : vsub (vmap Ropp xyz) (vmap np_round (vmap Ropp xyz)) = vmap Ropp reduced).
    { unfold reduced. destruct xyz as [[x y] z]. cbn [vmap vsub]. rewrite !np_round_odd.
      repeat (apply pair_equal_spec; split); ring. }
    rewrite Hred in Hat', Hle'.
    assert (Hflip : forall m, norm (vecmat (vadd m (vmap Ropp reduced)) lattice)
                              = norm (vecmat (vadd (vmap Ropp m) reduced) lattice)).
    { intros m. rewrite <- (norm_opp (vecmat (vadd (vmap Ropp m) reduced) lattice)).
      rewrite <- vecmat_opp. f_equal. f_equal.
      destruct m as [[i j] k], reduced as [[x y] z]. simpl.
      repeat (apply pair_equal_spec; split); ring. }
    apply Rle_antisym.
    + destruct Hat as (m & Hm & ->).
      specialize (Hle' (vmap Ropp m) (create_matrix_opp PBC m Hm)).
      rewrite Hflip in Hle'.
      replace (vmap Ropp (vmap Ropp m)) with m in Hle'; [exact Hle' |].
      destruct m as [[i j] k]. simpl. repeat (apply pair_equal_spec; split); ring.
    + destruct Hat' as (m & Hm & ->). rewrite Hflip.
      apply Hle. now apply create_matrix_opp.
Qed.

(** X18.  For a candidate orbit with at least one point and placed orbits
    that are not empty, [check_distance] returns, and it returns [True]
    exactly when every point of every placed orbit that has a species
    (orbits beyond the end of the species list are not looked at) is, in
    Cartesian coordinates, at least d_factor times the mean of the two
    covalent radii away from every image of every candidate point. *)
Theorem check_distance_spec (coord1 : list (list vec3)) (coord2 : list vec3)
    (specie1 : list string) (specie2 : string) (lattice : mat3) (PBC : option nat)
    (d_factor : R) :
  coord2 <> [] -> Forall (fun coord => coord <> []) coord1 ->
  exists b, check_distance coord1 coord2 specie1 specie2 lattice PBC d_factor = Val b /\
    (b = true <->
     forall coord element p q m,
       In (coord, element) (combine coord1 specie1) -> In p coord ->
       In q coord2 -> In m (create_matrix PBC) ->
       d_factor * (1 / 2) * (covalent_radius element + covalent_radius specie2)
       <= norm (vsub (vecmat p lattice) (vecmat (vadd q m) lattice))).
Proof.
  exact (check_distance_far coord1 coord2 specie1 specie2 lattice PBC d_factor).
Qed.

(** X19.  On an undirected graph of n vertices (one neighbour list per
    vertex, naming vertices below n, every edge recorded at both ends, as
    [find_short_dist] builds it) [connected_components] returns the
    partition of the vertices into connected components: every vertex from
    0 to n-1 occurs exactly once in the sets returned, no set is empty,
    and for a vertex i of a set, the set holds exactly the vertices reached
    from i along edges. *)
Theorem connected_components_partition (n : nat) (graph : list (list nat)) :
  graph_on n graph -> undirected graph ->
  exists sets, connected_components graph = Val sets /\
    NoDup (concat sets) /\
    (forall i, In i (concat sets) <-> (i < n)%nat) /\
    Forall (fun comp => comp <> []) sets /\
    (forall comp i j, In comp sets -> In i comp -> (In j comp <-> reach graph i j)).
Proof. exact (connected_components_classes n graph). Qed.

(** X20.  [find_short_dist] keeps exactly the pairs i1 < i2 whose distance
    is at most tol and within 0.001 of the shortest such distance, each
    with its distance; no pair is kept exactly when no two points are
    within tol.  The graph has one neighbour list per point, is
    undirected, and y is a neighbour of x exactly when the pair of x and y
    was kept. *)
Theorem find_short_dist_shortest (coor : list vec3) (lattice : mat3) (tol : R) :
  let dist i1 i2 :=
    distance (vsub (nth i1 coor (0, 0, 0)) (nth i2 coor (0, 0, 0))) lattice None in
  let '(pairs, graph) := find_short_dist coor lattice tol in
  (forall i1 i2 d, In (i1, i2, d) pairs <->
     (i1 < i2 < length coor)%nat /\ d = dist i1 i2 /\ d <= tol /\
     forall j1 j2, (j1 < j2 < length coor)%nat -> dist j1 j2 <= tol ->
       d <= dist j1 j2 + 1 / 1000) /\
  (pairs = [] <-> ~ short_pair coor lattice tol) /\
  graph_on (length coor) graph /\ undirected graph /\
  (forall x y, In y (nth x graph []) <-> exists d, In (x, y, d) pairs \/ In (y, x, d) pairs).
Proof. exact (find_short_dist_kept coor lattice tol). Qed.

(** X21.  With the default [PBC=None], [merge_coordinate] never merges:
    whenever it returns, it returns the list it was given, either with the
    verdict of [check_wyckoff_position] on that list (no two points within
    tol), or with False (two points within tol and no more points than the
    smallest multiplicity).  When two points are within tol and the list
    is longer than the smallest multiplicity, the call does not return:
    [get_center] raises TypeError at [center[PBC-1]], or NameError when no
    image is closer than 10. *)
Theorem merge_coordinate_without_PBC (coor : list vec3) (lattice : mat3)
    (wyckoff : list (list wyckoff_position)) (sg : Z) (tol : R) :
  (forall c index, merge_coordinate coor lattice wyckoff sg tol None = Val (c, index) ->
     c = coor /\
     ((~ short_pair coor lattice tol /\ check_wyckoff_position coor sg = Val index) \/
      (short_pair coor lattice tol /\ index = None /\
       exists smallest, smallest_multiplicity wyckoff = Val smallest /\
                        (length coor <= smallest)%nat))) /\
  (forall smallest, short_pair coor lattice tol ->
     smallest_multiplicity wyckoff = Val smallest -> (smallest < length coor)%nat ->
     exists e, merge_coordinate coor lattice wyckoff sg tol None = Exn e /\
               (e = TypeError \/ e = NameError)).
Proof. exact (merge_coordinate_None coor lattice wyckoff sg tol). Qed.



(** X24.  [check_compatible] accepts (returns True or 0) only counts that
    are all multiples of the smallest multiplicity len(wyckoffs[-1][0]);
    and for an empty list of counts it can only return 0, never True. *)
Theorem check_compatible_divisible (wyckoffs : list (list wyckoff_position))
    (numIons : list Z) (r : compatibility) (n : nat) :
  check_compatible wyckoffs numIons = Val r -> r <> Incompatible ->
  smallest_multiplicity wyckoffs = Val n -> (0 < n)%nat ->
  Forall (fun numIon => (numIon mod Z.of_nat n = 0)%Z) numIons /\
  (numIons = [] -> r = NoFreedom).
Proof.
  intros H Hr Hn Hpos. unfold check_compatible in H.
  apply exc_bind_Val in H. destruct H as (sites & _ & H). split.
  - pose proof (check_counts_accepts wyckoffs n Hn numIons false [] r H Hr) as Hall.
    eapply Forall_impl; [| exact Hall]. intros numIon Hle. unfold np_mod in Hle.
    destruct (Z.eqb_spec (Z.of_nat n) 0); [lia |].
    pose proof (Z.mod_pos_bound numIon (Z.of_nat n) ltac:(lia)). lia.
  - intros ->. cbn [check_counts] in H. now inversion H.
Qed.


(** X26.  In a structure that the generator marks valid, atoms of
    different orbits keep their distance: the coordinates are the orbits
    placed one after the other, and every point of an orbit is, in
    Cartesian coordinates of the accepted cell, at least the mean of the
    two covalent radii away from every point of every later orbit and from
    its images in the 26 neighbouring cells. *)
Theorem random_crystal_separated (sg : Z) (species : list string) (numIons0 : list Z)
    (factor : R) (w w' : world) (g : generated) :
  random_crystal sg species numIons0 factor w = Ok g w' ->
  valid g = true ->
  exists cell_matrix total,
    g = finish cell_matrix total /\
    coordinates g = concat (placed_coordinates total) /\
    length (placed_coordinates total) = length (placed_sites total) /\
    Forall (fun orbit => orbit <> []) (placed_coordinates total) /\
    separated cell_matrix total.
Proof.
  intros H Hvalid.
  destruct (random_crystal_built _ _ _ _ _ _ _ H Hvalid)
    as (wyckoffs & cm & total & _ & -> & Htidy & Hb).
  destruct (built_tidy _ _ _ _ Hb) as [Hlen Hne].
  exists cm, total. split; [reflexivity |]. split.
  - unfold finish. cbn [coordinates]. now apply atoms_of_coordinates.
  - split; [exact Hlen |]. split; [exact Hne |]. now apply (built_separated sg wyckoffs).
Qed.

(** X27.  In a structure that the generator marks valid, every orbit is
    the image of one point under all the operations of one Wyckoff
    position of the group's table, wrapped into the unit cell: it was not
    merged (with the default PBC [merge_coordinate] cannot merge), no two
    of its points are within 1 of each other, images included, and
    [check_wyckoff_position] recognised it. *)
Theorem random_crystal_orbits (sg : Z) (species : list string) (numIons0 : list Z)
    (factor : R) (w w' : world) (g : generated) :
  random_crystal sg species numIons0 factor w = Ok g w' ->
  valid g = true ->
  exists cell_matrix orbits,
    lattice g = Some cell_matrix /\
    coordinates g = concat orbits /\
    Forall (fun orbit =>
              exists ops point index,
                In ops (wyckoff_table sg) /\
                orbit = map (fun op => wrap (operate op point)) ops /\
                ~ short_pair (map (fun op => operate op point) ops) cell_matrix 1 /\
                check_wyckoff_position (map (fun op => operate op point) ops) sg
                = Val (Some index))
           orbits.
Proof.
  intros H Hvalid.
  destruct (random_crystal_built _ _ _ _ _ _ _ H Hvalid)
    as (wyckoffs & cm & total & Hw & -> & Htidy & Hb).
  destruct (built_tidy _ _ _ _ Hb) as [Hlen _].
  exists cm, (placed_coordinates total). split; [reflexivity |]. split.
  - unfold finish. cbn [coordinates]. now apply atoms_of_coordinates.
  - assert (Hc : concat wyckoffs = wyckoff_table sg).
    { destruct (get_wyckoffs_organized_spec sg) as [Hempty Hfull].
      destruct (wyckoff_table sg) as [| wp0 rest] eqn:Et.
      - rewrite (Hempty eq_refl) in Hw. discriminate.
      - destruct Hfull as (ws & Hws & Hcc & _); [discriminate |].
        rewrite Hw in Hws. inversion Hws; subst. exact Hcc. }
    rewrite <- Hc. now apply (built_orbits sg wyckoffs).
Qed.

(** X28.  [generate_lattice_2d] never retries: with at least one attempt
    allowed it returns from the first round of its loop, and with none it
    raises NameError at the message that reads n.  For the identity
    permutation P = [1,2,3], a positive thickness and a volume that is not
    negative: in the tetragonal and hexagonal families (groups 75 to 194)
    it returns without drawing anything a cell with a = b and c the
    thickness whose matrix has the target volume as determinant; in the
    orthorhombic family (16 to 74) the cell it returns has the volume
    multiplied by the product of the three components of the random
    vector, exp(0.35*(z0+z1+z2)) for the three normal draws it consumes. *)
Theorem generate_lattice_2d_volume (sg : Z) (volume thickness minangle : R) (n : nat)
    (w : world) :
  0 < thickness -> 0 <= volume ->
  generate_lattice_2d sg volume thickness [1; 2; 3]%Z minangle 0 w = Raised NameError /\
  ((75 <= sg <= 194)%Z ->
   exists p m, generate_lattice_2d sg volume thickness [1; 2; 3]%Z minangle (S n) w = Ok p w /\
     cp_a p = cp_b p /\ cp_c p = thickness /\
     para2matrix p = Val m /\ det3 m = volume) /\
  ((16 <= sg <= 74)%Z ->
   forall p w', generate_lattice_2d sg volume thickness [1; 2; 3]%Z minangle (S n) w = Ok p w' ->
     exists z0 z1 z2 m,
       normals w = z0 :: z1 :: z2 :: normals w' /\ stdout w' = stdout w /\
       cp_c p = thickness /\ para2matrix p = Val m /\
       det3 m = volume * exp (35 / 100 * (z0 + z1 + z2))).
Proof.
  intros Ht Hv. split; [reflexivity |]. split.
  - intros Hsg. unfold generate_lattice_2d.
    replace (sg <=? 2)%Z with false by (symmetry; apply Z.leb_gt; lia).
    replace (sg <=? 15)%Z with false by (symmetry; apply Z.leb_gt; lia).
    replace (sg <=? 74)%Z with false by (symmetry; apply Z.leb_gt; lia).
    destruct (sg <=? 142)%Z.
    + unfold bind, lift, ret. rewrite fdiv_ok by lra.
      assert (Hq : 0 <= volume / thickness).
      { apply Rmult_le_pos; [exact Hv |]. left. now apply Rinv_0_lt_compat. }
      rewrite py_sqrt_ok by exact Hq. rewrite permute_para_identity.
      destruct (para2matrix_right (sqrt (volume / thickness)) (sqrt (volume / thickness))
                  thickness (PI / 2)) as (m & Hm & Hd); [rewrite sin_PI2; lra | lra |].
      do 2 eexists. split; [reflexivity |]. split; [reflexivity |]. split; [reflexivity |].
      split; [exact Hm |]. rewrite Hd, sin_PI2, sqrt_sqrt by exact Hq. field. lra.
    + replace (sg <=? 194)%Z with true by (symmetry; apply Z.leb_le; lia).
      assert (H3 : 0 < sqrt 3) by (apply sqrt_lt_R0; lra).
      unfold bind, lift, ret. rewrite fdiv_ok by lra. rewrite fdiv_ok by lra.
      assert (Hq : 0 <= volume / (sqrt 3 / 2) / thickness).
      { apply Rmult_le_pos; [| left; now apply Rinv_0_lt_compat].
        apply Rmult_le_pos; [exact Hv |]. left. apply Rinv_0_lt_compat. lra. }
      rewrite py_sqrt_ok by exact Hq. rewrite permute_para_identity.
      assert (Hsin : sin (PI / 3 * 2) = sqrt 3 / 2).
      { rewrite (Rmult_comm (PI / 3) 2). apply sin_2PI3. }
      destruct (para2matrix_right (sqrt (volume / (sqrt 3 / 2) / thickness))
                  (sqrt (volume / (sqrt 3 / 2) / thickness)) thickness (PI / 3 * 2))
        as (m & Hm & Hd); [rewrite Hsin; lra | lra |].
      do 2 eexists. split; [reflexivity |]. split; [reflexivity |]. split; [reflexivity |].
      split; [exact Hm |]. rewrite Hd, Hsin, sqrt_sqrt by exact Hq. field. lra.
  - intros Hsg p w' H. unfold generate_lattice_2d in H.
    replace (sg <=? 2)%Z with false in H by (symmetry; apply Z.leb_gt; lia).
    replace (sg <=? 15)%Z with false in H by (symmetry; apply Z.leb_gt; lia).
    replace (sg <=? 74)%Z with true in H by (symmetry; apply Z.leb_le; lia).
    apply bind_Ok in H. destruct H as ([[a b] gamma] & w1 & Hb & H).
    apply bind_Ok in Hb. destruct Hb as (vec & w2 & Hvec & Hb).
    apply random_vector_draws in Hvec.
    destruct Hvec as (z0 & z1 & z2 & zs & Hn & -> & ->).
    apply bind_Ok in Hb. destruct Hb as (q & w3 & Hq & Hb).
    apply lift_Ok in Hq. destruct Hq as [Hq ->]. apply fdiv_Val in Hq. destruct Hq as [_ Hq].
    apply bind_Ok in Hb. destruct Hb as (ratio & w4 & Hr & Hb).
    apply lift_Ok in Hr. destruct Hr as [Hr ->]. apply py_sqrt_Val in Hr.
    destruct Hr as [Hq0 Hr].
    apply ret_Ok in Hb. destruct Hb as [Hb ->]. inversion Hb; subst a b gamma.
    rewrite permute_para_identity in H. apply lift_Ok in H. destruct H as [H ->].
    inversion H; subst p. cbn [cp_c normals stdout].
    set (v0 := exp (0 + 35 / 100 * z0)) in *. set (v1 := exp (0 + 35 / 100 * z1)) in *.
    set (v2 := exp (0 + 35 / 100 * z2)) in *.
    destruct (para2matrix_right (v0 * ratio) (v1 * ratio) thickness (PI / 2))
      as (m & Hm & Hd); [rewrite sin_PI2; lra | lra |].
    exists z0, z1, z2, m. split; [exact Hn |]. split; [reflexivity |].
    split; [reflexivity |]. split; [exact Hm |].
    rewrite Hd, sin_PI2.
    replace (v0 * ratio * (v1 * ratio) * thickness * 1)
      with (v0 * v1 * thickness * (ratio * ratio)) by ring.
    rewrite Hr, sqrt_sqrt by exact Hq0. rewrite Hq.
    replace (35 / 100 * (z0 + z1 + z2))
      with ((0 + 35 / 100 * z0) + (0 + 35 / 100 * z1) + (0 + 35 / 100 * z2)) by ring.
    rewrite (exp_plus (0 + 35 / 100 * z0 + (0 + 35 / 100 * z1))).
    rewrite (exp_plus (0 + 35 / 100 * z0)). fold v0 v1 v2. field. lra.
Qed.

(** X29.  For a list of at least one point and a cell whose entry
    lattice[2][2] plus the vacuum is not 0, [Add_vacuum] returns the
    lattice with that entry increased by the vacuum and nothing else
    changed, and as many points as it was given: their first two
    components are unchanged, the mean of their third components is 1/2,
    and the difference of two third components times the new entry is the
    old difference times the old entry (distances along the axis are kept
    in length units). *)
Theorem Add_vacuum_centred (lattice : mat3) (coor : list vec3) (vacuum : R) :
  coor <> [] ->
  snd (snd lattice) + vacuum <> 0 ->
  exists coor',
    Add_vacuum lattice coor vacuum
    = Val ((fst (fst lattice), snd (fst lattice),
            (fst (fst (snd lattice)), snd (fst (snd lattice)), snd (snd lattice) + vacuum)),
           coor') /\
    length coor' = length coor /\
    np_mean (map (fun p => vget p 2) coor') = Val (1 / 2) /\
    (forall i p p', nth_error coor i = Some p -> nth_error coor' i = Some p' ->
       vget p' 0 = vget p 0 /\ vget p' 1 = vget p 1) /\
    (forall i j p q p' q',
       nth_error coor i = Some p -> nth_error coor' i = Some p' ->
       nth_error coor j = Some q -> nth_error coor' j = Some q' ->
       (vget p' 2 - vget q' 2) * (snd (snd lattice) + vacuum)
       = (vget p 2 - vget q 2) * snd (snd lattice)).
Proof.
  intros Hne Hnew. pose proof (Add_vacuum_value lattice coor vacuum Hne) as Hval.
  destruct lattice as [[r0 r1] [[l20 l21] old]]. cbn [fst snd] in *.
  specialize (Hval Hnew). cbv zeta in Hval.
  set (scaled := fun p : vec3 => vget p 2 * old / (old + vacuum)) in *.
  set (mean := fold_right Rplus 0 (map scaled coor) / INR (length coor)) in *.
  eexists. split; [exact Hval |].
  assert (Hn : INR (length coor) <> 0).
  { apply not_0_INR. destruct coor; [congruence | discriminate]. }
  assert (Hnth : forall i p p', nth_error coor i = Some p ->
            nth_error (map (fun p => vset p 2 (scaled p - mean + 1 / 2)) coor) i = Some p' ->
            p' = vset p 2 (scaled p - mean + 1 / 2)).
  { intros i p p' H1 H2. rewrite nth_error_map, H1 in H2. now inversion H2. }
  split; [apply length_map |]. split; [| split].
  - unfold np_mean. rewrite map_map, length_map, fold_left_Rplus, Rplus_0_l.
    rewrite fdiv_ok by exact Hn. f_equal.
    rewrite (map_ext _ (fun x => scaled x + (1 / 2 - mean)))
      by (intros [[x y] z]; unfold scaled; simpl; ring).
    rewrite <- (map_map scaled (fun z => z + (1 / 2 - mean))).
    rewrite sum_shift, length_map. unfold mean. field. exact Hn.
  - intros i p p' H1 H2. rewrite (Hnth i p p' H1 H2). destruct p as [[x y] z]. split; reflexivity.
  - intros i j p q p' q' H1 H2 H3 H4.
    rewrite (Hnth i p p' H1 H2), (Hnth j q q' H3 H4).
    destruct p as [[x y] z], q as [[x' y'] z']. unfold scaled. simpl. field. exact Hnew.
Qed.

(** X30.  For a point given by its coordinates, [site_symm] returns, in
    the order of gen_pos, one operation for every op of gen_pos that moves
    the point by a distance (images included) of at most tol: the rotation
    of op, with the translation of op corrected by the rounded
    displacement.  So the returned operation moves the point by the
    displacement minus its rounding; with the default lattice (the cubic
    cell of edge 1) that is a vector of length at most tol.  An operation
    that fixes the point exactly is returned as it is. *)
Theorem site_symm_fixes (point : vec3) (gen_pos : list SymmOp) (tol : R) (lattice : mat3) :
  site_symm point gen_pos tol lattice
  = map (fun op => mkSymmOp (rotation_matrix op)
                     (vsub (translation_vector op)
                           (vmap np_round (vsub (operate op point) point))))
        (filter (fun op => Rleb (distance (vsub (operate op point) point) lattice None) tol)
                gen_pos) /\
  (forall el, In el (site_symm point gen_pos tol lattice) ->
     exists op, In op gen_pos /\
       vsub (operate el point) point
       = vsub (vsub (operate op point) point)
              (vmap np_round (vsub (operate op point) point))) /\
  (forall el, In el (site_symm point gen_pos tol np_identity3) ->
     norm (vsub (operate el point) point) <= tol) /\
  (forall op, In op gen_pos -> operate op point = point -> 0 <= tol ->
     In op (site_symm point gen_pos tol lattice)).
Proof.
  assert (Hmove : forall op,
    vsub (operate (mkSymmOp (rotation_matrix op)
                     (vsub (translation_vector op)
                           (vmap np_round (vsub (operate op point) point)))) point) point
    = vsub (vsub (operate op point) point) (vmap np_round (vsub (operate op point) point))).
  { intros op. unfold operate. cbn [rotation_matrix translation_vector].
    destruct (matvec (rotation_matrix op) point) as [[x y] z].
    destruct (translation_vector op) as [[t0 t1] t2]. destruct point as [[p0 p1] p2].
    cbn [vadd vsub vmap]. repeat (apply pair_equal_spec; split); ring. }
  split; [apply site_symm_filter |]. split; [| split].
  - intros el Hel. apply site_symm_In in Hel. destruct Hel as (op & Hop & _ & ->).
    exists op. split; [exact Hop | apply Hmove].
  - intros el Hel. apply site_symm_In in Hel. destruct Hel as (op & Hop & Hd & ->).
    rewrite Hmove, <- distance_euclidean. exact Hd.
  - intros op Hop Hfix Htol. apply site_symm_In. exists op. split; [exact Hop |].
    rewrite Hfix.
    assert (Hz : vsub point point = (0, 0, 0)).
    { destruct point as [[p0 p1] p2]. simpl. repeat (apply pair_equal_spec; split); ring. }
    rewrite Hz. split.
    + rewrite distance_lattice_point; [exact Htol |].
      simpl. rewrite (np_round_zero 0) by reflexivity.
      repeat (apply pair_equal_spec; split); ring.
    + destruct op as [Rm [[t0 t1] t2]]. cbn [rotation_matrix translation_vector vmap vsub].
      rewrite (np_round_zero 0) by reflexivity. f_equal.
      repeat (apply pair_equal_spec; split); ring.
Qed.
End Generator.

(** * Worked examples *)

(** ** One carbon atom in P1 *)

Lemma example_volume_min : 27 / 8 < example_volume.
Proof. unfold example_volume. pose proof PI2_3_2. lra. Qed.

Lemma example_edge_min : 3 / 2 < cbrt example_volume.
Proof. apply cbrt_lower; [lra |]. pose proof example_volume_min. lra. Qed.

Lemma example_shear :
  random_shear_matrix (2 / 10) example_world
  = Ok identity_matrix (mkWorld [0; 0; 0] [7 / 10; 1 / 4; 1 / 2; 3 / 4] [0%nat] []).
Proof.
  unfold random_shear_matrix. rewrite Rltb_false by lra.
  unfold example_world, shear_loop; cbn [normals].
  rewrite Reqb_false by (simpl; lra).
  unfold set_normals; cbn [uniforms picks stdout]. f_equal.
  unfold identity_matrix. repeat (apply pair_equal_spec; split); lra.
Qed.

Lemma identity_matrix_para :
  matrix2para identity_matrix = Val (mkCellPara 1 1 1 (PI / 2) (PI / 2) (PI / 2)).
Proof.
  assert (N0 : norm (1, 0, 0) = 1) by (apply norm_unique; simpl; lra).
  assert (N1 : norm (0, 1, 0) = 1) by (apply norm_unique; simpl; lra).
  assert (N2 : norm (0, 0, 1) = 1) by (apply norm_unique; simpl; lra).
  unfold matrix2para, identity_matrix.
  rewrite (angle_acos (0, 1, 0) (0, 0, 1) 0), (angle_acos (1, 0, 0) (0, 0, 1) 0),
    (angle_acos (1, 0, 0) (0, 1, 0) 0);
    rewrite ?N0, ?N1, ?N2; simpl;
    try lra; try (unfold Rabs; destruct Rcase_abs; lra); try (field; lra).
  now rewrite acos_0.
Qed.

Lemma example_vector (zs : list R) (us : list R) (ks : list nat) (out : list message) :
  random_vector (mkWorld (0 :: 0 :: 0 :: zs) us ks out) = Ok (1, 1, 1) (mkWorld zs us ks out).
Proof.
  assert (E : exp (0 + 35 / 100 * 0) = 1) by (replace (0 + 35 / 100 * 0) with 0 by lra; apply exp_0).
  assert (H35 : 0 <= 35 / 100) by lra.
  unfold random_vector.
  rewrite (bind_ok _ _ _ _ _ (np_random_normal_ok 0 (35 / 100) _ _ _ _ _ H35)).
  rewrite (bind_ok _ _ _ _ _ (np_random_normal_ok 0 (35 / 100) _ _ _ _ _ H35)).
  rewrite (bind_ok _ _ _ _ _ (np_random_normal_ok 0 (35 / 100) _ _ _ _ _ H35)).
  unfold ret. now rewrite E.
Qed.

Lemma example_sample_cell :
  sample_cell 1 example_volume (PI / 6) (PI - PI / 6) example_world
  = Ok example_cell (mkWorld [] [7 / 10; 1 / 4; 1 / 2; 3 / 4] [0%nat] []).
Proof.
  unfold sample_cell. cbn [Z.leb Z.compare Pos.compare Pos.compare_cont].
  rewrite (bind_ok _ _ _ _ _ example_shear).
  rewrite (bind_ok _ _ _ _ _ (lift_ok _ _ _ identity_matrix_para)).
  cbn [cp_alpha cp_beta cp_gamma]. rewrite cos_PI2.
  assert (Hx : py_sqrt (1 - 0 ^ 2 - 0 ^ 2 - 0 ^ 2 + 2 * (0 * 0 * 0)) = Val 1).
  { rewrite py_sqrt_ok by lra. f_equal. apply sqrt_unique; lra. }
  rewrite (bind_ok _ _ _ _ _ (lift_ok _ _ _ Hx)).
  rewrite (bind_ok _ _ _ _ _ (example_vector _ _ _ _)).
  rewrite (bind_ok _ _ _ _ _ (lift_ok _ _ _ (fdiv_ok example_volume 1 R1_neq_R0))).
  unfold scaled_lengths, ret.
  assert (E1 : cbrt (1 * 1 * 1) = 1) by (apply cbrt_unique; lra).
  assert (E2 : example_volume / 1 = example_volume) by field.
  rewrite E1, E2. f_equal. unfold example_cell. f_equal; field.
Qed.
Lemma example_generate_lattice :
  generate_lattice 1 example_volume (3 / 2) (PI / 6) 10 100 example_world
  = Ok (Some example_cell) (mkWorld [] [7 / 10; 1 / 4; 1 / 2; 3 / 4] [0%nat] []).
Proof.
  pose proof example_edge_min as Ha. pose proof PI_RGT_0 as Hpi.
  assert (Hmax : cbrt example_volume * cbrt example_volume * cbrt example_volume / (3 / 2) ^ 2
                 = cbrt example_volume * cbrt example_volume * cbrt example_volume * (4 / 9))
    by field.
  assert (Hone : cbrt example_volume / cbrt example_volume = 1) by (field; lra).
  change 100%nat with (S 99).
  apply generate_lattice_first_try.
  - exact example_sample_cell.
  - lra.
  - unfold example_cell; cbn [cp_a cp_b cp_c]. rewrite Hmax.
    set (a := cbrt example_volume) in *. nra.
  - apply meets_requirements_intro; unfold example_cell, smallvec;
      cbn [cp_a cp_b cp_c cp_alpha cp_beta cp_gamma]; rewrite ?Hmax, ?Hone.
    + lra.
    + set (a := cbrt example_volume) in *. repeat split; nra.
    + rewrite Rmax_left by lra. rewrite cos_PI2.
      unfold Rmin. repeat destruct Rle_dec; lra.
    + lra.
    + lra.
Qed.

Lemma example_para2matrix : para2matrix example_cell = Val example_matrix.
Proof.
  pose proof example_edge_min as Ha.
  unfold para2matrix, example_cell; simpl. rewrite cos_PI2, sin_PI2.
  rewrite fdiv_ok by lra. simpl.
  rewrite py_sqrt_ok.
  2:{ set (a := cbrt example_volume) in *.
      replace (a * (0 - 0 * 0) / 1) with 0 by (field; lra). nra. }
  simpl. rewrite (sqrt_unique _ (cbrt example_volume)).
  - unfold example_matrix. apply f_equal. repeat (apply pair_equal_spec; split); field.
  - lra.
  - field.
Qed.

Lemma example_det : det3 example_matrix = example_volume.
Proof.
  unfold example_matrix, det3. 
  pose proof (cbrt_cube example_volume) as Hc.
  set (a := cbrt example_volume) in *. rewrite <- Hc. ring.
Qed.
Lemma example_choose_wyckoff :
  choose_wyckoff [[[identity_op]]] (1 - 0) (mkWorld [] [7 / 10; 1 / 4; 1 / 2; 3 / 4] [0%nat] [])
  = Ok (Some [identity_op]) (mkWorld [] [1 / 4; 1 / 2; 3 / 4] [] []).
Proof.
  unfold choose_wyckoff, rand, draw_uniform, bind, ret; cbn [uniforms normals picks stdout].
  rewrite Rltb_true by lra. reflexivity.
Qed.

Lemma example_random3 :
  np_random_random3 (mkWorld [] [1 / 4; 1 / 2; 3 / 4] [] []) = Ok example_point (mkWorld [] [] [] []).
Proof. reflexivity. Qed.

Lemma example_add_specie (c : nat) :
  add_specie example_check example_radius 1 [[[identity_op]]] (S c) 1 "C"
    (Rmax (1 / 2 * example_radius "C") tol_m) example_matrix nothing_placed nothing_placed 0
    (mkWorld [] [7 / 10; 1 / 4; 1 / 2; 3 / 4] [0%nat] [])
  = Ok (mkPlaced [[example_atom]] ["C"%string], mkPlaced [[example_atom]] ["C"%string], 1%Z)
       (mkWorld [] [] [] []).
Proof.
  apply (add_specie_first_try example_check example_radius 1 [[[identity_op]]] c 1 "C" _
           example_matrix nothing_placed nothing_placed 0
           (mkWorld [] [7 / 10; 1 / 4; 1 / 2; 3 / 4] [0%nat] [])
           (mkWorld [] [1 / 4; 1 / 2; 3 / 4] [] []) (mkWorld [] [] [] [])
           [identity_op] example_point
           [operate identity_op example_point] 0%nat).
  - exact example_choose_wyckoff.
  - exact example_random3.
  - apply merge_coordinate_single. reflexivity.
  - apply check_distance_nothing_placed. discriminate.
  - reflexivity.
Qed.

Lemma example_fill_lattice (c max3 : nat) :
  fill_lattice example_check example_radius 1 ["C"%string] [1%Z] [[[identity_op]]] (S c) (S max3)
    example_matrix nothing_placed None (mkWorld [] [7 / 10; 1 / 4; 1 / 2; 3 / 4] [0%nat] [])
  = Ok (mkPlaced [[example_atom]] ["C"%string], true, Some (1%Z, 1%Z)) (mkWorld [] [] [] []).
Proof.
  apply fill_lattice_first_try. cbn [combine].
  apply (add_species_single example_check example_radius 1 [[[identity_op]]] (S max3) 1 "C"
           example_matrix nothing_placed nothing_placed
           (mkPlaced [[example_atom]] ["C"%string]) (mkPlaced [[example_atom]] ["C"%string])).
  apply example_add_specie.
Qed.

Lemma example_estimate_volume :
  estimate_volume example_radius (map (fun numIon => (numIon * 1)%Z) [1%Z]) ["C"%string] 2
  = example_volume.
Proof. reflexivity. Qed.

Lemma example_minvector :
  Rmax (2 * example_radius "C") tol_m = 3 / 2.
Proof. unfold example_radius, tol_m. rewrite Rmax_left by lra. lra. Qed.

Lemma example_compatible : check_compatible [[[identity_op]]] [1%Z] = Val Compatible.
Proof.
  unfold check_compatible. cbn.
  unfold all_nonzero, identity_op at 1; cbn.
  rewrite !Reqb_false by lra. cbn. rewrite Reqb_true by reflexivity. cbn.
  rewrite Rleb_false by (replace (1 - 0) with 1 by ring; rewrite Rabs_R0, Rabs_R1; lra).
  reflexivity.
Qed.

Lemma example_generate_crystal :
  generate_crystal example_check example_radius example_number 1 ["C"%string] [1%Z]
    example_volume [[[identity_op]]] 30 30 30 example_world
  = Ok example_crystal (mkWorld [] [] [] []).
Proof.
  apply (generate_crystal_success _ _ _ _ _ _ _ _ _ _ _ (2 * example_radius "C")).
  - exact example_compatible.
  - reflexivity.
  - rewrite example_minvector.
    change example_crystal
      with (finish example_number example_matrix (mkPlaced [[example_atom]] ["C"%string])).
    apply (try_lattices_first_try _ _ _ _ _ _ _ _ 29 30 30 _ None (Some (1%Z, 1%Z)) _
             (mkWorld [] [7 / 10; 1 / 4; 1 / 2; 3 / 4] [0%nat] []) _ example_cell).
    + exact example_generate_lattice.
    + exact example_para2matrix.
    + exact example_det.
    + apply example_fill_lattice.
Qed.

Lemma example_run :
  random_crystal example_table example_check example_radius example_number example_symbol
    1 ["C"%string] [1%Z] 2 example_world
  = Ok example_crystal (mkWorld [] [] [] []).
Proof.
  rewrite (random_crystal_run _ _ _ _ _ _ _ _ _ 1 [[[identity_op]]]);
    [| reflexivity | reflexivity].
  rewrite example_estimate_volume. exact example_generate_crystal.
Qed.
Lemma coincident_short_dist :
  find_short_dist coincident_orbit example_lattice 1
  = ([(0%nat, 1%nat, 0)], [[1%nat]; [0%nat]]).
Proof.
  unfold find_short_dist, coincident_orbit, index_pairs.
  cbn [length Nat.sub seq flat_map map app nth].
  rewrite (distance_lattice_point _ _ _ origin_rounded).
  rewrite Rleb_true by lra.
  cbn [app map list_min fold_left filter snd].
  rewrite Rleb_true by lra.
  reflexivity.
Qed.

Lemma coincident_short_pair : short_pair coincident_orbit example_lattice 1.
Proof.
  apply find_short_dist_pairs. rewrite coincident_short_dist. simpl. lia.
Qed.

Lemma coincident_components : connected_components [[1%nat]; [0%nat]] = Val [[1%nat; 0%nat]].
Proof. reflexivity. Qed.

(** ** Two coincident points in P-1 *)

Lemma image_origin : norm (vecmat (vadd (0, 0, 0) (0, 0, 0)) example_lattice) = 0.
Proof. apply norm_zero. simpl. repeat (apply pair_equal_spec; split); ring. Qed.

Lemma image_nonzero (m : vec3) :
  m <> (0, 0, 0) -> vecmat (vadd m (0, 0, 0)) example_lattice <> (0, 0, 0).
Proof.
  destruct m as [[x y] z]. simpl. intros Hne H. apply Hne.
  injection H; intros Hz Hy Hx.
  repeat (apply pair_equal_spec; split); lra.
Qed.

Lemma origin_centre :
  get_center (take_rows coincident_orbit [1%nat; 0%nat]) example_lattice (Some 3%nat)
  = Val (0, 0, 1 / 2).
Proof.
  unfold get_center, take_rows, coincident_orbit. cbn [map nth].
  replace (vsub (0, 0, 0) (vmap np_round (0, 0, 0))) with ((0, 0, 0) : vec3).
  2:{ simpl. rewrite (np_round_zero 0) by reflexivity.
      repeat (apply pair_equal_spec; split); ring. }
  cbn [shift_atoms closest_image create_matrix flat_map map app hd tl].
  replace (vsub (0, 0, 0) (0, 0, 0)) with ((0, 0, 0) : vec3)
    by (simpl; repeat (apply pair_equal_spec; split); ring).
  match goal with
  | |- context [list_min ?x ?l] => rewrite (list_min_zero x l)
  end.
  2:{ right; right; right; right; left. apply image_origin. }
  2:{ repeat (constructor; [apply norm_nonneg |]). constructor. }
  rewrite Rltb_true by lra.
  cbn [index_of_first].
  do 4 (rewrite Reqb_false
          by (apply norm_positive, image_nonzero; intros H; injection H; intros; lra)).
  rewrite (Reqb_true _ 0 image_origin).
  cbn [nth exc_bind length]. rewrite fdiv_ok by (simpl; lra).
  cbn [exc_bind pbc_index].
  set (center := vscale _ _).
  assert (Hc : center = (0, 0, 0))
    by (unfold center; simpl; repeat (apply pair_equal_spec; split); field).
  rewrite Hc. cbn [vget vset]. rewrite Rabs_R0, Rltb_true by lra. reflexivity.
Qed.

Lemma coincident_merge :
  merge_coordinate example_check coincident_orbit example_lattice
    inversion_wyckoffs 2 1 (Some 3%nat)
  = Val ([(0, 0, 1 / 2)], Some 7%nat).
Proof.
  unfold merge_coordinate, inversion_wyckoffs. change (S (length coincident_orbit)) with 3%nat.
  cbn [merge_loop]. unfold merge_step at 1. rewrite coincident_short_dist.
  cbn [length Nat.ltb Nat.leb smallest_multiplicity rev app exc_bind coincident_orbit].
  unfold merge_candidate. rewrite coincident_components.
  cbn [exc_bind exc_map]. rewrite origin_centre.
  cbn [exc_bind example_check Z.eqb Pos.eqb].
  unfold merge_step.
  change (find_short_dist [(0, 0, 1 / 2)] example_lattice 1)
    with (@nil (nat * nat * R), [@nil nat]).
  reflexivity.
Qed.

Lemma example_organized_inversion :
  get_wyckoffs_organized example_table 2 = Val inversion_wyckoffs.
Proof. reflexivity. Qed.

Lemma example_organized_screw :
  get_wyckoffs_organized example_table 4 = Val screw_wyckoffs.
Proof. reflexivity. Qed.

(** ** The orbit of position 2a in P2_1/c *)

Lemma example_organized_glide :
  get_wyckoffs_organized example_table 14 = Val glide_wyckoffs.
Proof. reflexivity. Qed.

Lemma glide_short_pair : short_pair glide_orbit identity_matrix 1.
Proof.
  exists 0%nat, 1%nat. split; [lia |]. split; [simpl; lia |].
  unfold glide_orbit. cbn [nth]. unfold distance.
  eapply Rle_trans.
  - apply list_min_le_In.
    change (In ?y (norm (hd ?d ?l) :: map norm (tl ?l))) with (In y (map norm l)).
    apply in_map. apply in_map. apply (create_matrix_origin None).
  - cbn [vsub vmap]. rewrite np_round_minus_half, (np_round_zero (0 - 0)) by ring.
    unfold norm. apply Rle_trans with (sqrt 1); [| rewrite sqrt_1; lra].
    apply sqrt_le_1_alt. simpl. lra.
Qed.

Lemma glide_merge_fails :
  merge_coordinate accept_all glide_orbit identity_matrix glide_wyckoffs 14 1 None
  = Val (glide_orbit, None).
Proof.
  apply (merge_coordinate_nothing_smaller accept_all _ _ _ _ _ _ 2).
  - exact glide_short_pair.
  - reflexivity.
  - simpl. lia.
Qed.
(** * The claims on the worked examples *)





(** The orbit of two coincident points in P2_1: nothing smaller than the
    general position is left, and the merge fails. *)
Lemma merge_coordinate_failure_example :
  @None nat = None <->
  short_pair coincident_orbit example_lattice 1 /\
  exists smallest,
    smallest_multiplicity screw_wyckoffs = Val smallest /\
    ((length coincident_orbit <= smallest)%nat \/
     ((smallest < length coincident_orbit)%nat /\
      exists merged,
        merge_candidate coincident_orbit
          (snd (find_short_dist coincident_orbit example_lattice 1)) example_lattice None
          = Val merged
        /\ example_check merged 4 = Val None)).
Proof.
  apply (merge_coordinate_failure example_check coincident_orbit example_lattice screw_wyckoffs
           4 1 None coincident_orbit None).
  - exact coincident_short_pair.
  - apply (merge_coordinate_nothing_smaller example_check _ _ _ _ _ _ 2).
    + exact coincident_short_pair.
    + reflexivity.
    + simpl. lia.
Defined.

(** The same orbit in P-1, with the recognition of the examples. *)
Lemma merge_coordinate_terminates_example :
  merge_coordinate example_check coincident_orbit example_lattice inversion_wyckoffs 2 1
    (Some 3%nat) <> Exn OutOfFuel /\
  (forall c merged,
     merge_step example_check c example_lattice inversion_wyckoffs 2 1 (Some 3%nat)
       = Val (Again merged) ->
     (length merged < length c)%nat) /\
  (forall c,
     short_pair c example_lattice 1 ->
     exists groups,
       connected_components (snd (find_short_dist c example_lattice 1)) = Val groups /\
       (exists group, In group groups /\ (2 <= length group)%nat) /\
       (length groups < length c)%nat).
Proof.
  apply (merge_coordinate_terminates example_check coincident_orbit example_lattice
           inversion_wyckoffs 2 1 (Some 3%nat)).
  intros points. unfold example_check.
  destruct points as [| p [| q [| r rest]]]; discriminate.
Defined.

(** The only position of P1, one atom left to place. *)
Lemma choose_wyckoff_fits_example :
  exists res w',
    choose_wyckoff [[[identity_op]]] 1 example_world = Ok res w' /\
    (res = None <->
     forall g wp, In g [[[identity_op]]] -> In wp g -> (1 < multiplicity wp)%Z) /\
    (forall wp, res = Some wp ->
       (multiplicity wp <= 1)%Z /\ exists g, In g [[[identity_op]]] /\ In wp g).
Proof.
  apply (choose_wyckoff_fits [[[identity_op]]] 1 example_world (7 / 10) [1 / 4; 1 / 2; 3 / 4]
           0%nat []).
  - constructor; [| constructor]. simpl. intros w [<- | []]. reflexivity.
  - reflexivity.
  - reflexivity.
Defined.


(** The first atom of the P1 request. *)
Lemma check_distance_first_orbit_example :
  check_distance example_radius [] [example_atom] [] "C" example_matrix None 1 = Val true.
Proof.
  apply (check_distance_first_orbit example_radius [example_atom] [] "C" example_matrix None 1).
  discriminate.
Defined.

(** * Where the code departs from the specification *)

(** Two orbits on which [merge_coordinate] departs from the general
    position's multiplicity.  In P2_1/c the orbit of position 2a has two
    points, not the four of the general position; in a unit cubic cell they
    are closer than the tolerance 1, and [merge_coordinate] fails on them
    although the recognition accepts every list: no position has fewer than
    two points, so no candidate is formed.  In P-1 an orbit of two
    coincident points has as many points as the general position, and
    [merge_coordinate] does not fail on it: the smallest position of the
    group has one point only, so the orbit is merged onto the inversion
    centre 1b and returned with the index of that position. *)
Lemma merge_coordinate_multiplicity_guard :
  (get_wyckoffs_organized example_table 14 = Val glide_wyckoffs /\
   short_pair glide_orbit identity_matrix 1 /\
   length glide_orbit <> length (hd [] (example_table 14)) /\
   merge_coordinate accept_all glide_orbit identity_matrix glide_wyckoffs 14 1 None
   = Val (glide_orbit, None)) /\
  (get_wyckoffs_organized example_table 2 = Val inversion_wyckoffs /\
   short_pair coincident_orbit example_lattice 1 /\
   length coincident_orbit = length (hd [] (example_table 2)) /\
   merge_coordinate example_check coincident_orbit example_lattice inversion_wyckoffs 2 1
     (Some 3%nat)
   = Val ([(0, 0, 1 / 2)], Some 7%nat)).
Proof.
  split.
  - split; [exact example_organized_glide |].
    split; [exact glide_short_pair |].
    split; [simpl; lia | exact glide_merge_fails].
  - split; [exact example_organized_inversion |].
    split; [exact coincident_short_pair |].
    split; [reflexivity | exact coincident_merge].
Qed.

(** With no orbit placed and an empty candidate list, [check_distance]
    does not return [True]: [np.dot] refuses the empty array and raises
    ValueError. *)
Lemma check_distance_empty_candidate :
  check_distance example_radius [] [] [] "C" example_lattice None 1 = Exn ValueError /\
  check_distance example_radius [] [] [] "C" example_lattice None 1 <> Val true.
Proof.
  rewrite check_distance_no_candidate. split; [reflexivity | discriminate].
Qed.
(** * The further properties on examples *)


Lemma z_axis_nonzero : (0, 0, 1) <> ((0, 0, 0) : vec3).
Proof. intros H. inversion H. lra. Qed.

(** A rotation about the z axis. *)
Lemma aa2matrix_is_rotation_example :
  exists Q, aa2matrix (0, 0, 1) (PI / 2) = Val Q /\
            matmul Q (transpose Q) = np_identity3 /\
            matmul (transpose Q) Q = np_identity3 /\
            det3 Q = 1 /\
            matvec Q (0, 0, 1) = (0, 0, 1) /\
            is_orthogonal Q (1 / 1000) = true.
Proof.
  exact (aa2matrix_is_rotation (0, 0, 1) (PI / 2) z_axis_nonzero).
Defined.

(** Two quarter turns about the z axis. *)
Lemma aa2matrix_compose_example :
  exists Qs Qt,
    aa2matrix (0, 0, 1) (PI / 2) = Val Qs /\ aa2matrix (0, 0, 1) (PI / 2) = Val Qt /\
    aa2matrix (0, 0, 1) (PI / 2 + PI / 2) = Val (matmul Qs Qt) /\
    aa2matrix (0, 0, 1) 0 = Val np_identity3 /\
    aa2matrix (0, 0, 1) (- (PI / 2)) = Val (transpose Qs).
Proof.
  exact (aa2matrix_compose (0, 0, 1) (PI / 2) (PI / 2) z_axis_nonzero).
Defined.

(** The identity matrix with the default tolerance. *)
Lemma is_orthogonal_rows_example :
  is_orthogonal (transpose np_identity3) (1 / 1000) = is_orthogonal np_identity3 (1 / 1000) /\
  is_orthogonal np_identity3 (1 / 1000) = true.
Proof.
  destruct (is_orthogonal_rows np_identity3 (1 / 1000)) as (H1 & H2 & _); [lra |].
  split; [exact H1 |]. apply H2; unfold np_identity3; cbn [matmul transpose dot];
    repeat (apply pair_equal_spec; split); ring.
Defined.

(** The identity operation and its translate by one cell along a. *)
Lemma are_equal_integer_translation_example :
  let shifted := mkSymmOp identity_matrix (0 + IZR 1, 0 + IZR 0, 0 + IZR 0) in
  are_equal identity_op shifted true (1 / 1000) (1 / 1000) = true /\
  are_equal shifted identity_op true (1 / 1000) (1 / 1000) = true /\
  are_equal identity_op identity_op false (1 / 1000) (1 / 1000) = true /\
  (1 / 1000 + 1 / 1000 * Rabs (0 + IZR 1) < Rabs (IZR 1) ->
   are_equal identity_op shifted false (1 / 1000) (1 / 1000) = false).
Proof.
  apply (are_equal_integer_translation identity_op 1 0 0 (1 / 1000) (1 / 1000)); lra.
Defined.

(** Two groups, of two and one positions: the third position is the first
    of the second group. *)
Lemma jk_from_i_round_trip_example :
  ([] : list notice) = [] /\ valid_place [[10; 11]; [12]]%nat 1 0 /\ (0 <= 2)%Z /\
  nth_error (concat [[10; 11]; [12]]%nat) (Z.to_nat 2) = nth_error (nth 1%nat [[10; 11]; [12]]%nat []) 0 /\
  i_from_jk (Z.of_nat 1) (Z.of_nat 0) [[10; 11]; [12]]%nat = Some 2%Z.
Proof.
  apply (jk_from_i_round_trip 2 [[10; 11]; [12]]%nat 1 0 []). reflexivity.
Defined.

Lemma i_from_jk_round_trip_example :
  exists j' k', 1%Z = Z.of_nat j' /\ 0%Z = Z.of_nat k' /\
    valid_place [[10; 11]; [12]]%nat j' k' /\
    jk_from_i 2 [[10; 11]; [12]]%nat = ([], Some (j', k')).
Proof.
  apply (i_from_jk_round_trip 1 0 [[10; 11]; [12]]%nat 2). reflexivity.
Defined.

(** The nine positions of P-1: index 0, the general position, has the
    letter i. *)
Lemma letter_from_index_round_trip_example :
  exists letter,
    letter_from_index example_table 0 2 = Val letter /\
    index_from_letter example_table letter 2 = Val 0%Z.
Proof.
  apply (letter_from_index_round_trip example_table 0 2). vm_compute. split; discriminate.
Defined.

Lemma index_from_letter_round_trip_example :
  letter_from_index example_table 0 2 = Val "i"%char /\
  (Z.of_nat (length (example_table 2)) - 27 <= 0
   <= Z.of_nat (length (example_table 2)) - 1)%Z.
Proof.
  apply (index_from_letter_round_trip example_table "i"%char 2 0). reflexivity.
Defined.

Lemma x_axis_nonzero : (1, 0, 0) <> ((0, 0, 0) : vec3).
Proof. intros H. inversion H. lra. Qed.

Lemma y_axis_nonzero : (0, 1, 0) <> ((0, 0, 0) : vec3).
Proof. intros H. inversion H. lra. Qed.


Lemma one_point_orbit : [(1 / 2, 1 / 2, 1 / 2)] <> ([] : list vec3).
Proof. discriminate. Qed.

Lemma origin_orbits : Forall (fun coord : list vec3 => coord <> []) [[(0, 0, 0)]].
Proof. repeat constructor. discriminate. Qed.

(** A carbon atom at the centre of the cell against one at the origin. *)
Lemma check_distance_spec_example :
  exists b,
    check_distance example_radius [[(0, 0, 0)]] [(1 / 2, 1 / 2, 1 / 2)] ["C"%string]
      "C"%string example_lattice None 1 = Val b /\
    (b = true <->
     forall coord element p q m,
       In (coord, element) (combine [[(0, 0, 0)]] ["C"%string]) -> In p coord ->
       In q [(1 / 2, 1 / 2, 1 / 2)] -> In m (create_matrix None) ->
       1 * (1 / 2) * (example_radius element + example_radius "C"%string)
       <= norm (vsub (vecmat p example_lattice) (vecmat (vadd q m) example_lattice))).
Proof.
  exact (check_distance_spec example_radius [[(0, 0, 0)]] [(1 / 2, 1 / 2, 1 / 2)]
           ["C"%string] "C"%string example_lattice None 1 one_point_orbit origin_orbits).
Defined.

(** Three vertices, the first two joined. *)
Lemma joined_graph_on : graph_on 3 [[1%nat]; [0%nat]; []].
Proof. split; [reflexivity |]. repeat constructor. Qed.

Lemma joined_undirected : undirected [[1%nat]; [0%nat]; []].
Proof.
  intros [| [| [| x]]] y; simpl.
  - intros [<- | []]. simpl. now left.
  - intros [<- | []]. simpl. now left.
  - intros [].
  - destruct x; intros [].
Qed.

Lemma connected_components_partition_example :
  exists sets, connected_components [[1%nat]; [0%nat]; []] = Val sets /\
    NoDup (concat sets) /\
    (forall i, In i (concat sets) <-> (i < 3)%nat) /\
    Forall (fun comp => comp <> []) sets /\
    (forall comp i j, In comp sets -> In i comp ->
       (In j comp <-> reach [[1%nat]; [0%nat]; []] i j)).
Proof.
  exact (connected_components_partition 3 [[1%nat]; [0%nat]; []] joined_graph_on
           joined_undirected).
Defined.


Lemma example_edge_positive : 0 < cbrt example_volume.
Proof. pose proof example_edge_min. lra. Qed.

Lemma right_angle_range : 0 <= PI / 2 <= PI.
Proof. pose proof PI_RGT_0. lra. Qed.

Lemma example_clear_of_unit :
  clear_of_unit (cbrt example_volume * cbrt example_volume * cos (PI / 2)).
Proof.
  rewrite cos_PI2, Rmult_0_r. split; apply isclose_false.
  - rewrite Rabs_R1. replace (0 - 1) with (-1) by ring. rewrite Rabs_m1. lra.
  - rewrite Rabs_m1. replace (0 - -1) with 1 by ring. rewrite Rabs_R1. lra.
Qed.


Lemma compatible_accepted : Compatible <> Incompatible.
Proof. discriminate. Qed.

(** One atom in P1, whose only position has multiplicity 1. *)
Lemma check_compatible_divisible_example :
  Forall (fun numIon => (numIon mod Z.of_nat 1 = 0)%Z) [1%Z] /\
  ([1%Z] = [] -> Compatible = NoFreedom).
Proof.
  exact (check_compatible_divisible [[[identity_op]]] [1%Z] Compatible 1
           example_compatible compatible_accepted eq_refl Nat.lt_0_1).
Defined.

Lemma example_counts :
  forall numIon specie, In (numIon, specie) (combine [1%Z] ["C"%string]) ->
    (0 <= numIon)%Z /\ 0 < example_radius specie.
Proof.
  intros numIon specie [H | []]. inversion H; subst. split; [lia |].
  unfold example_radius. lra.
Qed.

Lemma example_count_positive :
  exists numIon specie, In (numIon, specie) (combine [1%Z] ["C"%string]) /\ (0 < numIon)%Z.
Proof. exists 1%Z, "C"%string. split; [now left | lia]. Qed.


(** The crystal of the P1 request. *)
Lemma random_crystal_separated_example :
  exists cell_matrix total,
    example_crystal = finish example_number cell_matrix total /\
    coordinates example_crystal = concat (placed_coordinates total) /\
    length (placed_coordinates total) = length (placed_sites total) /\
    Forall (fun orbit => orbit <> []) (placed_coordinates total) /\
    separated example_radius cell_matrix total.
Proof.
  exact (random_crystal_separated example_table example_check example_radius example_number
           example_symbol 1 ["C"%string] [1%Z] 2 example_world (mkWorld [] [] [] [])
           example_crystal example_run eq_refl).
Defined.

Lemma random_crystal_orbits_example :
  exists cell_matrix orbits,
    lattice example_crystal = Some cell_matrix /\
    coordinates example_crystal = concat orbits /\
    Forall (fun orbit =>
              exists ops point index,
                In ops (example_table 1) /\
                orbit = map (fun op => wrap (operate op point)) ops /\
                ~ short_pair (map (fun op => operate op point) ops) cell_matrix 1 /\
                example_check (map (fun op => operate op point) ops) 1 = Val (Some index))
           orbits.
Proof.
  exact (random_crystal_orbits example_table example_check example_radius example_number
           example_symbol 1 ["C"%string] [1%Z] 2 example_world (mkWorld [] [] [] [])
           example_crystal example_run eq_refl).
Defined.

(** A tetragonal layer of thickness 1 and volume 1. *)
Lemma generate_lattice_2d_volume_example :
  generate_lattice_2d example_symbol 75 1 1 [1; 2; 3]%Z (PI / 6) 0 example_world
  = Raised NameError /\
  ((75 <= 75 <= 194)%Z ->
   exists p m,
     generate_lattice_2d example_symbol 75 1 1 [1; 2; 3]%Z (PI / 6) 1 example_world
     = Ok p example_world /\
     cp_a p = cp_b p /\ cp_c p = 1 /\ para2matrix p = Val m /\ det3 m = 1) /\
  ((16 <= 75 <= 74)%Z ->
   forall p w',
     generate_lattice_2d example_symbol 75 1 1 [1; 2; 3]%Z (PI / 6) 1 example_world
     = Ok p w' ->
     exists z0 z1 z2 m,
       normals example_world = z0 :: z1 :: z2 :: normals w' /\
       stdout w' = stdout example_world /\
       cp_c p = 1 /\ para2matrix p = Val m /\
       det3 m = 1 * exp (35 / 100 * (z0 + z1 + z2))).
Proof.
  exact (generate_lattice_2d_volume example_symbol 75 1 1 (PI / 6) 0 example_world
           Rlt_0_1 Rle_0_1).
Defined.

Lemma one_atom : [(0, 0, 0)] <> ([] : list vec3).
Proof. discriminate. Qed.

Lemma vacuum_cell : snd (snd example_lattice) + 10 <> 0.
Proof. simpl. lra. Qed.

(** One atom at the origin of the cubic cell of edge 2, and 10 of vacuum. *)
Lemma Add_vacuum_centred_example :
  exists coor',
    Add_vacuum example_lattice [(0, 0, 0)] 10
    = Val ((fst (fst example_lattice), snd (fst example_lattice),
            (fst (fst (snd example_lattice)), snd (fst (snd example_lattice)),
             snd (snd example_lattice) + 10)),
           coor') /\
    length coor' = length [((0, 0, 0) : vec3)] /\
    np_mean (map (fun p => vget p 2) coor') = Val (1 / 2) /\
    (forall i p p', nth_error [(0, 0, 0)] i = Some p -> nth_error coor' i = Some p' ->
       vget p' 0 = vget p 0 /\ vget p' 1 = vget p 1) /\
    (forall i j p q p' q',
       nth_error [(0, 0, 0)] i = Some p -> nth_error coor' i = Some p' ->
       nth_error [(0, 0, 0)] j = Some q -> nth_error coor' j = Some q' ->
       (vget p' 2 - vget q' 2) * (snd (snd example_lattice) + 10)
       = (vget p 2 - vget q 2) * snd (snd example_lattice)).
Proof.
  exact (Add_vacuum_centred example_lattice [(0, 0, 0)] 10 one_atom vacuum_cell).
Defined.
